(** * Code block command of ckeditor5-code-block

    A shallow embedding of [src/codeblockcommand.js] and of the schema rules
    registered in [src/codeblockediting.js], together with the part of the
    CKEditor 5 model engine the command drives (tree, positions, ranges and
    the writer's structural edits).

    Conventions.
    - A model element is a JavaScript object; its identity is kept as a
      [uid].  An element reference held by the command (a selected block,
      an entry of [blocksToMerge]) is such a uid and is resolved in the
      tree whenever one of its properties is read.
    - A position is a path from the root, as in the engine: the path of
      its parent followed by an offset.  Every position the command builds
      lies before or after an element whose siblings are elements, hence
      offsets and child indices coincide (an element has offset size 1).
    - An exception thrown by the engine or by a [null] dereference is the
      result [None]. *)

From Stdlib Require Import String Ascii Arith Bool Lia List Permutation.
From AAC_tactics Require Import AAC.
From AAC_tactics Require Instances.
Import ListNotations.
Import Instances.Lists.


(** ** Model tree *)

Unset Elimination Schemes.
Inductive Node : Type :=
| Element (uid : nat) (name : string) (children : list Node).
Set Elimination Schemes.

Definition uid (n : Node) : nat := let 'Element u _ _ := n in u.
Definition name (n : Node) : string := let 'Element _ s _ := n in s.
Definition children (n : Node) : list Node := let 'Element _ _ cs := n in cs.

Definition setChildren (n : Node) (cs : list Node) : Node :=
  Element (uid n) (name n) cs.

(** Induction on nodes, with the hypothesis for every child. *)
Fixpoint Node_ind (P : Node -> Prop)
  (H : forall u nm cs, Forall P cs -> P (Element u nm cs)) (n : Node) : P n :=
  match n with
  | Element u nm cs =>
      H u nm cs
        ((fix go (l : list Node) : Forall P l :=
            match l with
            | [] => Forall_nil P
            | c :: l' => Forall_cons c (Node_ind P H c) (go l')
            end) cs)
  end.

(** Identities of a node and of its descendants, in document order. *)
Fixpoint uids (n : Node) : list nat :=
  match n with
  | Element u _ cs => u :: flat_map uids cs
  end.

(** One entry per element, in document order: its identity, its name and
    the identities of its children. *)
Fixpoint nodeInfos (n : Node) : list (nat * string * list nat) :=
  match n with
  | Element u nm cs => (u, nm, map uid cs) :: flat_map nodeInfos cs
  end.

Definition infoOf (n : Node) : nat * string * list nat :=
  (uid n, name n, map uid (children n)).

(** Every element object occurs once in the tree. *)
Definition wellFormed (t : Node) : Prop := NoDup (uids t).

Definition Path := list nat.

(** [Position]: [path = ppath ++ [offset]]. *)
Record Position := mkPosition { ppath : Path; offset : nat }.

Record Range := mkRange { start : Position; end_ : Position }.

(** The document root with the allocator standing for [new Element(..)]. *)
Record Model := mkModel { root : Node; nextUid : nat }.

(** Walks a path down from [n]; [None] when an index is out of bounds. *)
Fixpoint getNodeByPath (n : Node) (p : Path) : option Node :=
  match p with
  | [] => Some n
  | i :: p' =>
      match nth_error (children n) i with
      | Some c => getNodeByPath c p'
      | None => None
      end
  end.

(** Search of an element among the descendants of a child list, in
    document order; the answer is the position before the element. *)
Definition locateList (rec : Node -> option Position) (u : nat) :
  list Node -> nat -> option Position :=
  fix go (cs : list Node) (i : nat) : option Position :=
    match cs with
    | [] => None
    | c :: cs' =>
        if uid c =? u then Some (mkPosition [] i)
        else match rec c with
             | Some pos => Some (mkPosition (i :: ppath pos) (offset pos))
             | None => go cs' (S i)
             end
    end.

(** [Position.createBefore( element )]; [None] for the root and for an
    element that is not in the tree (no parent). *)
Fixpoint locate (u : nat) (n : Node) : option Position :=
  match n with
  | Element _ _ cs => locateList (locate u) u cs 0
  end.

Definition createBefore (t : Node) (u : nat) : option Position := locate u t.

Definition createAfter (t : Node) (u : nat) : option Position :=
  match locate u t with
  | Some pos => Some (mkPosition (ppath pos) (S (offset pos)))
  | None => None
  end.

(** [element.parent] ([None] is [null]). *)
Definition elementParent (t : Node) (u : nat) : option Node :=
  match locate u t with
  | Some pos => getNodeByPath t (ppath pos)
  | None => None
  end.

(** [element.nextSibling] ([None] is [null]). *)
Definition nextSibling (t : Node) (u : nat) : option nat :=
  match locate u t with
  | Some pos =>
      match getNodeByPath t (ppath pos) with
      | Some p => option_map uid (nth_error (children p) (S (offset pos)))
      | None => None
      end
  | None => None
  end.

(** [position.parent]; [None] when the path does not resolve. *)
Definition positionParent (t : Node) (pos : Position) : option Node :=
  getNodeByPath t (ppath pos).

Definition isAtStart (pos : Position) : bool := offset pos =? 0.

(** [position.isAtEnd]: [offset == parent.maxOffset]. *)
Definition isAtEnd (t : Node) (pos : Position) : option bool :=
  match positionParent t pos with
  | Some p => Some (offset pos =? length (children p))
  | None => None
  end.

(** [position.nodeAfter] ([Some None] is [null]). *)
Definition nodeAfter (t : Node) (pos : Position) : option (option nat) :=
  match positionParent t pos with
  | Some p => Some (option_map uid (nth_error (children p) (offset pos)))
  | None => None
  end.

(** ** Structural edits of the tree *)

(** The child list with its [i]-th node replaced. *)
Definition replaceChild (i : nat) (c : Node) (cs : list Node) : list Node :=
  firstn i cs ++ c :: skipn (S i) cs.

Arguments replaceChild : simpl never.

Fixpoint updateAt (p : Path) (f : Node -> option Node) (n : Node) : option Node :=
  match p with
  | [] => f n
  | i :: p' =>
      match nth_error (children n) i with
      | Some c =>
          match updateAt p' f c with
          | Some c' =>
              Some (setChildren n (replaceChild i c' (children n)))
          | None => None
          end
      | None => None
      end
  end.

Definition updateChildrenAt (p : Path) (g : list Node -> option (list Node))
  (n : Node) : option Node :=
  updateAt p (fun x => option_map (setChildren x) (g (children x))) n.

(** The tree with the node at a path replaced. *)
Definition replaceAt (p : Path) (x : Node) (n : Node) : option Node :=
  updateAt p (fun _ => Some x) n.

(** [compareArrays] of ckeditor5-utils. *)
Inductive ArrayRelation := Same | Prefix | Extension | Different (i : nat).

Fixpoint compareArraysFrom (i : nat) (a b : Path) : ArrayRelation :=
  match a, b with
  | [], [] => Same
  | [], _ :: _ => Prefix
  | _ :: _, [] => Extension
  | x :: a', y :: b' => if x =? y then compareArraysFrom (S i) a' b' else Different i
  end.

Definition compareArrays (a b : Path) : ArrayRelation := compareArraysFrom 0 a b.

Definition isFlat (r : Range) : bool :=
  match compareArrays (ppath (start r)) (ppath (end_ r)) with
  | Same => true
  | _ => false
  end.

(** Replaces the [i]-th entry of a path by [f] of it. *)
Fixpoint adjustNth (i : nat) (f : nat -> nat) (p : Path) : Path :=
  match p, i with
  | [], _ => []
  | x :: p', 0 => f x :: p'
  | x :: p', S i' => x :: adjustNth i' f p'
  end.

(** [position._getTransformedByDeletion( deletePosition, howMany )];
    [None] when the position was inside the removed nodes. *)
Definition getTransformedByDeletion (this del : Position) (howMany : nat) :
  option Position :=
  match compareArrays (ppath del) (ppath this) with
  | Same =>
      if offset del <? offset this then
        if offset this <? offset del + howMany then None
        else Some (mkPosition (ppath this) (offset this - howMany))
      else Some this
  | Prefix =>
      let i := length (ppath del) in
      let x := nth i (ppath this) 0 in
      if offset del <=? x then
        if x <? offset del + howMany then None
        else Some (mkPosition (adjustNth i (fun y => y - howMany) (ppath this)) (offset this))
      else Some this
  | _ => Some this
  end.

(** Nodes [a .. e) of a child list. *)
Definition slice (a e : nat) (cs : list Node) : list Node :=
  firstn (e - a) (skipn a cs).

Definition removeSlice (a e : nat) (cs : list Node) : option (list Node) :=
  if (a <=? e) && (e <=? length cs) then Some (firstn a cs ++ skipn e cs) else None.

Definition insertNodes (k : nat) (nodes cs : list Node) : option (list Node) :=
  if k <=? length cs then Some (firstn k cs ++ nodes ++ skipn k cs) else None.

(** [writer.wrap( range, element )] on the tree: the new element takes the
    place of the range and receives its nodes. *)
Definition wrapTree (r : Range) (u : nat) (nm : string) (t : Node) : option Node :=
  if isFlat r then
    updateChildrenAt (ppath (start r))
      (fun cs =>
         let a := offset (start r) in
         let e := offset (end_ r) in
         if (a <=? e) && (e <=? length cs)
         then Some (firstn a cs ++ Element u nm (slice a e cs) :: skipn e cs)
         else None) t
  else None.

(** [writer.move( range, position )]: a move operation removes the nodes,
    transforms the target by that deletion and inserts them there. *)
Definition moveTree (r : Range) (target : Position) (t : Node) : option Node :=
  if isFlat r then
    let a := offset (start r) in
    let e := offset (end_ r) in
    match getNodeByPath t (ppath (start r)) with
    | Some src =>
        match updateChildrenAt (ppath (start r)) (removeSlice a e) t with
        | Some t1 =>
            match getTransformedByDeletion target (start r) (e - a) with
            | Some target' =>
                updateChildrenAt (ppath target')
                  (insertNodes (offset target') (slice a e (children src))) t1
            | None => None
            end
        | None => None
        end
    | None => None
    end
  else None.

(** Splits a non-empty path into the path of the parent and the last index. *)
Fixpoint unsnoc (p : Path) : option (Path * nat) :=
  match p with
  | [] => None
  | [i] => Some ([], i)
  | i :: p' =>
      match unsnoc p' with
      | Some (q, j) => Some (i :: q, j)
      | None => None
      end
  end.

(** [writer.unwrap( element )] for the element before which [pos] lies:
    its children take its place. *)
Definition unwrapTree (pos : Position) (t : Node) : option Node :=
  updateChildrenAt (ppath pos)
    (fun cs =>
       match nth_error cs (offset pos) with
       | Some c => Some (firstn (offset pos) cs ++ children c ++ skipn (S (offset pos)) cs)
       | None => None
       end) t.

(** [writer.split( position )]: a copy of the split element (fresh identity
    [u], same name) is inserted after it and receives the nodes that follow
    the position.  The split element must have a parent. *)
Definition splitTree (pos : Position) (u : nat) (t : Node) : option Node :=
  match unsnoc (ppath pos) with
  | Some (q, i) =>
      updateChildrenAt q
        (fun cs =>
           match nth_error cs i with
           | Some c =>
               if offset pos <=? length (children c) then
                 Some (firstn i cs
                         ++ setChildren c (firstn (offset pos) (children c))
                         :: Element u (name c) (skipn (offset pos) (children c))
                         :: skipn (S i) cs)
               else None
           | None => None
           end) t
  | None => None
  end.

(** [writer.merge( position )]: the element after the position is folded
    into the element before it; both must exist. *)
Definition mergeTree (pos : Position) (t : Node) : option Node :=
  updateChildrenAt (ppath pos)
    (fun cs =>
       match offset pos with
       | 0 => None
       | S k =>
           match nth_error cs k, nth_error cs (S k) with
           | Some before, Some after =>
               Some (firstn k cs
                       ++ setChildren before (children before ++ children after)
                       :: skipn (S (S k)) cs)
           | _, _ => None
           end
       end) t.

(** A model whose elements are distinct objects, all older than the next
    element that will be created. *)
Definition modelOk (m : Model) : Prop :=
  wellFormed (root m) /\ Forall (fun u => u < nextUid m) (uids (root m)).

(** ** The change block: a state and error monad over the model *)

Definition M (A : Type) : Type := Model -> option (A * Model).

Definition ret {A} (a : A) : M A := fun m => Some (a, m).

Definition bind {A B} (c : M A) (k : A -> M B) : M B :=
  fun m => match c m with
           | Some (a, m') => k a m'
           | None => None
           end.

Definition throw {A} : M A := fun _ => None.

Notation "x <- c ;; k" := (bind c (fun x => k))
  (at level 61, c at next level, right associativity).
Notation "c ;;; k" := (bind c (fun _ => k))
  (at level 61, right associativity).

(** Reads the tree with a function that may throw. *)
Definition read {A} (f : Node -> option A) : M A :=
  fun m => match f (root m) with
           | Some a => Some (a, m)
           | None => None
           end.

(** Applies an edit of the tree. *)
Definition edit (f : Node -> option Node) : M unit :=
  fun m => match f (root m) with
           | Some t => Some (tt, mkModel t (nextUid m))
           | None => None
           end.

(** [new Element( name )]: a fresh identity. *)
Definition newElement : M nat :=
  fun m => Some (nextUid m, mkModel (root m) (S (nextUid m))).

(** [array.forEach( callback )]. *)
Fixpoint forEach {A} (l : list A) (f : A -> M unit) : M unit :=
  match l with
  | [] => ret tt
  | x :: l' => f x ;;; forEach l' f
  end.

Fixpoint foldM {A B} (f : B -> A -> M B) (acc : B) (l : list A) : M B :=
  match l with
  | [] => ret acc
  | x :: l' => acc' <- f acc x ;; foldM f acc' l'
  end.

(** [array.reduce( callback )] without an initial value: a [TypeError] on
    an empty array, the only element for a singleton. *)
Definition reduce {A} (f : A -> A -> M A) (l : list A) : M A :=
  match l with
  | [] => throw
  | x :: l' => foldM f x l'
  end.

(** [array.filter( predicate )] for a predicate that reads the tree. *)
Fixpoint filterOpt {A} (p : A -> option bool) (l : list A) : option (list A) :=
  match l with
  | [] => Some []
  | x :: l' =>
      match p x with
      | Some b =>
          match filterOpt p l' with
          | Some r => Some (if b then x :: r else r)
          | None => None
          end
      | None => None
      end
  end.

(** The writer. *)
Definition writer_wrap (r : Range) (nm : string) : M unit :=
  u <- newElement ;; edit (wrapTree r u nm).

Definition writer_move (r : Range) (target : Position) : M unit :=
  edit (moveTree r target).

Definition writer_unwrap (u : nat) : M unit :=
  pos <- read (fun t => locate u t) ;; edit (unwrapTree pos).

Definition writer_split (pos : Position) : M unit :=
  u <- newElement ;; edit (splitTree pos u).

Definition writer_merge (pos : Position) : M unit :=
  edit (mergeTree pos).

(** ** Schema *)

(** The engine's side of the schema: which names have a definition and the
    context match of the compiled definitions ([_checkContextMatch]). *)
Record Schema := mkSchema {
  isRegistered : string -> bool;
  checkContextMatch : list string -> string -> bool
}.

(** [string.endsWith( query )]. *)
Definition endsWith (s query : string) : bool :=
  let n := String.length s in
  let m := String.length query in
  if m <=? n then String.eqb (substring (n - m) m s) query else false.

(** [SchemaContext#endsWith]: the names joined by a space end with the query. *)
Definition ctxEndsWith (ctx : list string) (query : string) : bool :=
  endsWith (String.concat " " ctx) query.

(** The child check added in [CodeBlockEditing#init]; [None] is a callback
    that returns nothing. *)
Definition codeBlockChildCheck (ctx : list string) (childName : string) : option bool :=
  if ctxEndsWith ctx "codeBlock" && String.eqb childName "codeBlock"
  then Some false else None.

(** [schema.checkChild( context, child )] with that child check in front:
    the callback is skipped for an unregistered child, a boolean it returns
    is the answer, otherwise the definitions decide. *)
Definition checkChild (schema : Schema) (ctx : list string) (childName : string) : bool :=
  if isRegistered schema childName then
    match codeBlockChildCheck ctx childName with
    | Some b => b
    | None => checkContextMatch schema ctx childName
    end
  else false.

(** Names of the nodes along a path, the start node included: the schema
    context of the element the path leads to. *)
Fixpoint namesAlong (n : Node) (p : Path) : list string :=
  name n ::
  match p with
  | [] => []
  | i :: p' =>
      match nth_error (children n) i with
      | Some c => namesAlong c p'
      | None => []
      end
  end.

(** ** The command *)

Inductive ElementOrPosition :=
| AnElement (u : nat)
| APosition (pos : Position).

Definition parentOf (t : Node) (x : ElementOrPosition) : option Node :=
  match x with
  | AnElement u => elementParent t u
  | APosition pos => positionParent t pos
  end.

(** [findBlock]: the parent when it is a code block, else [null]
    ([Some None]); a [null] parent makes [.name] throw. *)
Definition findBlock (t : Node) (x : ElementOrPosition) : option (option nat) :=
  match parentOf t x with
  | Some p => Some (if String.eqb (name p) "codeBlock" then Some (uid p) else None)
  | None => None
  end.

Definition truthy {A} (x : option A) : bool :=
  match x with Some _ => true | None => false end.

Definition eqNode (a : option nat) (b : nat) : bool :=
  match a with Some x => x =? b | None => false end.

(** The [while] loop of [getRangesOfBlockGroups]; [fuel] bounds the
    iterations that remain. *)
Fixpoint groupsLoop (t : Node) (blocks : list nat) (fuel i : nat)
  (startPosition : option Position) (ranges : list Range) : option (list Range) :=
  match fuel with
  | 0 => Some ranges
  | S fuel' =>
      match nth_error blocks i with
      | None => Some ranges
      | Some block =>
          let nextBlock := nth_error blocks (i + 1) in
          match (match startPosition with
                 | Some p => Some p
                 | None => createBefore t block
                 end) with
          | None => None
          | Some sp =>
              if negb (truthy nextBlock)
                 || negb (match nextBlock with
                          | Some nb => eqNode (nextSibling t block) nb
                          | None => false
                          end)
              then
                match createAfter t block with
                | Some ep => groupsLoop t blocks fuel' (i + 1) None (ranges ++ [mkRange sp ep])
                | None => None
                end
              else groupsLoop t blocks fuel' (i + 1) (Some sp) ranges
          end
      end
  end.

Definition getRangesOfBlockGroups (t : Node) (blocks : list nat) : option (list Range) :=
  groupsLoop t blocks (length blocks) 0 None [].

(** The element a reference stands for, read from the tree. *)
Definition elementNode (t : Node) (u : nat) : option Node :=
  match locate u t with
  | Some pos =>
      match getNodeByPath t (ppath pos) with
      | Some p => nth_error (children p) (offset pos)
      | None => None
      end
  | None => None
  end.

(** [checkCanBeBlocked( schema, block )]; the context of the first check
    is [block.parent], that is the ancestors of the block from the root. *)
Definition checkCanBeBlocked (schema : Schema) (t : Node) (block : nat) : option bool :=
  match locate block t, elementNode t block with
  | Some pos, Some b =>
      let isCBAllowed := checkChild schema (namesAlong t (ppath pos)) "codeBlock" in
      let isBlockAllowedInCB := checkChild schema ["$root"; "codeBlock"]%string (name b) in
      Some (isCBAllowed && isBlockAllowedInCB)
  | _, _ => None
  end.

(** The callback of [forEach] in [_removeBlock]: one group of blocks. *)
Definition removeBlockGroup (groupRange : Range) : M unit :=
  fullRange <- (if isAtStart (start groupRange)
                then read (fun t => isAtEnd t (end_ groupRange))
                else ret false) ;;
  if fullRange then
    p <- read (fun t => positionParent t (start groupRange)) ;;
    writer_unwrap (uid p)
  else if isAtStart (start groupRange) then
    p <- read (fun t => positionParent t (start groupRange)) ;;
    positionBefore <- read (fun t => createBefore t (uid p)) ;;
    writer_move groupRange positionBefore
  else
    atEnd <- read (fun t => isAtEnd t (end_ groupRange)) ;;
    (if negb atEnd then writer_split (end_ groupRange) else ret tt) ;;;
    p <- read (fun t => positionParent t (end_ groupRange)) ;;
    positionAfter <- read (fun t => createAfter t (uid p)) ;;
    writer_move groupRange positionAfter.

Definition _removeBlock (blocks : list nat) : M unit :=
  ranges <- read (fun t => getRangesOfBlockGroups t blocks) ;;
  forEach (rev ranges) removeBlockGroup.

(** The callback of [forEach] in [_applyBlock]; the array [blocksToMerge]
    it pushes to is threaded through. *)
Definition applyBlockGroup (blocksToMerge : list nat) (groupRange : Range) : M (list nat) :=
  block <- read (fun t => findBlock t (APosition (start groupRange))) ;;
  match block with
  | Some b => ret (blocksToMerge ++ [b])
  | None =>
      writer_wrap groupRange "codeBlock" ;;;
      block' <- read (fun t => nodeAfter t (start groupRange)) ;;
      match block' with
      | Some b => ret (blocksToMerge ++ [b])
      | None => throw
      end
  end.

(** The callback of [reduce] in [_applyBlock]. *)
Definition mergeStep (currentBlock nextBlock : nat) : M nat :=
  sibling <- read (fun t => Some (nextSibling t currentBlock)) ;;
  if eqNode sibling nextBlock then
    pos <- read (fun t => createAfter t currentBlock) ;;
    writer_merge pos ;;;
    ret currentBlock
  else ret nextBlock.

Definition _applyBlock (blocks : list nat) : M unit :=
  ranges <- read (fun t => getRangesOfBlockGroups t blocks) ;;
  blocksToMerge <- foldM applyBlockGroup [] (rev ranges) ;;
  reduce mergeStep (rev blocksToMerge) ;;;
  ret tt.

(** The command with the editor state it reads: the model, the blocks
    returned by [selection.getSelectedBlocks()] and its two observables. *)
Record Editor := mkEditor {
  model : Model;
  selectedBlocks : list nat;
  value : bool;
  isEnabled : bool
}.

Definition isBlocked (t : Node) (block : nat) : option bool :=
  option_map truthy (findBlock t (AnElement block)).

(** The predicate of the filter of the wrap branch of [execute]. *)
Definition toBlock (schema : Schema) (t : Node) (block : nat) : option bool :=
  match findBlock t (AnElement block) with
  | Some (Some _) => Some true
  | Some None => checkCanBeBlocked schema t block
  | None => None
  end.

Definition execute (schema : Schema) (ed : Editor) : option Editor :=
  let blocks := selectedBlocks ed in
  let change : M unit :=
    if value ed then
      blocked <- read (fun t => filterOpt (isBlocked t) blocks) ;;
      _removeBlock blocked
    else
      blocksToBlock <- read (fun t => filterOpt (toBlock schema t) blocks) ;;
      _applyBlock blocksToBlock in
  match change (model ed) with
  | Some (_, m) => Some (mkEditor m blocks (value ed) (isEnabled ed))
  | None => None
  end.

Definition _getValue (ed : Editor) : option bool :=
  match hd_error (selectedBlocks ed) with
  | Some firstBlock => isBlocked (root (model ed)) firstBlock
  | None => Some false
  end.

Definition _checkEnabled (schema : Schema) (ed : Editor) : option bool :=
  if value ed then Some true
  else
    match hd_error (selectedBlocks ed) with
    | None => Some false
    | Some firstBlock => checkCanBeBlocked schema (root (model ed)) firstBlock
    end.

Definition refresh (schema : Schema) (ed : Editor) : option Editor :=
  match _getValue ed with
  | Some v =>
      let ed1 := mkEditor (model ed) (selectedBlocks ed) v (isEnabled ed) in
      match _checkEnabled schema ed1 with
      | Some e => Some (mkEditor (model ed) (selectedBlocks ed) v e)
      | None => None
      end
  | None => None
  end.

(** The total reading of a predicate of [filterOpt]. *)
Definition holds {A} (p : A -> option bool) (x : A) : bool :=
  match p x with
  | Some true => true
  | _ => false
  end.

(** ** Invariants of the tree *)

Definition isCodeBlock (n : Node) : bool := String.eqb (name n) "codeBlock".

(** Two code blocks side by side in a child list. *)
Fixpoint adjacentContainers (cs : list Node) : bool :=
  match cs with
  | [] => false
  | c1 :: rest =>
      match rest with
      | [] => false
      | c2 :: _ => (isCodeBlock c1 && isCodeBlock c2) || adjacentContainers rest
      end
  end.

(** No two sibling code blocks are directly adjacent, anywhere. *)
Fixpoint noAdjacentContainers (t : Node) : bool :=
  match t with
  | Element _ _ cs => negb (adjacentContainers cs) && forallb noAdjacentContainers cs
  end.

(** No code block is directly inside a code block: what the child check
    of the schema asks for. *)
Fixpoint noNestedContainers (t : Node) : bool :=
  match t with
  | Element _ nm cs =>
      (negb (String.eqb nm "codeBlock") || forallb (fun c => negb (isCodeBlock c)) cs)
      && forallb noNestedContainers cs
  end.

(** The identities of the nodes in a range that lies in one element. *)
Definition rangeUids (t : Node) (r : Range) : list nat :=
  match getNodeByPath t (ppath (start r)) with
  | Some c => map uid (slice (offset (start r)) (offset (end_ r)) (children c))
  | None => []
  end.

(** The nodes in a range that lies in one element. *)
Definition rangeNodes (t : Node) (r : Range) : list Node :=
  match getNodeByPath t (ppath (start r)) with
  | Some c => slice (offset (start r)) (offset (end_ r)) (children c)
  | None => []
  end.

(** The container a group is in, read at the start of its range. *)
Definition containerOf (t : Node) (r : Range) : nat :=
  match positionParent t (start r) with
  | Some p => uid p
  | None => 0
  end.

(** What the wrap pass has in hand for a group once it has looked the
    group up: the code block the group is in, which it records, or, for a
    group outside code blocks, the blocks of the group, around which it
    makes the code block that it records. *)
Definition rangeUnit (t : Node) (r : Range) : list nat :=
  match positionParent t (start r) with
  | Some p => if isCodeBlock p then [uid p] else rangeUids t r
  | None => []
  end.

(** These, for the groups of [blocks], in the order of the groups. *)
Definition recordedUnits (t : Node) (blocks : list nat) : list nat :=
  match getRangesOfBlockGroups t blocks with
  | Some ranges => flat_map (rangeUnit t) ranges
  | None => []
  end.

(** ** The tree without its code blocks *)

(** The tree without the elements picked by [F], whose children take their
    place; the root is kept. *)
Fixpoint eraseNode (F : nat -> bool) (n : Node) : Node :=
  match n with
  | Element u nm cs =>
      Element u nm
        (flat_map (fun c => if F (uid c) then children (eraseNode F c)
                            else [eraseNode F c]) cs)
  end.

Definition eraseChildren (F : nat -> bool) (cs : list Node) : list Node :=
  flat_map (fun c => if F (uid c) then children (eraseNode F c) else [eraseNode F c]) cs.

(** ** Document order *)

(** [agreeLeft p t t']: along the path [p] the trees [t] and [t'] have the
    same elements, and at each level the same children before the index
    of [p]: an edit at [p] or after it leaves this much of the tree. *)
Inductive agreeLeft : Path -> Node -> Node -> Prop :=
| agreeHere (y : nat) (t t' : Node) :
    uid t = uid t' -> name t = name t' ->
    firstn y (children t) = firstn y (children t') ->
    agreeLeft [y] t t'
| agreeBelow (y : nat) (r : Path) (t t' c c' : Node) :
    uid t = uid t' -> name t = name t' ->
    firstn y (children t) = firstn y (children t') ->
    nth_error (children t) y = Some c -> nth_error (children t') y = Some c' ->
    agreeLeft r c c' ->
    agreeLeft (y :: r) t t'.

(** The children before offset [e] of the element at [P] all come before
    the path [p]: [p] leaves the path [P] to the right, or goes on below
    [P] through a child at or after [e]. *)
Fixpoint endsBefore (P : Path) (e : nat) (p : Path) : bool :=
  match P, p with
  | [], y :: _ => e <=? y
  | x :: P', y :: r => (x <? y) || ((x =? y) && endsBefore P' e r)
  | _, [] => false
  end.

(** The path [p] leaves the path [q] to the left: document order of two
    elements neither of which contains the other. *)
Fixpoint precedes (p q : Path) : bool :=
  match p, q with
  | x :: p', y :: q' => (x <? y) || ((x =? y) && precedes p' q')
  | _, _ => false
  end.

Definition fullPath (pos : Position) : Path := ppath pos ++ [offset pos].

Definition blockBefore (t : Node) (b b' : nat) : bool :=
  match locate b t, locate b' t with
  | Some p, Some p' => precedes (fullPath p) (fullPath p')
  | _, _ => false
  end.

(** The blocks are listed in document order and none contains another. *)
Fixpoint inDocumentOrder (t : Node) (blocks : list nat) : bool :=
  match blocks with
  | [] => true
  | b :: rest => forallb (blockBefore t b) rest && inDocumentOrder t rest
  end.

(** The range lies in a code block of the tree [t] that has a parent, and
    is not empty. *)
Definition resolves (t : Node) (r : Range) (u : nat) : Prop :=
  exists c,
    ppath (start r) <> [] /\ ppath (end_ r) = ppath (start r)
    /\ getNodeByPath t (ppath (start r)) = Some c
    /\ isCodeBlock c = true /\ uid c = u
    /\ offset (start r) < offset (end_ r)
    /\ offset (end_ r) <= length (children c).

(** The first range ends before the second starts. *)
Definition rangeBefore (r' r : Range) : bool :=
  endsBefore (ppath (start r')) (offset (end_ r')) (fullPath (start r)).

Fixpoint rangesOrdered (rs : list Range) : bool :=
  match rs with
  | [] => true
  | r :: rest => forallb (rangeBefore r) rest && rangesOrdered rest
  end.

(** Where the edit of a group begins: at its container when the group
    starts it, else at the first block of the group. *)
Definition frameOf (r : Range) : Path :=
  if offset (start r) =? 0 then ppath (start r) else fullPath (start r).

(** The range lies in an element of [t] that is not a code block, and is
    not empty. *)
Definition resolvesBare (t : Node) (r : Range) : Prop :=
  exists par,
    ppath (end_ r) = ppath (start r)
    /\ getNodeByPath t (ppath (start r)) = Some par
    /\ isCodeBlock par = false
    /\ offset (start r) < offset (end_ r)
    /\ offset (end_ r) <= length (children par).

(** The children [cs] with the nodes [a .. e) wrapped in a new code block. *)
Definition wrapChildren (u a e : nat) (cs : list Node) : list Node :=
  firstn a cs ++ Element u "codeBlock" (slice a e cs) :: skipn e cs.

(** What [removeBlockGroup] puts in the place of the container [c] whose
    children are [before ++ mid ++ after], for the group [mid]; [u] is the
    identity of the container created by a split. *)
Definition unwrapped (u : nat) (c : Node) (before mid after : list Node) : list Node :=
  match before, after with
  | [], [] => mid
  | [], _ :: _ => mid ++ [setChildren c after]
  | _ :: _, [] => setChildren c before :: mid
  | _ :: _, _ :: _ => setChildren c before :: mid ++ [Element u (name c) after]
  end.

(** Whether that step splits the container. *)
Definition splits (before after : list Node) : bool :=
  match before, after with
  | _ :: _, _ :: _ => true
  | _, _ => false
  end.

(** Where a path leads once the nodes [a .. e) of the element at [P] have
    been wrapped in a new element. *)
Fixpoint shiftPath (P : Path) (a e : nat) (p : Path) : Path :=
  match P, p with
  | _, [] => []
  | [], x :: r =>
      if x <? a then x :: r
      else if x <? e then a :: (x - a) :: r
      else (S a + (x - e)) :: r
  | i :: P', x :: r => if x =? i then x :: shiftPath P' a e r else x :: r
  end.

(** The range covers the children with the identities [run] of an element
    of [t] that is not a code block. *)
Definition bareGroup (t : Node) (r : Range) (run : list nat) : Prop :=
  exists par,
    ppath (end_ r) = ppath (start r)
    /\ getNodeByPath t (ppath (start r)) = Some par
    /\ isCodeBlock par = false
    /\ offset (start r) < offset (end_ r)
    /\ offset (end_ r) <= length (children par)
    /\ map uid (slice (offset (start r)) (offset (end_ r)) (children par)) = run.

(** The range covers the children with the identities [run] of an element
    of [t], and is not empty. *)
Definition flatGroup (t : Node) (r : Range) (run : list nat) : Prop :=
  exists par,
    ppath (end_ r) = ppath (start r)
    /\ getNodeByPath t (ppath (start r)) = Some par
    /\ offset (start r) < offset (end_ r)
    /\ offset (end_ r) <= length (children par)
    /\ map uid (slice (offset (start r)) (offset (end_ r)) (children par)) = run.

(** The range covers all the children of the code block [u] of [t], which
    has a parent and is not empty. *)
Definition fullGroup (t : Node) (r : Range) (u : nat) : Prop :=
  exists c,
    ppath (start r) <> [] /\ ppath (end_ r) = ppath (start r)
    /\ getNodeByPath t (ppath (start r)) = Some c
    /\ isCodeBlock c = true /\ uid c = u
    /\ offset (start r) = 0
    /\ offset (end_ r) = length (children c)
    /\ 0 < length (children c).

(** ** The merge pass, as the specification words it *)

(** The element [c] with the children of [d] appended. *)
Definition absorb (c d : Node) : Node :=
  setChildren c (children c ++ children d).

(** The siblings [cs] with every run of directly adjacent recorded
    elements merged into the first element of the run; [R] tells the
    recorded elements, and [cur] is the recorded element that directly
    precedes [cs], if there is one. *)
Fixpoint mergeRuns (R : nat -> bool) (cur : option Node) (cs : list Node) : list Node :=
  match cs with
  | [] => match cur with Some c => [c] | None => [] end
  | d :: cs' =>
      if R (uid d) then
        match cur with
        | Some c => mergeRuns R (Some (absorb c d)) cs'
        | None => mergeRuns R (Some d) cs'
        end
      else
        match cur with
        | Some c => c :: d :: mergeRuns R None cs'
        | None => d :: mergeRuns R None cs'
        end
  end.

(** Two recorded elements are directly adjacent in [cs]. *)
Fixpoint adjacentRecorded (R : nat -> bool) (cs : list Node) : bool :=
  match cs with
  | [] => false
  | c1 :: rest =>
      match rest with
      | [] => false
      | c2 :: _ => (R (uid c1) && R (uid c2)) || adjacentRecorded R rest
      end
  end.

(** ** The editing plugin *)

(** [element.isEmpty]. *)
Definition isEmpty (n : Node) : bool :=
  match children n with
  | [] => true
  | _ :: _ => false
  end.

(** [editor.execute( 'codeBlock' )]: the command runs only when it is
    enabled, and is refreshed when the change block is over. *)
Definition editorExecute (schema : Schema) (ed : Editor) : option Editor :=
  if isEnabled ed then
    match execute schema ed with
    | Some ed' => refresh schema ed'
    | None => None
    end
  else Some ed.

(** The listener of the [enter] event added in [CodeBlockEditing#afterInit],
    for a selection that is collapsed or not and ends at [lastPosition];
    the flag tells whether the event was stopped and its default
    prevented. *)
Definition enterListener (schema : Schema) (isCollapsed : bool)
  (lastPosition : Position) (ed : Editor) : option (Editor * bool) :=
  match positionParent (root (model ed)) lastPosition with
  | Some p =>
      if isCollapsed && isEmpty p && value ed then
        match editorExecute schema ed with
        | Some ed' => Some (ed', true)
        | None => None
        end
      else Some (ed, false)
  | None => None
  end.

(** ** Sample documents *)

Definition paragraph (u : nat) : Node := Element u "paragraph" [].
Definition codeBlock (u : nat) (cs : list Node) : Node := Element u "codeBlock" cs.
Definition rootOf (cs : list Node) : Node := Element 0 "$root" cs.

(** A schema in which paragraphs and code blocks are allowed wherever the
    definitions are asked. *)
Definition openSchema : Schema := mkSchema (fun _ => true) (fun _ _ => true).

(** A schema in which only paragraphs have a definition: a code block is
    allowed nowhere. *)
Definition plainSchema : Schema :=
  mkSchema (fun nm => String.eqb nm "paragraph") (fun _ _ => true).

(** content: a b c d e f g h *)
Definition docAH : Node :=
  rootOf (map paragraph [1; 2; 3; 4; 5; 6; 7; 8]).

(** a paragraph followed by a code block holding one paragraph *)
Definition docMixed : Node :=
  rootOf [paragraph 1; codeBlock 10 [paragraph 2]].

(** a code block holding one paragraph, followed by a paragraph *)
Definition docBlockThenPar : Node :=
  rootOf [codeBlock 10 [paragraph 1]; paragraph 2].

(** two code blocks side by side, one paragraph in each *)
Definition docTwoBlocks : Node :=
  rootOf [codeBlock 10 [paragraph 1]; codeBlock 11 [paragraph 2]].

(** a paragraph, a code block holding three paragraphs, a paragraph *)
Definition docThreeInBlock : Node :=
  rootOf [paragraph 1; codeBlock 10 (map paragraph [2; 3; 4]); paragraph 5].

(** a paragraph, a code block holding a paragraph and a quote with a
    paragraph, a paragraph *)
Definition docQuoteInBlock : Node :=
  rootOf [paragraph 1;
          codeBlock 10 [paragraph 2; Element 11 "blockQuote" [paragraph 3]];
          paragraph 4].

(** a code block holding p q r s *)
Definition docPQRS : Node :=
  rootOf [codeBlock 10 (map paragraph [1; 2; 3; 4])].

(** ** Grouping, as the specification words it *)

(** Maximal runs of the input: a run is opened at the first ungrouped
    block and extended while the next input block is the next sibling of
    the current one. *)
Fixpoint maximalRuns (t : Node) (blocks : list nat) : list (list nat) :=
  match blocks with
  | [] => []
  | b :: rest =>
      match rest with
      | [] => [[b]]
      | nb :: _ =>
          if eqNode (nextSibling t b) nb then
            match maximalRuns t rest with
            | run :: runs => (b :: run) :: runs
            | [] => [[b]]
            end
          else [b] :: maximalRuns t rest
      end
  end.

(** The range that covers a run: from before its first block (or from an
    already known start) to after its last block. *)
Definition rangeOfRunFrom (t : Node) (known : option Position) (run : list nat) :
  option Range :=
  match run with
  | [] => None
  | b :: _ =>
      match (match known with
             | Some p => Some p
             | None => createBefore t b
             end), createAfter t (last run b) with
      | Some s, Some e => Some (mkRange s e)
      | _, _ => None
      end
  end.

Definition rangeOfRun (t : Node) (run : list nat) : option Range :=
  rangeOfRunFrom t None run.

Fixpoint allSome {A} (l : list (option A)) : option (list A) :=
  match l with
  | [] => Some []
  | Some x :: l' => option_map (cons x) (allSome l')
  | None :: _ => None
  end.

(** A run of tree-adjacent siblings: not empty, each block followed in
    the tree by the next one of the run. *)
Fixpoint isRun (t : Node) (run : list nat) : Prop :=
  match run with
  | [] => False
  | b :: rest =>
      match rest with
      | [] => True
      | nb :: _ => nextSibling t b = Some nb /\ isRun t rest
      end
  end.

(** No run can be extended by the run that follows it. *)
Fixpoint separated (t : Node) (runs : list (list nat)) : Prop :=
  match runs with
  | [] => True
  | run :: rest =>
      match rest with
      | [] => True
      | (nb :: _) :: _ => nextSibling t (last run 0) <> Some nb /\ separated t rest
      | [] :: _ => False
      end
  end.

(** The loop of [getRangesOfBlockGroups] over the blocks that remain. *)
Fixpoint groupsFrom (t : Node) (rest : list nat) (startPosition : option Position) :
  option (list Range) :=
  match rest with
  | [] => Some []
  | block :: rest' =>
      match (match startPosition with
             | Some p => Some p
             | None => createBefore t block
             end) with
      | None => None
      | Some sp =>
          if negb (truthy (hd_error rest'))
             || negb (match hd_error rest' with
                      | Some nb => eqNode (nextSibling t block) nb
                      | None => false
                      end)
          then
            match createAfter t block with
            | Some ep => option_map (cons (mkRange sp ep)) (groupsFrom t rest' None)
            | None => None
            end
          else groupsFrom t rest' (Some sp)
      end
  end.

(** * Properties *)

(** ** The model tree *)

Lemma locate_unfold (u : nat) (n : Node) :
  locate u n = locateList (locate u) u (children n) 0.
Proof. now destruct n. Qed.

Lemma locateList_cons (rec : Node -> option Position) (u : nat) (c : Node)
  (cs : list Node) (i : nat) :
  locateList rec u (c :: cs) i =
  if uid c =? u then Some (mkPosition [] i)
  else match rec c with
       | Some pos => Some (mkPosition (i :: ppath pos) (offset pos))
       | None => locateList rec u cs (S i)
       end.
Proof. reflexivity. Qed.

(** What a successful search found: either a child at the top level or,
    inside a child, what the recursive search found. *)
Lemma locateList_Some (rec : Node -> option Position) (u : nat) (cs : list Node)
  (i : nat) (pos : Position) :
  locateList rec u cs i = Some pos ->
  (exists j b, nth_error cs j = Some b /\ uid b = u /\ pos = mkPosition [] (i + j))
  \/ (exists j c pos', nth_error cs j = Some c /\ rec c = Some pos'
                       /\ pos = mkPosition ((i + j) :: ppath pos') (offset pos')).
Proof.
  revert i; induction cs as [|c cs IH]; intros i H; [discriminate|].
  rewrite locateList_cons in H.
  destruct (uid c =? u) eqn:E.
  - left. exists 0, c. apply Nat.eqb_eq in E. injection H as <-.
    now rewrite Nat.add_0_r.
  - destruct (rec c) as [pos'|] eqn:R.
    + right. exists 0, c, pos'. injection H as <-. now rewrite Nat.add_0_r.
    + destruct (IH _ H) as [(j & b & Hj & Hb & ->)|(j & c' & pos' & Hj & Hr & ->)].
      * left. exists (S j), b. repeat split; try assumption. f_equal. lia.
      * right. exists (S j), c', pos'. repeat split; try assumption.
        f_equal. f_equal. lia.
Qed.

(** A located element sits at the position found. *)
Lemma locate_sound (u : nat) (n : Node) (pos : Position) :
  locate u n = Some pos ->
  exists p b, getNodeByPath n (ppath pos) = Some p
              /\ nth_error (children p) (offset pos) = Some b /\ uid b = u.
Proof.
  revert pos; induction n as [v nm cs IH] using Node_ind; intros pos H.
  rewrite locate_unfold in H. cbn [children] in H.
  apply locateList_Some in H.
  destruct H as [(j & b & Hj & Hb & ->)|(j & c & pos' & Hj & Hr & ->)].
  - exists (Element v nm cs), b. now repeat split.
  - rewrite Forall_forall in IH.
    destruct (IH c (nth_error_In _ _ Hj) _ Hr) as (p & b & Hp & Hb & Hu).
    exists p, b. cbn [ppath offset getNodeByPath children].
    simpl. rewrite Hj. now repeat split.
Qed.

Lemma elementParent_attached (t : Node) (u : nat) :
  locate u t <> None -> exists p, elementParent t u = Some p.
Proof.
  intros H. unfold elementParent.
  destruct (locate u t) as [pos|] eqn:E; [|congruence].
  destruct (locate_sound _ _ _ E) as (p & _ & Hp & _). eauto.
Qed.

Lemma elementNode_attached (t : Node) (u : nat) :
  locate u t <> None -> exists b, elementNode t u = Some b /\ uid b = u.
Proof.
  intros H. unfold elementNode.
  destruct (locate u t) as [pos|] eqn:E; [|congruence].
  destruct (locate_sound _ _ _ E) as (p & b & Hp & Hb & Hu).
  rewrite Hp. eauto.
Qed.

(** *** Lists of children *)

Lemma nth_error_decompose (A : Type) (l : list A) (i : nat) (x : A) :
  nth_error l i = Some x ->
  l = firstn i l ++ x :: skipn (S i) l /\ length (firstn i l) = i.
Proof.
  revert i; induction l as [|y l IH]; intros [|i] H; try discriminate.
  - injection H as ->. now split.
  - destruct (IH _ H) as [E L]. split.
    + change (y :: l = y :: (firstn i l ++ x :: skipn (S i) l)). now f_equal.
    + change (S (length (firstn i l)) = S i). now f_equal.
Qed.

Lemma nth_error_middle (A : Type) (pre post : list A) (x : A) :
  nth_error (pre ++ x :: post) (length pre) = Some x.
Proof. rewrite nth_error_app2 by lia. now rewrite Nat.sub_diag. Qed.

Lemma firstn_middle (A : Type) (pre post : list A) :
  firstn (length pre) (pre ++ post) = pre.
Proof.
  rewrite firstn_app, Nat.sub_diag, firstn_all. simpl. apply app_nil_r.
Qed.

Lemma skipn_middle (A : Type) (pre post : list A) :
  skipn (length pre) (pre ++ post) = post.
Proof.
  rewrite skipn_app, Nat.sub_diag, skipn_all. reflexivity.
Qed.

Lemma skipn_S_middle (A : Type) (pre post : list A) (x : A) :
  skipn (S (length pre)) (pre ++ x :: post) = post.
Proof.
  replace (pre ++ x :: post) with ((pre ++ [x]) ++ post) by now rewrite <- app_assoc.
  replace (S (length pre)) with (length (pre ++ [x]))
    by (rewrite length_app; simpl; lia).
  apply skipn_middle.
Qed.

Lemma nth_error_replaceChild (l : list Node) (i : nat) (x y : Node) :
  nth_error l i = Some x -> nth_error (replaceChild i y l) i = Some y.
Proof.
  intros H. destruct (nth_error_decompose _ _ _ _ H) as [_ L]. unfold replaceChild.
  rewrite <- L at 3. apply nth_error_middle.
Qed.

Lemma replaceChild_replaceChild (l : list Node) (i : nat) (x y z : Node) :
  nth_error l i = Some x ->
  replaceChild i z (replaceChild i y l) = replaceChild i z l.
Proof.
  intros H. destruct (nth_error_decompose _ _ _ _ H) as [_ L]. unfold replaceChild.
  f_equal.
  - rewrite <- L at 1. apply firstn_middle.
  - f_equal. rewrite <- L at 1. apply skipn_S_middle.
Qed.

(** *** Paths *)

Lemma getNodeByPath_app (p q : Path) (t : Node) :
  getNodeByPath t (p ++ q) =
  match getNodeByPath t p with
  | Some n => getNodeByPath n q
  | None => None
  end.
Proof.
  revert t; induction p as [|i p IH]; intros t; [reflexivity|].
  simpl. destruct (nth_error (children t) i); [apply IH|reflexivity].
Qed.

Lemma getNodeByPath_snoc (q : Path) (i : nat) (t par c : Node) :
  getNodeByPath t q = Some par -> nth_error (children par) i = Some c ->
  getNodeByPath t (q ++ [i]) = Some c.
Proof.
  intros Hq Hi. rewrite getNodeByPath_app, Hq. simpl. now rewrite Hi.
Qed.

Lemma getNodeByPath_snoc_inv (q : Path) (i : nat) (t c : Node) :
  getNodeByPath t (q ++ [i]) = Some c ->
  exists par, getNodeByPath t q = Some par /\ nth_error (children par) i = Some c.
Proof.
  rewrite getNodeByPath_app. destruct (getNodeByPath t q) as [par|]; [|discriminate].
  simpl. destruct (nth_error (children par) i) as [c'|] eqn:E; [|discriminate].
  intros [= <-]. eauto.
Qed.

Lemma unsnoc_snoc (q : Path) (i : nat) : unsnoc (q ++ [i]) = Some (q, i).
Proof.
  induction q as [|j q IH]; [reflexivity|].
  simpl. rewrite IH. now destruct (q ++ [i]) eqn:E; [destruct q|].
Qed.

Lemma compareArraysFrom_refl (k : nat) (p : Path) : compareArraysFrom k p p = Same.
Proof.
  revert k; induction p as [|i p IH]; intros k; [reflexivity|].
  simpl. now rewrite Nat.eqb_refl.
Qed.

Lemma compareArrays_refl (p : Path) : compareArrays p p = Same.
Proof. apply compareArraysFrom_refl. Qed.

Lemma compareArraysFrom_extension (k : nat) (q r : Path) :
  r <> [] -> compareArraysFrom k (q ++ r) q = Extension.
Proof.
  revert k; induction q as [|i q IH]; intros k Hr.
  - now destruct r.
  - simpl. rewrite Nat.eqb_refl. now apply IH.
Qed.

Lemma compareArrays_extension (q r : Path) :
  r <> [] -> compareArrays (q ++ r) q = Extension.
Proof. apply compareArraysFrom_extension. Qed.

(** *** Updates *)

Lemma updateAt_app (p q : Path) (f : Node -> option Node) (t : Node) :
  updateAt (p ++ q) f t = updateAt p (updateAt q f) t.
Proof.
  revert t; induction p as [|i p IH]; intros t; [reflexivity|].
  simpl. destruct (nth_error (children t) i); [|reflexivity]. now rewrite IH.
Qed.

Lemma updateAt_inv (p : Path) (f : Node -> option Node) (t t' : Node) :
  updateAt p f t = Some t' ->
  exists x x', getNodeByPath t p = Some x /\ f x = Some x'
               /\ getNodeByPath t' p = Some x'.
Proof.
  revert t t'; induction p as [|i p IH]; intros t t' H.
  - exists t, t'. now repeat split.
  - simpl in H. destruct (nth_error (children t) i) as [c|] eqn:Hc; [|discriminate].
    destruct (updateAt p f c) as [c'|] eqn:Hu; [|discriminate].
    injection H as <-. destruct (IH _ _ Hu) as (x & x' & Hx & Hf & Hx').
    exists x, x'. cbn [getNodeByPath children setChildren]. rewrite Hc.
    rewrite (nth_error_replaceChild _ _ _ c' Hc). now repeat split.
Qed.

Lemma updateAt_intro (p : Path) (f : Node -> option Node) (t x x' : Node) :
  getNodeByPath t p = Some x -> f x = Some x' -> exists t', updateAt p f t = Some t'.
Proof.
  revert t; induction p as [|i p IH]; intros t Hx Hf.
  - injection Hx as ->. exists x'. exact Hf.
  - simpl in *. destruct (nth_error (children t) i) as [c|]; [|discriminate].
    destruct (IH _ Hx Hf) as (c' & ->). eauto.
Qed.

Lemma updateAt_compose (p : Path) (f g : Node -> option Node) (t t1 : Node) :
  updateAt p f t = Some t1 ->
  updateAt p g t1 =
  updateAt p (fun x => match f x with Some y => g y | None => None end) t.
Proof.
  revert t t1; induction p as [|i p IH]; intros t t1 H.
  - simpl in *. now rewrite H.
  - simpl in H. simpl. destruct (nth_error (children t) i) as [c|] eqn:Hc; [|discriminate].
    destruct (updateAt p f c) as [c'|] eqn:Hu; [|discriminate].
    injection H as <-. cbn [children setChildren].
    rewrite (nth_error_replaceChild _ _ _ c' Hc). rewrite (IH _ _ Hu).
    destruct (updateAt p (fun x => match f x with Some y => g y | None => None end) c)
      as [c''|]; [|reflexivity].
    unfold setChildren. cbn [uid name].
    now rewrite (replaceChild_replaceChild _ _ _ c' c'' Hc).
Qed.

Lemma updateAt_ext (p : Path) (f g : Node -> option Node) (t : Node) :
  (forall x, getNodeByPath t p = Some x -> f x = g x) ->
  updateAt p f t = updateAt p g t.
Proof.
  revert t; induction p as [|i p IH]; intros t H; [now apply H|].
  simpl in *. destruct (nth_error (children t) i) as [c|]; [|reflexivity].
  now rewrite (IH c H).
Qed.

(** Identities around an update: those of the updated node are replaced,
    the others stay in place. *)
Lemma uids_updateAt (p : Path) (f : Node -> option Node) (t t' : Node) :
  updateAt p f t = Some t' ->
  exists x x' pre post,
    getNodeByPath t p = Some x /\ f x = Some x'
    /\ uids t = pre ++ uids x ++ post /\ uids t' = pre ++ uids x' ++ post.
Proof.
  revert t t'; induction p as [|i p IH]; intros t t' H.
  - exists t, t', [], []. simpl. now rewrite !app_nil_r.
  - simpl in H. destruct (nth_error (children t) i) as [c|] eqn:Hc; [|discriminate].
    destruct (updateAt p f c) as [c'|] eqn:Hu; [|discriminate].
    injection H as <-.
    destruct (IH _ _ Hu) as (x & x' & pre & post & Hx & Hf & E & E').
    destruct (nth_error_decompose _ _ _ _ Hc) as [D _].
    exists x, x', (uid t :: flat_map uids (firstn i (children t)) ++ pre),
      (post ++ flat_map uids (skipn (S i) (children t))).
    simpl. rewrite Hc. repeat split; try assumption.
    + destruct t as [u nm cs]. cbn [uids children uid] in *.
      rewrite D at 1. rewrite flat_map_app. cbn [flat_map]. rewrite E.
      now rewrite <- !app_assoc.
    + destruct t as [u nm cs]. cbn [uids children uid setChildren] in *.
      unfold replaceChild. rewrite flat_map_app. cbn [flat_map]. rewrite E'.
      now rewrite <- !app_assoc.
Qed.

(** *** Identities *)

Lemma NoDup_app_disjoint (A : Type) (l1 l2 : list A) (x : A) :
  NoDup (l1 ++ l2) -> In x l1 -> ~ In x l2.
Proof.
  induction l1 as [|y l1 IH]; intros H H1 H2; [destruct H1|].
  simpl in H. rewrite NoDup_cons_iff in H. destruct H as [Hy H].
  destruct H1 as [->|H1].
  - apply Hy, in_or_app. now right.
  - now apply (IH H H1).
Qed.

Lemma uid_in_uids (n : Node) : In (uid n) (uids n).
Proof. destruct n. now left. Qed.

Lemma uids_unfold (n : Node) : uids n = uid n :: flat_map uids (children n).
Proof. now destruct n. Qed.

Lemma uids_child (n c : Node) :
  In c (children n) -> incl (uids c) (flat_map uids (children n)).
Proof. intros H u Hu. apply in_flat_map. eauto. Qed.

Lemma getNodeByPath_uids (p : Path) (n x : Node) :
  getNodeByPath n p = Some x -> incl (uids x) (uids n).
Proof.
  revert n; induction p as [|i p IH]; intros n H.
  - injection H as <-. apply incl_refl.
  - simpl in H. destruct (nth_error (children n) i) as [c|] eqn:E; [|discriminate].
    intros u Hu. rewrite uids_unfold. right.
    apply (uids_child n c (nth_error_In _ _ E)). now apply (IH c H).
Qed.

Lemma wellFormed_child (n c : Node) :
  wellFormed n -> In c (children n) -> wellFormed c.
Proof.
  unfold wellFormed. rewrite uids_unfold. intros H Hc.
  apply NoDup_cons_iff in H. destruct H as [_ H].
  apply in_split in Hc. destruct Hc as (l1 & l2 & E). rewrite E in H.
  rewrite flat_map_app in H. simpl in H.
  apply NoDup_app_remove_l in H. now apply NoDup_app_remove_r in H.
Qed.

Lemma wellFormed_getNodeByPath (p : Path) (n x : Node) :
  wellFormed n -> getNodeByPath n p = Some x -> wellFormed x.
Proof.
  revert n; induction p as [|i p IH]; intros n W H.
  - now injection H as <-.
  - simpl in H. destruct (nth_error (children n) i) as [c|] eqn:E; [|discriminate].
    apply (IH c); [|exact H]. eapply wellFormed_child; eauto using nth_error_In.
Qed.

(** An element found by the search is a proper descendant. *)
Lemma locate_In (u : nat) (n : Node) (pos : Position) :
  locate u n = Some pos -> In u (flat_map uids (children n)).
Proof.
  intros H. destruct (locate_sound _ _ _ H) as (p & b & Hp & Hb & <-).
  assert (Hx : getNodeByPath n (ppath pos ++ [offset pos]) = Some b)
    by (eapply getNodeByPath_snoc; eassumption).
  destruct (ppath pos ++ [offset pos]) as [|i q] eqn:E;
    [now destruct (ppath pos)|].
  simpl in Hx. destruct (nth_error (children n) i) as [c|] eqn:Hc; [|discriminate].
  apply (uids_child n c (nth_error_In _ _ Hc)).
  apply (getNodeByPath_uids _ _ _ Hx), uid_in_uids.
Qed.

Lemma locateList_skip (rec : Node -> option Position) (u : nat)
  (pre rest : list Node) (k : nat) :
  (forall x, In x pre -> uid x <> u /\ rec x = None) ->
  locateList rec u (pre ++ rest) k = locateList rec u rest (k + length pre).
Proof.
  revert k; induction pre as [|c pre IH]; intros k H.
  - simpl. now rewrite Nat.add_0_r.
  - cbn [app]. rewrite locateList_cons.
    destruct (H c (or_introl eq_refl)) as [Hu Hr].
    apply Nat.eqb_neq in Hu. rewrite Hu, Hr.
    rewrite IH by (intros x Hx; apply H; now right).
    f_equal. simpl. lia.
Qed.

(** Among the children of a well-formed node, an identity that occurs
    under one child occurs under no earlier child. *)
Lemma earlier_children_miss (n c : Node) (pre post : list Node) (u : nat) :
  wellFormed n -> children n = pre ++ c :: post -> In u (uids c) ->
  forall x, In x pre -> uid x <> u /\ locate u x = None.
Proof.
  unfold wellFormed. rewrite uids_unfold. intros W E Hu x Hx.
  apply NoDup_cons_iff in W. destruct W as [_ W].
  rewrite E, flat_map_app in W. simpl in W.
  assert (Hnot : ~ In u (uids x)).
  { intros Hin. apply (NoDup_app_disjoint _ _ _ u W).
    - apply in_flat_map. eauto.
    - apply in_or_app. now left. }
  split.
  - intros <-. apply Hnot, uid_in_uids.
  - destruct (locate u x) as [pos|] eqn:L; [|reflexivity].
    exfalso. apply Hnot. rewrite uids_unfold. right. eapply locate_In; eassumption.
Qed.

(** In a well-formed tree the search finds an element where it is. *)
Lemma locate_complete (q : Path) (i : nat) (t par c : Node) :
  wellFormed t ->
  getNodeByPath t q = Some par -> nth_error (children par) i = Some c ->
  locate (uid c) t = Some (mkPosition q i).
Proof.
  revert t; induction q as [|k q IH]; intros t W Hq Hi.
  - injection Hq as ->. rewrite locate_unfold.
    destruct (nth_error_decompose _ _ _ _ Hi) as [E L].
    rewrite E, locateList_skip.
    + rewrite locateList_cons, Nat.eqb_refl, L. reflexivity.
    + apply (earlier_children_miss par c _ _ (uid c) W E), uid_in_uids.
  - simpl in Hq. destruct (nth_error (children t) k) as [ck|] eqn:Hk; [|discriminate].
    assert (Wk : wellFormed ck)
      by (eapply wellFormed_child; eauto using nth_error_In).
    specialize (IH ck Wk Hq Hi).
    assert (Hin : In (uid c) (flat_map uids (children ck)))
      by (eapply locate_In; eassumption).
    destruct (nth_error_decompose _ _ _ _ Hk) as [E L].
    rewrite locate_unfold, E, locateList_skip.
    + rewrite locateList_cons, L, IH.
      replace (uid ck =? uid c) with false; [reflexivity|].
      symmetry. apply Nat.eqb_neq. intros Heq.
      unfold wellFormed in Wk. rewrite uids_unfold in Wk.
      apply NoDup_cons_iff in Wk. destruct Wk as [Wk _]. apply Wk.
      now rewrite Heq.
    + apply (earlier_children_miss t ck _ _ (uid c) W E).
      rewrite uids_unfold. now right.
Qed.

Lemma locate_unique (t : Node) (u : nat) (pos : Position) (q : Path) (i : nat)
  (par c : Node) :
  wellFormed t -> locate u t = Some pos ->
  getNodeByPath t q = Some par -> nth_error (children par) i = Some c -> uid c = u ->
  pos = mkPosition q i.
Proof.
  intros W L Hq Hi <-. rewrite (locate_complete _ _ _ _ _ W Hq Hi) in L. congruence.
Qed.

(** *** Replacing the node at a path *)

Lemma updateAt_replaceAt (q : Path) (f : Node -> option Node) (t x x' : Node) :
  getNodeByPath t q = Some x -> f x = Some x' -> updateAt q f t = replaceAt q x' t.
Proof.
  intros Hx Hf. apply updateAt_ext. intros y Hy. congruence.
Qed.

Lemma updateAt_fails (q : Path) (f : Node -> option Node) (t x : Node) :
  getNodeByPath t q = Some x -> f x = None -> updateAt q f t = None.
Proof.
  intros Hx Hf. rewrite (updateAt_ext q f (fun _ => None)); [|intros; congruence].
  clear Hf Hx. revert t; induction q as [|i q IH]; intros t; [reflexivity|].
  simpl. destruct (nth_error (children t) i); [|reflexivity]. now rewrite IH.
Qed.

Lemma replaceAt_get (q : Path) (x t t' : Node) :
  replaceAt q x t = Some t' -> getNodeByPath t' q = Some x.
Proof.
  intros H. destruct (updateAt_inv _ _ _ _ H) as (y & y' & _ & Hf & Hg). congruence.
Qed.

Lemma replaceAt_total (q : Path) (x y t : Node) :
  getNodeByPath t q = Some y -> exists t', replaceAt q x t = Some t'.
Proof. intros H. now apply (updateAt_intro q _ t y x). Qed.

Lemma replaceAt_defined (q : Path) (x t t' : Node) :
  replaceAt q x t = Some t' -> exists y, getNodeByPath t q = Some y.
Proof.
  intros H. destruct (updateAt_inv _ _ _ _ H) as (y & _ & Hy & _). eauto.
Qed.

Lemma replaceAt_replaceAt (q : Path) (x y t t' : Node) :
  replaceAt q x t = Some t' -> replaceAt q y t' = replaceAt q y t.
Proof.
  intros H. unfold replaceAt. rewrite (updateAt_compose _ _ _ _ _ H). reflexivity.
Qed.

Lemma replaceAt_then_update (q : Path) (f : Node -> option Node) (x t t' : Node) :
  replaceAt q x t = Some t' ->
  updateAt q f t' = match f x with Some x' => replaceAt q x' t | None => None end.
Proof.
  intros H. destruct (f x) as [x'|] eqn:Hf.
  - rewrite (updateAt_replaceAt q f t' x x' (replaceAt_get _ _ _ _ H) Hf).
    eapply replaceAt_replaceAt; eassumption.
  - eapply updateAt_fails; eauto using replaceAt_get.
Qed.

Lemma replaceAt_then_update_below (q r : Path) (f : Node -> option Node) (x t t' : Node) :
  replaceAt q x t = Some t' ->
  updateAt (q ++ r) f t' =
  match updateAt r f x with Some x' => replaceAt q x' t | None => None end.
Proof.
  intros H. rewrite updateAt_app. now apply replaceAt_then_update.
Qed.

Lemma replaceAt_same (q : Path) (x t : Node) :
  getNodeByPath t q = Some x -> replaceAt q x t = Some t.
Proof.
  revert t; induction q as [|i q IH]; intros t H.
  - now injection H as ->.
  - unfold replaceAt in *. simpl in *.
    destruct (nth_error (children t) i) as [c|] eqn:Hc; [|discriminate].
    rewrite (IH c H). f_equal. destruct t as [u nm cs]. unfold setChildren.
    cbn [uid name children] in *. f_equal. unfold replaceChild.
    symmetry. now apply nth_error_decompose.
Qed.

Lemma uids_replaceAt (q : Path) (x y t t' : Node) :
  getNodeByPath t q = Some x -> replaceAt q y t = Some t' ->
  exists pre post, uids t = pre ++ uids x ++ post /\ uids t' = pre ++ uids y ++ post.
Proof.
  intros Hx H. destruct (uids_updateAt _ _ _ _ H)
    as (x0 & y0 & pre & post & Hx0 & Hy0 & E & E').
  exists pre, post. split; congruence.
Qed.

(** *** Running a change block *)

Lemma read_run (A : Type) (f : Node -> option A) (m : Model) (a : A) :
  f (root m) = Some a -> read f m = Some (a, m).
Proof. intros H. unfold read. now rewrite H. Qed.

Lemma bind_run (A B : Type) (c : M A) (k : A -> M B) (m m' : Model) (a : A) :
  c m = Some (a, m') -> bind c k m = k a m'.
Proof. intros H. unfold bind. now rewrite H. Qed.

Lemma edit_run (f : Node -> option Node) (m : Model) (t' : Node) :
  f (root m) = Some t' -> edit f m = Some (tt, mkModel t' (nextUid m)).
Proof. intros H. unfold edit. now rewrite H. Qed.

(** *** Identities kept by the edits *)

Lemma uids_replaceAt_perm (q : Path) (x y t t' : Node) (l1 l2 : list nat) :
  getNodeByPath t q = Some x -> replaceAt q y t = Some t' ->
  Permutation (l1 ++ uids y) (l2 ++ uids x) ->
  Permutation (l1 ++ uids t') (l2 ++ uids t).
Proof.
  intros Hx H P. destruct (uids_replaceAt q x y t t' Hx H) as (pre & post & -> & ->).
  transitivity (pre ++ (l1 ++ uids y) ++ post); [aac_reflexivity|].
  rewrite P. aac_reflexivity.
Qed.

Lemma modelOk_same_uids (t t' : Node) (n : nat) :
  Permutation (uids t') (uids t) -> modelOk (mkModel t n) -> modelOk (mkModel t' n).
Proof.
  intros P [W F]. cbn [root nextUid] in *. split; cbn [root nextUid].
  - unfold wellFormed in *. eapply Permutation_NoDup; [symmetry; exact P|exact W].
  - eapply Permutation_Forall; [symmetry; exact P|exact F].
Qed.

Lemma modelOk_fresh (t t' : Node) (n : nat) :
  Permutation (uids t') (n :: uids t) -> modelOk (mkModel t n) ->
  modelOk (mkModel t' (S n)).
Proof.
  intros P [W F]. cbn [root nextUid] in *. split; cbn [root nextUid].
  - unfold wellFormed in *. eapply Permutation_NoDup; [symmetry; exact P|].
    constructor; [|exact W]. intros Hin. rewrite Forall_forall in F.
    specialize (F _ Hin). lia.
  - eapply Permutation_Forall; [symmetry; exact P|].
    constructor; [lia|]. eapply Forall_impl; [|exact F]. simpl. intros; lia.
Qed.

Lemma modelOk_removed (t t' : Node) (n u : nat) :
  Permutation (u :: uids t') (uids t) -> modelOk (mkModel t n) ->
  modelOk (mkModel t' n).
Proof.
  intros P [W F]. cbn [root nextUid] in *. split; cbn [root nextUid].
  - unfold wellFormed in *.
    assert (N : NoDup (u :: uids t')) by (eapply Permutation_NoDup; [symmetry; exact P|exact W]).
    now inversion N.
  - assert (F' : Forall (fun v => v < n) (u :: uids t'))
      by (eapply Permutation_Forall; [symmetry; exact P|exact F]).
    now inversion F'.
Qed.

Lemma setChildren_setChildren (c : Node) (l1 l2 : list Node) :
  setChildren (setChildren c l1) l2 = setChildren c l2.
Proof. reflexivity. Qed.

Lemma uids_setChildren (c : Node) (l : list Node) :
  uids (setChildren c l) = uid c :: flat_map uids l.
Proof. reflexivity. Qed.

(** Permutations of lists built with [++] and [::]. *)
Ltac cons_to_app :=
  repeat match goal with
         | |- context [?x :: ?l] =>
             lazymatch l with
             | [] => fail
             | _ => change (x :: l) with ([x] ++ l)
             end
         end.

Ltac perm_solve := cons_to_app; aac_reflexivity.

Lemma uids_split_perm (par c : Node) (pre post l1 l2 : list Node) (u : nat) (nm : string) :
  children par = pre ++ c :: post -> children c = l1 ++ l2 ->
  Permutation
    (uids (setChildren par (pre ++ setChildren c l1 :: Element u nm l2 :: post)))
    (u :: uids par).
Proof.
  intros E Ec. rewrite (uids_unfold par), E, uids_setChildren, !flat_map_app.
  cbn [flat_map]. rewrite (uids_unfold c), Ec, uids_setChildren, flat_map_app.
  cbn [uids]. perm_solve.
Qed.

Lemma uids_moved_perm (par c : Node) (pre post before mid after l : list Node) :
  children par = pre ++ c :: post -> children c = before ++ mid ++ after ->
  Permutation (flat_map uids l)
              (flat_map uids (pre ++ setChildren c (before ++ after) :: post)
               ++ flat_map uids mid) ->
  Permutation (uids (setChildren par l)) (uids par).
Proof.
  intros E Ec P. rewrite (uids_unfold par), E, uids_setChildren, P, !flat_map_app.
  cbn [flat_map]. rewrite (uids_unfold c), Ec, uids_setChildren, !flat_map_app.
  perm_solve.
Qed.

(** *** One object, one place *)

Lemma path_cases (q : Path) : q = [] \/ exists q' i, q = q' ++ [i].
Proof.
  destruct q as [|a q] using rev_ind; [now left|right; eauto].
Qed.

Lemma root_not_located (t : Node) : wellFormed t -> locate (uid t) t = None.
Proof.
  intros W. destruct (locate (uid t) t) as [pos|] eqn:L; [|reflexivity].
  apply locate_In in L. unfold wellFormed in W. rewrite uids_unfold in W.
  apply NoDup_cons_iff in W. now destruct W.
Qed.

Lemma getNodeByPath_uid_inj (t n1 n2 : Node) (q1 q2 : Path) :
  wellFormed t ->
  getNodeByPath t q1 = Some n1 -> getNodeByPath t q2 = Some n2 ->
  uid n1 = uid n2 -> q1 = q2 /\ n1 = n2.
Proof.
  intros W H1 H2 Hu.
  destruct (path_cases q1) as [->|(q1' & i1 & ->)];
    destruct (path_cases q2) as [->|(q2' & i2 & ->)].
  - split; congruence.
  - exfalso. injection H1 as <-.
    apply getNodeByPath_snoc_inv in H2. destruct H2 as (par & Hp & Hc).
    pose proof (locate_complete _ _ _ _ _ W Hp Hc) as L.
    rewrite <- Hu, root_not_located in L by assumption. discriminate.
  - exfalso. injection H2 as <-.
    apply getNodeByPath_snoc_inv in H1. destruct H1 as (par & Hp & Hc).
    pose proof (locate_complete _ _ _ _ _ W Hp Hc) as L.
    rewrite Hu, root_not_located in L by assumption. discriminate.
  - pose proof H1 as H1'. pose proof H2 as H2'.
    apply getNodeByPath_snoc_inv in H1. destruct H1 as (par1 & Hp1 & Hc1).
    apply getNodeByPath_snoc_inv in H2. destruct H2 as (par2 & Hp2 & Hc2).
    pose proof (locate_complete _ _ _ _ _ W Hp1 Hc1) as L1.
    pose proof (locate_complete _ _ _ _ _ W Hp2 Hc2) as L2.
    rewrite Hu, L2 in L1. injection L1 as <- <-. split; congruence.
Qed.

Lemma nextSibling_Some (t : Node) (u v : nat) :
  nextSibling t u = Some v ->
  exists q par i c1 c2,
    getNodeByPath t q = Some par
    /\ nth_error (children par) i = Some c1
    /\ nth_error (children par) (S i) = Some c2
    /\ uid c1 = u /\ uid c2 = v.
Proof.
  unfold nextSibling. destruct (locate u t) as [pos|] eqn:L; [|discriminate].
  destruct (locate_sound _ _ _ L) as (par & b & Hp & Hb & Hu). rewrite Hp.
  destruct (nth_error (children par) (S (offset pos))) as [c2|] eqn:E; [|discriminate].
  intros [= <-]. exists (ppath pos), par, (offset pos), b, c2. now repeat split.
Qed.

Lemma adjacentContainers_nth (cs : list Node) (i : nat) (c1 c2 : Node) :
  nth_error cs i = Some c1 -> nth_error cs (S i) = Some c2 ->
  isCodeBlock c1 = true -> isCodeBlock c2 = true ->
  adjacentContainers cs = true.
Proof.
  revert i; induction cs as [|x cs IH]; intros i H1 H2 N1 N2; [now destruct i|].
  destruct cs as [|y cs]; [now destruct i|].
  destruct i as [|i].
  - simpl in H1, H2. injection H1 as ->. injection H2 as ->.
    cbn [adjacentContainers]. now rewrite N1, N2.
  - cbn [adjacentContainers]. apply orb_true_iff. right.
    apply (IH i); assumption.
Qed.

Lemma noAdjacentContainers_at (q : Path) (t par : Node) (i : nat) (c1 c2 : Node) :
  noAdjacentContainers t = true ->
  getNodeByPath t q = Some par ->
  nth_error (children par) i = Some c1 -> nth_error (children par) (S i) = Some c2 ->
  isCodeBlock c1 = true -> isCodeBlock c2 = true -> False.
Proof.
  revert t; induction q as [|k q IH]; intros t Hno Hq H1 H2 N1 N2.
  - injection Hq as ->. destruct par as [u nm cs]. cbn [noAdjacentContainers] in Hno.
    apply andb_true_iff in Hno. destruct Hno as [Hno _].
    cbn [children] in *. rewrite (adjacentContainers_nth cs i c1 c2) in Hno by assumption.
    discriminate.
  - simpl in Hq. destruct (nth_error (children t) k) as [c|] eqn:Hk; [|discriminate].
    apply (IH c); try assumption.
    destruct t as [u nm cs]. cbn [noAdjacentContainers] in Hno.
    apply andb_true_iff in Hno. destruct Hno as [_ Hno].
    rewrite forallb_forall in Hno. apply Hno. eapply nth_error_In; eassumption.
Qed.

(** *** Elements and their children, by identity *)

Lemma nodeInfos_unfold (n : Node) :
  nodeInfos n = infoOf n :: flat_map nodeInfos (children n).
Proof. now destruct n. Qed.

Lemma nodeInfos_getNodeByPath (q : Path) (t n : Node) :
  getNodeByPath t q = Some n -> In (infoOf n) (nodeInfos t).
Proof.
  revert t; induction q as [|i q IH]; intros t H.
  - injection H as <-. rewrite nodeInfos_unfold. now left.
  - simpl in H. destruct (nth_error (children t) i) as [c|] eqn:Hc; [|discriminate].
    rewrite nodeInfos_unfold. right. apply in_flat_map. exists c.
    split; [eapply nth_error_In; eassumption|now apply IH].
Qed.

Lemma nodeInfos_In (t : Node) (info : nat * string * list nat) :
  In info (nodeInfos t) -> exists q n, getNodeByPath t q = Some n /\ infoOf n = info.
Proof.
  induction t as [u nm cs IH] using Node_ind. intros H.
  rewrite nodeInfos_unfold in H. destruct H as [<-|H].
  - now exists [], (Element u nm cs).
  - cbn [children] in H. apply in_flat_map in H. destruct H as (c & Hc & Hin).
    rewrite Forall_forall in IH. destruct (IH c Hc Hin) as (q & n & Hq & Hn).
    apply In_nth_error in Hc. destruct Hc as (i & Hi).
    exists (i :: q), n. simpl. now rewrite Hi.
Qed.

Lemma nodeInfos_updateAt (p : Path) (f : Node -> option Node) (t t' : Node) :
  updateAt p f t = Some t' ->
  exists x x' pre post,
    getNodeByPath t p = Some x /\ f x = Some x'
    /\ (uid x' = uid x -> name x' = name x ->
        nodeInfos t = pre ++ nodeInfos x ++ post
        /\ nodeInfos t' = pre ++ nodeInfos x' ++ post).
Proof.
  revert t t'; induction p as [|i p IH]; intros t t' H.
  - exists t, t', [], []. simpl. rewrite !app_nil_r. now repeat split.
  - simpl in H. destruct (nth_error (children t) i) as [c|] eqn:Hc; [|discriminate].
    destruct (updateAt p f c) as [c'|] eqn:Hu; [|discriminate].
    injection H as <-.
    destruct (IH _ _ Hu) as (x & x' & pre & post & Hx & Hf & HE).
    destruct (nth_error_decompose _ _ _ _ Hc) as [D L].
    assert (Hroot : uid x' = uid x -> uid c' = uid c).
    { clear - Hu Hx Hf. revert c c' Hu Hx.
      induction p as [|j p IHp]; intros c c' Hu Hx Hxx.
      - simpl in *. congruence.
      - simpl in Hu. destruct (nth_error (children c) j); [|discriminate].
        destruct (updateAt p f n); [|discriminate]. now injection Hu as <-. }
    remember (firstn i (children t)) as l1 eqn:E1.
    remember (skipn (S i) (children t)) as l2 eqn:E2.
    exists x, x', (infoOf t :: flat_map nodeInfos l1 ++ pre),
      (post ++ flat_map nodeInfos l2).
    cbn [getNodeByPath]. rewrite Hc.
    split; [exact Hx|]. split; [exact Hf|].
    intros Hxu Hxn. destruct (HE Hxu Hxn) as [E E']. split.
    + rewrite nodeInfos_unfold, D, flat_map_app. cbn [flat_map]. rewrite E.
      cbn [app]. now rewrite <- !app_assoc.
    + rewrite nodeInfos_unfold. cbn [children setChildren]. unfold replaceChild.
      rewrite <- E1, <- E2, flat_map_app. cbn [flat_map]. rewrite E'.
      replace (infoOf (setChildren t (l1 ++ c' :: l2))) with (infoOf t).
      * cbn [app]. now rewrite <- !app_assoc.
      * unfold infoOf. cbn [uid name children setChildren]. f_equal.
        rewrite D, !map_app. cbn [map]. now rewrite (Hroot Hxu).
Qed.

Lemma nodeInfos_replaceAt (q : Path) (x y t t' : Node) :
  getNodeByPath t q = Some x -> replaceAt q y t = Some t' ->
  uid y = uid x -> name y = name x ->
  exists pre post,
    nodeInfos t = pre ++ nodeInfos x ++ post /\ nodeInfos t' = pre ++ nodeInfos y ++ post.
Proof.
  intros Hx H Hu Hn. destruct (nodeInfos_updateAt _ _ _ _ H)
    as (x0 & y0 & pre & post & Hx0 & Hy0 & HE).
  rewrite Hx in Hx0. injection Hx0 as <-. injection Hy0 as <-.
  exists pre, post. now apply HE.
Qed.

(** In a well-formed tree an entry tells the parent of each child it lists. *)
Lemma elementParent_of_info (t : Node) (u : nat) (nm : string) (cs : list nat) (b : nat) :
  wellFormed t -> In (u, nm, cs) (nodeInfos t) -> In b cs ->
  exists p, elementParent t b = Some p /\ uid p = u /\ name p = nm.
Proof.
  intros W Hin Hb. destruct (nodeInfos_In _ _ Hin) as (q & n & Hq & Hn).
  unfold infoOf in Hn. injection Hn as <- <- <-.
  apply in_map_iff in Hb. destruct Hb as (c & <- & Hc).
  apply In_nth_error in Hc. destruct Hc as (i & Hi).
  exists n. unfold elementParent.
  rewrite (locate_complete q i t n c W Hq Hi). cbn [ppath]. now rewrite Hq.
Qed.

Lemma info_of_elementParent (t : Node) (b : nat) (p : Node) :
  elementParent t b = Some p ->
  In (infoOf p) (nodeInfos t) /\ In b (map uid (children p)).
Proof.
  unfold elementParent. destruct (locate b t) as [pos|] eqn:L; [|discriminate].
  intros Hp. destruct (locate_sound _ _ _ L) as (p' & c & Hp' & Hc & Hu).
  rewrite Hp in Hp'. injection Hp' as <-. split.
  - eapply nodeInfos_getNodeByPath; eassumption.
  - apply in_map_iff. exists c. split; [exact Hu|eapply nth_error_In; eassumption].
Qed.

(** ** What an edit leaves to its left *)

Lemma firstn_replaceChild (cs : list Node) (i : nat) (c c' : Node) :
  nth_error cs i = Some c -> firstn i (replaceChild i c' cs) = firstn i cs.
Proof.
  intros H. destruct (nth_error_decompose _ _ _ _ H) as [_ L].
  unfold replaceChild. rewrite firstn_app, L, Nat.sub_diag, firstn_firstn, Nat.min_id.
  simpl. apply app_nil_r.
Qed.

Lemma agreeLeft_replaceAt (Q r : Path) (t t' x y : Node) :
  getNodeByPath t Q = Some x -> replaceAt Q y t = Some t' ->
  agreeLeft r x y -> agreeLeft (Q ++ r) t t'.
Proof.
  revert t t'; induction Q as [|i Q IH]; intros t t' Hx Hrep Hag.
  - injection Hx as ->. unfold replaceAt in Hrep. simpl in Hrep.
    now injection Hrep as ->.
  - unfold replaceAt in *. simpl in Hx, Hrep.
    destruct (nth_error (children t) i) as [c|] eqn:Hc; [|discriminate].
    destruct (updateAt Q (fun _ => Some y) c) as [c'|] eqn:Hu; [|discriminate].
    injection Hrep as <-.
    destruct (nth_error_decompose _ _ _ _ Hc) as [E L].
    apply (agreeBelow i (Q ++ r) t _ c c'); try reflexivity.
    + cbn [children setChildren]. symmetry. eapply firstn_replaceChild; eassumption.
    + exact Hc.
    + cbn [children setChildren]. eapply nth_error_replaceChild; eassumption.
    + now apply IH.
Qed.

Lemma firstn_le_eq (A : Type) (l l' : list A) (e y : nat) :
  e <= y -> firstn y l = firstn y l' -> firstn e l = firstn e l'.
Proof.
  intros Hle H. rewrite <- (Nat.min_l e y Hle), <- !firstn_firstn. now rewrite H.
Qed.

Lemma firstn_eq_length (A : Type) (l l' : list A) (e y : nat) :
  e <= y -> e <= length l -> firstn y l = firstn y l' -> e <= length l'.
Proof.
  intros Hle Hl H. apply (f_equal (@length A)) in H. rewrite !length_firstn in H. lia.
Qed.

Lemma firstn_eq_nth_error (A : Type) (l l' : list A) (x y : nat) :
  x < y -> firstn y l = firstn y l' -> nth_error l x = nth_error l' x.
Proof.
  intros Hlt H.
  pose proof (nth_error_firstn y l x) as H1.
  pose proof (nth_error_firstn y l' x) as H2.
  replace (x <? y) with true in H1, H2 by (symmetry; now apply Nat.ltb_lt).
  rewrite <- H1, <- H2. now rewrite H.
Qed.

(** An element whose first [e] children come before [p] is still there
    after an edit at [p], with these children. *)
Lemma agreeLeft_endsBefore (P : Path) (e : nat) (p : Path) (t t' c : Node) :
  agreeLeft p t t' -> endsBefore P e p = true ->
  getNodeByPath t P = Some c -> e <= length (children c) ->
  exists c', getNodeByPath t' P = Some c'
             /\ uid c' = uid c /\ name c' = name c
             /\ firstn e (children c') = firstn e (children c)
             /\ e <= length (children c').
Proof.
  revert p t t'; induction P as [|x P IH]; intros p t t' Hag Hb Hc He.
  - injection Hc as <-. exists t'. split; [reflexivity|].
    destruct p as [|y r]; [discriminate|]. simpl in Hb. apply Nat.leb_le in Hb.
    assert (Hf : firstn y (children t) = firstn y (children t'))
      by (inversion Hag; subst; assumption).
    assert (Hu : uid t = uid t' /\ name t = name t')
      by (inversion Hag; subst; now split).
    destruct Hu as [Hu Hn].
    repeat split; try congruence.
    + symmetry. exact (firstn_le_eq _ _ _ e y Hb Hf).
    + exact (firstn_eq_length _ _ _ e y Hb He Hf).
  - destruct p as [|y r]; [discriminate|]. simpl in Hb, Hc.
    destruct (nth_error (children t) x) as [cx|] eqn:Hx; [|discriminate].
    apply orb_true_iff in Hb. destruct Hb as [Hlt|Heq].
    + apply Nat.ltb_lt in Hlt. exists c. simpl.
      assert (Hf : firstn y (children t) = firstn y (children t'))
        by (inversion Hag; subst; assumption).
      rewrite <- (firstn_eq_nth_error _ _ _ x y Hlt Hf), Hx.
      now repeat split.
    + apply andb_true_iff in Heq. destruct Heq as [Heq Hb].
      apply Nat.eqb_eq in Heq. subst y.
      inversion Hag; subst; [now destruct P|].
      match goal with H : nth_error (children t) x = Some _ |- _ =>
        rewrite Hx in H; injection H as <- end.
      match goal with H : agreeLeft r cx _ |- _ =>
        destruct (IH r cx _ H Hb Hc He) as (c1 & G & R) end.
      exists c1. simpl.
      match goal with H : nth_error (children t') x = Some _ |- _ => rewrite H end.
      split; assumption.
Qed.

(** An element that lies wholly before [p] is untouched by an edit at [p]. *)
Lemma agreeLeft_precedes (P p : Path) (t t' : Node) :
  agreeLeft p t t' -> precedes P p = true ->
  getNodeByPath t' P = getNodeByPath t P.
Proof.
  revert p t t'; induction P as [|x P IH]; intros p t t' Hag Hb; [discriminate|].
  destruct p as [|y r]; [discriminate|]. simpl in Hb.
  assert (Hf : firstn y (children t) = firstn y (children t'))
    by (inversion Hag; subst; assumption).
  apply orb_true_iff in Hb. destruct Hb as [Hlt|Heq].
  - apply Nat.ltb_lt in Hlt. simpl.
    now rewrite (firstn_eq_nth_error _ _ _ x y Hlt Hf).
  - apply andb_true_iff in Heq. destruct Heq as [Heq Hb].
    apply Nat.eqb_eq in Heq. subst y.
    inversion Hag; subst; [now destruct P|].
    simpl.
    repeat match goal with H : nth_error _ x = Some _ |- _ => rewrite H; clear H end.
    eapply IH; eassumption.
Qed.



(** ** Grouping of the selected blocks *)

Section Grouping.

Variable t : Node.

Lemma groupsLoop_groupsFrom (suf pre : list nat) (sp : option Position) (acc : list Range) :
  groupsLoop t (pre ++ suf) (length suf) (length pre) sp acc
  = option_map (app acc) (groupsFrom t suf sp).
Proof.
  revert pre sp acc.
  induction suf as [|block suf IH]; intros pre sp acc; simpl.
  - now rewrite app_nil_r.
  - rewrite nth_error_app2 by lia.
    rewrite Nat.sub_diag; simpl.
    assert (Hnext : nth_error (pre ++ block :: suf) (length pre + 1) = hd_error suf).
    { rewrite nth_error_app2 by lia.
      replace (length pre + 1 - length pre) with 1 by lia.
      now destruct suf. }
    rewrite Hnext.
    assert (Hpre : pre ++ block :: suf = (pre ++ [block]) ++ suf)
      by now rewrite <- app_assoc.
    assert (Hlen : length pre + 1 = length (pre ++ [block]))
      by now rewrite length_app.
    destruct (match sp with Some p => Some p | None => createBefore t block end)
      as [s|]; [|reflexivity].
    destruct (negb (truthy (hd_error suf))
              || negb match hd_error suf with
                      | Some nb => eqNode (nextSibling t block) nb
                      | None => false
                      end).
    + destruct (createAfter t block) as [ep|]; [|reflexivity].
      rewrite Hpre, Hlen, IH.
      destruct (groupsFrom t suf None); simpl; [|reflexivity].
      now rewrite <- app_assoc.
    + now rewrite Hpre, Hlen, IH.
Qed.

Lemma getRangesOfBlockGroups_groupsFrom (blocks : list nat) :
  getRangesOfBlockGroups t blocks = groupsFrom t blocks None.
Proof.
  unfold getRangesOfBlockGroups.
  pose proof (groupsLoop_groupsFrom blocks [] None []) as H.
  simpl in H. rewrite H.
  now destruct (groupsFrom t blocks None).
Qed.

Lemma maximalRuns_cons2 (b nb : nat) (rest : list nat) :
  maximalRuns t (b :: nb :: rest) =
  if eqNode (nextSibling t b) nb then
    match maximalRuns t (nb :: rest) with
    | run :: runs => (b :: run) :: runs
    | [] => [[b]]
    end
  else [b] :: maximalRuns t (nb :: rest).
Proof. reflexivity. Qed.

Lemma groupsFrom_cons2 (b nb : nat) (rest : list nat) (sp : option Position) :
  groupsFrom t (b :: nb :: rest) sp =
  match (match sp with Some p => Some p | None => createBefore t b end) with
  | None => None
  | Some s =>
      if negb (eqNode (nextSibling t b) nb) then
        match createAfter t b with
        | Some ep => option_map (cons (mkRange s ep)) (groupsFrom t (nb :: rest) None)
        | None => None
        end
      else groupsFrom t (nb :: rest) (Some s)
  end.
Proof. reflexivity. Qed.

Lemma maximalRuns_nonempty (b : nat) (rest : list nat) :
  maximalRuns t (b :: rest) <> [].
Proof.
  destruct rest as [|nb rest]; [discriminate|].
  rewrite maximalRuns_cons2.
  destruct (eqNode (nextSibling t b) nb); [|discriminate].
  destruct (maximalRuns t (nb :: rest)); discriminate.
Qed.

Lemma maximalRuns_head (b : nat) (rest : list nat) :
  exists run runs, maximalRuns t (b :: rest) = (b :: run) :: runs.
Proof.
  destruct rest as [|nb rest]; [now exists [], []|].
  rewrite maximalRuns_cons2.
  destruct (eqNode (nextSibling t b) nb); [|eauto].
  destruct (maximalRuns t (nb :: rest)); eauto.
Qed.

Lemma last_cons_default (A : Type) (x d d' : A) (l : list A) :
  last (x :: l) d = last (x :: l) d'.
Proof.
  revert x; induction l as [|y l IH]; intros x; [reflexivity|].
  change (last (y :: l) d = last (y :: l) d'). apply IH.
Qed.

Lemma groupsFrom_runs (rest : list nat) (sp : option Position) :
  groupsFrom t rest sp =
  match maximalRuns t rest with
  | [] => Some []
  | run :: runs =>
      match rangeOfRunFrom t sp run with
      | Some r => option_map (cons r) (allSome (map (rangeOfRun t) runs))
      | None => None
      end
  end.
Proof.
  revert sp; induction rest as [|b rest IH]; intros sp; [reflexivity|].
  destruct rest as [|nb rest].
  - simpl. destruct (match sp with Some p => Some p | None => createBefore t b end);
      [|reflexivity].
    now destruct (createAfter t b).
  - rewrite groupsFrom_cons2, maximalRuns_cons2.
    destruct (maximalRuns_head nb rest) as (run & runs & Hruns).
    destruct (match sp with Some p => Some p | None => createBefore t b end)
      as [s|] eqn:Hs.
    + destruct (eqNode (nextSibling t b) nb) eqn:Hadj; cbn [negb].
      * rewrite IH, Hruns. unfold rangeOfRunFrom. rewrite Hs.
        change (last (b :: nb :: run) b) with (last (nb :: run) b).
        now rewrite (last_cons_default _ nb b nb run).
      * rewrite IH, Hruns. unfold rangeOfRunFrom at 2. rewrite Hs. simpl last.
        destruct (createAfter t b); [|reflexivity].
        cbn [map allSome]. unfold rangeOfRun at 2.
        destruct (rangeOfRunFrom t None (nb :: run)); reflexivity.
    + destruct (eqNode (nextSibling t b) nb); cbn [negb].
      * rewrite Hruns. unfold rangeOfRunFrom. now rewrite Hs.
      * unfold rangeOfRunFrom. now rewrite Hs.
Qed.

Lemma concat_maximalRuns (blocks : list nat) :
  concat (maximalRuns t blocks) = blocks.
Proof.
  induction blocks as [|b rest IH]; [reflexivity|].
  destruct rest as [|nb rest]; [reflexivity|].
  rewrite maximalRuns_cons2.
  destruct (eqNode (nextSibling t b) nb).
  - destruct (maximalRuns t (nb :: rest)) as [|run runs] eqn:E.
    + now apply maximalRuns_nonempty in E.
    + simpl in *. now rewrite IH.
  - simpl in *. now rewrite IH.
Qed.

Lemma eqNode_true (a : option nat) (b : nat) : eqNode a b = true <-> a = Some b.
Proof.
  destruct a as [x|]; simpl; [|split; discriminate].
  rewrite Nat.eqb_eq. split; congruence.
Qed.

Lemma isRun_maximalRuns (blocks : list nat) :
  Forall (isRun t) (maximalRuns t blocks).
Proof.
  induction blocks as [|b rest IH]; [constructor|].
  destruct rest as [|nb rest]; [repeat constructor|].
  rewrite maximalRuns_cons2.
  destruct (maximalRuns_head nb rest) as (run & runs & Hruns).
  rewrite Hruns in *.
  destruct (eqNode (nextSibling t b) nb) eqn:Hadj.
  - inversion IH; subst. constructor; [|assumption].
    split; [now apply eqNode_true|assumption].
  - constructor; [exact I|assumption].
Qed.

Lemma separated_maximalRuns (blocks : list nat) :
  separated t (maximalRuns t blocks).
Proof.
  induction blocks as [|b rest IH]; [exact I|].
  destruct rest as [|nb rest]; [exact I|].
  rewrite maximalRuns_cons2.
  destruct (maximalRuns_head nb rest) as (run & runs & Hruns).
  rewrite Hruns in *.
  destruct (eqNode (nextSibling t b) nb) eqn:Hadj.
  - destruct runs as [|[|x run'] runs]; [exact I|exact IH|].
    cbn [separated] in *.
    change (last (b :: nb :: run) 0) with (last (nb :: run) 0). exact IH.
  - cbn [separated last]. split; [|exact IH].
    intros H. apply eqNode_true in H. congruence.
Qed.

Lemma length_maximalRuns_cons (b : nat) (rest : list nat) :
  length (maximalRuns t (b :: rest)) <= S (length (maximalRuns t rest)).
Proof.
  destruct rest as [|nb rest]; [simpl; lia|].
  rewrite maximalRuns_cons2.
  destruct (eqNode (nextSibling t b) nb); [|simpl; lia].
  destruct (maximalRuns t (nb :: rest)); simpl; lia.
Qed.

Lemma maximalRuns_minimal (blocks : list nat) (parts : list (list nat)) :
  concat parts = blocks -> Forall (isRun t) parts ->
  length (maximalRuns t blocks) <= length parts.
Proof.
  revert parts; induction blocks as [|b rest IH]; intros parts Hc Hr; [simpl; lia|].
  destruct parts as [|part parts]; [discriminate|].
  inversion Hr as [|? ? Hpart Hparts]; subst.
  destruct part as [|x part]; [destruct Hpart|].
  simpl in Hc. injection Hc as -> Hrest.
  destruct part as [|y part].
  - simpl in Hrest. specialize (IH parts Hrest Hparts).
    pose proof (length_maximalRuns_cons b rest) as Hle.
    change (length ([b] :: parts)) with (S (length parts)). lia.
  - destruct Hpart as [Hadj Hpart].
    specialize (IH ((y :: part) :: parts) Hrest (Forall_cons _ Hpart Hparts)).
    simpl in Hrest. subst rest.
    rewrite maximalRuns_cons2.
    apply eqNode_true in Hadj. rewrite Hadj.
    destruct (maximalRuns t (y :: part ++ concat parts)); simpl in *; lia.
Qed.

Lemma allSome_map_Some (A B : Type) (f : A -> option B) (l : list A) :
  (forall x, In x l -> f x <> None) ->
  exists r, allSome (map f l) = Some r /\ length r = length l.
Proof.
  induction l as [|x l IH]; intros H; [now exists []|].
  destruct IH as (r & Hr & Hl); [intros y Hy; apply H; now right|].
  simpl. destruct (f x) as [v|] eqn:E; [|exfalso; apply (H x); [now left|exact E]].
  rewrite Hr. exists (v :: r). simpl. now rewrite Hl.
Qed.

End Grouping.

Lemma getRangesOfBlockGroups_runs (t : Node) (blocks : list nat) :
  getRangesOfBlockGroups t blocks = allSome (map (rangeOfRun t) (maximalRuns t blocks)).
Proof.
  rewrite getRangesOfBlockGroups_groupsFrom, groupsFrom_runs.
  destruct (maximalRuns t blocks) as [|run runs]; [reflexivity|].
  cbn [map allSome]. unfold rangeOfRun at 2.
  now destruct (rangeOfRunFrom t None run).
Qed.

Lemma last_In (A : Type) (x d : A) (l : list A) : In (last (x :: l) d) (x :: l).
Proof.
  revert x; induction l as [|y l IH]; intros x; [now left|].
  right. change (In (last (y :: l) d) (y :: l)). apply IH.
Qed.

Lemma In_concat_intro (A : Type) (x : A) (l : list A) (ls : list (list A)) :
  In l ls -> In x l -> In x (concat ls).
Proof. intros Hl Hx. apply in_concat. eauto. Qed.

Lemma rangeOfRun_attached (t : Node) (blocks : list nat) (run : list nat) :
  (forall b, In b blocks -> locate b t <> None) ->
  In run (maximalRuns t blocks) -> rangeOfRun t run <> None.
Proof.
  intros Hatt Hin.
  assert (Hsub : forall b, In b run -> locate b t <> None).
  { intros b Hb. apply Hatt. rewrite <- (concat_maximalRuns t blocks).
    eapply In_concat_intro; eassumption. }
  pose proof (isRun_maximalRuns t blocks) as Hruns.
  rewrite Forall_forall in Hruns. specialize (Hruns run Hin).
  destruct run as [|b run]; [destruct Hruns|].
  unfold rangeOfRun, rangeOfRunFrom, createBefore, createAfter.
  pose proof (Hsub b (or_introl eq_refl)) as Hb.
  pose proof (Hsub _ (last_In _ b b run)) as Hl.
  destruct (locate b t); [|congruence].
  destruct (locate (last (b :: run) b) t); [discriminate|congruence].
Qed.

(** C1.  The range grouper returns, in order, one range per maximal run
    of tree-adjacent input blocks: its result is the list of the ranges of
    the runs found by the left-to-right scan of the specification; the
    runs concatenate to the input, each is a chain of next siblings, none
    can be extended by its successor, and no split of the input into such
    chains has fewer pieces; ranges are produced whenever every input
    block has a parent.  For the content a..h and the blocks
    [a, b, d, f, g, h] the result is the three ranges [ab], [d], [fgh]. *)
Theorem getRangesOfBlockGroups_maximal_runs :
  (forall (t : Node) (blocks : list nat),
      getRangesOfBlockGroups t blocks
      = allSome (map (rangeOfRun t) (maximalRuns t blocks))
      /\ concat (maximalRuns t blocks) = blocks
      /\ Forall (isRun t) (maximalRuns t blocks)
      /\ separated t (maximalRuns t blocks)
      /\ (forall parts : list (list nat),
             concat parts = blocks -> Forall (isRun t) parts ->
             length (maximalRuns t blocks) <= length parts)
      /\ ((forall b, In b blocks -> locate b t <> None) ->
          exists ranges,
            getRangesOfBlockGroups t blocks = Some ranges
            /\ length ranges = length (maximalRuns t blocks)))
  /\ maximalRuns docAH [1; 2; 4; 6; 7; 8] = [[1; 2]; [4]; [6; 7; 8]]
  /\ getRangesOfBlockGroups docAH [1; 2; 4; 6; 7; 8]
     = Some [mkRange (mkPosition [] 0) (mkPosition [] 2);
             mkRange (mkPosition [] 3) (mkPosition [] 4);
             mkRange (mkPosition [] 5) (mkPosition [] 8)].
Proof.
  split; [|split; reflexivity].
  intros t blocks.
  split; [apply getRangesOfBlockGroups_runs|].
  split; [apply concat_maximalRuns|].
  split; [apply isRun_maximalRuns|].
  split; [apply separated_maximalRuns|].
  split; [intros parts; apply maximalRuns_minimal|].
  intros Hatt. rewrite getRangesOfBlockGroups_runs.
  apply allSome_map_Some.
  intros run Hin. eapply rangeOfRun_attached; eassumption.
Qed.

Lemma getRangesOfBlockGroups_maximal_runs_witness :
  concat [[1; 2]; [4]; [6; 7; 8]] = [1; 2; 4; 6; 7; 8]
  /\ Forall (isRun docAH) [[1; 2]; [4]; [6; 7; 8]]
  /\ (forall b, In b [1; 2; 4; 6; 7; 8] -> locate b docAH <> None)
  /\ length (maximalRuns docAH [1; 2; 4; 6; 7; 8]) <= 3
  /\ exists ranges,
      getRangesOfBlockGroups docAH [1; 2; 4; 6; 7; 8] = Some ranges
      /\ length ranges = length (maximalRuns docAH [1; 2; 4; 6; 7; 8]).
Proof.
  assert (Hc : concat [[1; 2]; [4]; [6; 7; 8]] = [1; 2; 4; 6; 7; 8]) by reflexivity.
  assert (Hr : Forall (isRun docAH) [[1; 2]; [4]; [6; 7; 8]]).
  { repeat constructor. }
  assert (Ha : forall b, In b [1; 2; 4; 6; 7; 8] -> locate b docAH <> None).
  { intros b Hb. simpl in Hb.
    repeat (destruct Hb as [<-|Hb]; [vm_compute; discriminate|]). destruct Hb. }
  destruct (proj1 getRangesOfBlockGroups_maximal_runs docAH [1; 2; 4; 6; 7; 8])
    as (_ & _ & _ & _ & Hmin & Hsome).
  split; [exact Hc|]. split; [exact Hr|]. split; [exact Ha|].
  split; [exact (Hmin _ Hc Hr)|exact (Hsome Ha)].
Defined.

(** ** Schema guard and command state *)

Lemma string_length_append (s q : string) :
  String.length (s ++ q) = String.length s + String.length q.
Proof. induction s as [|a s IH]; simpl; [reflexivity|now rewrite IH]. Qed.

Lemma substring_append_skip (s q : string) (m : nat) :
  substring (String.length s) m (s ++ q) = substring 0 m q.
Proof. induction s as [|a s IH]; simpl; [reflexivity|exact IH]. Qed.

Lemma substring_whole (q : string) : substring 0 (String.length q) q = q.
Proof. induction q as [|a q IH]; simpl; [reflexivity|now rewrite IH]. Qed.

Lemma string_append_assoc (a b c : string) : ((a ++ b) ++ c = a ++ (b ++ c))%string.
Proof. induction a as [|x a IH]; simpl; [reflexivity|now rewrite IH]. Qed.

Lemma endsWith_append (s q : string) : endsWith (s ++ q) q = true.
Proof.
  unfold endsWith. rewrite string_length_append.
  replace (String.length q <=? String.length s + String.length q) with true
    by (symmetry; apply Nat.leb_le; lia).
  replace (String.length s + String.length q - String.length q)
    with (String.length s) by lia.
  rewrite substring_append_skip, substring_whole. apply String.eqb_refl.
Qed.

Lemma string_concat_snoc (sep x : string) (init : list string) :
  exists s, String.concat sep (init ++ [x]) = (s ++ x)%string.
Proof.
  induction init as [|y init (s & IH)]; [now exists ""%string|].
  exists (y ++ sep ++ s)%string. cbn [app String.concat].
  destruct (init ++ [x]) as [|z l] eqn:E; [now destruct init|].
  rewrite IH. now rewrite !string_append_assoc.
Qed.

Lemma ctxEndsWith_last (init : list string) (x : string) :
  ctxEndsWith (init ++ [x]) x = true.
Proof.
  unfold ctxEndsWith. destruct (string_concat_snoc " " x init) as (s & ->).
  apply endsWith_append.
Qed.

Lemma namesAlong_last (p : Path) (n q : Node) :
  getNodeByPath n p = Some q -> exists init, namesAlong n p = init ++ [name q].
Proof.
  revert n; induction p as [|i p IH]; intros n H.
  - injection H as <-. now exists [].
  - simpl in *. destruct (nth_error (children n) i) as [c|]; [|discriminate].
    destruct (IH _ H) as (init & ->). now exists (name n :: init).
Qed.

(** No code block is allowed directly in a code block. *)
Lemma checkChild_in_codeBlock (schema : Schema) (init : list string) :
  checkChild schema (init ++ ["codeBlock"%string]) "codeBlock" = false.
Proof.
  unfold checkChild, codeBlockChildCheck.
  rewrite ctxEndsWith_last. simpl. now destruct (isRegistered schema "codeBlock").
Qed.

Lemma checkCanBeBlocked_attached (schema : Schema) (t : Node) (block : nat) :
  locate block t <> None -> exists r, checkCanBeBlocked schema t block = Some r.
Proof.
  intros H. unfold checkCanBeBlocked.
  destruct (elementNode_attached t block H) as (b & -> & _).
  destruct (locate block t); [eauto|congruence].
Qed.

(** C8.  A block whose parent is a code block is refused by
    [checkCanBeBlocked]: wrapping it would put a code block directly into a
    code block.  The predicate only reads the tree: evaluated inside a
    change block it leaves the model as it was. *)
Theorem checkCanBeBlocked_rejects_nesting (schema : Schema) (t : Node)
  (block : nat) (p : Node) :
  elementParent t block = Some p ->
  name p = "codeBlock"%string ->
  checkCanBeBlocked schema t block = Some false
  /\ forall (m m' : Model) (r : bool),
       read (fun t' => checkCanBeBlocked schema t' block) m = Some (r, m') -> m' = m.
Proof.
  intros Hp Hname. split.
  - unfold elementParent in Hp. unfold checkCanBeBlocked.
    destruct (locate block t) as [pos|] eqn:E; [|discriminate].
    destruct (elementNode_attached t block) as (b & -> & _); [congruence|].
    destruct (namesAlong_last _ _ _ Hp) as (init & ->).
    now rewrite Hname, checkChild_in_codeBlock.
  - intros m m' r Hrun. unfold read in Hrun.
    destruct (checkCanBeBlocked schema (root m) block); [|discriminate].
    now injection Hrun as _ <-.
Qed.

Lemma checkCanBeBlocked_rejects_nesting_witness :
  checkCanBeBlocked openSchema docPQRS 2 = Some false.
Proof.
  apply (checkCanBeBlocked_rejects_nesting openSchema docPQRS 2
           (codeBlock 10 (map paragraph [1; 2; 3; 4]))); reflexivity.
Defined.

Lemma isBlocked_spec (t : Node) (block : nat) (r : bool) :
  isBlocked t block = Some r ->
  (r = true <-> exists p, elementParent t block = Some p /\ name p = "codeBlock"%string).
Proof.
  unfold isBlocked, findBlock, parentOf.
  destruct (elementParent t block) as [p|]; [|discriminate].
  destruct (String.eqb (name p) "codeBlock") eqn:E; simpl; intros [= <-].
  - apply String.eqb_eq in E. split; [eauto|reflexivity].
  - apply String.eqb_neq in E. split; [discriminate|].
    intros (p' & [= <-] & H). contradiction.
Qed.

Lemma isBlocked_attached (t : Node) (block : nat) :
  locate block t <> None -> exists r, isBlocked t block = Some r.
Proof.
  intros H. destruct (elementParent_attached t block H) as (p & Hp).
  unfold isBlocked, findBlock, parentOf. rewrite Hp. simpl. eauto.
Qed.

(** C7.  [refresh] sets [value] to whether the first selected block has a
    code block as its parent, and [isEnabled] to [true] when [value] is
    [true], otherwise to whether [checkCanBeBlocked] accepts the first
    selected block; with no selected block both are [false].  It returns
    whenever the first selected block is in the tree, and changes neither
    the model nor the selection. *)
Theorem refresh_value_isEnabled (schema : Schema) (ed : Editor) :
  (forall b, hd_error (selectedBlocks ed) = Some b -> locate b (root (model ed)) <> None) ->
  exists ed',
    refresh schema ed = Some ed'
    /\ model ed' = model ed
    /\ selectedBlocks ed' = selectedBlocks ed
    /\ (value ed' = true <->
        exists b p, hd_error (selectedBlocks ed) = Some b
                    /\ elementParent (root (model ed)) b = Some p
                    /\ name p = "codeBlock"%string)
    /\ (value ed' = true -> isEnabled ed' = true)
    /\ (value ed' = false ->
        (isEnabled ed' = true <->
         exists b, hd_error (selectedBlocks ed) = Some b
                   /\ checkCanBeBlocked schema (root (model ed)) b = Some true)).
Proof.
  intros Hatt. unfold refresh, _getValue, _checkEnabled. cbn [selectedBlocks model value].
  destruct (hd_error (selectedBlocks ed)) as [b|] eqn:Hhd.
  - specialize (Hatt b eq_refl).
    destruct (isBlocked_attached _ _ Hatt) as (v & Hv). rewrite Hv.
    pose proof (isBlocked_spec _ _ _ Hv) as Hspec.
    destruct (checkCanBeBlocked_attached schema _ _ Hatt) as (e & He).
    destruct v.
    + eexists. split; [reflexivity|]. cbn [model selectedBlocks value isEnabled].
      repeat split; try discriminate.
      * intros _. destruct (proj1 Hspec eq_refl) as (p & Hp). exists b, p. tauto.
    + rewrite He. eexists. split; [reflexivity|].
      cbn [model selectedBlocks value isEnabled].
      repeat split; try discriminate.
      * intros (b' & p & Hb' & Hp). injection Hb' as <-. apply Hspec. eauto.
      * intros ->. eauto.
      * intros (b' & Hb' & Hc). injection Hb' as <-. congruence.
  - eexists. split; [reflexivity|]. cbn [model selectedBlocks value isEnabled].
    repeat split; try discriminate.
    + intros (b & p & Hb & _). discriminate.
    + intros (b & Hb & _). discriminate.
Qed.

Lemma refresh_value_isEnabled_witness :
  exists ed',
    refresh openSchema (mkEditor (mkModel docPQRS 100) [2; 3] false false) = Some ed'
    /\ value ed' = true /\ isEnabled ed' = true.
Proof.
  destruct (refresh_value_isEnabled openSchema
              (mkEditor (mkModel docPQRS 100) [2; 3] false false))
    as (ed' & Hr & _ & _ & Hv & He & _).
  - intros b [= <-]. vm_compute. discriminate.
  - exists ed'. split; [exact Hr|].
    assert (V : value ed' = true).
    { apply Hv. exists 2, (codeBlock 10 (map paragraph [1; 2; 3; 4])).
      repeat split. }
    split; [exact V|exact (He V)].
Defined.

(** ** Removing the block: one group *)

Lemma getNodeByPath_child (q : Path) (t par c : Node) (pre post : list Node) :
  getNodeByPath t q = Some par -> children par = pre ++ c :: post ->
  getNodeByPath t (q ++ [length pre]) = Some c.
Proof.
  intros Hq E. apply (getNodeByPath_snoc q _ t par c Hq).
  rewrite E. apply nth_error_middle.
Qed.

Lemma locate_child (q : Path) (t par c : Node) (pre post : list Node) :
  wellFormed t -> getNodeByPath t q = Some par -> children par = pre ++ c :: post ->
  locate (uid c) t = Some (mkPosition q (length pre)).
Proof.
  intros W Hq E. apply (locate_complete q _ t par c W Hq).
  rewrite E. apply nth_error_middle.
Qed.

Lemma unwrapTree_child (q : Path) (t par c : Node) (pre post : list Node) :
  getNodeByPath t q = Some par -> children par = pre ++ c :: post ->
  unwrapTree (mkPosition q (length pre)) t
  = replaceAt q (setChildren par (pre ++ children c ++ post)) t.
Proof.
  intros Hq E. unfold unwrapTree, updateChildrenAt. cbn [ppath offset].
  apply (updateAt_replaceAt q _ t par _ Hq).
  rewrite E, nth_error_middle, firstn_middle, skipn_S_middle. reflexivity.
Qed.

(** The first branch of [removeBlockGroup]: the group is all there is in
    its parent [c], which is unwrapped. *)
Lemma removeBlockGroup_full (m : Model) (q : Path) (par c : Node)
  (pre post : list Node) :
  wellFormed (root m) ->
  getNodeByPath (root m) q = Some par ->
  children par = pre ++ c :: post ->
  removeBlockGroup
    (mkRange (mkPosition (q ++ [length pre]) 0)
             (mkPosition (q ++ [length pre]) (length (children c)))) m
  = match replaceAt q (setChildren par (pre ++ children c ++ post)) (root m) with
    | Some t' => Some (tt, mkModel t' (nextUid m))
    | None => None
    end.
Proof.
  intros W Hq E.
  pose proof (getNodeByPath_child q _ par c pre post Hq E) as Hc.
  unfold removeBlockGroup. cbn [start end_ isAtStart offset Nat.eqb].
  unfold bind at 1. unfold read at 1, isAtEnd, positionParent. cbn [ppath offset].
  rewrite Hc, Nat.eqb_refl.
  unfold bind at 1. unfold read at 1, positionParent. cbn [ppath]. rewrite Hc.
  unfold writer_unwrap, bind, read. cbn [root].
  rewrite (locate_child q _ par c pre post W Hq E).
  unfold edit. cbn [root nextUid].
  now rewrite (unwrapTree_child q _ par c pre post Hq E).
Qed.

Lemma NoDup_middle_absent (A : Type) (l1 l2 : list A) (x : A) :
  NoDup (l1 ++ x :: l2) -> ~ In x (l1 ++ l2).
Proof. apply NoDup_remove_2. Qed.

(** *** Moving a range out of its parent *)

Lemma skipn_two (A : Type) (l1 l2 l3 : list A) :
  skipn (length l1 + length l2) (l1 ++ l2 ++ l3) = l3.
Proof.
  rewrite app_assoc. rewrite <- length_app. apply skipn_middle.
Qed.

Lemma slice_middle (before mid after : list Node) :
  slice (length before) (length before + length mid) (before ++ mid ++ after) = mid.
Proof.
  unfold slice. rewrite skipn_middle.
  replace (length before + length mid - length before) with (length mid) by lia.
  apply firstn_middle.
Qed.

Lemma removeSlice_middle (before mid after : list Node) :
  removeSlice (length before) (length before + length mid) (before ++ mid ++ after)
  = Some (before ++ after).
Proof.
  unfold removeSlice.
  replace (length before <=? length before + length mid) with true
    by (symmetry; apply Nat.leb_le; lia).
  replace (length before + length mid <=? length (before ++ mid ++ after)) with true
    by (symmetry; apply Nat.leb_le; rewrite !length_app; lia).
  simpl. now rewrite firstn_middle, skipn_two.
Qed.

Lemma replaceChild_middle (pre post : list Node) (c c' : Node) :
  replaceChild (length pre) c' (pre ++ c :: post) = pre ++ c' :: post.
Proof. unfold replaceChild. now rewrite firstn_middle, skipn_S_middle. Qed.

(** Replacing a child of the node at [q]. *)
Lemma updateAt_child (q : Path) (f : Node -> option Node) (t par c c' : Node)
  (pre post : list Node) :
  getNodeByPath t q = Some par -> children par = pre ++ c :: post ->
  f c = Some c' ->
  updateAt (q ++ [length pre]) f t = replaceAt q (setChildren par (pre ++ c' :: post)) t.
Proof.
  intros Hq E Hf. rewrite updateAt_app.
  apply (updateAt_replaceAt q _ t par _ Hq).
  simpl. rewrite E, nth_error_middle, Hf, replaceChild_middle. reflexivity.
Qed.

(** A range of the children of [c] moved to offset [k] of the parent of
    [c]. *)
Lemma moveTree_out (q : Path) (t par c : Node) (pre post before mid after : list Node)
  (k : nat) :
  getNodeByPath t q = Some par ->
  children par = pre ++ c :: post ->
  children c = before ++ mid ++ after ->
  k <= S (length pre + length post) ->
  moveTree
    (mkRange (mkPosition (q ++ [length pre]) (length before))
             (mkPosition (q ++ [length pre]) (length before + length mid)))
    (mkPosition q k) t
  = replaceAt q
      (setChildren par
         (firstn k (pre ++ setChildren c (before ++ after) :: post)
            ++ mid ++ skipn k (pre ++ setChildren c (before ++ after) :: post))) t.
Proof.
  intros Hq E Ec Hk.
  pose proof (getNodeByPath_child q _ par c pre post Hq E) as Hc.
  unfold moveTree, isFlat. cbn [start end_ ppath offset].
  rewrite compareArrays_refl, Hc.
  unfold updateChildrenAt at 1.
  rewrite (updateAt_child q _ t par c (setChildren c (before ++ after)) pre post Hq E)
    by (rewrite Ec, removeSlice_middle; reflexivity).
  destruct (replaceAt_total q (setChildren par (pre ++ setChildren c (before ++ after) :: post))
              par t Hq) as (t1 & Ht1).
  rewrite Ht1. unfold getTransformedByDeletion. cbn [ppath offset].
  rewrite compareArrays_extension by discriminate.
  unfold updateChildrenAt. cbn [ppath offset].
  rewrite (replaceAt_then_update q _ _ t t1 Ht1). cbn [children setChildren].
  unfold insertNodes.
  replace (k <=? length (pre ++ setChildren c (before ++ after) :: post)) with true
    by (symmetry; apply Nat.leb_le; rewrite length_app; simpl; lia).
  rewrite Ec, slice_middle. reflexivity.
Qed.

Lemma splitTree_child (q : Path) (t par c : Node) (pre post : list Node) (e u : nat) :
  getNodeByPath t q = Some par ->
  children par = pre ++ c :: post ->
  e <= length (children c) ->
  splitTree (mkPosition (q ++ [length pre]) e) u t
  = replaceAt q
      (setChildren par
         (pre ++ setChildren c (firstn e (children c))
              :: Element u (name c) (skipn e (children c)) :: post)) t.
Proof.
  intros Hq E He. unfold splitTree. cbn [ppath offset].
  rewrite unsnoc_snoc. unfold updateChildrenAt.
  apply (updateAt_replaceAt q _ t par _ Hq).
  rewrite E, nth_error_middle.
  replace (e <=? length (children c)) with true by (symmetry; now apply Nat.leb_le).
  now rewrite firstn_middle, skipn_S_middle.
Qed.

Lemma firstn_S_middle (A : Type) (pre post : list A) (x : A) :
  firstn (S (length pre)) (pre ++ x :: post) = pre ++ [x].
Proof.
  replace (pre ++ x :: post) with ((pre ++ [x]) ++ post) by now rewrite <- app_assoc.
  replace (S (length pre)) with (length (pre ++ [x]))
    by (rewrite length_app; simpl; lia).
  apply firstn_middle.
Qed.

(** The end of [removeBlockGroup]: the group ends its parent [c] and is
    moved after it. *)
Lemma moveAfterParent_run (m : Model) (q : Path) (par c : Node)
  (pre post before mid : list Node) :
  wellFormed (root m) ->
  getNodeByPath (root m) q = Some par ->
  children par = pre ++ c :: post ->
  children c = before ++ mid ->
  let groupRange :=
    mkRange (mkPosition (q ++ [length pre]) (length before))
            (mkPosition (q ++ [length pre]) (length before + length mid)) in
  (p <- read (fun t => positionParent t (end_ groupRange)) ;;
   positionAfter <- read (fun t => createAfter t (uid p)) ;;
   writer_move groupRange positionAfter) m
  = match replaceAt q (setChildren par (pre ++ setChildren c before :: mid ++ post))
            (root m) with
    | Some t' => Some (tt, mkModel t' (nextUid m))
    | None => None
    end.
Proof.
  intros W Hq E Ec groupRange. subst groupRange.
  pose proof (getNodeByPath_child q _ par c pre post Hq E) as Hc.
  unfold bind at 1. unfold read at 1, positionParent. cbn [end_ ppath].
  rewrite Hc.
  unfold bind at 1. unfold read at 1, createAfter.
  rewrite (locate_child q _ par c pre post W Hq E). cbn [ppath offset].
  unfold writer_move, edit.
  rewrite (moveTree_out q (root m) par c pre post before mid [] (S (length pre)) Hq E)
    by (rewrite ?app_nil_r; try assumption; lia).
  rewrite app_nil_r, firstn_S_middle, skipn_S_middle, <- app_assoc.
  reflexivity.
Qed.

(** The second branch: the group starts its parent [c] without ending it
    and is moved before [c]. *)
Lemma removeBlockGroup_prefix (m : Model) (q : Path) (par c : Node)
  (pre post mid after : list Node) :
  wellFormed (root m) ->
  getNodeByPath (root m) q = Some par ->
  children par = pre ++ c :: post ->
  children c = mid ++ after -> after <> [] ->
  removeBlockGroup
    (mkRange (mkPosition (q ++ [length pre]) 0)
             (mkPosition (q ++ [length pre]) (length mid))) m
  = match replaceAt q (setChildren par (pre ++ mid ++ setChildren c after :: post))
            (root m) with
    | Some t' => Some (tt, mkModel t' (nextUid m))
    | None => None
    end.
Proof.
  intros W Hq E Ec Hafter.
  pose proof (getNodeByPath_child q _ par c pre post Hq E) as Hc.
  unfold removeBlockGroup. cbn [start end_ isAtStart offset Nat.eqb].
  unfold bind at 1. unfold read at 1, isAtEnd, positionParent. cbn [ppath offset].
  rewrite Hc.
  replace (length mid =? length (children c)) with false.
  2:{ symmetry. apply Nat.eqb_neq. rewrite Ec, length_app.
      destruct after; [congruence|simpl; lia]. }
  unfold bind at 1. unfold read at 1, positionParent. cbn [ppath]. rewrite Hc.
  unfold bind at 1. unfold read at 1, createBefore.
  rewrite (locate_child q _ par c pre post W Hq E).
  unfold writer_move, edit.
  pose proof (moveTree_out q (root m) par c pre post [] mid after (length pre) Hq E Ec)
    as Hmv.
  cbn [length app Nat.add] in Hmv. rewrite Hmv by lia.
  now rewrite firstn_middle, skipn_middle.
Qed.

(** The third branch: the group ends its parent [c] without starting it
    and is moved after [c]. *)
Lemma removeBlockGroup_suffix (m : Model) (q : Path) (par c : Node)
  (pre post before mid : list Node) :
  wellFormed (root m) ->
  getNodeByPath (root m) q = Some par ->
  children par = pre ++ c :: post ->
  children c = before ++ mid -> before <> [] ->
  removeBlockGroup
    (mkRange (mkPosition (q ++ [length pre]) (length before))
             (mkPosition (q ++ [length pre]) (length before + length mid))) m
  = match replaceAt q (setChildren par (pre ++ setChildren c before :: mid ++ post))
            (root m) with
    | Some t' => Some (tt, mkModel t' (nextUid m))
    | None => None
    end.
Proof.
  intros W Hq E Ec Hbefore.
  pose proof (getNodeByPath_child q _ par c pre post Hq E) as Hc.
  unfold removeBlockGroup, isAtStart. cbn [start end_ offset].
  replace (length before =? 0) with false
    by (destruct before; [congruence|reflexivity]).
  unfold bind at 1. unfold ret at 1.
  unfold bind at 1. unfold read at 1, isAtEnd, positionParent. cbn [ppath offset].
  rewrite Hc, Ec, length_app, Nat.eqb_refl. cbn [negb].
  unfold bind at 1. unfold ret at 1.
  apply (moveAfterParent_run m q par c pre post before mid W Hq E Ec).
Qed.

(** The last branch: the group is in the middle of its parent [c], which
    is split after the group; the group is moved between the two halves. *)
Lemma removeBlockGroup_interior (m : Model) (q : Path) (par c : Node)
  (pre post before mid after : list Node) :
  modelOk m ->
  getNodeByPath (root m) q = Some par ->
  children par = pre ++ c :: post ->
  children c = before ++ mid ++ after -> before <> [] -> after <> [] ->
  removeBlockGroup
    (mkRange (mkPosition (q ++ [length pre]) (length before))
             (mkPosition (q ++ [length pre]) (length before + length mid))) m
  = match replaceAt q
            (setChildren par
               (pre ++ setChildren c before
                    :: mid ++ Element (nextUid m) (name c) after :: post))
            (root m) with
    | Some t' => Some (tt, mkModel t' (S (nextUid m)))
    | None => None
    end.
Proof.
  intros Hok Hq E Ec Hbefore Hafter.
  pose proof (getNodeByPath_child q _ par c pre post Hq E) as Hc.
  unfold removeBlockGroup, isAtStart. cbn [start end_ offset].
  replace (length before =? 0) with false
    by (destruct before; [congruence|reflexivity]).
  unfold bind at 1. unfold ret at 1.
  unfold bind at 1. unfold read at 1, isAtEnd, positionParent. cbn [ppath offset].
  rewrite Hc.
  replace (length before + length mid =? length (children c)) with false.
  2:{ symmetry. apply Nat.eqb_neq. rewrite Ec, !length_app.
      destruct after; [congruence|simpl; lia]. }
  cbn [negb]. unfold bind at 1. unfold writer_split, bind, newElement, edit.
  cbn [root nextUid].
  rewrite (splitTree_child q (root m) par c pre post _ (nextUid m) Hq E)
    by (rewrite Ec, !length_app; lia).
  replace (firstn (length before + length mid) (children c)) with (before ++ mid)
    by (rewrite Ec, app_assoc, <- length_app; symmetry; apply firstn_middle).
  replace (skipn (length before + length mid) (children c)) with after
    by (rewrite Ec; symmetry; apply skipn_two).
  set (par1 := setChildren par
                 (pre ++ setChildren c (before ++ mid)
                      :: Element (nextUid m) (name c) after :: post)).
  destruct (replaceAt_total q par1 par _ Hq) as (t1 & Ht1). rewrite Ht1.
  assert (Hok1 : modelOk (mkModel t1 (S (nextUid m)))).
  { destruct m as [t n]. cbn [root nextUid] in *. apply (modelOk_fresh t); [|exact Hok].
    apply (uids_replaceAt_perm q par par1 t t1 [] [n] Hq Ht1). cbn [app].
    apply uids_split_perm; [exact E|]. now rewrite Ec, app_assoc. }
  pose proof (moveAfterParent_run (mkModel t1 (S (nextUid m))) q par1
                (setChildren c (before ++ mid)) pre
                (Element (nextUid m) (name c) after :: post) before mid
                (proj1 Hok1) (replaceAt_get _ _ _ _ Ht1) eq_refl eq_refl) as Hrun.
  cbv zeta in Hrun. cbn [root nextUid] in Hrun. refine (eq_trans Hrun _).
  rewrite (replaceAt_replaceAt q par1 _ _ _ Ht1).
  unfold par1. rewrite !setChildren_setChildren. reflexivity.
Qed.

(** C3.  When the range of an unwrap group lies strictly inside its
    container [c] (blocks of [c] come before and after it), the group's
    step splits [c] after the range and moves the range between the two
    halves: in the parent of [c], in the place of [c], come [c] with the
    blocks before the range, the blocks of the range, and a new container
    of the same name with the blocks after the range.  For a container
    holding p q r s and the group q r the result is a container with p, then
    q, r, then a new container with s. *)
Theorem removeBlock_interior_range_splits :
  (forall (m : Model) (q : Path) (par c : Node)
          (pre post before mid after : list Node),
      modelOk m ->
      getNodeByPath (root m) q = Some par ->
      children par = pre ++ c :: post ->
      children c = before ++ mid ++ after -> before <> [] -> after <> [] ->
      exists t',
        removeBlockGroup
          (mkRange (mkPosition (q ++ [length pre]) (length before))
                   (mkPosition (q ++ [length pre]) (length before + length mid))) m
        = Some (tt, mkModel t' (S (nextUid m)))
        /\ replaceAt q
             (setChildren par
                (pre ++ setChildren c before
                     :: mid ++ Element (nextUid m) (name c) after :: post))
             (root m) = Some t')
  /\ _removeBlock [2; 3] (mkModel docPQRS 100)
     = Some (tt, mkModel (rootOf [codeBlock 10 [paragraph 1];
                                  paragraph 2; paragraph 3;
                                  codeBlock 100 [paragraph 4]]) 101).
Proof.
  split; [|reflexivity].
  intros m q par c pre post before mid after Hok Hq E Ec Hb Ha.
  rewrite (removeBlockGroup_interior m q par c pre post before mid after Hok Hq E Ec Hb Ha).
  destruct (replaceAt_total q
              (setChildren par
                 (pre ++ setChildren c before
                      :: mid ++ Element (nextUid m) (name c) after :: post))
              par _ Hq) as (t' & Ht').
  exists t'. now rewrite Ht'.
Qed.

Lemma removeBlock_interior_range_splits_witness :
  exists t',
    removeBlockGroup (mkRange (mkPosition [0] 1) (mkPosition [0] 3))
      (mkModel docPQRS 100) = Some (tt, mkModel t' 101)
    /\ t' = rootOf [codeBlock 10 [paragraph 1]; paragraph 2; paragraph 3;
                    codeBlock 100 [paragraph 4]].
Proof.
  destruct (proj1 removeBlock_interior_range_splits (mkModel docPQRS 100) []
              docPQRS (codeBlock 10 (map paragraph [1; 2; 3; 4])) [] []
              [paragraph 1] [paragraph 2; paragraph 3] [paragraph 4])
    as (t' & Hrun & Hrep).
  - split.
    + unfold wellFormed. vm_compute. repeat constructor; simpl; intuition lia.
    + vm_compute. repeat constructor.
  - reflexivity.
  - reflexivity.
  - reflexivity.
  - discriminate.
  - discriminate.
  - exists t'. split; [exact Hrun|]. injection Hrep as <-. reflexivity.
Defined.

(** *** All four branches at once *)

Lemma removeBlockGroup_run (m : Model) (q : Path) (par c : Node)
  (pre post before mid after : list Node) :
  modelOk m ->
  getNodeByPath (root m) q = Some par ->
  children par = pre ++ c :: post ->
  children c = before ++ mid ++ after ->
  removeBlockGroup
    (mkRange (mkPosition (q ++ [length pre]) (length before))
             (mkPosition (q ++ [length pre]) (length before + length mid))) m
  = match replaceAt q
            (setChildren par (pre ++ unwrapped (nextUid m) c before mid after ++ post))
            (root m) with
    | Some t' =>
        Some (tt, mkModel t' (if splits before after then S (nextUid m) else nextUid m))
    | None => None
    end.
Proof.
  intros Hok Hq E Ec. pose proof (proj1 Hok) as W.
  destruct before as [|b0 before], after as [|a0 after]; cbn [unwrapped splits].
  - cbn [app length Nat.add] in *. rewrite app_nil_r in Ec.
    pose proof (removeBlockGroup_full m q par c pre post W Hq E) as H.
    rewrite Ec in H. exact H.
  - cbn [app length Nat.add] in *.
    rewrite (removeBlockGroup_prefix m q par c pre post mid (a0 :: after) W Hq E Ec)
      by discriminate.
    now rewrite <- !app_assoc.
  - rewrite app_nil_r in Ec.
    rewrite (removeBlockGroup_suffix m q par c pre post (b0 :: before) mid W Hq E Ec)
      by discriminate.
    reflexivity.
  - rewrite (removeBlockGroup_interior m q par c pre post (b0 :: before) mid
               (a0 :: after) Hok Hq E Ec) by discriminate.
    cbn [app]. now rewrite <- !app_assoc.
Qed.

Lemma uids_unwrapped (u : nat) (par c : Node) (pre post before mid after : list Node) :
  children par = pre ++ c :: post ->
  children c = before ++ mid ++ after ->
  Permutation
    ((if splits before after then []
      else match before, after with [], [] => [uid c] | _, _ => [] end)
     ++ uids (setChildren par (pre ++ unwrapped u c before mid after ++ post)))
    ((if splits before after then [u] else []) ++ uids par).
Proof.
  intros E Ec. rewrite (uids_unfold par), E, uids_setChildren, !flat_map_app.
  cbn [flat_map]. rewrite (uids_unfold c), Ec, !flat_map_app.
  destruct before as [|b0 before], after as [|a0 after]; cbn [unwrapped splits];
    repeat rewrite flat_map_app; cbn [flat_map]; rewrite ?uids_setChildren;
    repeat rewrite flat_map_app; cbn [flat_map app uids]; rewrite ?app_nil_r;
    perm_solve.
Qed.

Lemma modelOk_unwrapped (m : Model) (q : Path) (par c : Node)
  (pre post before mid after : list Node) (t' : Node) :
  modelOk m ->
  getNodeByPath (root m) q = Some par ->
  children par = pre ++ c :: post ->
  children c = before ++ mid ++ after ->
  replaceAt q (setChildren par (pre ++ unwrapped (nextUid m) c before mid after ++ post))
    (root m) = Some t' ->
  modelOk (mkModel t' (if splits before after then S (nextUid m) else nextUid m)).
Proof.
  intros Hok Hq E Ec Hrep. destruct m as [t n]. cbn [root nextUid] in *.
  pose proof (uids_unwrapped n par c pre post before mid after E Ec) as P.
  pose proof (uids_replaceAt_perm q par _ t t' _ _ Hq Hrep P) as P'.
  destruct (splits before after).
  - apply (modelOk_fresh t); [exact P'|exact Hok].
  - destruct before, after; cbn [app] in P'.
    + apply (modelOk_removed t t' n (uid c)); [exact P'|exact Hok].
    + apply (modelOk_same_uids t); [exact P'|exact Hok].
    + apply (modelOk_same_uids t); [exact P'|exact Hok].
    + apply (modelOk_same_uids t); [exact P'|exact Hok].
Qed.

(** *** What a step leaves in place *)

Lemma agreeLeft_unwrapped (u : nat) (par c : Node) (pre post before mid after : list Node) :
  children par = pre ++ c :: post ->
  children c = before ++ mid ++ after ->
  agreeLeft (match before with
             | [] => [length pre]
             | _ :: _ => [length pre; length before]
             end)
    par (setChildren par (pre ++ unwrapped u c before mid after ++ post)).
Proof.
  intros E Ec. destruct before as [|b0 before].
  - apply agreeHere; try reflexivity.
    cbn [children setChildren]. now rewrite E, !firstn_middle.
  - apply (agreeBelow _ _ _ _ c (setChildren c (b0 :: before))); try reflexivity.
    + cbn [children setChildren]. now rewrite E, !firstn_middle.
    + rewrite E. apply nth_error_middle.
    + cbn [children setChildren].
      destruct after; cbn [unwrapped app]; apply nth_error_middle.
    + apply agreeHere; try reflexivity.
      cbn [children setChildren]. rewrite Ec, firstn_middle.
      symmetry. apply firstn_all.
Qed.

Lemma nodeInfos_unwrapped_incl (u : nat) (c : Node) (before mid after : list Node) :
  incl (flat_map nodeInfos (before ++ mid ++ after))
       (flat_map nodeInfos (unwrapped u c before mid after)).
Proof.
  intros x Hx. rewrite !flat_map_app, !in_app_iff in Hx.
  destruct before as [|b0 before], after as [|a0 after]; cbn [unwrapped].
  - cbn [flat_map In] in Hx. tauto.
  - remember (a0 :: after) as A. rewrite flat_map_app, in_app_iff.
    cbn [flat_map]. rewrite app_nil_r, nodeInfos_unfold. cbn [children setChildren In].
    cbn [flat_map In] in Hx. tauto.
  - remember (b0 :: before) as B. cbn [flat_map]. rewrite in_app_iff, nodeInfos_unfold.
    cbn [children setChildren In]. cbn [flat_map In] in Hx. tauto.
  - remember (b0 :: before) as B. remember (a0 :: after) as A.
    cbn [flat_map]. rewrite flat_map_app, !in_app_iff, nodeInfos_unfold.
    cbn [flat_map children setChildren In]. rewrite app_nil_r.
    cbn [nodeInfos In]. tauto.
Qed.

(** A child of an element other than the container stays its child. *)
Lemma parent_kept_unwrapped (u : nat) (par c : Node)
  (pre post before mid after : list Node)
  (u0 : nat) (nm : string) (cs : list nat) (b : nat) :
  children par = pre ++ c :: post ->
  children c = before ++ mid ++ after ->
  isCodeBlock c = true ->
  In (u0, nm, cs) (nodeInfos par) -> nm <> "codeBlock"%string ->
  In b cs -> b <> uid c ->
  exists cs',
    In (u0, nm, cs')
       (nodeInfos (setChildren par (pre ++ unwrapped u c before mid after ++ post)))
    /\ In b cs'.
Proof.
  intros E Ec Hcb Hin Hnm Hb Hbc.
  rewrite nodeInfos_unfold in Hin. destruct Hin as [Hin|Hin].
  - unfold infoOf in Hin. injection Hin as <- <- <-.
    exists (map uid (pre ++ unwrapped u c before mid after ++ post)).
    split; [rewrite nodeInfos_unfold; now left|].
    rewrite E in Hb. rewrite map_app, in_app_iff in Hb. cbn [map In] in Hb.
    rewrite !map_app, !in_app_iff. destruct Hb as [Hb|[Hb|Hb]]; [auto|congruence|auto].
  - exists cs. split; [|exact Hb]. rewrite nodeInfos_unfold. right.
    cbn [children setChildren]. rewrite E in Hin.
    rewrite flat_map_app in Hin. cbn [flat_map] in Hin.
    rewrite !flat_map_app, !in_app_iff. rewrite !in_app_iff in Hin.
    destruct Hin as [Hin|[Hin|Hin]]; [auto| |auto].
    right. left. rewrite nodeInfos_unfold in Hin. destruct Hin as [Hin|Hin].
    + exfalso. unfold infoOf in Hin. injection Hin as _ Hn _.
      unfold isCodeBlock in Hcb. apply String.eqb_eq in Hcb. congruence.
    + apply nodeInfos_unwrapped_incl. now rewrite <- Ec.
Qed.

Lemma split_three (A : Type) (l : list A) (a e : nat) :
  a <= e -> e <= length l ->
  l = firstn a l ++ firstn (e - a) (skipn a l) ++ skipn e l
  /\ length (firstn a l) = a /\ length (firstn (e - a) (skipn a l)) = e - a.
Proof.
  intros Hae Hel. split; [|split].
  - rewrite <- (firstn_skipn a l) at 1. f_equal.
    rewrite <- (firstn_skipn (e - a) (skipn a l)) at 1. f_equal.
    rewrite skipn_skipn. f_equal. lia.
  - rewrite length_firstn. lia.
  - rewrite length_firstn, length_skipn. lia.
Qed.

(** One step of [_removeBlock] on a range that lies in a code block. *)
Lemma removeBlockGroup_step (m : Model) (r : Range) (u : nat) :
  modelOk m -> resolves (root m) r u ->
  exists m',
    removeBlockGroup r m = Some (tt, m')
    /\ modelOk m'
    /\ agreeLeft (frameOf r) (root m) (root m')
    /\ (forall u0 nm cs b,
           In (u0, nm, cs) (nodeInfos (root m)) -> nm <> "codeBlock"%string ->
           In b cs -> b <> u ->
           exists cs', In (u0, nm, cs') (nodeInfos (root m')) /\ In b cs').
Proof.
  intros Hok (c & Hne & Hflat & Hc & Hcb & Hu & Hlt & Hle).
  destruct r as [[P a] [P' e]]. cbn [start end_ ppath offset] in *. subst P'.
  destruct (path_cases P) as [->|(q & i & ->)]; [congruence|].
  destruct (getNodeByPath_snoc_inv _ _ _ _ Hc) as (par & Hq & Hi).
  destruct (nth_error_decompose _ _ _ _ Hi) as [E L].
  remember (firstn i (children par)) as pre eqn:Epre.
  remember (skipn (S i) (children par)) as post eqn:Epost.
  destruct (split_three _ (children c) a e) as (Ec & La & Lm); [lia|exact Hle|].
  remember (firstn a (children c)) as before eqn:Eb.
  remember (firstn (e - a) (skipn a (children c))) as mid eqn:Em.
  remember (skipn e (children c)) as after eqn:Ea.
  pose proof (removeBlockGroup_run m q par c pre post before mid after Hok Hq E Ec) as Hrun.
  rewrite L, La, Lm in Hrun. replace (a + (e - a)) with e in Hrun by lia.
  destruct (replaceAt_total q
              (setChildren par (pre ++ unwrapped (nextUid m) c before mid after ++ post))
              par _ Hq) as (t' & Ht').
  rewrite Ht' in Hrun. eexists. split; [exact Hrun|].
  split; [eapply modelOk_unwrapped; eassumption|].
  cbn [root]. split.
  - pose proof (agreeLeft_unwrapped (nextUid m) par c pre post before mid after E Ec) as Hag.
    pose proof (agreeLeft_replaceAt q _ _ _ _ _ Hq Ht' Hag) as Hag'.
    unfold frameOf, fullPath. cbn [start ppath offset].
    destruct before as [|b0 before].
    + simpl in La. subst a. cbn [Nat.eqb]. now rewrite L in Hag'.
    + simpl in La. replace (a =? 0) with false by (symmetry; apply Nat.eqb_neq; lia).
      rewrite L in Hag'. cbn [length] in Hag'. rewrite La in Hag'.
      now rewrite <- app_assoc.
  - intros u0 nm cs b Hin Hnm Hb Hbu.
    destruct (nodeInfos_replaceAt q par _ _ _ Hq Ht' eq_refl eq_refl)
      as (l1 & l2 & N & N').
    rewrite N in Hin. rewrite N'. rewrite !in_app_iff in Hin.
    destruct Hin as [Hin|[Hin|Hin]].
    + exists cs. rewrite !in_app_iff. auto.
    + destruct (parent_kept_unwrapped (nextUid m) par c pre post before mid after
                  u0 nm cs b E Ec Hcb Hin Hnm Hb) as (cs' & Hin' & Hb'); [congruence|].
      exists cs'. rewrite !in_app_iff. auto.
    + exists cs. rewrite !in_app_iff. auto.
Qed.

(** *** The groups, from the last to the first *)

Lemma endsBefore_nil (P : Path) (e : nat) : endsBefore P e [] = false.
Proof. now destruct P. Qed.

Lemma endsBefore_drop_zero (P : Path) (e : nat) (p : Path) :
  0 < e -> endsBefore P e (p ++ [0]) = true -> endsBefore P e p = true.
Proof.
  intros He. revert p; induction P as [|x P IH]; intros p H.
  - destruct p as [|y r]; simpl in *; [apply Nat.leb_le in H; lia|exact H].
  - destruct p as [|y r]; simpl in *.
    + rewrite endsBefore_nil, andb_false_r in H. discriminate.
    + apply orb_true_iff in H. apply orb_true_iff. destruct H as [H|H]; [now left|].
      right. apply andb_true_iff in H. apply andb_true_iff.
      destruct H as [H1 H2]. split; [exact H1|now apply IH].
Qed.

Lemma endsBefore_frameOf (r' r : Range) :
  0 < offset (end_ r') -> rangeBefore r' r = true ->
  endsBefore (ppath (start r')) (offset (end_ r')) (frameOf r) = true.
Proof.
  unfold rangeBefore, frameOf, fullPath. intros He H.
  destruct (offset (start r)) as [|a]; [|exact H].
  cbn [Nat.eqb]. now apply endsBefore_drop_zero.
Qed.

Lemma resolves_agreeLeft (p : Path) (t t' : Node) (r : Range) (u : nat) :
  agreeLeft p t t' ->
  endsBefore (ppath (start r)) (offset (end_ r)) p = true ->
  resolves t r u -> resolves t' r u.
Proof.
  intros Hag Hb (c & Hne & Hflat & Hc & Hcb & Hu & Hlt & Hle).
  destruct (agreeLeft_endsBefore _ _ _ _ _ _ Hag Hb Hc Hle)
    as (c' & Hc' & Hu' & Hn' & _ & Hle').
  exists c'. repeat split; try assumption; try congruence.
  unfold isCodeBlock in *. now rewrite Hn'.
Qed.

Lemma rangesOrdered_snoc (rs : list Range) (r : Range) :
  rangesOrdered (rs ++ [r]) = true ->
  rangesOrdered rs = true /\ forall r', In r' rs -> rangeBefore r' r = true.
Proof.
  induction rs as [|x rs IH]; intros H; [split; [reflexivity|intros ? []]|].
  cbn [app rangesOrdered] in H. apply andb_true_iff in H. destruct H as [H1 H2].
  rewrite forallb_app in H1. apply andb_true_iff in H1. destruct H1 as [H1 H1'].
  destruct (IH H2) as [IH1 IH2]. split.
  - cbn [rangesOrdered]. now rewrite H1, IH1.
  - intros r' [<-|Hr']; [|now apply IH2].
    simpl in H1'. now apply andb_true_iff in H1'.
Qed.

Lemma Forall2_snoc_inv (A B : Type) (R : A -> B -> Prop) (l : list A) (x : A)
  (l' : list B) :
  Forall2 R (l ++ [x]) l' -> exists l0 y, l' = l0 ++ [y] /\ Forall2 R l l0 /\ R x y.
Proof.
  intros H. apply Forall2_app_inv_l in H. destruct H as (l0 & l1 & H0 & H1 & ->).
  inversion H1 as [|? y ? l2 Hxy Hnil]; subst. inversion Hnil; subst.
  exists l0, y. now repeat split.
Qed.

(** [_removeBlock] on ranges that lie in code blocks and follow one another:
    every step succeeds, and an element that is a child of something
    else than a code block, and is not one of the containers, keeps its
    parent. *)
Lemma removeBlock_sequence (rs : list Range) :
  forall (m : Model) (us : list nat),
    modelOk m -> Forall2 (resolves (root m)) rs us -> rangesOrdered rs = true ->
    exists m',
      forEach (rev rs) removeBlockGroup m = Some (tt, m')
      /\ modelOk m'
      /\ (forall u0 nm cs b,
             In (u0, nm, cs) (nodeInfos (root m)) -> nm <> "codeBlock"%string ->
             In b cs -> ~ In b us ->
             exists cs', In (u0, nm, cs') (nodeInfos (root m')) /\ In b cs').
Proof.
  induction rs as [|r rs IH] using rev_ind; intros m us Hok Hres Hord.
  - exists m. split; [reflexivity|]. split; [exact Hok|]. intros; eauto.
  - apply Forall2_snoc_inv in Hres. destruct Hres as (us' & u & -> & Hres & Hr).
    apply rangesOrdered_snoc in Hord. destruct Hord as [Hord Hbefore].
    destruct (removeBlockGroup_step m r u Hok Hr) as (m1 & Hrun & Hok1 & Hag & Hkept).
    assert (Hres1 : Forall2 (resolves (root m1)) rs us').
    { clear - Hres Hag Hbefore.
      induction Hres as [|r' u' rs us' Hr' Hres IHres]; constructor.
      - eapply resolves_agreeLeft; [exact Hag| |exact Hr'].
        apply endsBefore_frameOf; [|apply Hbefore; now left].
        destruct Hr' as (c & _ & _ & _ & _ & _ & Hlt & _). lia.
      - apply IHres. intros r0 Hr0. apply Hbefore. now right. }
    destruct (IH m1 us' Hok1 Hres1 Hord) as (m' & Hrun' & Hok' & Hkept').
    exists m'. rewrite rev_app_distr. cbn [rev app forEach]. unfold bind.
    rewrite Hrun. split; [exact Hrun'|]. split; [exact Hok'|].
    intros u0 nm cs b Hin Hnm Hb Hnot.
    destruct (Hkept u0 nm cs b Hin Hnm Hb) as (cs1 & Hin1 & Hb1).
    { intros ->. apply Hnot, in_or_app. right. now left. }
    apply (Hkept' u0 nm cs1 b Hin1 Hnm Hb1).
    intros Hc. apply Hnot, in_or_app. now left.
Qed.

(** ** Erasing containers *)

Lemma eraseNode_unfold (F : nat -> bool) (n : Node) :
  eraseNode F n = Element (uid n) (name n) (eraseChildren F (children n)).
Proof. now destruct n. Qed.

Lemma eraseChildren_app (F : nat -> bool) (l1 l2 : list Node) :
  eraseChildren F (l1 ++ l2) = eraseChildren F l1 ++ eraseChildren F l2.
Proof. apply flat_map_app. Qed.

Lemma eraseChildren_cons_in (F : nat -> bool) (c : Node) (l : list Node) :
  F (uid c) = true ->
  eraseChildren F (c :: l) = eraseChildren F (children c) ++ eraseChildren F l.
Proof.
  intros H. unfold eraseChildren at 1. cbn [flat_map]. rewrite H.
  now rewrite eraseNode_unfold.
Qed.

Lemma eraseChildren_cons_out (F : nat -> bool) (c : Node) (l : list Node) :
  F (uid c) = false ->
  eraseChildren F (c :: l) = eraseNode F c :: eraseChildren F l.
Proof.
  intros H. unfold eraseChildren at 1. cbn [flat_map]. now rewrite H.
Qed.

Lemma eraseChildren_same (F : nat -> bool) (c c' : Node) :
  uid c' = uid c -> eraseNode F c' = eraseNode F c ->
  eraseChildren F [c'] = eraseChildren F [c].
Proof.
  intros Hu He. unfold eraseChildren. cbn [flat_map]. now rewrite Hu, He.
Qed.

Lemma uid_updateAt (p : Path) (f : Node -> option Node) (t t' : Node) :
  (forall x x', f x = Some x' -> uid x' = uid x) ->
  updateAt p f t = Some t' -> uid t' = uid t.
Proof.
  intros Hf. destruct p as [|i p]; simpl; [apply Hf|].
  destruct (nth_error (children t) i); [|discriminate].
  destruct (updateAt p f n); [|discriminate]. now intros [= <-].
Qed.

(** Replacing an element by one with the same erasure does not change the
    erasure of the tree. *)
Lemma eraseNode_replaceAt (F : nat -> bool) (Q : Path) (t t' x y : Node) :
  getNodeByPath t Q = Some x -> replaceAt Q y t = Some t' ->
  uid y = uid x -> eraseNode F y = eraseNode F x ->
  eraseNode F t' = eraseNode F t.
Proof.
  revert t t'; induction Q as [|i Q IH]; intros t t' Hx Hrep Hu He.
  - unfold replaceAt in Hrep. simpl in *. congruence.
  - unfold replaceAt in *. simpl in Hx, Hrep.
    destruct (nth_error (children t) i) as [c|] eqn:Hc; [|discriminate].
    destruct (updateAt Q (fun _ => Some y) c) as [c'|] eqn:Hu'; [|discriminate].
    injection Hrep as <-.
    assert (Hcu : uid c' = uid c).
    { destruct Q as [|j Q].
      - simpl in Hu', Hx. congruence.
      - simpl in Hu'. destruct (nth_error (children c) j); [|discriminate].
        destruct (updateAt Q _ n); [|discriminate]. now injection Hu' as <-. }
    pose proof (IH c c' Hx Hu' Hu He) as Hce.
    destruct (nth_error_decompose _ _ _ _ Hc) as [E _].
    rewrite !eraseNode_unfold. cbn [uid name children setChildren]. f_equal.
    unfold replaceChild.
    remember (firstn i (children t)) as l1. remember (skipn (S i) (children t)) as l2.
    rewrite E, !eraseChildren_app. f_equal.
    change (c' :: l2) with ([c'] ++ l2). change (c :: l2) with ([c] ++ l2).
    rewrite !eraseChildren_app. f_equal. now apply eraseChildren_same.
Qed.

Lemma eraseNode_id (F : nat -> bool) (t : Node) :
  (forall u, In u (uids t) -> F u = false) -> eraseNode F t = t.
Proof.
  induction t as [u nm cs IH] using Node_ind. intros H.
  rewrite eraseNode_unfold. cbn [uid name children]. f_equal.
  assert (Hcs : forall c, In c cs -> forall v, In v (uids c) -> F v = false).
  { intros c Hc v Hv. apply H. cbn [uids]. right. apply in_flat_map. eauto. }
  clear H. induction cs as [|c cs IHcs]; [reflexivity|].
  inversion IH as [|? ? Hc Hrest]; subst.
  rewrite eraseChildren_cons_out by (apply (Hcs c); [now left|apply uid_in_uids]).
  rewrite Hc by (apply Hcs; now left).
  f_equal. apply IHcs; [exact Hrest|]. intros c' Hc'. apply Hcs. now right.
Qed.

Lemma eraseNode_wrapChildren (F : nat -> bool) (par : Node) (u a e : nat) :
  F u = true -> a <= e -> e <= length (children par) ->
  eraseNode F (setChildren par (wrapChildren u a e (children par))) = eraseNode F par.
Proof.
  intros HF Hae Hel. destruct (split_three _ (children par) a e Hae Hel) as (E & _ & _).
  rewrite !eraseNode_unfold. cbn [uid name children setChildren]. f_equal.
  unfold wrapChildren, slice.
  remember (firstn a (children par)) as l1.
  remember (firstn (e - a) (skipn a (children par))) as l2.
  remember (skipn e (children par)) as l3.
  rewrite E, !eraseChildren_app. f_equal. now rewrite eraseChildren_cons_in.
Qed.

Lemma eraseNode_unwrapped_full (F : nat -> bool) (par c : Node) (pre post : list Node) :
  F (uid c) = true -> children par = pre ++ c :: post ->
  eraseNode F (setChildren par (pre ++ children c ++ post)) = eraseNode F par.
Proof.
  intros HF E. rewrite !eraseNode_unfold. cbn [uid name children setChildren]. f_equal.
  rewrite E, !eraseChildren_app. f_equal. now rewrite eraseChildren_cons_in.
Qed.

(** An element that is not erased is found in the erased tree, with its
    erased children. *)
Lemma nodeInfos_eraseNode (F : nat -> bool) (q : Path) (t x : Node) :
  getNodeByPath t q = Some x -> F (uid x) = false ->
  In (infoOf (eraseNode F x)) (nodeInfos (eraseNode F t)).
Proof.
  revert t; induction q as [|i q IH]; intros t Hx HF.
  - injection Hx as <-. rewrite nodeInfos_unfold. now left.
  - simpl in Hx. destruct (nth_error (children t) i) as [c|] eqn:Hc; [|discriminate].
    specialize (IH c Hx HF).
    rewrite nodeInfos_unfold. right. rewrite (eraseNode_unfold F t). cbn [children].
    apply in_flat_map. unfold eraseChildren.
    destruct (F (uid c)) eqn:Fc.
    + rewrite nodeInfos_unfold in IH. destruct IH as [IH|IH].
      * exfalso. unfold infoOf in IH. injection IH as Hu _ _.
        rewrite !eraseNode_unfold in Hu. cbn [uid] in Hu. congruence.
      * apply in_flat_map in IH. destruct IH as (c0 & Hc0 & Hin).
        exists c0. split; [|exact Hin]. apply in_flat_map. exists c.
        split; [eapply nth_error_In; eassumption|]. now rewrite Fc.
    + exists (eraseNode F c). split; [|exact IH]. apply in_flat_map. exists c.
      split; [eapply nth_error_In; eassumption|]. rewrite Fc. now left.
Qed.

(** ** The filters of [execute] *)

Lemma filterOpt_filter (A : Type) (p : A -> option bool) (l : list A) :
  (forall x, In x l -> p x <> None) ->
  filterOpt p l = Some (filter (holds p) l).
Proof.
  induction l as [|x l IH]; intros H; [reflexivity|].
  simpl. unfold holds at 1.
  destruct (p x) as [b|] eqn:E; [|exfalso; apply (H x); [now left|exact E]].
  rewrite IH by (intros y Hy; apply H; now right).
  now destruct b.
Qed.

Lemma filterOpt_None (A : Type) (p : A -> option bool) (l : list A) (x : A) :
  In x l -> p x = None -> filterOpt p l = None.
Proof.
  induction l as [|y l IH]; intros Hin Hx; [destruct Hin|].
  simpl. destruct Hin as [->|Hin].
  - now rewrite Hx.
  - rewrite (IH Hin Hx). now destruct (p y).
Qed.

Lemma toBlock_attached (schema : Schema) (t : Node) (b : nat) :
  locate b t <> None -> toBlock schema t b <> None.
Proof.
  intros H. unfold toBlock, findBlock, parentOf.
  destruct (elementParent_attached t b H) as (p & ->).
  destruct (String.eqb (name p) "codeBlock"); [discriminate|].
  destruct (checkCanBeBlocked_attached schema t b H) as (r & ->). discriminate.
Qed.

Lemma toBlock_true (schema : Schema) (t : Node) (b : nat) :
  toBlock schema t b = Some true <->
  isBlocked t b = Some true
  \/ (isBlocked t b = Some false /\ checkCanBeBlocked schema t b = Some true).
Proof.
  unfold toBlock, isBlocked.
  destruct (findBlock t (AnElement b)) as [[u|]|]; simpl.
  - split; [now left|reflexivity].
  - split; [now right|]. now intros [H|[_ H]].
  - split; [discriminate|]. now intros [H|[H _]].
Qed.

(** C9 fails as stated: a block that is already in a code block is refused
    by [checkCanBeBlocked] and still belongs to the blocks handed to the
    wrap path. *)
Lemma rejected_block_kept_counterexample :
  ~ (forall (schema : Schema) (t : Node) (blocks kept : list nat) (b : nat),
        filterOpt (toBlock schema t) blocks = Some kept ->
        In b blocks ->
        checkCanBeBlocked schema t b = Some false ->
        ~ In b kept).
Proof.
  intros H.
  apply (H openSchema docMixed [1; 2] [1; 2] 2); try reflexivity; simpl; auto.
Qed.

(** ** Applying the block *)

Lemma allSome_map_In (A B : Type) (f : A -> option B) (l : list A) (rs : list B) (r : B) :
  allSome (map f l) = Some rs -> In r rs -> exists x, In x l /\ f x = Some r.
Proof.
  revert rs; induction l as [|x l IH]; intros rs H Hin.
  - injection H as <-. destruct Hin.
  - simpl in H. destruct (f x) as [y|] eqn:E; [|discriminate].
    destruct (allSome (map f l)) as [rs'|]; [|discriminate].
    injection H as <-. destruct Hin as [<-|Hin].
    + exists x. split; [now left|exact E].
    + destruct (IH rs' eq_refl Hin) as (x' & Hx' & Hf). exists x'. split; [now right|exact Hf].
Qed.

Lemma allSome_map_length (A B : Type) (f : A -> option B) (l : list A) (rs : list B) :
  allSome (map f l) = Some rs -> length rs = length l.
Proof.
  revert rs; induction l as [|x l IH]; intros rs H.
  - now injection H as <-.
  - simpl in H. destruct (f x) as [y|]; [|discriminate].
    destruct (allSome (map f l)) as [rs'|]; [|discriminate].
    injection H as <-. simpl. f_equal. now apply IH.
Qed.

(** Every range of the grouper starts before one of the input blocks. *)
Lemma getRangesOfBlockGroups_starts (t : Node) (blocks : list nat) (rs : list Range)
  (r : Range) :
  getRangesOfBlockGroups t blocks = Some rs -> In r rs ->
  exists b, In b blocks /\ createBefore t b = Some (start r).
Proof.
  rewrite getRangesOfBlockGroups_runs. intros H Hin.
  destruct (allSome_map_In _ _ _ _ _ _ H Hin) as (run & Hrun & Hr).
  unfold rangeOfRun, rangeOfRunFrom in Hr. destruct run as [|b run]; [discriminate|].
  destruct (createBefore t b) as [s|] eqn:Es; [|discriminate].
  destruct (createAfter t (last (b :: run) b)); [|discriminate].
  injection Hr as <-. exists b. split; [|exact Es].
  rewrite <- (concat_maximalRuns t blocks).
  apply (In_concat_intro _ b (b :: run) _ Hrun). now left.
Qed.

Lemma getRangesOfBlockGroups_nonempty (t : Node) (blocks : list nat) (rs : list Range) :
  getRangesOfBlockGroups t blocks = Some rs -> blocks <> [] -> rs <> [].
Proof.
  rewrite getRangesOfBlockGroups_runs. intros H Hne ->.
  apply allSome_map_length in H. destruct blocks as [|b blocks]; [congruence|].
  destruct (maximalRuns_head t b blocks) as (run & runs & E). rewrite E in H.
  discriminate.
Qed.

(** A group whose range starts in a code block reuses it. *)
Lemma applyBlockGroup_reuse (m : Model) (acc : list nat) (r : Range) (p : Node) :
  positionParent (root m) (start r) = Some p -> isCodeBlock p = true ->
  applyBlockGroup acc r m = Some (acc ++ [uid p], m).
Proof.
  intros Hp Hn. unfold applyBlockGroup, bind, read, findBlock, parentOf.
  rewrite Hp. unfold isCodeBlock in Hn. now rewrite Hn.
Qed.

Lemma containerOf_parent (t : Node) (r : Range) (p : Node) :
  positionParent t (start r) = Some p -> containerOf t r = uid p.
Proof. intros H. unfold containerOf. now rewrite H. Qed.

Lemma foldM_applyBlockGroup_reuse (m : Model) (rs : list Range) (acc : list nat) :
  (forall r, In r rs ->
             exists p, positionParent (root m) (start r) = Some p
                       /\ isCodeBlock p = true) ->
  foldM applyBlockGroup acc rs m = Some (acc ++ map (containerOf (root m)) rs, m).
Proof.
  revert acc; induction rs as [|r rs IH]; intros acc H.
  - simpl. unfold ret. now rewrite app_nil_r.
  - destruct (H r (or_introl eq_refl)) as (p & Hp & Hn).
    cbn [foldM]. unfold bind. rewrite (applyBlockGroup_reuse m acc r p Hp Hn).
    rewrite IH by (intros r' Hr'; apply H; now right).
    cbn [map]. rewrite (containerOf_parent _ _ _ Hp), <- app_assoc. reflexivity.
Qed.

(** Two references that are not neighbours are not merged. *)
Lemma mergeStep_apart (m : Model) (cur next : nat) :
  nextSibling (root m) cur <> Some next -> mergeStep cur next m = Some (next, m).
Proof.
  intros H. unfold mergeStep, bind, read.
  destruct (eqNode (nextSibling (root m) cur) next) eqn:E; [|reflexivity].
  apply eqNode_true in E. contradiction.
Qed.

Lemma codeBlocks_apart (t : Node) (q1 q2 : Path) (p1 p2 : Node) :
  wellFormed t -> noAdjacentContainers t = true ->
  getNodeByPath t q1 = Some p1 -> isCodeBlock p1 = true ->
  getNodeByPath t q2 = Some p2 -> isCodeBlock p2 = true ->
  nextSibling t (uid p1) <> Some (uid p2).
Proof.
  intros W Hno H1 N1 H2 N2 Hs.
  destruct (nextSibling_Some _ _ _ Hs) as (q & par & i & c1 & c2 & Hq & Hc1 & Hc2 & U1 & U2).
  pose proof (getNodeByPath_snoc q i t par c1 Hq Hc1) as G1.
  pose proof (getNodeByPath_snoc q (S i) t par c2 Hq Hc2) as G2.
  destruct (getNodeByPath_uid_inj t c1 p1 _ _ W G1 H1 U1) as [_ ->].
  destruct (getNodeByPath_uid_inj t c2 p2 _ _ W G2 H2 U2) as [_ ->].
  exact (noAdjacentContainers_at q t par i p1 p2 Hno Hq Hc1 Hc2 N1 N2).
Qed.

Lemma foldM_mergeStep_apart (m : Model) (refs : list nat) (cur : nat) :
  (forall a b, In a (cur :: refs) -> In b (cur :: refs) ->
               nextSibling (root m) a <> Some b) ->
  foldM mergeStep cur refs m = Some (last refs cur, m).
Proof.
  revert cur; induction refs as [|next refs IH]; intros cur H; [reflexivity|].
  cbn [foldM]. unfold bind.
  rewrite mergeStep_apart by (apply H; simpl; auto).
  rewrite IH by (intros a b Ha Hb; apply H; now right).
  f_equal. f_equal. destruct refs as [|x refs]; [reflexivity|].
  change (last (next :: x :: refs) cur) with (last (x :: refs) cur).
  apply last_cons_default.
Qed.

Lemma getRangesOfBlockGroups_attached (t : Node) (blocks : list nat) :
  (forall b, In b blocks -> locate b t <> None) ->
  exists rs, getRangesOfBlockGroups t blocks = Some rs.
Proof.
  intros Hatt. rewrite getRangesOfBlockGroups_runs.
  destruct (allSome_map_Some _ _ (rangeOfRun t) (maximalRuns t blocks)) as (rs & Hrs & _).
  - intros run Hin. eapply rangeOfRun_attached; eassumption.
  - eauto.
Qed.

Lemma isBlocked_true_parent (t : Node) (b : nat) :
  isBlocked t b = Some true ->
  exists pos p, locate b t = Some pos /\ getNodeByPath t (ppath pos) = Some p
                /\ isCodeBlock p = true.
Proof.
  unfold isBlocked, findBlock, parentOf, elementParent, isCodeBlock.
  destruct (locate b t) as [pos|]; [|discriminate].
  destruct (getNodeByPath t (ppath pos)) as [p|] eqn:Hp; [|discriminate].
  destruct (String.eqb (name p) "codeBlock") eqn:E; [|discriminate].
  intros _. exists pos, p. now repeat split.
Qed.

(** C5 fails as stated: with two code blocks side by side and a block
    selected in each, the wrap path folds the second code block into the
    first. *)
Lemma rewrap_adjacent_containers_counterexample :
  ~ (forall (t : Node) (n : nat) (blocks : list nat) (m' : Model),
        (forall b, In b blocks -> isBlocked t b = Some true) ->
        _applyBlock blocks (mkModel t n) = Some (tt, m') ->
        root m' = t).
Proof.
  intros H.
  assert (E : _applyBlock [1; 2] (mkModel docTwoBlocks 100)
              = Some (tt, mkModel (rootOf [codeBlock 10 [paragraph 1; paragraph 2]]) 100))
    by reflexivity.
  apply H in E.
  - discriminate.
  - intros b Hb. simpl in Hb.
    repeat (destruct Hb as [<-|Hb]; [reflexivity|]). destruct Hb.
Qed.

(** C5, amended.  When every selected block is already a child of a code
    block and no two sibling code blocks of the tree are directly adjacent,
    the wrap path leaves the model as it is: no element is created, moved
    or removed, and [value] is computed as [true] afterwards.  (Adjacent
    code blocks that both hold selected blocks are merged.) *)
Theorem applyBlock_blocked_selection_unchanged (m : Model) (blocks : list nat) :
  wellFormed (root m) ->
  noAdjacentContainers (root m) = true ->
  blocks <> [] ->
  (forall b, In b blocks -> isBlocked (root m) b = Some true) ->
  _applyBlock blocks m = Some (tt, m)
  /\ forall v e, _getValue (mkEditor m blocks v e) = Some true.
Proof.
  intros W Hno Hne Hall. split.
  - assert (Hatt : forall b, In b blocks -> locate b (root m) <> None).
    { intros b Hb. destruct (isBlocked_true_parent _ _ (Hall b Hb)) as (pos & _ & -> & _).
      discriminate. }
    destruct (getRangesOfBlockGroups_attached _ _ Hatt) as (rs & Hrs).
    assert (Hpar : forall r, In r rs ->
                exists p, positionParent (root m) (start r) = Some p
                          /\ isCodeBlock p = true).
    { intros r Hr.
      destruct (getRangesOfBlockGroups_starts _ _ _ _ Hrs Hr) as (b & Hb & Hs).
      destruct (isBlocked_true_parent _ _ (Hall b Hb)) as (pos & p & L & Hp & Hn).
      unfold createBefore in Hs. rewrite L in Hs. injection Hs as <-.
      exists p. now split. }
    unfold _applyBlock, bind. unfold read at 1. rewrite Hrs.
    rewrite foldM_applyBlockGroup_reuse
      by (intros r Hr; apply Hpar; now apply in_rev).
    cbn [app]. rewrite <- map_rev, rev_involutive.
    pose proof (getRangesOfBlockGroups_nonempty _ _ _ Hrs Hne) as Hrne.
    destruct rs as [|r rs]; [congruence|]. cbn [map reduce].
    rewrite foldM_mergeStep_apart; [reflexivity|].
    intros a b Ha Hb.
    change (containerOf (root m) r :: map (containerOf (root m)) rs)
      with (map (containerOf (root m)) (r :: rs)) in Ha, Hb.
    apply in_map_iff in Ha. destruct Ha as (ra & <- & Hra).
    apply in_map_iff in Hb. destruct Hb as (rb & <- & Hrb).
    destruct (Hpar ra Hra) as (pa & Hpa & Hna).
    destruct (Hpar rb Hrb) as (pb & Hpb & Hnb).
    rewrite (containerOf_parent _ _ _ Hpa), (containerOf_parent _ _ _ Hpb).
    eapply codeBlocks_apart; eauto.
  - intros v e. unfold _getValue. cbn [selectedBlocks model].
    destruct blocks as [|b blocks]; [congruence|]. cbn [hd_error].
    apply Hall. now left.
Qed.

Lemma applyBlock_blocked_selection_unchanged_witness :
  _applyBlock [2; 3] (mkModel docPQRS 100) = Some (tt, mkModel docPQRS 100).
Proof.
  apply (applyBlock_blocked_selection_unchanged (mkModel docPQRS 100) [2; 3]).
  - unfold wellFormed. vm_compute. repeat constructor; simpl; intuition lia.
  - reflexivity.
  - discriminate.
  - intros b Hb. simpl in Hb.
    repeat (destruct Hb as [<-|Hb]; [reflexivity|]). destruct Hb.
Defined.

(** *** Wrapping one group *)

Lemma nth_error_wrapChildren (u a e : nat) (cs : list Node) :
  a <= length cs ->
  nth_error (wrapChildren u a e cs) a = Some (Element u "codeBlock" (slice a e cs)).
Proof.
  intros Ha. unfold wrapChildren.
  assert (L : length (firstn a cs) = a) by (rewrite length_firstn; lia).
  rewrite nth_error_app2 by lia. now rewrite L, Nat.sub_diag.
Qed.

Lemma wrapTree_at (t par : Node) (r : Range) (u : nat) :
  ppath (end_ r) = ppath (start r) ->
  getNodeByPath t (ppath (start r)) = Some par ->
  offset (start r) <= offset (end_ r) ->
  offset (end_ r) <= length (children par) ->
  wrapTree r u "codeBlock" t
  = replaceAt (ppath (start r))
      (setChildren par (wrapChildren u (offset (start r)) (offset (end_ r)) (children par))) t.
Proof.
  intros Hflat Hpar Hae Hel. unfold wrapTree, isFlat.
  rewrite Hflat, compareArrays_refl. unfold updateChildrenAt.
  apply (updateAt_replaceAt _ _ t par _ Hpar).
  replace (offset (start r) <=? offset (end_ r)) with true
    by (symmetry; now apply Nat.leb_le).
  replace (offset (end_ r) <=? length (children par)) with true
    by (symmetry; now apply Nat.leb_le).
  reflexivity.
Qed.

(** A group whose range does not start in a code block is wrapped in a new
    one, which is recorded. *)
Lemma applyBlockGroup_wrap (m : Model) (acc : list nat) (r : Range) (par : Node) :
  ppath (end_ r) = ppath (start r) ->
  getNodeByPath (root m) (ppath (start r)) = Some par ->
  isCodeBlock par = false ->
  offset (start r) <= offset (end_ r) ->
  offset (end_ r) <= length (children par) ->
  applyBlockGroup acc r m
  = match replaceAt (ppath (start r))
            (setChildren par
               (wrapChildren (nextUid m) (offset (start r)) (offset (end_ r)) (children par)))
            (root m) with
    | Some t' => Some (acc ++ [nextUid m], mkModel t' (S (nextUid m)))
    | None => None
    end.
Proof.
  intros Hflat Hpar Hcb Hae Hel.
  unfold applyBlockGroup. unfold bind at 1. unfold read at 1, findBlock, parentOf, positionParent.
  rewrite Hpar. unfold isCodeBlock in Hcb. rewrite Hcb.
  unfold bind at 1. unfold writer_wrap, bind, newElement, edit. cbn [root nextUid].
  rewrite (wrapTree_at (root m) par r (nextUid m) Hflat Hpar Hae Hel).
  destruct (replaceAt _ _ (root m)) as [t'|] eqn:Ht'; [|reflexivity].
  unfold read, nodeAfter, positionParent. cbn [root].
  rewrite (replaceAt_get _ _ _ _ Ht'). cbn [children setChildren].
  rewrite nth_error_wrapChildren by lia. reflexivity.
Qed.

Lemma uids_wrapChildren (par : Node) (u a e : nat) :
  a <= e -> e <= length (children par) ->
  Permutation (uids (setChildren par (wrapChildren u a e (children par))))
              (u :: uids par).
Proof.
  intros Hae Hel. destruct (split_three _ (children par) a e Hae Hel) as (E & _ & _).
  rewrite (uids_unfold par), uids_setChildren. unfold wrapChildren, slice.
  rewrite E at 4. rewrite !flat_map_app. cbn [flat_map uids]. perm_solve.
Qed.

Lemma agreeLeft_wrapChildren (par : Node) (u a e : nat) :
  a <= length (children par) ->
  agreeLeft [a] par (setChildren par (wrapChildren u a e (children par))).
Proof.
  intros Ha. apply agreeHere; try reflexivity.
  cbn [children setChildren]. unfold wrapChildren.
  rewrite firstn_app, firstn_firstn, Nat.min_id, length_firstn.
  replace (a - Nat.min a (length (children par))) with 0 by lia.
  simpl. now rewrite app_nil_r.
Qed.

(** ** Paths after a wrap *)

Lemma nth_error_wrapChildren_before (u a e x : nat) (cs : list Node) :
  a <= length cs -> x < a -> nth_error (wrapChildren u a e cs) x = nth_error cs x.
Proof.
  intros Ha Hx. unfold wrapChildren.
  rewrite nth_error_app1 by (rewrite length_firstn; lia).
  rewrite nth_error_firstn.
  now replace (x <? a) with true by (symmetry; now apply Nat.ltb_lt).
Qed.

Lemma nth_error_slice (a e x : nat) (cs : list Node) :
  a <= x -> x < e -> nth_error (slice a e cs) (x - a) = nth_error cs x.
Proof.
  intros Ha He. unfold slice. rewrite nth_error_firstn.
  replace (x - a <? e - a) with true by (symmetry; apply Nat.ltb_lt; lia).
  rewrite nth_error_skipn. f_equal. lia.
Qed.

Lemma nth_error_wrapChildren_after (u a e x : nat) (cs : list Node) :
  a <= e -> e <= length cs -> e <= x ->
  nth_error (wrapChildren u a e cs) (S a + (x - e)) = nth_error cs x.
Proof.
  intros Hae Hel Hx. unfold wrapChildren.
  rewrite nth_error_app2 by (rewrite length_firstn; lia).
  rewrite length_firstn.
  replace (S a + (x - e) - Nat.min a (length cs)) with (S (x - e)) by lia.
  cbn [nth_error]. rewrite nth_error_skipn. f_equal. lia.
Qed.

Lemma nth_error_replaceChild_ne (cs : list Node) (i x : nat) (c c' : Node) :
  nth_error cs i = Some c -> x <> i ->
  nth_error (replaceChild i c' cs) x = nth_error cs x.
Proof.
  intros Hc Hne. destruct (nth_error_decompose _ _ _ _ Hc) as [E L].
  unfold replaceChild. rewrite E at 3.
  destruct (Nat.lt_ge_cases x i) as [Hlt|Hge].
  - rewrite !nth_error_app1 by lia. reflexivity.
  - rewrite !nth_error_app2 by lia. rewrite L.
    destruct (x - i) as [|k] eqn:Ek; [lia|reflexivity].
Qed.

(** After a wrap every element is found at the shifted path. *)
Lemma getNodeByPath_shift (P : Path) (u a e : nat) :
  forall (t t' par : Node),
    getNodeByPath t P = Some par ->
    a <= e -> e <= length (children par) ->
    replaceAt P (setChildren par (wrapChildren u a e (children par))) t = Some t' ->
    forall p n, getNodeByPath t p = Some n ->
                exists n', getNodeByPath t' (shiftPath P a e p) = Some n'
                           /\ uid n' = uid n /\ name n' = name n.
Proof.
  induction P as [|i P IH]; intros t t' par Hpar Hae Hel Hrep p n Hn.
  - injection Hpar as ->. unfold replaceAt in Hrep. simpl in Hrep. injection Hrep as <-.
    destruct p as [|x r].
    + injection Hn as <-. eexists. now repeat split.
    + cbn [getNodeByPath] in Hn.
      destruct (nth_error (children par) x) as [c|] eqn:Hc; [|discriminate].
      exists n. cbn [shiftPath].
      destruct (x <? a) eqn:Hxa; [|destruct (x <? e) eqn:Hxe].
      * apply Nat.ltb_lt in Hxa. cbn [getNodeByPath children setChildren].
        rewrite nth_error_wrapChildren_before, Hc by lia. now repeat split.
      * apply Nat.ltb_ge in Hxa. apply Nat.ltb_lt in Hxe.
        cbn [getNodeByPath children setChildren].
        rewrite nth_error_wrapChildren by lia. cbn [children].
        rewrite nth_error_slice, Hc by assumption. now repeat split.
      * apply Nat.ltb_ge in Hxa. apply Nat.ltb_ge in Hxe.
        cbn [getNodeByPath children setChildren].
        rewrite nth_error_wrapChildren_after, Hc by assumption. now repeat split.
  - unfold replaceAt in Hrep. cbn [getNodeByPath updateAt] in Hpar, Hrep.
    destruct (nth_error (children t) i) as [c|] eqn:Hc; [|discriminate].
    destruct (updateAt P _ c) as [c'|] eqn:Hu; [|discriminate].
    injection Hrep as <-.
    destruct p as [|x r].
    + injection Hn as <-. eexists. cbn [shiftPath getNodeByPath]. now repeat split.
    + cbn [getNodeByPath] in Hn.
      destruct (nth_error (children t) x) as [cx|] eqn:Hx; [|discriminate].
      cbn [shiftPath]. destruct (x =? i) eqn:Hxi.
      * apply Nat.eqb_eq in Hxi. subst x. rewrite Hc in Hx. injection Hx as <-.
        destruct (IH c c' par Hpar Hae Hel Hu r n Hn) as (n' & Hn' & Hun).
        exists n'. cbn [getNodeByPath children setChildren].
        rewrite (nth_error_replaceChild _ _ _ c' Hc). now split.
      * apply Nat.eqb_neq in Hxi. exists n.
        cbn [getNodeByPath children setChildren].
        rewrite (nth_error_replaceChild_ne _ _ _ _ c' Hc Hxi), Hx. now repeat split.
Qed.

Lemma shiftPath_nonempty (P : Path) (a e : nat) (p : Path) :
  p <> [] -> shiftPath P a e p <> [].
Proof.
  destruct p as [|x r]; [congruence|]. intros _.
  destruct P as [|i P]; cbn [shiftPath].
  - destruct (x <? a); [discriminate|]. destruct (x <? e); discriminate.
  - destruct (x =? i); discriminate.
Qed.

Lemma precedes_cons_same (x : nat) (p q : Path) :
  precedes (x :: p) (x :: q) = precedes p q.
Proof. cbn [precedes]. now rewrite Nat.ltb_irrefl, Nat.eqb_refl. Qed.

Lemma precedes_cons_lt (x y : nat) (p q : Path) :
  x < y -> precedes (x :: p) (y :: q) = true.
Proof.
  intros H. cbn [precedes]. apply orb_true_iff. left. now apply Nat.ltb_lt.
Qed.

(** Wrapping keeps the document order of paths. *)
Lemma precedes_shiftPath (P : Path) (a e : nat) (p q : Path) :
  a < e -> precedes p q = true ->
  precedes (shiftPath P a e p) (shiftPath P a e q) = true.
Proof.
  intros Hae. revert p q; induction P as [|i P IH]; intros p q H.
  - destruct p as [|x r], q as [|y s]; try discriminate.
    cbn [precedes] in H. apply orb_true_iff in H. cbn [shiftPath].
    destruct H as [H|H].
    + apply Nat.ltb_lt in H.
      destruct (Nat.ltb_spec x a), (Nat.ltb_spec y a);
        destruct (Nat.ltb_spec x e), (Nat.ltb_spec y e);
        try lia; try (apply precedes_cons_lt; lia).
      rewrite precedes_cons_same. apply precedes_cons_lt. lia.
    + apply andb_true_iff in H. destruct H as [Hxy H].
      apply Nat.eqb_eq in Hxy. subst y.
      destruct (x <? a); [now rewrite precedes_cons_same|].
      destruct (x <? e); now rewrite !precedes_cons_same.
  - destruct p as [|x r], q as [|y s]; try discriminate.
    cbn [precedes] in H. apply orb_true_iff in H. cbn [shiftPath].
    destruct H as [H|H].
    + apply Nat.ltb_lt in H.
      destruct (x =? i), (y =? i); apply precedes_cons_lt; exact H.
    + apply andb_true_iff in H. destruct H as [Hxy H].
      apply Nat.eqb_eq in Hxy. subst y.
      destruct (x =? i); rewrite precedes_cons_same; [now apply IH|exact H].
Qed.

Lemma locate_fullPath (t : Node) (b : nat) (pos : Position) :
  locate b t = Some pos ->
  exists c, getNodeByPath t (fullPath pos) = Some c /\ uid c = b.
Proof.
  intros L. destruct (locate_sound _ _ _ L) as (par & c & Hp & Hc & Hu).
  exists c. split; [|exact Hu]. unfold fullPath. eapply getNodeByPath_snoc; eassumption.
Qed.

Lemma locate_of_fullPath (t : Node) (p : Path) (c : Node) :
  wellFormed t -> p <> [] -> getNodeByPath t p = Some c ->
  exists pos, locate (uid c) t = Some pos /\ fullPath pos = p.
Proof.
  intros W Hne Hc. destruct (path_cases p) as [->|(q & i & ->)]; [congruence|].
  destruct (getNodeByPath_snoc_inv _ _ _ _ Hc) as (par & Hq & Hi).
  exists (mkPosition q i). split; [|reflexivity].
  eapply locate_complete; eassumption.
Qed.

Section WrapShift.

Variables (P : Path) (u a e : nat) (t t' par : Node).
Hypothesis Hpar : getNodeByPath t P = Some par.
Hypothesis Hae : a < e.
Hypothesis Hel : e <= length (children par).
Hypothesis Hrep :
  replaceAt P (setChildren par (wrapChildren u a e (children par))) t = Some t'.
Hypothesis W' : wellFormed t'.

Lemma locate_shift (b : nat) (pos : Position) :
  locate b t = Some pos ->
  exists pos', locate b t' = Some pos'
               /\ fullPath pos' = shiftPath P a e (fullPath pos).
Proof.
  intros L. destruct (locate_fullPath _ _ _ L) as (c & Hc & Hu).
  destruct (getNodeByPath_shift P u a e t t' par Hpar (Nat.lt_le_incl _ _ Hae) Hel Hrep
              _ _ Hc) as (n' & Hn' & Hun & _).
  destruct (locate_of_fullPath t' (shiftPath P a e (fullPath pos)) n' W') as (pos' & L' & Hf).
  - apply shiftPath_nonempty. unfold fullPath. now destruct (ppath pos).
  - exact Hn'.
  - exists pos'. split; [congruence|exact Hf].
Qed.

Lemma blockBefore_shift (b b' : nat) :
  blockBefore t b b' = true -> blockBefore t' b b' = true.
Proof.
  unfold blockBefore.
  destruct (locate b t) as [pos|] eqn:L; [|discriminate].
  destruct (locate b' t) as [pos'|] eqn:L'; [|discriminate].
  destruct (locate_shift _ _ L) as (s & -> & Hs).
  destruct (locate_shift _ _ L') as (s' & -> & Hs').
  rewrite Hs, Hs'. now apply precedes_shiftPath.
Qed.

Lemma inDocumentOrder_shift (blocks : list nat) :
  inDocumentOrder t blocks = true -> inDocumentOrder t' blocks = true.
Proof.
  induction blocks as [|b blocks IH]; intros H; [reflexivity|].
  cbn [inDocumentOrder] in *. apply andb_true_iff in H. destruct H as [H1 H2].
  rewrite (IH H2), andb_true_r. rewrite forallb_forall in *.
  intros x Hx. apply blockBefore_shift, H1, Hx.
Qed.

Lemma attached_shift (b : nat) : locate b t <> None -> locate b t' <> None.
Proof.
  intros H. destruct (locate b t) as [pos|] eqn:L; [|congruence].
  destruct (locate_shift _ _ L) as (s & -> & _). discriminate.
Qed.

End WrapShift.

(** ** The ranges of the groups, in the tree *)

(** The blocks of a run are siblings at consecutive offsets. *)
Lemma isRun_positions (t : Node) (run : list nat) :
  wellFormed t -> isRun t run ->
  forall b pos, hd_error run = Some b -> locate b t = Some pos ->
  forall i x, nth_error run i = Some x ->
              locate x t = Some (mkPosition (ppath pos) (offset pos + i)).
Proof.
  intros W. induction run as [|b0 run IH]; intros Hrun b pos Hhd Hloc i x Hx;
    [destruct Hrun|].
  injection Hhd as ->. destruct i as [|i].
  - injection Hx as <-. rewrite Nat.add_0_r. now destruct pos.
  - destruct run as [|nb run]; [now destruct i|]. destruct Hrun as [Hadj Hrun].
    destruct (nextSibling_Some _ _ _ Hadj)
      as (q & par & j & c1 & c2 & Hq & Hc1 & Hc2 & U1 & U2).
    pose proof (locate_unique t b pos q j par c1 W Hloc Hq Hc1 U1) as ->.
    pose proof (locate_complete q (S j) t par c2 W Hq Hc2) as L2. rewrite U2 in L2.
    rewrite (IH Hrun nb _ eq_refl L2 i x Hx). cbn [ppath offset].
    f_equal. f_equal. lia.
Qed.

Lemma nth_error_last (A : Type) (l : list A) (x d : A) :
  nth_error (x :: l) (length l) = Some (last (x :: l) d).
Proof.
  revert x; induction l as [|y l IH]; intros x; [reflexivity|].
  change (nth_error (y :: l) (length l) = Some (last (y :: l) d)). apply IH.
Qed.

(** The range of a run, given where its first block is. *)
Lemma rangeOfRun_positions (t : Node) (b : nat) (run : list nat) (pos : Position) :
  wellFormed t -> isRun t (b :: run) -> locate b t = Some pos ->
  rangeOfRun t (b :: run)
  = Some (mkRange pos (mkPosition (ppath pos) (S (offset pos + length run))))
  /\ locate (last (b :: run) b) t = Some (mkPosition (ppath pos) (offset pos + length run)).
Proof.
  intros W Hrun Hloc.
  pose proof (isRun_positions t (b :: run) W Hrun b pos eq_refl Hloc (length run)
                (last (b :: run) b) (nth_error_last _ run b b)) as Hlast.
  split; [|exact Hlast].
  unfold rangeOfRun, rangeOfRunFrom, createBefore, createAfter.
  now rewrite Hloc, Hlast.
Qed.

Lemma precedes_endsBefore (P : Path) (e : nat) (p : Path) :
  precedes (P ++ [e]) p = true -> endsBefore P (S e) p = true.
Proof.
  revert p; induction P as [|x P IH]; intros p H.
  - destruct p as [|y r]; [discriminate|]. cbn [app precedes endsBefore] in *.
    rewrite andb_false_r, orb_false_r in H.
    apply Nat.ltb_lt in H. apply Nat.leb_le. lia.
  - destruct p as [|y r]; [discriminate|]. cbn [app precedes endsBefore] in *.
    apply orb_true_iff in H. apply orb_true_iff. destruct H as [H|H]; [now left|].
    right. apply andb_true_iff in H. apply andb_true_iff.
    destruct H as [H1 H2]. split; [exact H1|now apply IH].
Qed.

Lemma inDocumentOrder_app (t : Node) (l1 l2 : list nat) :
  inDocumentOrder t (l1 ++ l2) = true ->
  inDocumentOrder t l1 = true /\ inDocumentOrder t l2 = true
  /\ forall x y, In x l1 -> In y l2 -> blockBefore t x y = true.
Proof.
  induction l1 as [|a l1 IH]; intros H.
  - split; [reflexivity|]. split; [exact H|]. intros x y [].
  - cbn [app inDocumentOrder] in H. apply andb_true_iff in H. destruct H as [H1 H2].
    rewrite forallb_app in H1. apply andb_true_iff in H1. destruct H1 as [H1 H1'].
    destruct (IH H2) as (I1 & I2 & I3). split; [|split].
    + cbn [inDocumentOrder]. now rewrite H1, I1.
    + exact I2.
    + intros x y [<-|Hx] Hy; [|now apply I3].
      rewrite forallb_forall in H1'. now apply H1'.
Qed.

Lemma inDocumentOrder_filter (t : Node) (f : nat -> bool) (l : list nat) :
  inDocumentOrder t l = true -> inDocumentOrder t (filter f l) = true.
Proof.
  induction l as [|a l IH]; intros H; [reflexivity|].
  cbn [inDocumentOrder] in H. apply andb_true_iff in H. destruct H as [H1 H2].
  cbn [filter]. destruct (f a); [|now apply IH].
  cbn [inDocumentOrder]. rewrite (IH H2), andb_true_r.
  rewrite forallb_forall in *. intros x Hx. apply H1.
  apply filter_In in Hx. tauto.
Qed.

Lemma rangeOfRun_start (t : Node) (run : list nat) (r : Range) :
  rangeOfRun t run = Some r ->
  exists b rest, run = b :: rest /\ locate b t = Some (start r).
Proof.
  unfold rangeOfRun, rangeOfRunFrom, createBefore. destruct run as [|b rest]; [discriminate|].
  destruct (locate b t) as [s|] eqn:L; [|discriminate].
  destruct (createAfter t (last (b :: rest) b)); [|discriminate].
  intros [= <-]. now exists b, rest.
Qed.

(** The ranges of runs of blocks that are children of code blocks, listed
    in document order: each lies in its code block, and they follow one
    another. *)
Lemma runs_ranges (t : Node) (runs : list (list nat)) :
  wellFormed t -> isCodeBlock t = false ->
  Forall (isRun t) runs ->
  (forall b, In b (concat runs) -> isBlocked t b = Some true) ->
  inDocumentOrder t (concat runs) = true ->
  exists rs,
    allSome (map (rangeOfRun t) runs) = Some rs
    /\ Forall2 (resolves t) rs (map (containerOf t) rs)
    /\ rangesOrdered rs = true.
Proof.
  intros W Hroot. induction runs as [|run runs IH]; intros Hruns Hblocked Hord.
  - exists []. now repeat split.
  - inversion Hruns as [|? ? Hrun Hruns']; subst.
    cbn [concat] in Hblocked, Hord.
    destruct (inDocumentOrder_app _ _ _ Hord) as (_ & Hord' & Hcross).
    destruct IH as (rs & Hrs & Hres & Hso); [exact Hruns'| |exact Hord'|].
    { intros b Hb. apply Hblocked, in_or_app. now right. }
    destruct run as [|b rest]; [destruct Hrun|].
    destruct (isBlocked_true_parent t b) as (pos & p & Hloc & Hp & Hcb).
    { apply Hblocked, in_or_app. left. now left. }
    destruct (rangeOfRun_positions t b rest pos W Hrun Hloc) as [Hr Hlast].
    set (r := mkRange pos (mkPosition (ppath pos) (S (offset pos + length rest)))) in *.
    exists (r :: rs). cbn [map allSome]. rewrite Hr, Hrs. split; [reflexivity|].
    split; [constructor; [|exact Hres]|].
    + exists p. unfold r. cbn [start end_ ppath offset].
      repeat split; try assumption; try lia.
      * intros Hnil. rewrite Hnil in Hp. injection Hp as <-. congruence.
      * unfold containerOf, positionParent. cbn [start]. now rewrite Hp.
      * destruct (locate_sound _ _ _ Hlast) as (p' & c & Hp' & Hc & _).
        cbn [ppath offset] in *. rewrite Hp in Hp'. injection Hp' as <-.
        assert (Hlt : offset pos + length rest < length (children p))
          by (apply nth_error_Some; congruence).
        lia.
    + cbn [rangesOrdered]. rewrite Hso, andb_true_r. apply forallb_forall.
      intros r' Hr'.
      destruct (allSome_map_In _ _ _ _ _ _ Hrs Hr') as (run' & Hrun' & Hrr').
      destruct (rangeOfRun_start _ _ _ Hrr') as (b' & rest' & -> & Hloc').
      assert (Hbb : blockBefore t (last (b :: rest) b) b' = true).
      { apply Hcross; [apply last_In|].
        apply (In_concat_intro _ b' (b' :: rest') _ Hrun'). now left. }
      unfold blockBefore in Hbb. rewrite Hlast, Hloc' in Hbb.
      unfold rangeBefore, r. cbn [start end_ ppath offset].
      apply precedes_endsBefore. exact Hbb.
Qed.

Lemma precedes_extension_l (p r : Path) : precedes p (p ++ r) = false.
Proof.
  induction p as [|x p IH]; [reflexivity|].
  cbn [app precedes]. now rewrite Nat.ltb_irrefl, Nat.eqb_refl, IH.
Qed.

Lemma precedes_extension_r (p r : Path) : precedes (p ++ r) p = false.
Proof.
  induction p as [|x p IH]; [now destruct r|].
  cbn [app precedes]. now rewrite Nat.ltb_irrefl, Nat.eqb_refl, IH.
Qed.

Lemma inDocumentOrder_pair (t : Node) (l : list nat) (x y : nat) :
  inDocumentOrder t l = true -> In x l -> In y l -> x <> y ->
  blockBefore t x y = true \/ blockBefore t y x = true.
Proof.
  induction l as [|a l IH]; intros H Hx Hy Hne; [destruct Hx|].
  cbn [inDocumentOrder] in H. apply andb_true_iff in H. destruct H as [H1 H2].
  rewrite forallb_forall in H1.
  destruct Hx as [->|Hx], Hy as [->|Hy].
  - congruence.
  - left. now apply H1.
  - right. now apply H1.
  - now apply IH.
Qed.

(** No selected block is the container of another selected block. *)
Lemma container_not_selected (t : Node) (sel : list nat) (b b1 : nat) (p : Node) :
  wellFormed t -> inDocumentOrder t sel = true ->
  In b sel -> In b1 sel -> b <> b1 ->
  elementParent t b1 = Some p -> uid p <> b.
Proof.
  intros W Hord Hb Hb1 Hne Hp Hu.
  unfold elementParent in Hp. destruct (locate b1 t) as [pos1|] eqn:L1; [|discriminate].
  destruct (inDocumentOrder_pair t sel b b1 Hord Hb Hb1 Hne) as [H|H];
    unfold blockBefore in H; rewrite L1 in H;
    destruct (locate b t) as [pos|] eqn:L; try discriminate.
  - destruct (locate_sound _ _ _ L) as (par & c & Hpar & Hc & Hcu).
    pose proof (getNodeByPath_snoc _ _ _ _ _ Hpar Hc) as Hfull.
    destruct (getNodeByPath_uid_inj t c p _ _ W Hfull Hp) as [Heq _]; [congruence|].
    unfold fullPath in H. rewrite Heq, precedes_extension_l in H. discriminate.
  - destruct (locate_sound _ _ _ L) as (par & c & Hpar & Hc & Hcu).
    pose proof (getNodeByPath_snoc _ _ _ _ _ Hpar Hc) as Hfull.
    destruct (getNodeByPath_uid_inj t c p _ _ W Hfull Hp) as [Heq _]; [congruence|].
    unfold fullPath in H. rewrite Heq, precedes_extension_r in H. discriminate.
Qed.

(** ** Wrapping and then unwrapping *)

Lemma skipn_nth_error (A : Type) (l : list A) (a : nat) (x : A) :
  nth_error l a = Some x -> skipn a l = x :: skipn (S a) l.
Proof.
  revert a; induction l as [|y l IH]; intros [|a] H; try discriminate.
  - now injection H as ->.
  - simpl in H. rewrite skipn_cons, (IH _ H). reflexivity.
Qed.

Lemma uids_of_positions (cs : list Node) (run : list nat) :
  forall a,
    (forall i x, nth_error run i = Some x ->
                 exists c, nth_error cs (a + i) = Some c /\ uid c = x) ->
    map uid (slice a (a + length run) cs) = run.
Proof.
  unfold slice. induction run as [|x run IH]; intros a H.
  - now rewrite Nat.add_0_r, Nat.sub_diag.
  - destruct (H 0 x eq_refl) as (c & Hc & Hu). rewrite Nat.add_0_r in Hc.
    replace (a + length (x :: run) - a) with (S (length run)) by (simpl; lia).
    rewrite (skipn_nth_error _ _ _ _ Hc). cbn [firstn map]. rewrite Hu. f_equal.
    specialize (IH (S a)).
    replace (S a + length run - S a) with (length run) in IH by lia.
    apply IH. intros i y Hy. destruct (H (S i) y Hy) as (c' & Hc' & Hu').
    exists c'. split; [|exact Hu']. now replace (S a + i) with (a + S i) by lia.
Qed.

Lemma checkCanBeBlocked_not_blocked (schema : Schema) (t : Node) (b : nat) :
  checkCanBeBlocked schema t b = Some true -> isBlocked t b = Some false.
Proof.
  intros H.
  assert (Hatt : locate b t <> None).
  { unfold checkCanBeBlocked in H. now destruct (locate b t). }
  destruct (isBlocked_attached t b Hatt) as ([|] & Hr); [|exact Hr].
  exfalso. destruct (isBlocked_true_parent _ _ Hr) as (pos & p & Hloc & Hp & Hcb).
  unfold checkCanBeBlocked in H. rewrite Hloc in H.
  destruct (elementNode t b); [|discriminate].
  destruct (namesAlong_last _ _ _ Hp) as (init & Hn). rewrite Hn in H.
  unfold isCodeBlock in Hcb. apply String.eqb_eq in Hcb.
  rewrite Hcb, checkChild_in_codeBlock in H. discriminate.
Qed.

Lemma isBlocked_false_parent (t : Node) (b : nat) :
  isBlocked t b = Some false ->
  exists pos p, locate b t = Some pos /\ getNodeByPath t (ppath pos) = Some p
                /\ isCodeBlock p = false.
Proof.
  unfold isBlocked, findBlock, parentOf, elementParent, isCodeBlock.
  destruct (locate b t) as [pos|]; [|discriminate].
  destruct (getNodeByPath t (ppath pos)) as [p|] eqn:Hp; [|discriminate].
  destruct (String.eqb (name p) "codeBlock") eqn:E; [discriminate|].
  intros _. exists pos, p. now repeat split.
Qed.

(** The ranges of runs of blocks of which none is in a code block. *)
Lemma runs_groups_bare (t : Node) (runs : list (list nat)) :
  wellFormed t ->
  Forall (isRun t) runs ->
  (forall b, In b (concat runs) -> isBlocked t b = Some false) ->
  inDocumentOrder t (concat runs) = true ->
  exists rs,
    allSome (map (rangeOfRun t) runs) = Some rs
    /\ Forall2 (bareGroup t) rs runs
    /\ rangesOrdered rs = true.
Proof.
  intros W. induction runs as [|run runs IH]; intros Hruns Hblocked Hord.
  - exists []. now repeat split.
  - inversion Hruns as [|? ? Hrun Hruns']; subst.
    cbn [concat] in Hblocked, Hord.
    destruct (inDocumentOrder_app _ _ _ Hord) as (_ & Hord' & Hcross).
    destruct IH as (rs & Hrs & Hres & Hso); [exact Hruns'| |exact Hord'|].
    { intros b Hb. apply Hblocked, in_or_app. now right. }
    destruct run as [|b rest]; [destruct Hrun|].
    destruct (isBlocked_false_parent t b) as (pos & p & Hloc & Hp & Hcb).
    { apply Hblocked, in_or_app. left. now left. }
    destruct (rangeOfRun_positions t b rest pos W Hrun Hloc) as [Hr Hlast].
    set (r := mkRange pos (mkPosition (ppath pos) (S (offset pos + length rest)))) in *.
    exists (r :: rs). cbn [map allSome]. rewrite Hr, Hrs. split; [reflexivity|].
    split; [constructor; [|exact Hres]|].
    + exists p. unfold r. cbn [start end_ ppath offset].
      repeat split; try assumption; try lia.
      * destruct (locate_sound _ _ _ Hlast) as (p' & c & Hp' & Hc & _).
        cbn [ppath offset] in *. rewrite Hp in Hp'. injection Hp' as <-.
        assert (Hlt : offset pos + length rest < length (children p))
          by (apply nth_error_Some; congruence).
        lia.
      * replace (S (offset pos + length rest))
          with (offset pos + length (b :: rest)) by (simpl; lia).
        apply uids_of_positions. intros i x Hx.
        pose proof (isRun_positions t (b :: rest) W Hrun b pos eq_refl Hloc i x Hx) as Lx.
        destruct (locate_sound _ _ _ Lx) as (p' & c & Hp' & Hc & Hu).
        cbn [ppath offset] in *. rewrite Hp in Hp'. injection Hp' as <-.
        now exists c.
    + cbn [rangesOrdered]. rewrite Hso, andb_true_r. apply forallb_forall.
      intros r' Hr'.
      destruct (allSome_map_In _ _ _ _ _ _ Hrs Hr') as (run' & Hrun' & Hrr').
      destruct (rangeOfRun_start _ _ _ Hrr') as (b' & rest' & -> & Hloc').
      assert (Hbb : blockBefore t (last (b :: rest) b) b' = true).
      { apply Hcross; [apply last_In|].
        apply (In_concat_intro _ b' (b' :: rest') _ Hrun'). now left. }
      unfold blockBefore in Hbb. rewrite Hlast, Hloc' in Hbb.
      unfold rangeBefore, r. cbn [start end_ ppath offset].
      apply precedes_endsBefore. exact Hbb.
Qed.

Lemma agreeLeft_name (p : Path) (t t' : Node) : agreeLeft p t t' -> name t' = name t.
Proof. intros H. inversion H; subst; congruence. Qed.

(** One step of the wrap pass on a group of blocks outside code blocks. *)
Lemma applyBlockGroup_step (m : Model) (acc : list nat) (r : Range) (run : list nat) :
  modelOk m -> bareGroup (root m) r run ->
  exists t',
    applyBlockGroup acc r m = Some (acc ++ [nextUid m], mkModel t' (S (nextUid m)))
    /\ modelOk (mkModel t' (S (nextUid m)))
    /\ agreeLeft (fullPath (start r)) (root m) t'
    /\ (forall F, F (nextUid m) = true -> eraseNode F t' = eraseNode F (root m))
    /\ Permutation (uids t') (nextUid m :: uids (root m))
    /\ (forall sel, inDocumentOrder (root m) sel = true -> inDocumentOrder t' sel = true)
    /\ (forall b, locate b (root m) <> None -> locate b t' <> None)
    /\ In (nextUid m, "codeBlock"%string, run) (nodeInfos t')
    /\ (forall u cs, In (u, "codeBlock"%string, cs) (nodeInfos (root m)) ->
                     In (u, "codeBlock"%string, cs) (nodeInfos t')).
Proof.
  intros Hok (par & Hpe & Hpar & Hcb & Hae & Hel & Hrun).
  assert (Hae' : offset (start r) <= offset (end_ r)) by lia.
  pose proof (applyBlockGroup_wrap m acc r par Hpe Hpar Hcb Hae' Hel) as Hstep.
  set (y := setChildren par
              (wrapChildren (nextUid m) (offset (start r)) (offset (end_ r)) (children par)))
    in *.
  destruct (replaceAt_total (ppath (start r)) y par (root m) Hpar) as (t' & Hrep).
  rewrite Hrep in Hstep. exists t'.
  assert (Hperm : Permutation (uids t') (nextUid m :: uids (root m))).
  { apply (uids_replaceAt_perm _ _ _ _ _ [] [nextUid m] Hpar Hrep).
    apply uids_wrapChildren; assumption. }
  assert (Hok' : modelOk (mkModel t' (S (nextUid m)))).
  { apply (modelOk_fresh (root m)); [exact Hperm|now destruct m]. }
  split; [exact Hstep|]. split; [exact Hok'|].
  split.
  { unfold fullPath. apply (agreeLeft_replaceAt _ _ _ _ par y Hpar Hrep).
    apply agreeLeft_wrapChildren. lia. }
  split.
  { intros F HF. apply (eraseNode_replaceAt F _ _ _ par y Hpar Hrep); [reflexivity|].
    apply eraseNode_wrapChildren; assumption. }
  split; [exact Hperm|].
  split.
  { intros sel. apply (inDocumentOrder_shift _ _ _ _ _ _ par Hpar Hae Hel Hrep (proj1 Hok')). }
  split.
  { intros b. apply (attached_shift _ _ _ _ _ _ par Hpar Hae Hel Hrep (proj1 Hok')). }
  split.
  { rewrite <- Hrun.
    change (nextUid m, "codeBlock"%string,
            map uid (slice (offset (start r)) (offset (end_ r)) (children par)))
      with (infoOf (Element (nextUid m) "codeBlock"
                      (slice (offset (start r)) (offset (end_ r)) (children par)))).
    apply (nodeInfos_getNodeByPath (ppath (start r) ++ [offset (start r)])).
    apply (getNodeByPath_snoc _ _ _ _ _ (replaceAt_get _ _ _ _ Hrep)).
    apply nth_error_wrapChildren. lia. }
  intros u cs Hin.
  destruct (nodeInfos_replaceAt _ _ _ _ _ Hpar Hrep eq_refl eq_refl)
    as (pre & post & E & E').
  rewrite E in Hin. rewrite E'.
  apply in_app_or in Hin. destruct Hin as [Hin|Hin]; [apply in_or_app; now left|].
  apply in_app_or in Hin. destruct Hin as [Hin|Hin];
    [|apply in_or_app; right; apply in_or_app; now right].
  apply in_or_app; right; apply in_or_app; left.
  rewrite nodeInfos_unfold in Hin |- *. destruct Hin as [Hin|Hin].
  { exfalso. unfold infoOf in Hin. injection Hin as _ Hn _.
    unfold isCodeBlock in Hcb. rewrite Hn, String.eqb_refl in Hcb. discriminate. }
  right. unfold y. cbn [children setChildren]. unfold wrapChildren.
  destruct (split_three _ (children par) _ _ Hae' Hel) as (E3 & _ & _).
  rewrite E3 in Hin. rewrite !flat_map_app in Hin.
  rewrite flat_map_app. cbn [flat_map]. rewrite nodeInfos_unfold. cbn [children].
  unfold slice.
  apply in_app_or in Hin. destruct Hin as [Hin|Hin]; [apply in_or_app; now left|].
  apply in_or_app; right.
  apply in_app_or in Hin. destruct Hin as [Hin|Hin].
  - apply in_or_app; left. now right.
  - apply in_or_app; now right.
Qed.

Lemma slice_firstn (a e : nat) (cs cs' : list Node) :
  a <= e -> firstn e cs' = firstn e cs -> slice a e cs' = slice a e cs.
Proof.
  intros Hae H. unfold slice. rewrite !firstn_skipn_comm.
  replace (a + (e - a)) with e by lia. now rewrite H.
Qed.

Lemma bareGroup_agreeLeft (p : Path) (t t' : Node) (r : Range) (run : list nat) :
  agreeLeft p t t' ->
  endsBefore (ppath (start r)) (offset (end_ r)) p = true ->
  bareGroup t r run -> bareGroup t' r run.
Proof.
  intros Hag Hb (par & Hpe & Hpar & Hcb & Hae & Hel & Hrun).
  destruct (agreeLeft_endsBefore _ _ _ _ _ _ Hag Hb Hpar Hel)
    as (c' & Hc' & Hu & Hn & Hf & Hl).
  exists c'. repeat split; try assumption.
  - unfold isCodeBlock in *. now rewrite Hn.
  - rewrite (slice_firstn _ _ _ _ (Nat.lt_le_incl _ _ Hae) Hf). exact Hrun.
Qed.

Lemma Forall2_bareGroup_agreeLeft (p : Path) (t t' : Node) (rs : list Range)
  (runs : list (list nat)) :
  agreeLeft p t t' ->
  (forall r, In r rs -> endsBefore (ppath (start r)) (offset (end_ r)) p = true) ->
  Forall2 (bareGroup t) rs runs -> Forall2 (bareGroup t') rs runs.
Proof.
  intros Hag Hb H. induction H as [|r run rs runs Hr H IH]; constructor.
  - apply (bareGroup_agreeLeft p t); [exact Hag|apply Hb; now left|exact Hr].
  - apply IH. intros r' Hr'. apply Hb. now right.
Qed.

(** The wrap pass over groups of blocks outside code blocks, last group
    first: each group gets a code block of its own. *)
Lemma applyBlock_sequence (rs : list Range) :
  forall (m : Model) (runs : list (list nat)) (acc : list nat),
    modelOk m -> Forall2 (bareGroup (root m)) rs runs -> rangesOrdered rs = true ->
    exists t',
      foldM applyBlockGroup acc (rev rs) m
      = Some (acc ++ seq (nextUid m) (length rs), mkModel t' (nextUid m + length rs))
      /\ modelOk (mkModel t' (nextUid m + length rs))
      /\ name t' = name (root m)
      /\ (forall F, (forall u, nextUid m <= u -> F u = true) ->
                    eraseNode F t' = eraseNode F (root m))
      /\ Permutation (uids t') (seq (nextUid m) (length rs) ++ uids (root m))
      /\ (forall sel, inDocumentOrder (root m) sel = true -> inDocumentOrder t' sel = true)
      /\ (forall b, locate b (root m) <> None -> locate b t' <> None)
      /\ Forall2 (fun u run => In (u, "codeBlock"%string, run) (nodeInfos t'))
           (rev (seq (nextUid m) (length rs))) runs
      /\ (forall u cs, In (u, "codeBlock"%string, cs) (nodeInfos (root m)) ->
                       In (u, "codeBlock"%string, cs) (nodeInfos t')).
Proof.
  induction rs as [|r rs IH] using rev_ind; intros m runs acc Hok Hres Hord.
  - inversion Hres; subst. exists (root m). cbn [rev foldM length seq].
    rewrite app_nil_r, Nat.add_0_r. destruct m as [t n]. cbn [root nextUid] in *.
    repeat split; try assumption; try reflexivity; try constructor; auto;
      apply Hok.
  - destruct (Forall2_snoc_inv _ _ _ _ _ _ Hres) as (runs0 & run & -> & Hres0 & Hr).
    destruct (rangesOrdered_snoc _ _ Hord) as (Hord0 & Hbefore).
    destruct (applyBlockGroup_step m acc r run Hok Hr)
      as (t1 & Hstep & Hok1 & Hag & Her1 & Hperm1 & Hdoc1 & Hatt1 & Hin1 & Hcb1).
    set (m1 := mkModel t1 (S (nextUid m))) in *.
    assert (Hres1 : Forall2 (bareGroup (root m1)) rs runs0).
    { apply (Forall2_bareGroup_agreeLeft _ _ _ _ _ Hag); [|exact Hres0].
      intros r' Hr'. apply Hbefore, Hr'. }
    destruct (IH m1 runs0 (acc ++ [nextUid m]) Hok1 Hres1 Hord0)
      as (t' & Hrun & Hok' & Hname & Her & Hperm & Hdoc & Hatt & Hin & Hcb).
    cbn [root nextUid m1] in *.
    exists t'. rewrite rev_app_distr. cbn [rev app foldM].
    rewrite length_app. cbn [length].
    replace (length rs + 1) with (S (length rs)) by lia.
    replace (nextUid m + S (length rs)) with (S (nextUid m) + length rs) by lia.
    cbn [seq].
    split.
    { unfold bind. rewrite Hstep. rewrite Hrun. now rewrite <- app_assoc. }
    split; [exact Hok'|].
    split; [rewrite Hname; apply (agreeLeft_name _ _ _ Hag)|].
    split.
    { intros F HF. rewrite Her by (intros u Hu; apply HF; lia).
      apply Her1, HF. lia. }
    split.
    { rewrite Hperm, Hperm1. perm_solve. }
    split; [intros sel Hs; apply Hdoc, Hdoc1, Hs|].
    split; [intros b Hb; apply Hatt, Hatt1, Hb|].
    split.
    { cbn [rev]. apply Forall2_app; [exact Hin|]. constructor; [|constructor].
      apply Hcb, Hin1. }
    intros u cs Hu. apply Hcb, Hcb1, Hu.
Qed.

(** *** What an entry of [nodeInfos] tells about siblings *)

Lemma map_uid_split (cs : list Node) (l1 l2 : list nat) :
  map uid cs = l1 ++ l2 ->
  exists cs1 cs2, cs = cs1 ++ cs2 /\ map uid cs1 = l1 /\ map uid cs2 = l2.
Proof.
  intros H. apply map_eq_app in H. destruct H as (cs1 & cs2 & -> & H1 & H2).
  now exists cs1, cs2.
Qed.

Lemma nodeInfos_unique (t : Node) (u : nat) (nm nm' : string) (cs cs' : list nat) :
  wellFormed t ->
  In (u, nm, cs) (nodeInfos t) -> In (u, nm', cs') (nodeInfos t) ->
  nm = nm' /\ cs = cs'.
Proof.
  intros W H H'.
  destruct (nodeInfos_In _ _ H) as (q & n & Hq & Hn).
  destruct (nodeInfos_In _ _ H') as (q' & n' & Hq' & Hn').
  unfold infoOf in Hn, Hn'. injection Hn as Hu <- <-. injection Hn' as Hu' <- <-.
  destruct (getNodeByPath_uid_inj t n n' q q' W Hq Hq') as [_ ->]; [congruence|].
  now split.
Qed.

Lemma nodeInfos_uid (t : Node) (u : nat) (nm : string) (cs : list nat) :
  In (u, nm, cs) (nodeInfos t) -> In u (uids t).
Proof.
  intros H. destruct (nodeInfos_In _ _ H) as (q & n & Hq & Hn).
  unfold infoOf in Hn. injection Hn as <- _ _.
  apply (getNodeByPath_uids _ _ _ Hq), uid_in_uids.
Qed.

Lemma nextSibling_of_info (t : Node) (u : nat) (nm : string) (l1 l2 : list nat)
  (x y : nat) :
  wellFormed t -> In (u, nm, l1 ++ x :: y :: l2) (nodeInfos t) ->
  nextSibling t x = Some y.
Proof.
  intros W H. destruct (nodeInfos_In _ _ H) as (q & n & Hq & Hn).
  unfold infoOf in Hn. injection Hn as _ _ Hcs.
  destruct (map_uid_split _ _ _ Hcs) as (cs1 & cs2 & E & <- & H2).
  destruct cs2 as [|cx [|cy cs2]]; try discriminate.
  cbn [map] in H2. injection H2 as <- <- _.
  unfold nextSibling.
  rewrite (locate_child q t n cx cs1 (cy :: cs2) W Hq E). cbn [ppath offset].
  rewrite Hq, E.
  replace (S (length cs1)) with (length (cs1 ++ [cx]) + 0)
    by (rewrite length_app; simpl; lia).
  change (cs1 ++ cx :: cy :: cs2) with (cs1 ++ [cx] ++ cy :: cs2).
  rewrite app_assoc, nth_error_app2 by lia.
  replace (length (cs1 ++ [cx]) + 0 - length (cs1 ++ [cx])) with 0 by lia.
  reflexivity.
Qed.

Lemma nextSibling_last_of_info (t : Node) (u : nat) (nm : string) (l : list nat)
  (x : nat) :
  wellFormed t -> In (u, nm, l ++ [x]) (nodeInfos t) -> nextSibling t x = None.
Proof.
  intros W H. destruct (nodeInfos_In _ _ H) as (q & n & Hq & Hn).
  unfold infoOf in Hn. injection Hn as _ _ Hcs.
  destruct (map_uid_split _ _ _ Hcs) as (cs1 & cs2 & E & <- & H2).
  destruct cs2 as [|cx [|cy cs2]]; try discriminate.
  cbn [map] in H2. injection H2 as <-.
  unfold nextSibling.
  rewrite (locate_child q t n cx cs1 [] W Hq E). cbn [ppath offset].
  rewrite Hq, E.
  assert (Hn : nth_error (cs1 ++ [cx]) (S (length cs1)) = None)
    by (apply nth_error_None; rewrite length_app; simpl; lia).
  now rewrite Hn.
Qed.

Lemma isRun_of_info (t : Node) (u : nat) (nm : string) (run : list nat) :
  wellFormed t -> run <> [] ->
  forall l1 l2, In (u, nm, l1 ++ run ++ l2) (nodeInfos t) -> isRun t run.
Proof.
  intros W. induction run as [|x run IH]; intros Hne l1 l2 H; [congruence|].
  destruct run as [|y run]; [exact I|].
  split.
  - apply (nextSibling_of_info t u nm l1 (run ++ l2) x y W). exact H.
  - apply (IH ltac:(discriminate) (l1 ++ [x]) l2).
    rewrite <- app_assoc. exact H.
Qed.

Lemma uid_eraseNode (F : nat -> bool) (c : Node) : uid (eraseNode F c) = uid c.
Proof. now rewrite eraseNode_unfold. Qed.

Lemma uids_eraseChildren_out (F : nat -> bool) (cs : list Node) :
  (forall c, In c cs -> F (uid c) = false) ->
  map uid (eraseChildren F cs) = map uid cs.
Proof.
  induction cs as [|c cs IH]; intros H; [reflexivity|].
  rewrite eraseChildren_cons_out by (apply H; now left).
  cbn [map]. rewrite uid_eraseNode, IH; [reflexivity|].
  intros c' Hc'. apply H. now right.
Qed.

Lemma Forall2_nth_error (A B : Type) (R : A -> B -> Prop) (l : list A) (l' : list B) :
  Forall2 R l l' ->
  forall i a, nth_error l i = Some a -> exists b, nth_error l' i = Some b /\ R a b.
Proof.
  induction 1 as [|x y l l' Hxy H IH]; intros [|i] a Ha; try discriminate.
  - injection Ha as <-. now exists y.
  - apply (IH i a Ha).
Qed.

Lemma Forall2_In_l (A B : Type) (R : A -> B -> Prop) (l : list A) (l' : list B) (a : A) :
  Forall2 R l l' -> In a l -> exists b, In b l' /\ R a b.
Proof.
  induction 1 as [|x y l l' Hxy H IH]; intros Ha; [destruct Ha|].
  destruct Ha as [<-|Ha]; [exists y; split; [now left|exact Hxy]|].
  destruct (IH Ha) as (b & Hb & HR). exists b. split; [now right|exact HR].
Qed.

Lemma Forall2_In_r (A B : Type) (R : A -> B -> Prop) (l : list A) (l' : list B) (b : B) :
  Forall2 R l l' -> In b l' -> exists a, In a l /\ R a b.
Proof.
  induction 1 as [|x y l l' Hxy H IH]; intros Hb; [destruct Hb|].
  destruct Hb as [<-|Hb]; [exists x; split; [now left|exact Hxy]|].
  destruct (IH Hb) as (a & Ha & HR). exists a. split; [now right|exact HR].
Qed.

Lemma separated_nth (t : Node) (runs : list (list nat)) :
  separated t runs ->
  forall i run nb rest,
    nth_error runs i = Some run -> nth_error runs (S i) = Some (nb :: rest) ->
    nextSibling t (last run 0) <> Some nb.
Proof.
  induction runs as [|r runs IH]; intros Hs i run nb rest Hi Hj; [now destruct i|].
  destruct runs as [|r' runs]; [now destruct i|].
  cbn [separated] in Hs. destruct r' as [|x r']; [destruct Hs|].
  destruct Hs as [Hne Hs]. destruct i as [|i].
  - cbn in Hi, Hj. injection Hi as <-. injection Hj as <- _. exact Hne.
  - apply (IH Hs i run nb rest); assumption.
Qed.

(** Two code blocks made around groups of the tree [t0] and directly
    adjacent in [tw]: the groups are directly adjacent in [t0]. *)
Lemma wrapped_adjacent (F : nat -> bool) (tw t0 : Node) (a b : nat)
  (runA runB : list nat) (nb : nat) (restB : list nat) :
  wellFormed tw -> wellFormed t0 -> eraseNode F tw = t0 ->
  (forall u nm cs, In (u, nm, cs) (nodeInfos tw) -> F u = true ->
                   forall x, In x cs -> F x = false) ->
  In (a, "codeBlock"%string, runA) (nodeInfos tw) ->
  In (b, "codeBlock"%string, runB) (nodeInfos tw) ->
  F a = true -> F b = true ->
  runA <> [] -> runB = nb :: restB ->
  nextSibling tw a = Some b ->
  nextSibling t0 (last runA 0) = Some nb.
Proof.
  intros Ww W0 Her Hflat HA HB Fa Fb HneA -> Hadj.
  destruct (nextSibling_Some _ _ _ Hadj) as (q & X & i & c1 & c2 & HX & H1 & H2 & Hu1 & Hu2).
  assert (Hc1 : map uid (children c1) = runA).
  { pose proof (nodeInfos_getNodeByPath _ _ _ (getNodeByPath_snoc _ _ _ _ _ HX H1)) as Hi.
    unfold infoOf in Hi. rewrite Hu1 in Hi.
    now destruct (nodeInfos_unique _ _ _ _ _ _ Ww Hi HA). }
  assert (Hc2 : map uid (children c2) = nb :: restB).
  { pose proof (nodeInfos_getNodeByPath _ _ _ (getNodeByPath_snoc _ _ _ _ _ HX H2)) as Hi.
    unfold infoOf in Hi. rewrite Hu2 in Hi.
    now destruct (nodeInfos_unique _ _ _ _ _ _ Ww Hi HB). }
  assert (FX : F (uid X) = false).
  { destruct (F (uid X)) eqn:E; [|reflexivity].
    pose proof (nodeInfos_getNodeByPath _ _ _ HX) as Hi. unfold infoOf in Hi.
    rewrite <- Fa. apply (Hflat _ _ _ Hi E).
    rewrite <- Hu1. apply in_map. eapply nth_error_In; eassumption. }
  pose proof (nodeInfos_eraseNode F q tw X HX FX) as Hinfo.
  rewrite Her in Hinfo. unfold infoOf in Hinfo.
  rewrite eraseNode_unfold in Hinfo. cbn [uid name children] in Hinfo.
  destruct (nth_error_decompose _ _ _ _ H1) as [E L].
  assert (E2 : skipn (S i) (children X) = c2 :: skipn (S (S i)) (children X))
    by (apply skipn_nth_error; exact H2).
  rewrite E2 in E. rewrite E in Hinfo.
  rewrite eraseChildren_app, eraseChildren_cons_in in Hinfo by congruence.
  rewrite eraseChildren_cons_in in Hinfo by congruence.
  rewrite !map_app in Hinfo.
  rewrite (uids_eraseChildren_out F (children c1)) in Hinfo.
  2:{ intros c Hc. apply (Hflat _ _ _ HA Fa). rewrite <- Hc1. now apply in_map. }
  rewrite (uids_eraseChildren_out F (children c2)) in Hinfo.
  2:{ intros c Hc. apply (Hflat _ _ _ HB Fb). rewrite <- Hc2. now apply in_map. }
  rewrite Hc1, Hc2 in Hinfo.
  rewrite (app_removelast_last 0 HneA) in Hinfo.
  rewrite <- !app_assoc in Hinfo. cbn [app] in Hinfo.
  rewrite app_assoc in Hinfo.
  eapply nextSibling_of_info; [exact W0|exact Hinfo].
Qed.

(** The merge pass changes nothing when no recorded code block is directly
    followed by the next recorded one. *)
Lemma foldM_mergeStep_chain (m : Model) (refs : list nat) (cur : nat) :
  (forall i a b, nth_error (cur :: refs) i = Some a ->
                 nth_error (cur :: refs) (S i) = Some b ->
                 nextSibling (root m) a <> Some b) ->
  foldM mergeStep cur refs m = Some (last refs cur, m).
Proof.
  revert cur; induction refs as [|next refs IH]; intros cur H; [reflexivity|].
  cbn [foldM]. unfold bind.
  rewrite mergeStep_apart by (apply (H 0); reflexivity).
  rewrite IH by (intros i a b Ha Hb; apply (H (S i)); assumption).
  f_equal. f_equal. destruct refs as [|x refs]; [reflexivity|].
  change (last (next :: x :: refs) cur) with (last (x :: refs) cur).
  apply last_cons_default.
Qed.

(** The grouping of [maximalRuns] is the only one into runs that cannot be
    extended. *)
Lemma maximalRuns_unique (t : Node) (blocks : list nat) :
  forall runs,
    concat runs = blocks -> Forall (isRun t) runs -> separated t runs ->
    maximalRuns t blocks = runs.
Proof.
  induction blocks as [|b rest IH]; intros runs Hc Hr Hs.
  - destruct runs as [|run runs]; [reflexivity|].
    inversion Hr as [|? ? Hrun _]; subst. destruct run; [destruct Hrun|discriminate].
  - destruct runs as [|run runs]; [discriminate|].
    inversion Hr as [|? ? Hrun Hruns]; subst.
    destruct run as [|x run]; [destruct Hrun|].
    cbn [concat app] in Hc. injection Hc as -> Hc.
    destruct run as [|y run].
    + cbn [app] in Hc. specialize (IH runs Hc Hruns).
      destruct runs as [|run' runs].
      * cbn in Hc. subst rest. reflexivity.
      * cbn [separated] in Hs. destruct run' as [|nb run']; [destruct Hs|].
        destruct Hs as [Hne Hs]. cbn [concat app] in Hc. subst rest.
        rewrite maximalRuns_cons2.
        destruct (eqNode (nextSibling t b) nb) eqn:E.
        { apply eqNode_true in E. now cbn [last] in Hne. }
        now rewrite (IH Hs).
    + cbn [app] in Hc. subst rest. destruct Hrun as [Hadj Hrun].
      rewrite maximalRuns_cons2.
      assert (E : eqNode (nextSibling t b) y = true) by now apply eqNode_true.
      rewrite E.
      rewrite (IH ((y :: run) :: runs)); [reflexivity|reflexivity| |].
      * constructor; assumption.
      * destruct runs as [|run' runs]; [exact I|]. exact Hs.
Qed.

(** The groups that are the children of one element each are runs, and
    none can be extended. *)
Lemma runs_of_infos (t : Node) (us : list nat) (runs : list (list nat)) :
  wellFormed t ->
  Forall2 (fun u run => In (u, "codeBlock"%string, run) (nodeInfos t)) us runs ->
  Forall (fun run => run <> []) runs ->
  Forall (isRun t) runs /\ separated t runs.
Proof.
  intros W H. induction H as [|u run us runs Hin H IH]; intros Hne.
  - split; [constructor|exact I].
  - inversion Hne as [|? ? Hrun Hne']; subst.
    destruct (IH Hne') as [IH1 IH2]. split.
    + constructor; [|exact IH1].
      apply (isRun_of_info t u "codeBlock" run W Hrun [] []).
      now rewrite app_nil_r.
    + destruct runs as [|run' runs]; [exact I|].
      cbn [separated]. destruct run' as [|nb run'].
      { inversion Hne' as [|? ? Hx _]. congruence. }
      split; [|exact IH2].
      rewrite (app_removelast_last 0 Hrun) in Hin.
      rewrite (nextSibling_last_of_info _ _ _ _ _ W Hin). discriminate.
Qed.

(** The ranges of groups that each are all the children of a code block. *)
Lemma runs_groups_full (t : Node) (us : list nat) (runs : list (list nat)) :
  wellFormed t -> isCodeBlock t = false ->
  Forall2 (fun u run => In (u, "codeBlock"%string, run) (nodeInfos t)) us runs ->
  Forall (fun run => run <> []) runs ->
  inDocumentOrder t (concat runs) = true ->
  exists rs,
    allSome (map (rangeOfRun t) runs) = Some rs
    /\ Forall2 (fullGroup t) rs us
    /\ rangesOrdered rs = true.
Proof.
  intros W Hroot H. induction H as [|u run us runs Hin H IH]; intros Hne Hord.
  - exists []. now repeat split.
  - inversion Hne as [|? ? Hrun Hne']; subst.
    cbn [concat] in Hord.
    destruct (inDocumentOrder_app _ _ _ Hord) as (_ & Hord' & Hcross).
    destruct (IH Hne' Hord') as (rs & Hrs & Hres & Hso).
    assert (HisRun : isRun t run).
    { apply (isRun_of_info t u "codeBlock" run W Hrun [] []). now rewrite app_nil_r. }
    destruct run as [|b rest]; [congruence|].
    destruct (nodeInfos_In _ _ Hin) as (q & c & Hq & Hc).
    unfold infoOf in Hc. injection Hc as Hu Hn Hcs.
    destruct (children c) as [|cb crest] eqn:Ec; [discriminate|].
    cbn [map] in Hcs. injection Hcs as Hb Hrest.
    assert (Hloc : locate b t = Some (mkPosition q 0)).
    { rewrite <- Hb. apply (locate_child q t c cb [] crest W Hq Ec). }
    destruct (rangeOfRun_positions t b rest _ W HisRun Hloc) as [Hr Hlast].
    cbn [ppath offset] in Hr, Hlast.
    set (r := mkRange (mkPosition q 0) (mkPosition q (S (0 + length rest)))) in *.
    exists (r :: rs). cbn [map allSome]. rewrite Hr, Hrs. split; [reflexivity|].
    split; [constructor; [|exact Hres]|].
    + exists c. unfold r. cbn [start end_ ppath offset].
      repeat split; try assumption.
      * intros Hnil. rewrite Hnil in Hq. injection Hq as <-.
        unfold isCodeBlock in Hroot. rewrite Hn in Hroot. discriminate.
      * unfold isCodeBlock. now rewrite Hn.
      * rewrite Ec. cbn [length]. rewrite <- Hrest, length_map. reflexivity.
      * rewrite Ec. simpl. lia.
    + cbn [rangesOrdered]. rewrite Hso, andb_true_r. apply forallb_forall.
      intros r' Hr'.
      destruct (allSome_map_In _ _ _ _ _ _ Hrs Hr') as (run' & Hrun' & Hrr').
      destruct (rangeOfRun_start _ _ _ Hrr') as (b' & rest' & -> & Hloc').
      assert (Hbb : blockBefore t (last (b :: rest) b) b' = true).
      { apply Hcross; [apply last_In|].
        apply (In_concat_intro _ b' (b' :: rest') _ Hrun'). now left. }
      unfold blockBefore in Hbb. rewrite Hlast, Hloc' in Hbb.
      unfold rangeBefore, r. cbn [start end_ ppath offset].
      apply precedes_endsBefore. exact Hbb.
Qed.

(** A path that leads to a node and lies after all the children of the
    element at [P] leaves [P] to the left. *)
Lemma endsBefore_full_precedes (P : Path) (e : nat) (p : Path) :
  forall (t c n : Node),
    endsBefore P e p = true ->
    getNodeByPath t P = Some c -> length (children c) <= e ->
    getNodeByPath t p = Some n ->
    precedes P p = true.
Proof.
  revert p; induction P as [|x P IH]; intros p t c n Hb Hc Hl Hn.
  - exfalso. destruct p as [|y r]; [discriminate|]. injection Hc as <-.
    cbn in Hb. apply Nat.leb_le in Hb. cbn [getNodeByPath] in Hn.
    destruct (nth_error (children t) y) eqn:E; [|discriminate].
    assert (y < length (children t)) by (apply nth_error_Some; congruence). lia.
  - destruct p as [|y r]; [discriminate|]. cbn [endsBefore precedes] in *.
    apply orb_true_iff in Hb. destruct Hb as [Hb|Hb]; [now rewrite Hb|].
    apply andb_true_iff in Hb. destruct Hb as [Hxy Hb]. rewrite Hxy.
    apply Nat.eqb_eq in Hxy. subst y. cbn [getNodeByPath] in Hc, Hn.
    destruct (nth_error (children t) x) as [cx|]; [|discriminate].
    rewrite (IH r cx c n Hb Hc Hl Hn). apply orb_true_r.
Qed.

(** One step of the unwrap pass on a group that is a whole code block. *)
Lemma removeBlockGroup_full_step (m : Model) (r : Range) (u : nat) :
  modelOk m -> fullGroup (root m) r u ->
  exists t',
    removeBlockGroup r m = Some (tt, mkModel t' (nextUid m))
    /\ modelOk (mkModel t' (nextUid m))
    /\ agreeLeft (ppath (start r)) (root m) t'
    /\ Permutation (u :: uids t') (uids (root m))
    /\ (forall F, F u = true -> eraseNode F t' = eraseNode F (root m)).
Proof.
  intros Hok (c & Hne & Hpe & Hc & Hcb & Hu & Ha & He & Hpos).
  destruct (path_cases (ppath (start r))) as [Hnil|(q & i & Hq)]; [congruence|].
  rewrite Hq in Hc.
  destruct (getNodeByPath_snoc_inv _ _ _ _ Hc) as (par & Hpar & Hi).
  destruct (nth_error_decompose _ _ _ _ Hi) as [E L].
  set (pre := firstn i (children par)) in *.
  set (post := skipn (S i) (children par)) in *.
  pose proof (removeBlockGroup_full m q par c pre post (proj1 Hok) Hpar E) as Hrun.
  rewrite L in Hrun.
  assert (Hr : r = mkRange (mkPosition (q ++ [i]) 0)
                           (mkPosition (q ++ [i]) (length (children c)))).
  { destruct r as [[sp so] [ep eo]]. cbn [start end_ ppath offset] in *. congruence. }
  rewrite <- Hr in Hrun.
  set (y := setChildren par (pre ++ children c ++ post)) in *.
  destruct (replaceAt_total q y par (root m) Hpar) as (t' & Hrep).
  rewrite Hrep in Hrun. exists t'.
  assert (Hperm : Permutation (u :: uids t') (uids (root m))).
  { apply (uids_replaceAt_perm _ _ _ _ _ [u] [] Hpar Hrep).
    unfold y. rewrite (uids_unfold par), E, uids_setChildren, !flat_map_app.
    cbn [flat_map]. rewrite (uids_unfold c), Hu. cbn [app]. perm_solve. }
  split; [exact Hrun|].
  split; [apply (modelOk_removed (root m) t' _ u Hperm); now destruct m|].
  split.
  { rewrite Hq. apply (agreeLeft_replaceAt _ _ _ _ par y Hpar Hrep).
    constructor; try reflexivity. unfold y. cbn [children setChildren].
    transitivity pre; [reflexivity|].
    pose proof (firstn_middle _ pre (children c ++ post)) as Hf.
    rewrite L in Hf. now rewrite Hf. }
  split; [exact Hperm|].
  intros F HF. apply (eraseNode_replaceAt F _ _ _ par y Hpar Hrep); [reflexivity|].
  apply eraseNode_unwrapped_full; [congruence|exact E].
Qed.

Lemma fullGroup_agreeLeft (t t' : Node) (r' r : Range) (u' u : nat) :
  agreeLeft (ppath (start r)) t t' -> fullGroup t r u ->
  rangeBefore r' r = true ->
  fullGroup t r' u' -> fullGroup t' r' u'.
Proof.
  intros Hag (c & _ & _ & Hc & _ & _ & Ha & _ & _) Hb
         (c' & Hne & Hpe & Hc' & Hcb & Hu & Ha' & He & Hpos).
  unfold rangeBefore, fullPath in Hb. rewrite Ha in Hb.
  apply endsBefore_drop_zero in Hb; [|lia].
  assert (Hp : precedes (ppath (start r')) (ppath (start r)) = true).
  { apply (endsBefore_full_precedes _ _ _ t c' c Hb Hc'); [lia|exact Hc]. }
  exists c'. repeat split; try assumption.
  rewrite (agreeLeft_precedes _ _ _ _ Hag Hp). exact Hc'.
Qed.

(** The unwrap pass over groups that are whole code blocks, last group
    first: the code blocks are removed, and nothing else changes. *)
Lemma removeBlock_sequence_full (rs : list Range) :
  forall (m : Model) (us : list nat),
    modelOk m -> Forall2 (fullGroup (root m)) rs us -> rangesOrdered rs = true ->
    exists t',
      forEach (rev rs) removeBlockGroup m = Some (tt, mkModel t' (nextUid m))
      /\ modelOk (mkModel t' (nextUid m))
      /\ Permutation (us ++ uids t') (uids (root m))
      /\ (forall F, (forall u, In u us -> F u = true) ->
                    eraseNode F t' = eraseNode F (root m)).
Proof.
  induction rs as [|r rs IH] using rev_ind; intros m us Hok Hres Hord.
  - inversion Hres; subst. exists (root m). destruct m as [t n].
    cbn [rev forEach root nextUid app] in *.
    split; [reflexivity|]. split; [exact Hok|]. split; [reflexivity|]. reflexivity.
  - destruct (Forall2_snoc_inv _ _ _ _ _ _ Hres) as (us0 & u & -> & Hres0 & Hr).
    destruct (rangesOrdered_snoc _ _ Hord) as (Hord0 & Hbefore).
    destruct (removeBlockGroup_full_step m r u Hok Hr)
      as (t1 & Hstep & Hok1 & Hag & Hperm1 & Her1).
    set (m1 := mkModel t1 (nextUid m)) in *.
    assert (Hres1 : Forall2 (fullGroup (root m1)) rs us0).
    { clear - Hres0 Hbefore Hag Hr. cbn [root].
      induction Hres0 as [|r' u' rs us0 Hr' H IH]; constructor.
      - apply (fullGroup_agreeLeft (root m) t1 r' r u' u Hag Hr); [|exact Hr'].
        apply Hbefore. now left.
      - apply IH. intros x Hx. apply Hbefore. now right. }
    destruct (IH m1 us0 Hok1 Hres1 Hord0) as (t' & Hrun & Hok' & Hperm & Her).
    cbn [root nextUid m1] in *.
    exists t'. rewrite rev_app_distr. cbn [rev app forEach].
    split.
    { unfold bind. rewrite Hstep. exact Hrun. }
    split; [exact Hok'|].
    split.
    { rewrite <- Hperm1, <- Hperm. perm_solve. }
    intros F HF. rewrite Her by (intros x Hx; apply HF, in_or_app; now left).
    apply Her1, HF, in_or_app. right. now left.
Qed.

Lemma filterOpt_all (A : Type) (p : A -> option bool) (l : list A) :
  (forall x, In x l -> p x = Some true) -> filterOpt p l = Some l.
Proof.
  induction l as [|x l IH]; intros H; [reflexivity|].
  cbn [filterOpt]. rewrite (H x) by now left.
  rewrite IH by (intros y Hy; apply H; now right). reflexivity.
Qed.

Lemma isRun_nonempty (t : Node) (runs : list (list nat)) :
  Forall (isRun t) runs -> Forall (fun run => run <> []) runs.
Proof.
  intros H. eapply Forall_impl; [|exact H].
  intros [|b run] Hr; [destruct Hr|discriminate].
Qed.

Lemma attached_uid (t : Node) (b : nat) : locate b t <> None -> In b (uids t).
Proof.
  intros H. destruct (locate b t) as [pos|] eqn:L; [|congruence].
  rewrite uids_unfold. right. eapply locate_In; eassumption.
Qed.

Lemma isBlocked_uid (t : Node) (b : nat) (v : bool) :
  isBlocked t b = Some v -> In b (uids t).
Proof.
  intros H. apply attached_uid. unfold isBlocked, findBlock, parentOf, elementParent in H.
  now destruct (locate b t).
Qed.

(** The wrap path on a selection of blocks outside code blocks: every
    group of the selection gets a code block of its own, and the merge
    pass joins none of them. *)
Lemma applyBlock_wraps_run (m : Model) (sel : list nat) :
  modelOk m -> sel <> [] ->
  inDocumentOrder (root m) sel = true ->
  (forall b, In b sel -> isBlocked (root m) b = Some false) ->
  let runs := maximalRuns (root m) sel in
  let k := length runs in
  exists rs tw,
    getRangesOfBlockGroups (root m) sel = Some rs
    /\ Forall2 (bareGroup (root m)) rs runs
    /\ rangesOrdered rs = true
    /\ foldM applyBlockGroup [] (rev rs) m
       = Some (seq (nextUid m) k, mkModel tw (nextUid m + k))
    /\ _applyBlock sel m = Some (tt, mkModel tw (nextUid m + k))
    /\ modelOk (mkModel tw (nextUid m + k))
    /\ name tw = name (root m)
    /\ eraseNode (fun u => nextUid m <=? u) tw = root m
    /\ Permutation (uids tw) (seq (nextUid m) k ++ uids (root m))
    /\ inDocumentOrder tw sel = true
    /\ Forall2 (fun u run => In (u, "codeBlock"%string, run) (nodeInfos tw))
         (rev (seq (nextUid m) k)) runs.
Proof.
  intros Hok Hne Hord Hbare runs k.
  pose proof (isRun_maximalRuns (root m) sel) as Hruns. fold runs in Hruns.
  pose proof (concat_maximalRuns (root m) sel) as Hconcat. fold runs in Hconcat.
  pose proof (separated_maximalRuns (root m) sel) as Hsep. fold runs in Hsep.
  destruct (runs_groups_bare (root m) runs (proj1 Hok) Hruns) as (rs & Hrs & Hres & Hso).
  { rewrite Hconcat. exact Hbare. }
  { rewrite Hconcat. exact Hord. }
  assert (Hlen : length rs = k) by (apply (Forall2_length Hres)).
  destruct (applyBlock_sequence rs m runs [] Hok Hres Hso)
    as (tw & Hfold & Hokw & Hname & Her & Hperm & Hdoc & _ & Hin & _).
  rewrite Hlen in *. cbn [app] in Hfold.
  set (F := fun u => nextUid m <=? u).
  assert (Hold : forall u, In u (uids (root m)) -> F u = false).
  { intros u Hu. destruct Hok as [_ Hlt]. rewrite Forall_forall in Hlt.
    apply Nat.leb_gt, Hlt, Hu. }
  assert (HerF : eraseNode F tw = root m).
  { rewrite (Her F) by (intros u Hu; now apply Nat.leb_le).
    apply eraseNode_id, Hold. }
  assert (Hsel : forall run x, In run runs -> In x run -> F x = false).
  { intros run x Hrun Hx. apply Hold, (isBlocked_uid _ _ false), Hbare.
    rewrite <- Hconcat. eapply In_concat_intro; eassumption. }
  assert (Hnew : forall u, In u (rev (seq (nextUid m) k)) -> F u = true).
  { intros u Hu. apply in_rev, in_seq in Hu. apply Nat.leb_le. lia. }
  assert (Hflat : forall u nm cs, In (u, nm, cs) (nodeInfos tw) -> F u = true ->
                                  forall x, In x cs -> F x = false).
  { intros u nm cs Hu HF x Hx.
    assert (Hus : In u (rev (seq (nextUid m) k))).
    { apply nodeInfos_uid in Hu. apply (Permutation_in _ Hperm) in Hu.
      apply in_app_or in Hu. destruct Hu as [Hu|Hu]; [now apply -> in_rev|].
      apply Hold in Hu. congruence. }
    destruct (Forall2_In_l _ _ _ _ _ _ Hin Hus) as (run & Hrun & Hentry).
    destruct (nodeInfos_unique _ _ _ _ _ _ (proj1 Hokw) Hu Hentry) as [_ ->].
    apply (Hsel run x Hrun Hx). }
  exists rs, tw.
  split; [rewrite getRangesOfBlockGroups_runs; exact Hrs|].
  split; [exact Hres|]. split; [exact Hso|]. split; [exact Hfold|].
  split; [|split; [exact Hokw|split; [exact Hname|split; [exact HerF|
           split; [exact Hperm|split; [apply Hdoc, Hord|exact Hin]]]]]].
  unfold _applyBlock. unfold bind at 1. unfold read at 1.
  rewrite getRangesOfBlockGroups_runs. fold runs. rewrite Hrs.
  unfold bind at 1. rewrite Hfold. unfold bind.
  destruct (rev (seq (nextUid m) k)) as [|cur refs] eqn:Erefs.
  { exfalso. apply (f_equal (@length nat)) in Erefs.
    rewrite length_rev, length_seq in Erefs. cbn in Erefs.
    unfold k in Erefs. apply length_zero_iff_nil in Erefs.
    destruct sel as [|b sel]; [congruence|].
    now apply (maximalRuns_nonempty (root m) b sel). }
  cbn [reduce].
  rewrite foldM_mergeStep_chain; [reflexivity|].
  cbn [root]. intros i a b Ha Hb Hadj.
  destruct (Forall2_nth_error _ _ _ _ _ Hin i a Ha) as (runA & HrA & HA).
  destruct (Forall2_nth_error _ _ _ _ _ Hin (S i) b Hb) as (runB & HrB & HB).
  pose proof (isRun_nonempty _ _ Hruns) as Hnonempty. rewrite Forall_forall in Hnonempty.
  assert (HneA : runA <> []) by (eapply Hnonempty, nth_error_In; eassumption).
  assert (HneB : runB <> []) by (eapply Hnonempty, nth_error_In; eassumption).
  destruct runB as [|nb restB]; [congruence|].
  apply (separated_nth _ _ Hsep i runA nb restB HrA HrB).
  apply (wrapped_adjacent F tw (root m) a b runA (nb :: restB) nb restB
           (proj1 Hokw) (proj1 Hok) HerF Hflat HA HB); try assumption; try reflexivity.
  - apply Hnew. eapply nth_error_In; eassumption.
  - apply Hnew. eapply nth_error_In; eassumption.
Qed.

Lemma applyBlock_wraps (m : Model) (sel : list nat) :
  modelOk m -> sel <> [] ->
  inDocumentOrder (root m) sel = true ->
  (forall b, In b sel -> isBlocked (root m) b = Some false) ->
  let runs := maximalRuns (root m) sel in
  let k := length runs in
  exists tw,
    _applyBlock sel m = Some (tt, mkModel tw (nextUid m + k))
    /\ modelOk (mkModel tw (nextUid m + k))
    /\ name tw = name (root m)
    /\ eraseNode (fun u => nextUid m <=? u) tw = root m
    /\ Permutation (uids tw) (seq (nextUid m) k ++ uids (root m))
    /\ inDocumentOrder tw sel = true
    /\ Forall2 (fun u run => In (u, "codeBlock"%string, run) (nodeInfos tw))
         (rev (seq (nextUid m) k)) runs.
Proof.
  intros Hok Hne Hord Hbare runs k.
  destruct (applyBlock_wraps_run m sel Hok Hne Hord Hbare)
    as (rs & tw & _ & _ & _ & _ & H).
  now exists tw.
Qed.

(** C6.  For a selection in document order of blocks that all pass
    [checkCanBeBlocked], [execute] on the refreshed command wraps the
    selection, after which every selected block is in a code block and
    [refresh] sets [value]; a second [execute] then unwraps, and gives
    back the tree as it was before the first: the same blocks in the same
    order with the same content, and none of the code blocks made by the
    first [execute] remains. *)
Theorem execute_wrap_then_unwrap_restores (schema : Schema) (ed0 : Editor) :
  modelOk (model ed0) ->
  isCodeBlock (root (model ed0)) = false ->
  selectedBlocks ed0 <> [] ->
  inDocumentOrder (root (model ed0)) (selectedBlocks ed0) = true ->
  (forall b, In b (selectedBlocks ed0) ->
             checkCanBeBlocked schema (root (model ed0)) b = Some true) ->
  exists ed ed1 ed2 ed3,
    refresh schema ed0 = Some ed /\ value ed = false
    /\ execute schema ed = Some ed1
    /\ (forall b, In b (selectedBlocks ed0) ->
                  isBlocked (root (model ed1)) b = Some true)
    /\ refresh schema ed1 = Some ed2 /\ value ed2 = true
    /\ execute schema ed2 = Some ed3
    /\ root (model ed3) = root (model ed0)
    /\ (forall u, In u (uids (root (model ed3))) -> u < nextUid (model ed0)).
Proof.
  destruct ed0 as [m sel v0 e0]. cbn [model selectedBlocks].
  intros Hok Hroot Hne Hord Hguard.
  assert (Hbare : forall b, In b sel -> isBlocked (root m) b = Some false).
  { intros b Hb. apply (checkCanBeBlocked_not_blocked schema), Hguard, Hb. }
  destruct sel as [|b0 sel0]; [congruence|].
  remember (b0 :: sel0) as sel eqn:Esel.
  assert (Hb0 : In b0 sel) by (rewrite Esel; now left).
  assert (Hhd : hd_error sel = Some b0) by now rewrite Esel.
  (* the refreshed command *)
  exists (mkEditor m sel false true).
  assert (Hrefresh0 : refresh schema (mkEditor m sel v0 e0)
                      = Some (mkEditor m sel false true)).
  { unfold refresh, _getValue, _checkEnabled. cbn [model selectedBlocks value isEnabled].
    rewrite Hhd, (Hbare b0 Hb0). cbn [model selectedBlocks value isEnabled].
    rewrite (Hguard b0 Hb0). reflexivity. }
  (* the wrap *)
  destruct (applyBlock_wraps m sel Hok ltac:(congruence) Hord Hbare)
    as (tw & Hwrap & Hokw & Hname & Her & Hperm & Hdoc & Hin).
  set (runs := maximalRuns (root m) sel) in *.
  set (k := length runs) in *.
  set (mw := mkModel tw (nextUid m + k)) in *.
  pose proof (isRun_nonempty _ _ (isRun_maximalRuns (root m) sel)) as Hnonempty.
  fold runs in Hnonempty.
  pose proof (concat_maximalRuns (root m) sel) as Hconcat. fold runs in Hconcat.
  assert (Hblocked : forall b, In b sel -> isBlocked tw b = Some true).
  { intros b Hb. rewrite <- Hconcat in Hb. apply in_concat in Hb.
    destruct Hb as (run & Hrun & Hb).
    destruct (Forall2_In_r _ _ _ _ _ _ Hin Hrun) as (u & _ & Hentry).
    destruct (elementParent_of_info tw u "codeBlock" run b (proj1 Hokw) Hentry Hb)
      as (p & Hp & _ & Hn).
    unfold isBlocked, findBlock, parentOf. rewrite Hp, Hn. reflexivity. }
  exists (mkEditor mw sel false true).
  assert (Hexec1 : execute schema (mkEditor m sel false true)
                   = Some (mkEditor mw sel false true)).
  { unfold execute. cbn [model selectedBlocks value isEnabled].
    unfold bind at 1. unfold read at 1.
    rewrite filterOpt_all.
    - now rewrite Hwrap.
    - intros b Hb. apply toBlock_true. right. split; [apply Hbare, Hb|apply Hguard, Hb]. }
  (* the refresh in between *)
  exists (mkEditor mw sel true true).
  assert (Hrefresh1 : refresh schema (mkEditor mw sel false true)
                      = Some (mkEditor mw sel true true)).
  { unfold refresh, _getValue, _checkEnabled. cbn [model selectedBlocks value isEnabled].
    rewrite Hhd. cbn [root mw]. rewrite (Hblocked b0 Hb0). reflexivity. }
  (* the unwrap *)
  destruct (runs_of_infos tw _ runs (proj1 Hokw) Hin Hnonempty) as [Hruns Hsep].
  pose proof (maximalRuns_unique tw sel runs Hconcat Hruns Hsep) as Hmax.
  assert (Hrootw : isCodeBlock tw = false)
    by (unfold isCodeBlock in *; now rewrite Hname).
  destruct (runs_groups_full tw _ runs (proj1 Hokw) Hrootw Hin Hnonempty)
    as (rs & Hrs & Hfull & Hso).
  { rewrite Hconcat. exact Hdoc. }
  destruct (removeBlock_sequence_full rs mw _ Hokw Hfull Hso)
    as (t2 & Hrun2 & Hok2 & Hperm2 & Her2).
  cbn [root nextUid mw] in Hperm2, Her2, Hrun2.
  set (F := fun u => nextUid m <=? u) in *.
  assert (Huids : Permutation (uids t2) (uids (root m))).
  { apply (Permutation_app_inv_l (rev (seq (nextUid m) k))).
    rewrite Hperm2, Hperm. apply Permutation_app_tail. apply Permutation_rev. }
  assert (Hold : forall u, In u (uids (root m)) -> u < nextUid m).
  { destruct Hok as [_ Hlt]. now rewrite Forall_forall in Hlt. }
  assert (Hback : t2 = root m).
  { rewrite <- Her. rewrite <- (Her2 F).
    - symmetry. apply eraseNode_id. intros u Hu.
      apply Nat.leb_gt, Hold, (Permutation_in _ Huids), Hu.
    - intros u Hu. apply in_rev, in_seq in Hu. apply Nat.leb_le. lia. }
  exists (mkEditor (mkModel t2 (nextUid m + k)) sel true true).
  split; [exact Hrefresh0|]. split; [reflexivity|]. split; [exact Hexec1|].
  split; [exact Hblocked|]. split; [exact Hrefresh1|]. split; [reflexivity|].
  split; [|split; [exact Hback|]].
  - unfold execute. cbn [model selectedBlocks value isEnabled].
    unfold bind at 1. unfold read at 1. cbn [root mw].
    rewrite (filterOpt_all _ _ _ Hblocked).
    unfold _removeBlock. unfold bind at 1. unfold read at 1. cbn [root mw].
    rewrite getRangesOfBlockGroups_runs, Hmax, Hrs.
    now rewrite Hrun2.
  - cbn [model root]. rewrite Hback. exact Hold.
Qed.

Lemma execute_wrap_then_unwrap_restores_witness :
  exists ed ed1 ed2 ed3,
    refresh openSchema (mkEditor (mkModel docAH 100) [1; 2; 4; 6; 7; 8] true false)
    = Some ed
    /\ execute openSchema ed = Some ed1
    /\ refresh openSchema ed1 = Some ed2
    /\ execute openSchema ed2 = Some ed3
    /\ root (model ed3) = docAH.
Proof.
  destruct (execute_wrap_then_unwrap_restores openSchema
              (mkEditor (mkModel docAH 100) [1; 2; 4; 6; 7; 8] true false))
    as (ed & ed1 & ed2 & ed3 & H0 & _ & H1 & _ & H2 & _ & H3 & Hroot & _).
  - split.
    + unfold wellFormed. vm_compute. repeat constructor; simpl; intuition lia.
    + vm_compute. repeat constructor.
  - reflexivity.
  - discriminate.
  - reflexivity.
  - intros b Hb. simpl in Hb.
    repeat (destruct Hb as [<-|Hb]; [reflexivity|]). destruct Hb.
  - exists ed, ed1, ed2, ed3. now repeat split.
Defined.

(** ** The merge pass *)

Lemma nextSibling_child (q : Path) (t par c d : Node) (pre post : list Node) :
  wellFormed t -> getNodeByPath t q = Some par ->
  children par = pre ++ c :: d :: post ->
  nextSibling t (uid c) = Some (uid d).
Proof.
  intros W Hq E. unfold nextSibling.
  rewrite (locate_child q t par c pre (d :: post) W Hq E). cbn [ppath offset].
  rewrite Hq, E.
  change (pre ++ c :: d :: post) with (pre ++ [c] ++ d :: post).
  rewrite app_assoc.
  replace (S (length pre)) with (length (pre ++ [c])) by (rewrite length_app; simpl; lia).
  now rewrite nth_error_middle.
Qed.

Lemma later_sibling_differs (q : Path) (t par d d' : Node) (pre post : list Node) :
  wellFormed t -> getNodeByPath t q = Some par ->
  children par = pre ++ d :: post -> In d' post -> uid d' <> uid d.
Proof.
  intros W Hq E Hin Heq.
  apply in_split in Hin. destruct Hin as (l1 & l2 & ->).
  pose proof (locate_child q t par d pre (l1 ++ d' :: l2) W Hq E) as L.
  assert (E' : children par = (pre ++ d :: l1) ++ d' :: l2)
    by (rewrite E, <- app_assoc; reflexivity).
  pose proof (locate_child q t par d' _ _ W Hq E') as L'.
  rewrite Heq, L in L'. injection L' as Hl.
  rewrite length_app in Hl. simpl in Hl. lia.
Qed.

(** The step of the merge pass on two recorded elements that are directly
    adjacent: the second is folded into the first. *)
Lemma mergeStep_merge (m : Model) (q : Path) (par c d : Node) (pre post : list Node) :
  wellFormed (root m) -> getNodeByPath (root m) q = Some par ->
  children par = pre ++ c :: d :: post ->
  mergeStep (uid c) (uid d) m
  = match replaceAt q (setChildren par (pre ++ absorb c d :: post)) (root m) with
    | Some t' => Some (uid c, mkModel t' (nextUid m))
    | None => None
    end.
Proof.
  intros W Hq E. unfold mergeStep.
  unfold bind at 1. unfold read at 1.
  rewrite (nextSibling_child q _ par c d pre post W Hq E).
  cbn [eqNode]. rewrite Nat.eqb_refl.
  unfold bind at 1. unfold read at 1. unfold createAfter.
  rewrite (locate_child q _ par c pre (d :: post) W Hq E). cbn [ppath offset].
  unfold bind at 1. unfold writer_merge, edit, mergeTree, updateChildrenAt.
  cbn [ppath offset].
  rewrite (updateAt_replaceAt q _ (root m) par
             (setChildren par (pre ++ absorb c d :: post)) Hq).
  - now destruct (replaceAt q _ (root m)).
  - rewrite E, nth_error_middle.
    change (pre ++ c :: d :: post) with (pre ++ [c] ++ d :: post).
    rewrite firstn_middle, (app_assoc pre [c]).
    replace (S (length pre)) with (length (pre ++ [c]))
      by (rewrite length_app; simpl; lia).
    rewrite nth_error_middle.
    change ((pre ++ [c]) ++ d :: post) with ((pre ++ [c]) ++ [d] ++ post).
    rewrite (app_assoc (pre ++ [c]) [d]).
    replace (S (length (pre ++ [c]))) with (length ((pre ++ [c]) ++ [d]))
      by (rewrite !length_app; simpl; lia).
    now rewrite skipn_middle.
Qed.

Lemma uids_absorb (par c d : Node) (pre post : list Node) :
  children par = pre ++ c :: d :: post ->
  Permutation (uid d :: uids (setChildren par (pre ++ absorb c d :: post))) (uids par).
Proof.
  intros E. rewrite (uids_unfold par), E, uids_setChildren, !flat_map_app.
  cbn [flat_map]. unfold absorb. rewrite uids_setChildren.
  rewrite (uids_unfold c), (uids_unfold d), flat_map_app. perm_solve.
Qed.

Lemma wellFormed_removed (t t' : Node) (u : nat) :
  Permutation (u :: uids t') (uids t) -> wellFormed t -> wellFormed t'.
Proof.
  intros P W. unfold wellFormed in *.
  assert (N : NoDup (u :: uids t')) by (eapply Permutation_NoDup; [symmetry; exact P|exact W]).
  now inversion N.
Qed.

Lemma setChildren_same (n : Node) : setChildren n (children n) = n.
Proof. now destruct n. Qed.

(** The merge pass from the state in which it is at the recorded element
    [cur], or past an element that is not recorded. *)
Lemma mergePass_sim (R : nat -> bool) (q : Path) (post : list Node) :
  forall (m : Model) (par : Node) (pre : list Node) (cur : option Node) (x : nat),
    wellFormed (root m) -> getNodeByPath (root m) q = Some par ->
    children par = pre ++ match cur with Some c => c :: post | None => post end ->
    match cur with
    | Some c => x = uid c
    | None => forall d, In d post -> nextSibling (root m) x <> Some (uid d)
    end ->
    exists t' r,
      foldM mergeStep x (map uid (filter (fun c => R (uid c)) post)) m
      = Some (r, mkModel t' (nextUid m))
      /\ replaceAt q (setChildren par (pre ++ mergeRuns R cur post)) (root m) = Some t'.
Proof.
  induction post as [|d post IH]; intros m par pre cur x W Hq E Hx.
  - exists (root m), x. cbn [filter map foldM mergeRuns]. split.
    + now destruct m.
    + rewrite <- E, setChildren_same. now apply replaceAt_same.
  - cbn [filter mergeRuns]. destruct (R (uid d)) eqn:HR; cbn [map foldM].
    + destruct cur as [c|].
      * subst x. pose proof (mergeStep_merge m q par c d pre post W Hq E) as Hstep.
        set (par1 := setChildren par (pre ++ absorb c d :: post)) in *.
        destruct (replaceAt_total q par1 par (root m) Hq) as (t1 & Hrep).
        rewrite Hrep in Hstep.
        assert (W1 : wellFormed t1).
        { apply (wellFormed_removed (root m) t1 (uid d)); [|exact W].
          apply (uids_replaceAt_perm _ _ _ _ _ [uid d] [] Hq Hrep).
          apply uids_absorb, E. }
        destruct (IH (mkModel t1 (nextUid m)) par1 pre (Some (absorb c d)) (uid c))
          as (t' & r & Hrun & Hrep'); try assumption; try reflexivity.
        { apply (replaceAt_get _ _ _ _ Hrep). }
        exists t', r. split.
        -- unfold bind. rewrite Hstep. exact Hrun.
        -- cbn [root] in Hrep'. rewrite (replaceAt_replaceAt _ _ _ _ _ Hrep) in Hrep'.
           unfold par1 in Hrep'. now rewrite setChildren_setChildren in Hrep'.
      * destruct (IH m par pre (Some d) (uid d)) as (t' & r & Hrun & Hrep');
          try assumption; try reflexivity.
        exists t', r. split; [|exact Hrep'].
        unfold bind. rewrite mergeStep_apart by (apply Hx; now left). exact Hrun.
    + destruct cur as [c|].
      * subst x.
        destruct (IH m par (pre ++ [c; d]) None (uid c)) as (t' & r & Hrun & Hrep');
          try assumption.
        { rewrite E, <- app_assoc. reflexivity. }
        { intros d' Hd'. rewrite (nextSibling_child q _ par c d pre post W Hq E).
          intros [= Heq].
          assert (E' : children par = (pre ++ [c]) ++ d :: post)
            by (rewrite E, <- app_assoc; reflexivity).
          apply (later_sibling_differs q _ par d d' _ _ W Hq E' Hd'). congruence. }
        exists t', r. split; [exact Hrun|].
        rewrite <- app_assoc in Hrep'. exact Hrep'.
      * destruct (IH m par (pre ++ [d]) None x) as (t' & r & Hrun & Hrep');
          try assumption.
        { rewrite E, <- app_assoc. reflexivity. }
        { intros d' Hd'. apply Hx. now right. }
        exists t', r. split; [exact Hrun|].
        rewrite <- app_assoc in Hrep'. exact Hrep'.
Qed.

Lemma mergeRuns_skip (R : nat -> bool) (l0 : list Node) (cs : list Node) :
  Forall (fun c => R (uid c) = false) l0 ->
  mergeRuns R None (l0 ++ cs) = l0 ++ mergeRuns R None cs.
Proof.
  induction 1 as [|c l0 Hc H IH]; [reflexivity|].
  cbn [app mergeRuns]. now rewrite Hc, IH.
Qed.

Lemma filter_first (f : Node -> bool) (cs : list Node) :
  filter f cs <> [] ->
  exists l0 c post,
    cs = l0 ++ c :: post /\ f c = true /\ Forall (fun x => f x = false) l0
    /\ filter f cs = c :: filter f post.
Proof.
  induction cs as [|x cs IH]; intros H; [now destruct H|].
  cbn [filter] in *. destruct (f x) eqn:E.
  - exists [], x, cs. now repeat split.
  - destruct (IH H) as (l0 & c & post & -> & Hc & Hl0 & Hf).
    exists (x :: l0), c, post. repeat split; try assumption. now constructor.
Qed.

Lemma adjacentRecorded_skip (R : nat -> bool) (d : Node) (l : list Node) :
  R (uid d) = false -> adjacentRecorded R (d :: l) = adjacentRecorded R l.
Proof.
  intros H. destruct l as [|e l]; [reflexivity|].
  cbn [adjacentRecorded]. now rewrite H.
Qed.

(** After the merge of the runs no two recorded elements are adjacent. *)
Lemma mergeRuns_apart (R : nat -> bool) (cs : list Node) :
  forall cur, adjacentRecorded R (mergeRuns R cur cs) = false.
Proof.
  induction cs as [|d cs IH]; intros cur.
  - now destruct cur.
  - cbn [mergeRuns]. destruct (R (uid d)) eqn:HR.
    + destruct cur; apply IH.
    + destruct cur as [c|].
      * change (adjacentRecorded R (c :: d :: mergeRuns R None cs))
          with ((R (uid c) && R (uid d)) || adjacentRecorded R (d :: mergeRuns R None cs)).
        rewrite HR, andb_false_r, adjacentRecorded_skip by exact HR. apply IH.
      * rewrite adjacentRecorded_skip by exact HR. apply IH.
Qed.

(** The merge of the runs keeps the content below the recorded elements,
    in order. *)
Lemma mergeRuns_content (R : nat -> bool) (cs : list Node) :
  forall cur,
    match cur with Some c => R (uid c) = true | None => True end ->
    eraseChildren R (mergeRuns R cur cs)
    = eraseChildren R (match cur with Some c => c :: cs | None => cs end).
Proof.
  induction cs as [|d cs IH]; intros cur Hcur.
  - now destruct cur.
  - cbn [mergeRuns]. destruct (R (uid d)) eqn:HR.
    + destruct cur as [c|].
      * rewrite IH by exact Hcur.
        rewrite !eraseChildren_cons_in by assumption.
        unfold absorb. cbn [children setChildren].
        now rewrite eraseChildren_app, app_assoc.
      * now rewrite IH by exact HR.
    + destruct cur as [c|].
      * rewrite eraseChildren_cons_in by exact Hcur.
        rewrite eraseChildren_cons_out by exact HR.
        rewrite (IH None I).
        rewrite (eraseChildren_cons_in R c) by exact Hcur.
        now rewrite eraseChildren_cons_out by exact HR.
      * rewrite !eraseChildren_cons_out by exact HR. now rewrite (IH None I).
Qed.

(** C4 fails as stated: wrapping a paragraph that directly follows a code
    block which holds no selected block leaves two code blocks side by
    side. *)
Lemma wrap_leaves_adjacent_containers_counterexample :
  ~ (forall (schema : Schema) (ed ed' : Editor),
        noAdjacentContainers (root (model ed)) = true ->
        value ed = false ->
        execute schema ed = Some ed' ->
        noAdjacentContainers (root (model ed')) = true).
Proof.
  intros H.
  specialize (H openSchema (mkEditor (mkModel docBlockThenPar 100) [2] false true)
                (mkEditor (mkModel (rootOf [codeBlock 10 [paragraph 1];
                                            codeBlock 100 [paragraph 2]]) 101)
                          [2] false true)
                eq_refl eq_refl eq_refl).
  discriminate.
Qed.

(** The merge pass over the recorded elements [R] among the children of
    one element, listed in their order as siblings, merges every run of
    directly adjacent recorded elements into the first element of the
    run. *)
Lemma mergePass_runs (m : Model) (q : Path) (par : Node) (R : nat -> bool) :
  wellFormed (root m) -> getNodeByPath (root m) q = Some par ->
  filter (fun c => R (uid c)) (children par) <> [] ->
  exists t' r,
    reduce mergeStep (map uid (filter (fun c => R (uid c)) (children par))) m
    = Some (r, mkModel t' (nextUid m))
    /\ replaceAt q (setChildren par (mergeRuns R None (children par))) (root m)
       = Some t'
    /\ adjacentRecorded R (mergeRuns R None (children par)) = false
    /\ eraseChildren R (mergeRuns R None (children par))
       = eraseChildren R (children par).
Proof.
  intros W Hq Hne.
  destruct (filter_first _ _ Hne) as (l0 & c & post & E & Hc & Hl0 & Hf).
  rewrite Hf. cbn [map reduce].
  destruct (mergePass_sim R q post m par l0 (Some c) (uid c) W Hq E eq_refl)
    as (t' & r & Hrun & Hrep).
  exists t', r. split; [exact Hrun|]. split; [|split].
  - rewrite E, (mergeRuns_skip R l0 (c :: post) Hl0). cbn [mergeRuns].
    rewrite Hc. exact Hrep.
  - apply mergeRuns_apart.
  - apply (mergeRuns_content R (children par) None I).
Qed.

(** ** Code blocks are not nested, and unwrapping keeps it so *)

Lemma noNestedContainers_unfold (n : Node) :
  noNestedContainers n
  = (negb (isCodeBlock n) || forallb (fun c => negb (isCodeBlock c)) (children n))
    && forallb noNestedContainers (children n).
Proof. now destruct n. Qed.

Lemma noNestedContainers_child (n c : Node) :
  noNestedContainers n = true -> In c (children n) -> noNestedContainers c = true.
Proof.
  rewrite noNestedContainers_unfold. intros H Hc.
  apply andb_true_iff in H. destruct H as [_ H].
  rewrite forallb_forall in H. apply H, Hc.
Qed.

Lemma noNestedContainers_get (q : Path) :
  forall t x, noNestedContainers t = true -> getNodeByPath t q = Some x ->
              noNestedContainers x = true.
Proof.
  induction q as [|i q IH]; intros t x H Hx.
  - now injection Hx as <-.
  - cbn [getNodeByPath] in Hx.
    destruct (nth_error (children t) i) as [c|] eqn:Hc; [|discriminate].
    apply (IH c x); [|exact Hx].
    eapply noNestedContainers_child; [exact H|]. eapply nth_error_In; eassumption.
Qed.

Lemma noNestedContainers_parent (par c : Node) :
  noNestedContainers par = true -> In c (children par) ->
  isCodeBlock c = true -> isCodeBlock par = false.
Proof.
  rewrite noNestedContainers_unfold. intros H Hc Hcb.
  apply andb_true_iff in H. destruct H as [H _].
  destruct (isCodeBlock par); [|reflexivity]. cbn in H.
  rewrite forallb_forall in H. specialize (H c Hc). now rewrite Hcb in H.
Qed.

Lemma noNestedContainers_inside (par c : Node) :
  noNestedContainers par = true -> In c (children par) ->
  isCodeBlock par = true -> isCodeBlock c = false.
Proof.
  intros H Hc Hcb. destruct (isCodeBlock c) eqn:E; [|reflexivity].
  rewrite (noNestedContainers_parent par c H Hc E) in Hcb. discriminate.
Qed.

Lemma name_replaceAt (q : Path) :
  forall t t' x y, getNodeByPath t q = Some x -> replaceAt q y t = Some t' ->
                   name y = name x -> name t' = name t.
Proof.
  destruct q as [|i q]; intros t t' x y Hx Hrep Hn.
  - cbn in Hx, Hrep. injection Hx as <-. injection Hrep as <-. exact Hn.
  - unfold replaceAt in Hrep. cbn [updateAt] in Hrep.
    destruct (nth_error (children t) i) as [c|]; [|discriminate].
    destruct (updateAt q (fun _ => Some y) c) as [c'|]; [|discriminate].
    now injection Hrep as <-.
Qed.

Lemma noNestedContainers_replaceAt (q : Path) :
  forall t t' x y,
    getNodeByPath t q = Some x -> replaceAt q y t = Some t' ->
    name y = name x ->
    noNestedContainers t = true -> noNestedContainers y = true ->
    noNestedContainers t' = true.
Proof.
  induction q as [|i q IH]; intros t t' x y Hx Hrep Hn Ht Hy.
  - cbn in Hrep. now injection Hrep as <-.
  - cbn [getNodeByPath] in Hx.
    destruct (nth_error (children t) i) as [c|] eqn:Hc; [|discriminate].
    unfold replaceAt in Hrep. cbn [updateAt] in Hrep. rewrite Hc in Hrep.
    destruct (updateAt q (fun _ => Some y) c) as [c'|] eqn:Hu; [|discriminate].
    injection Hrep as <-.
    assert (Hc' : noNestedContainers c' = true).
    { apply (IH c c' x y Hx Hu Hn); [|exact Hy].
      eapply noNestedContainers_child; [exact Ht|]. eapply nth_error_In; eassumption. }
    assert (Hname : isCodeBlock c' = isCodeBlock c).
    { unfold isCodeBlock. now rewrite (name_replaceAt q c c' x y Hx Hu Hn). }
    destruct (nth_error_decompose _ _ _ _ Hc) as [E L].
    rewrite noNestedContainers_unfold in Ht |- *.
    cbn [children setChildren]. unfold replaceChild.
    change (isCodeBlock (setChildren t
              (firstn i (children t) ++ c' :: skipn (S i) (children t))))
      with (isCodeBlock t).
    rewrite E in Ht. rewrite !forallb_app in Ht |- *. cbn [forallb] in Ht |- *.
    rewrite Hname, Hc'.
    apply andb_true_iff in Ht. destruct Ht as [Ht1 Ht2].
    apply andb_true_iff in Ht2. destruct Ht2 as [Ht2 Ht3].
    apply andb_true_iff in Ht3. destruct Ht3 as [_ Ht3].
    rewrite Ht1, Ht2, Ht3. reflexivity.
Qed.

(** An element made of some of the children of a code block, under the
    same name. *)
Lemma noNestedContainers_part (c : Node) (u : nat) (l : list Node) :
  noNestedContainers c = true -> incl l (children c) ->
  noNestedContainers (Element u (name c) l) = true.
Proof.
  intros H Hl. rewrite noNestedContainers_unfold in H |- *.
  cbn [children]. change (isCodeBlock (Element u (name c) l)) with (isCodeBlock c).
  apply andb_true_iff in H. destruct H as [H1 H2].
  apply andb_true_iff. split.
  - destruct (isCodeBlock c); [|reflexivity]. cbn in *.
    rewrite forallb_forall in *. intros x Hx. apply H1, Hl, Hx.
  - rewrite forallb_forall in *. intros x Hx. apply H2, Hl, Hx.
Qed.

Lemma unwrapped_parts (u : nat) (c : Node) (before mid after : list Node) :
  children c = before ++ mid ++ after ->
  forall x, In x (unwrapped u c before mid after) ->
            In x mid
            \/ exists u' l, x = Element u' (name c) l /\ incl l (children c).
Proof.
  intros Ec x Hx.
  assert (Hb : incl before (children c))
    by (rewrite Ec; intros y Hy; apply in_or_app; now left).
  assert (Ha : incl after (children c))
    by (rewrite Ec; intros y Hy; apply in_or_app; right; apply in_or_app; now right).
  unfold unwrapped in Hx.
  destruct before as [|b0 before], after as [|a0 after].
  - now left.
  - apply in_app_or in Hx. destruct Hx as [Hx|[<-|[]]]; [now left|].
    right. now exists (uid c), (a0 :: after).
  - destruct Hx as [<-|Hx]; [|now left].
    right. now exists (uid c), (b0 :: before).
  - destruct Hx as [<-|Hx]; [right; now exists (uid c), (b0 :: before)|].
    apply in_app_or in Hx. destruct Hx as [Hx|[<-|[]]]; [now left|].
    right. now exists u, (a0 :: after).
Qed.

Lemma mid_in_unwrapped (u : nat) (c : Node) (before mid after : list Node) :
  incl mid (unwrapped u c before mid after).
Proof.
  intros x Hx. unfold unwrapped.
  destruct before as [|b0 before], after as [|a0 after].
  - exact Hx.
  - apply in_or_app. now left.
  - now right.
  - right. apply in_or_app. now left.
Qed.

Lemma noNestedContainers_unwrapped (u : nat) (par c : Node)
  (pre post before mid after : list Node) :
  noNestedContainers par = true ->
  children par = pre ++ c :: post ->
  children c = before ++ mid ++ after ->
  isCodeBlock c = true ->
  noNestedContainers
    (setChildren par (pre ++ unwrapped u c before mid after ++ post)) = true.
Proof.
  intros H E Ec Hcb.
  assert (Hin : In c (children par)) by (rewrite E; apply in_or_app; right; now left).
  pose proof (noNestedContainers_parent par c H Hin Hcb) as Hpar.
  pose proof (noNestedContainers_child par c H Hin) as Hc.
  rewrite noNestedContainers_unfold in H |- *.
  change (isCodeBlock (setChildren par (pre ++ unwrapped u c before mid after ++ post)))
    with (isCodeBlock par).
  rewrite Hpar. cbn [negb orb andb children setChildren].
  rewrite Hpar in H. cbn [negb orb andb] in H.
  rewrite E, forallb_app in H. cbn [forallb] in H.
  apply andb_true_iff in H. destruct H as [H1 H2].
  apply andb_true_iff in H2. destruct H2 as [_ H2].
  rewrite !forallb_app, H1, H2, andb_true_r. cbn [andb].
  apply forallb_forall. intros x Hx.
  destruct (unwrapped_parts u c before mid after Ec x Hx) as [Hm|(u' & l & -> & Hl)].
  - apply (noNestedContainers_child c x Hc). rewrite Ec.
    apply in_or_app. right. apply in_or_app. now left.
  - now apply noNestedContainers_part.
Qed.

(** One step of the unwrap pass: the blocks of the group are afterwards
    children of an element that is not a code block. *)
Lemma removeBlockGroup_out (m : Model) (r : Range) (u : nat) :
  modelOk m -> noNestedContainers (root m) = true -> resolves (root m) r u ->
  exists m',
    removeBlockGroup r m = Some (tt, m')
    /\ noNestedContainers (root m') = true
    /\ (forall b, In b (rangeUids (root m) r) ->
                  exists u0 nm cs,
                    In (u0, nm, cs) (nodeInfos (root m'))
                    /\ nm <> "codeBlock"%string /\ In b cs).
Proof.
  intros Hok Hnn (c & Hne & Hflat & Hc & Hcb & Hu & Hlt & Hle).
  unfold rangeUids. rewrite Hc.
  destruct r as [[P a] [P' e]]. cbn [start end_ ppath offset] in *. subst P'.
  destruct (path_cases P) as [->|(q & i & ->)]; [congruence|].
  destruct (getNodeByPath_snoc_inv _ _ _ _ Hc) as (par & Hq & Hi).
  destruct (nth_error_decompose _ _ _ _ Hi) as [E L].
  remember (firstn i (children par)) as pre eqn:Epre.
  remember (skipn (S i) (children par)) as post eqn:Epost.
  destruct (split_three _ (children c) a e) as (Ec & La & Lm); [lia|exact Hle|].
  unfold slice.
  remember (firstn a (children c)) as before eqn:Eb.
  remember (firstn (e - a) (skipn a (children c))) as mid eqn:Em.
  remember (skipn e (children c)) as after eqn:Ea.
  pose proof (removeBlockGroup_run m q par c pre post before mid after Hok Hq E Ec) as Hrun.
  rewrite L, La, Lm in Hrun. replace (a + (e - a)) with e in Hrun by lia.
  set (y := setChildren par (pre ++ unwrapped (nextUid m) c before mid after ++ post)) in *.
  destruct (replaceAt_total q y par _ Hq) as (t' & Ht').
  rewrite Ht' in Hrun. eexists. split; [exact Hrun|]. cbn [root].
  pose proof (noNestedContainers_get q _ _ Hnn Hq) as Hpar.
  assert (Hin : In c (children par)) by (eapply nth_error_In; eassumption).
  split.
  - apply (noNestedContainers_replaceAt q _ _ par y Hq Ht' eq_refl Hnn).
    now apply noNestedContainers_unwrapped.
  - intros b Hb. exists (uid par), (name par), (map uid (children y)). repeat split.
    + change (uid par, name par, map uid (children y)) with (infoOf y).
      apply (nodeInfos_getNodeByPath q). apply (replaceAt_get _ _ _ _ Ht').
    + intros Hn. pose proof (noNestedContainers_parent par c Hpar Hin Hcb) as Hp.
      unfold isCodeBlock in Hp. rewrite Hn in Hp. discriminate.
    + unfold y. cbn [children setChildren]. rewrite !map_app, !in_app_iff.
      right. left. apply in_map_iff in Hb. destruct Hb as (x & <- & Hx).
      apply in_map. now apply mid_in_unwrapped.
Qed.

Lemma rangeUids_agreeLeft (p : Path) (t t' : Node) (r : Range) (u : nat) :
  agreeLeft p t t' ->
  endsBefore (ppath (start r)) (offset (end_ r)) p = true ->
  resolves t r u -> rangeUids t' r = rangeUids t r.
Proof.
  intros Hag Hb (c & _ & _ & Hc & _ & _ & Hlt & Hle).
  destruct (agreeLeft_endsBefore _ _ _ _ _ _ Hag Hb Hc Hle)
    as (c' & Hc' & _ & _ & Hf & _).
  unfold rangeUids. rewrite Hc, Hc'.
  now rewrite (slice_firstn _ _ _ _ (Nat.lt_le_incl _ _ Hlt) Hf).
Qed.

Lemma slice_In (a e : nat) (cs : list Node) (x : Node) :
  In x (slice a e cs) -> In x cs.
Proof.
  unfold slice. intros H.
  rewrite <- (firstn_skipn a cs). apply in_or_app. right.
  rewrite <- (firstn_skipn (e - a) (skipn a cs)). apply in_or_app. now left.
Qed.

Lemma rangeUids_not_container (t : Node) (r r' : Range) (u u' : nat) (b : nat) :
  wellFormed t -> noNestedContainers t = true ->
  resolves t r u -> resolves t r' u' -> In b (rangeUids t r) -> b <> u'.
Proof.
  intros W Hnn (c & _ & _ & Hc & Hcb & _ & _ & _) (c' & _ & _ & Hc' & Hcb' & Hu' & _ & _)
         Hb Heq.
  unfold rangeUids in Hb. rewrite Hc in Hb.
  apply in_map_iff in Hb. destruct Hb as (x & Hx & Hin).
  apply slice_In in Hin.
  assert (Hncb : isCodeBlock x = false).
  { apply (noNestedContainers_inside c x); [|exact Hin|exact Hcb].
    eapply noNestedContainers_get; eassumption. }
  apply In_nth_error in Hin. destruct Hin as (j & Hj).
  pose proof (getNodeByPath_snoc _ _ _ _ _ Hc Hj) as Hxp.
  destruct (getNodeByPath_uid_inj t x c' _ _ W Hxp Hc') as [_ ->]; [congruence|].
  congruence.
Qed.

(** The unwrap pass, last group first: all the blocks of the groups end up
    as children of elements that are not code blocks. *)
Lemma removeBlock_sequence_out (rs : list Range) :
  forall (m : Model) (us : list nat),
    modelOk m -> noNestedContainers (root m) = true ->
    Forall2 (resolves (root m)) rs us -> rangesOrdered rs = true ->
    exists m',
      forEach (rev rs) removeBlockGroup m = Some (tt, m')
      /\ noNestedContainers (root m') = true
      /\ (forall r b, In r rs -> In b (rangeUids (root m) r) ->
                      exists u0 nm cs,
                        In (u0, nm, cs) (nodeInfos (root m'))
                        /\ nm <> "codeBlock"%string /\ In b cs).
Proof.
  induction rs as [|r rs IH] using rev_ind; intros m us Hok Hnn Hres Hord.
  - exists m. cbn. split; [reflexivity|]. split; [exact Hnn|]. intros r b [].
  - destruct (Forall2_snoc_inv _ _ _ _ _ _ Hres) as (us0 & u & -> & Hres0 & Hr).
    destruct (rangesOrdered_snoc _ _ Hord) as (Hord0 & Hbefore).
    destruct (removeBlockGroup_step m r u Hok Hr) as (m1 & Hstep & Hok1 & Hag & _).
    destruct (removeBlockGroup_out m r u Hok Hnn Hr) as (m1' & Hstep' & Hnn1 & Hout).
    rewrite Hstep in Hstep'. injection Hstep' as <-.
    assert (Hpos : 0 < offset (end_ r)).
    { destruct Hr as (c & _ & _ & _ & _ & _ & Hlt & _). lia. }
    assert (Hframe : forall r', In r' rs ->
              endsBefore (ppath (start r')) (offset (end_ r')) (frameOf r) = true).
    { intros r' Hr'.
      assert (Hpos' : 0 < offset (end_ r')).
      { apply (Forall2_In_l _ _ _ _ _ _ Hres0) in Hr'.
        destruct Hr' as (u' & _ & (c & _ & _ & _ & _ & _ & Hlt & _)). lia. }
      apply endsBefore_frameOf; [exact Hpos'|]. apply Hbefore, Hr'. }
    assert (Hres1 : Forall2 (resolves (root m1)) rs us0).
    { clear - Hres0 Hframe Hag.
      induction Hres0 as [|r' u' rs us0 Hr' H IH]; constructor.
      - apply (resolves_agreeLeft _ _ _ _ _ Hag); [|exact Hr'].
        apply Hframe. now left.
      - apply IH. intros x Hx. apply Hframe. now right. }
    destruct (IH m1 us0 Hok1 Hnn1 Hres1 Hord0) as (m' & Hrun & Hnn' & Hout').
    destruct (removeBlock_sequence rs m1 us0 Hok1 Hres1 Hord0)
      as (m'' & Hrun'' & _ & Hkept).
    rewrite Hrun in Hrun''. injection Hrun'' as <-.
    exists m'. rewrite rev_app_distr. cbn [rev app forEach].
    split; [unfold bind; now rewrite Hstep|]. split; [exact Hnn'|].
    intros r0 b Hr0 Hb. apply in_app_or in Hr0. destruct Hr0 as [Hr0|[<-|[]]].
    + apply (Hout' r0 b Hr0).
      destruct (Forall2_In_l _ _ _ _ _ _ Hres0 Hr0) as (u0 & _ & Hres_r0).
      rewrite (rangeUids_agreeLeft _ _ _ _ _ Hag (Hframe r0 Hr0) Hres_r0). exact Hb.
    + destruct (Hout b Hb) as (u0 & nm & cs & Hin & Hnm & Hbcs).
      destruct (Hkept u0 nm cs b Hin Hnm Hbcs) as (cs' & Hin' & Hb').
      * intros Hus. apply (Forall2_In_r _ _ _ _ _ _ Hres0) in Hus.
        destruct Hus as (r' & _ & Hr').
        now apply (rangeUids_not_container (root m) r r' u b b (proj1 Hok) Hnn Hr Hr' Hb).
      * now exists u0, nm, cs'.
Qed.

Lemma rangeOfRun_uids (t : Node) (run : list nat) (r : Range) :
  wellFormed t -> isRun t run -> rangeOfRun t run = Some r -> rangeUids t r = run.
Proof.
  intros W Hrun Hr.
  destruct (rangeOfRun_start _ _ _ Hr) as (b & rest & -> & Hloc).
  destruct (rangeOfRun_positions t b rest _ W Hrun Hloc) as [Hr' _].
  rewrite Hr in Hr'. injection Hr' as ->.
  destruct (locate_sound _ _ _ Hloc) as (p & c0 & Hp & _ & _).
  unfold rangeUids. cbn [start end_ ppath offset]. rewrite Hp.
  set (pos := start r) in *.
  replace (S (offset pos + length rest)) with (offset pos + length (b :: rest))
    by (simpl; lia).
  apply uids_of_positions. intros i x Hx.
  pose proof (isRun_positions t (b :: rest) W Hrun b pos eq_refl Hloc i x Hx) as Lx.
  destruct (locate_sound _ _ _ Lx) as (p' & c & Hp' & Hc & Hu).
  cbn [ppath offset] in *. rewrite Hp in Hp'. injection Hp' as <-.
  now exists c.
Qed.

Lemma runs_rangeUids (t : Node) (runs : list (list nat)) :
  wellFormed t -> Forall (isRun t) runs ->
  forall rs, allSome (map (rangeOfRun t) runs) = Some rs ->
             Forall2 (fun r run => rangeUids t r = run) rs runs.
Proof.
  intros W H. induction H as [|run runs Hrun H IH]; intros rs Hrs.
  - cbn in Hrs. injection Hrs as <-. constructor.
  - cbn [map allSome] in Hrs.
    destruct (rangeOfRun t run) as [r|] eqn:Er; [|discriminate].
    destruct (allSome (map (rangeOfRun t) runs)) as [rs0|]; [|discriminate].
    cbn in Hrs. injection Hrs as <-. constructor; [|now apply IH].
    now apply rangeOfRun_uids.
Qed.

(** The unwrap path of [execute] takes every selected block out of its
    code block. *)
Lemma execute_unwrap_unblocks (schema : Schema) (ed : Editor) :
  modelOk (model ed) ->
  isCodeBlock (root (model ed)) = false ->
  noNestedContainers (root (model ed)) = true ->
  value ed = true ->
  (forall b, In b (selectedBlocks ed) -> locate b (root (model ed)) <> None) ->
  inDocumentOrder (root (model ed)) (selectedBlocks ed) = true ->
  exists ed',
    execute schema ed = Some ed'
    /\ selectedBlocks ed' = selectedBlocks ed
    /\ (forall b, In b (selectedBlocks ed) ->
                  isBlocked (root (model ed')) b = Some false)
    /\ noNestedContainers (root (model ed')) = true
    /\ exists ed'', refresh schema ed' = Some ed''
                    /\ model ed'' = model ed' /\ value ed'' = false.
Proof.
  intros Hok Hroot Hnn Hv Hatt Hord.
  set (t := root (model ed)).
  set (blocked := filter (holds (isBlocked t)) (selectedBlocks ed)).
  assert (Hin : forall b, In b blocked <->
                          In b (selectedBlocks ed) /\ isBlocked t b = Some true).
  { intros b. unfold blocked. rewrite filter_In. unfold holds.
    destruct (isBlocked t b) as [[|]|]; intuition congruence. }
  pose proof (isRun_maximalRuns t blocked) as Hruns.
  destruct (runs_ranges t (maximalRuns t blocked) (proj1 Hok) Hroot Hruns)
    as (rs & Hrs & Hres & Hso).
  { rewrite concat_maximalRuns. intros b Hb. now apply Hin. }
  { rewrite concat_maximalRuns. now apply inDocumentOrder_filter. }
  pose proof (runs_rangeUids t _ (proj1 Hok) Hruns rs Hrs) as Huids.
  rewrite <- getRangesOfBlockGroups_runs in Hrs.
  destruct (removeBlock_sequence rs (model ed) _ Hok Hres Hso) as (m' & Hrun & Hok' & Hkept).
  destruct (removeBlock_sequence_out rs (model ed) _ Hok Hnn Hres Hso)
    as (m'' & Hrun' & Hnn' & Hout).
  rewrite Hrun in Hrun'. injection Hrun' as <-.
  assert (Hexec : execute schema ed
                  = Some (mkEditor m' (selectedBlocks ed) true (isEnabled ed))).
  { unfold execute. rewrite Hv. unfold bind at 1. unfold read at 1. fold t.
    rewrite filterOpt_filter.
    - fold blocked. unfold _removeBlock, bind, read. fold t. now rewrite Hrs, Hrun.
    - intros b Hb Hnone. destruct (isBlocked_attached t b (Hatt b Hb)) as (v & Hv').
      congruence. }
  assert (Hfree : forall b, In b (selectedBlocks ed) -> isBlocked (root m') b = Some false).
  { intros b Hb.
    assert (Hentry : exists u0 nm cs, In (u0, nm, cs) (nodeInfos (root m'))
                                      /\ nm <> "codeBlock"%string /\ In b cs).
    { destruct (isBlocked_attached t b (Hatt b Hb)) as ([|] & Hblk).
      - assert (Hbl : In b blocked) by now apply Hin.
        rewrite <- (concat_maximalRuns t blocked) in Hbl. apply in_concat in Hbl.
        destruct Hbl as (run & Hrun_in & Hb_run).
        destruct (Forall2_In_r _ _ _ _ _ _ Huids Hrun_in) as (r & Hr & Hru).
        apply (Hout r b Hr). fold t. now rewrite Hru.
      - destruct (elementParent_attached t b (Hatt b Hb)) as (p & Hp).
        assert (Hncb : name p <> "codeBlock"%string).
        { unfold isBlocked, findBlock, parentOf in Hblk. fold t in Hp. rewrite Hp in Hblk.
          intros Hn. rewrite Hn in Hblk. discriminate. }
        destruct (info_of_elementParent t b p Hp) as [Hinfo Hchild].
        destruct (Hkept (uid p) (name p) (map uid (children p)) b Hinfo Hncb Hchild)
          as (cs' & Hinfo' & Hb').
        + intros Hc. apply in_map_iff in Hc. destruct Hc as (r & Hr & Hrin).
          destruct (getRangesOfBlockGroups_starts _ _ _ _ Hrs Hrin) as (b1 & Hb1 & Hs).
          apply Hin in Hb1. destruct Hb1 as [Hb1 Hblk1].
          destruct (isBlocked_true_parent _ _ Hblk1) as (pos1 & p1 & L1 & Hp1 & _).
          unfold createBefore in Hs. rewrite L1 in Hs. injection Hs as Hs.
          assert (Hpar1 : elementParent t b1 = Some p1)
            by (unfold elementParent; now rewrite L1).
          apply (container_not_selected t (selectedBlocks ed) b b1 p1 (proj1 Hok) Hord Hb Hb1);
            [congruence|exact Hpar1|].
          unfold containerOf, positionParent in Hr.
          rewrite <- Hs, Hp1 in Hr. exact Hr.
        + now exists (uid p), (name p), cs'. }
    destruct Hentry as (u0 & nm & cs & Hentry & Hnm & Hbcs).
    destruct (elementParent_of_info _ _ _ _ _ (proj1 Hok') Hentry Hbcs) as (p' & Hp' & _ & Hn').
    unfold isBlocked, findBlock, parentOf. rewrite Hp'. rewrite Hn'.
    apply String.eqb_neq in Hnm. now rewrite Hnm. }
  eexists. split; [exact Hexec|]. cbn [model selectedBlocks].
  split; [reflexivity|]. split; [exact Hfree|]. split; [exact Hnn'|].
  unfold refresh, _getValue, _checkEnabled. cbn [model selectedBlocks value isEnabled].
  destruct (selectedBlocks ed) as [|b0 sel0] eqn:Esel; cbn [hd_error].
  - eexists. repeat split; reflexivity.
  - rewrite (Hfree b0 (or_introl eq_refl)). cbn [model selectedBlocks value isEnabled hd_error].
    destruct (checkCanBeBlocked_attached schema (root m') b0) as (e & He).
    + pose proof (Hfree b0 (or_introl eq_refl)) as Hf.
      unfold isBlocked, findBlock, parentOf, elementParent in Hf.
      now destruct (locate b0 (root m')).
    + rewrite He. eexists. repeat split; reflexivity.
Qed.

(** ** Further properties of the command and the plugin *)

(** *** More on [execute] *)

(** X1.  When [execute] runs the unwrap path on a selection listed in
    document order, in a tree in which no code block is directly inside a
    code block, no selected block is in a code block afterwards, so that
    [refresh] turns [value] off; and still no code block is directly
    inside a code block. *)
Theorem execute_unwrap_unblocks_selection (schema : Schema) (ed : Editor) :
  modelOk (model ed) ->
  isCodeBlock (root (model ed)) = false ->
  noNestedContainers (root (model ed)) = true ->
  value ed = true ->
  (forall b, In b (selectedBlocks ed) -> locate b (root (model ed)) <> None) ->
  inDocumentOrder (root (model ed)) (selectedBlocks ed) = true ->
  exists ed',
    execute schema ed = Some ed'
    /\ (forall b, In b (selectedBlocks ed) ->
                  isBlocked (root (model ed')) b = Some false)
    /\ noNestedContainers (root (model ed')) = true
    /\ exists ed'', refresh schema ed' = Some ed'' /\ value ed'' = false.
Proof.
  intros Hok Hroot Hnn Hv Hatt Hord.
  destruct (execute_unwrap_unblocks schema ed Hok Hroot Hnn Hv Hatt Hord)
    as (ed' & Hexec & _ & Hfree & Hnn' & ed'' & Hrefresh & _ & Hv').
  exists ed'. repeat split; try assumption. now exists ed''.
Qed.

Lemma execute_unwrap_unblocks_selection_witness :
  exists ed',
    execute openSchema (mkEditor (mkModel docPQRS 100) [2; 3] true true) = Some ed'
    /\ isBlocked (root (model ed')) 2 = Some false
    /\ isBlocked (root (model ed')) 3 = Some false.
Proof.
  destruct (execute_unwrap_unblocks_selection openSchema
              (mkEditor (mkModel docPQRS 100) [2; 3] true true))
    as (ed' & Hexec & Hfree & _).
  - split.
    + unfold wellFormed. vm_compute. repeat constructor; simpl; intuition lia.
    + vm_compute. repeat constructor.
  - reflexivity.
  - reflexivity.
  - reflexivity.
  - intros b Hb. simpl in Hb.
    repeat (destruct Hb as [<-|Hb]; [vm_compute; discriminate|]). destruct Hb.
  - reflexivity.
  - exists ed'. split; [exact Hexec|].
    split; apply Hfree; simpl; auto.
Defined.

(** *** More on the unwrap pass *)

(** X2.  A group at the start of a code block that does not reach its end
    is moved out to the left: its blocks become the siblings directly
    before the code block, which keeps the other blocks; no element is
    created or removed. *)
Theorem removeBlock_prefix_range_moves_before (m : Model) (q : Path) (par c : Node)
  (pre post mid after : list Node) :
  wellFormed (root m) ->
  getNodeByPath (root m) q = Some par ->
  children par = pre ++ c :: post ->
  children c = mid ++ after -> after <> [] ->
  exists t',
    removeBlockGroup
      (mkRange (mkPosition (q ++ [length pre]) 0)
               (mkPosition (q ++ [length pre]) (length mid))) m
    = Some (tt, mkModel t' (nextUid m))
    /\ getNodeByPath t' q
       = Some (setChildren par (pre ++ mid ++ setChildren c after :: post))
    /\ Permutation (uids t') (uids (root m)).
Proof.
  intros W Hq E Ec Hne.
  pose proof (removeBlockGroup_prefix m q par c pre post mid after W Hq E Ec Hne) as Hrun.
  set (y := setChildren par (pre ++ mid ++ setChildren c after :: post)) in *.
  destruct (replaceAt_total q y par (root m) Hq) as (t' & Hrep).
  rewrite Hrep in Hrun. exists t'. split; [exact Hrun|].
  split; [apply (replaceAt_get _ _ _ _ Hrep)|].
  apply (uids_replaceAt_perm _ _ _ _ _ [] [] Hq Hrep). cbn [app].
  unfold y. rewrite (uids_unfold par), E, uids_setChildren, !flat_map_app.
  cbn [flat_map]. rewrite (uids_unfold c), Ec, uids_setChildren, !flat_map_app.
  perm_solve.
Qed.

Lemma removeBlock_prefix_range_moves_before_witness :
  exists t',
    removeBlockGroup (mkRange (mkPosition [0] 0) (mkPosition [0] 2))
      (mkModel docPQRS 100) = Some (tt, mkModel t' 100)
    /\ getNodeByPath t' []
       = Some (rootOf [paragraph 1; paragraph 2;
                       codeBlock 10 [paragraph 3; paragraph 4]]).
Proof.
  destruct (removeBlock_prefix_range_moves_before (mkModel docPQRS 100) [] docPQRS
              (codeBlock 10 (map paragraph [1; 2; 3; 4])) [] []
              [paragraph 1; paragraph 2] [paragraph 3; paragraph 4])
    as (t' & Hrun & Hget & _).
  - unfold wellFormed. vm_compute. repeat constructor; simpl; intuition lia.
  - reflexivity.
  - reflexivity.
  - reflexivity.
  - discriminate.
  - exists t'. split; [exact Hrun|exact Hget].
Defined.

(** X3.  A group that ends a code block and does not start it is moved out
    to the right without a split: its blocks become the siblings directly
    after the code block, which keeps the blocks before the group; no
    element is created or removed. *)
Theorem removeBlock_suffix_range_moves_after (m : Model) (q : Path) (par c : Node)
  (pre post before mid : list Node) :
  wellFormed (root m) ->
  getNodeByPath (root m) q = Some par ->
  children par = pre ++ c :: post ->
  children c = before ++ mid -> before <> [] ->
  exists t',
    removeBlockGroup
      (mkRange (mkPosition (q ++ [length pre]) (length before))
               (mkPosition (q ++ [length pre]) (length before + length mid))) m
    = Some (tt, mkModel t' (nextUid m))
    /\ getNodeByPath t' q
       = Some (setChildren par (pre ++ setChildren c before :: mid ++ post))
    /\ Permutation (uids t') (uids (root m)).
Proof.
  intros W Hq E Ec Hne.
  pose proof (removeBlockGroup_suffix m q par c pre post before mid W Hq E Ec Hne) as Hrun.
  set (y := setChildren par (pre ++ setChildren c before :: mid ++ post)) in *.
  destruct (replaceAt_total q y par (root m) Hq) as (t' & Hrep).
  rewrite Hrep in Hrun. exists t'. split; [exact Hrun|].
  split; [apply (replaceAt_get _ _ _ _ Hrep)|].
  apply (uids_replaceAt_perm _ _ _ _ _ [] [] Hq Hrep). cbn [app].
  unfold y. rewrite (uids_unfold par), E, uids_setChildren, !flat_map_app.
  cbn [flat_map]. rewrite (uids_unfold c), Ec, uids_setChildren, !flat_map_app.
  perm_solve.
Qed.

Lemma removeBlock_suffix_range_moves_after_witness :
  exists t',
    removeBlockGroup (mkRange (mkPosition [0] 2) (mkPosition [0] 4))
      (mkModel docPQRS 100) = Some (tt, mkModel t' 100)
    /\ getNodeByPath t' []
       = Some (rootOf [codeBlock 10 [paragraph 1; paragraph 2];
                       paragraph 3; paragraph 4]).
Proof.
  destruct (removeBlock_suffix_range_moves_after (mkModel docPQRS 100) [] docPQRS
              (codeBlock 10 (map paragraph [1; 2; 3; 4])) [] []
              [paragraph 1; paragraph 2] [paragraph 3; paragraph 4])
    as (t' & Hrun & Hget & _).
  - unfold wellFormed. vm_compute. repeat constructor; simpl; intuition lia.
  - reflexivity.
  - reflexivity.
  - reflexivity.
  - discriminate.
  - exists t'. split; [exact Hrun|exact Hget].
Defined.

(** X4.  A step of the unwrap pass on a group inside a code block never
    fails, and loses or doubles no element: every element other than the
    code block itself is still in the tree, the only element that can be
    new is the one made by a split, and the identities stay distinct. *)
Theorem removeBlockGroup_keeps_blocks (m : Model) (r : Range) (u : nat) :
  modelOk m -> resolves (root m) r u ->
  exists m',
    removeBlockGroup r m = Some (tt, m')
    /\ modelOk m'
    /\ (forall x, In x (uids (root m)) -> x <> u -> In x (uids (root m')))
    /\ (forall x, In x (uids (root m')) -> In x (uids (root m)) \/ x = nextUid m)
    /\ (nextUid m' = nextUid m \/ nextUid m' = S (nextUid m)).
Proof.
  intros Hok (c & Hne & Hflat & Hc & Hcb & Hu & Hlt & Hle).
  destruct r as [[P a] [P' e]]. cbn [start end_ ppath offset] in *. subst P'.
  destruct (path_cases P) as [->|(q & i & ->)]; [congruence|].
  destruct (getNodeByPath_snoc_inv _ _ _ _ Hc) as (par & Hq & Hi).
  destruct (nth_error_decompose _ _ _ _ Hi) as [E L].
  remember (firstn i (children par)) as pre eqn:Epre.
  remember (skipn (S i) (children par)) as post eqn:Epost.
  destruct (split_three _ (children c) a e) as (Ec & La & Lm); [lia|exact Hle|].
  remember (firstn a (children c)) as before eqn:Eb.
  remember (firstn (e - a) (skipn a (children c))) as mid eqn:Em.
  remember (skipn e (children c)) as after eqn:Ea.
  pose proof (removeBlockGroup_run m q par c pre post before mid after Hok Hq E Ec) as Hrun.
  rewrite L, La, Lm in Hrun. replace (a + (e - a)) with e in Hrun by lia.
  destruct (replaceAt_total q
              (setChildren par (pre ++ unwrapped (nextUid m) c before mid after ++ post))
              par _ Hq) as (t' & Ht').
  rewrite Ht' in Hrun. eexists. split; [exact Hrun|].
  split; [eapply modelOk_unwrapped; eassumption|].
  cbn [root nextUid].
  pose proof (uids_unwrapped (nextUid m) par c pre post before mid after E Ec) as Hp.
  pose proof (uids_replaceAt_perm q par _ _ t' _ _ Hq Ht' Hp) as Hp'.
  split; [|split].
  - intros x Hx Hxu.
    assert (Hx' : In x ((if splits before after then [nextUid m] else [])
                        ++ uids (root m))) by (apply in_or_app; now right).
    apply (Permutation_in _ (Permutation_sym Hp')) in Hx'.
    apply in_app_or in Hx'. destruct Hx' as [Hx'|Hx']; [|exact Hx'].
    exfalso. destruct (splits before after); [destruct Hx'|].
    destruct before, after; try destruct Hx' as [Hx'|[]]; try destruct Hx'.
    congruence.
  - intros x Hx.
    assert (Hx' : In x ((if splits before after then []
                         else match before, after with
                              | [], [] => [uid c]
                              | _, _ => []
                              end) ++ uids t')) by (apply in_or_app; now right).
    apply (Permutation_in _ Hp') in Hx'.
    apply in_app_or in Hx'. destruct Hx' as [Hx'|Hx']; [|now left].
    destruct (splits before after); [|destruct Hx'].
    destruct Hx' as [<-|[]]. now right.
  - destruct (splits before after); auto.
Qed.

Lemma removeBlockGroup_keeps_blocks_witness :
  exists m',
    removeBlockGroup (mkRange (mkPosition [0] 1) (mkPosition [0] 3))
      (mkModel docPQRS 100) = Some (tt, m')
    /\ In 4 (uids (root m')).
Proof.
  destruct (removeBlockGroup_keeps_blocks (mkModel docPQRS 100)
              (mkRange (mkPosition [0] 1) (mkPosition [0] 3)) 10)
    as (m' & Hrun & _ & Hkeep & _).
  - split.
    + unfold wellFormed. vm_compute. repeat constructor; simpl; intuition lia.
    + vm_compute. repeat constructor.
  - exists (codeBlock 10 (map paragraph [1; 2; 3; 4])).
    cbn. repeat split; try reflexivity; try discriminate; lia.
  - exists m'. split; [exact Hrun|]. apply Hkeep; [|discriminate].
    vm_compute. auto 10.
Defined.

(** *** More on the wrap pass *)

(** X5.  A step of the wrap pass on a group outside code blocks makes one
    new code block, which holds exactly the blocks of the group, in their
    order, and is recorded for the merge pass; without the new code block
    the tree is what it was. *)
Theorem applyBlockGroup_wraps_group (m : Model) (acc : list nat) (r : Range)
  (run : list nat) :
  modelOk m -> bareGroup (root m) r run ->
  exists t',
    applyBlockGroup acc r m = Some (acc ++ [nextUid m], mkModel t' (S (nextUid m)))
    /\ In (nextUid m, "codeBlock"%string, run) (nodeInfos t')
    /\ eraseNode (fun u => u =? nextUid m) t' = root m
    /\ Permutation (uids t') (nextUid m :: uids (root m)).
Proof.
  intros Hok Hr.
  destruct (applyBlockGroup_step m acc r run Hok Hr)
    as (t' & Hstep & _ & _ & Her & Hperm & _ & _ & Hin & _).
  exists t'. split; [exact Hstep|]. split; [exact Hin|]. split; [|exact Hperm].
  rewrite Her by apply Nat.eqb_refl. apply eraseNode_id. intros u Hu.
  apply Nat.eqb_neq. destruct Hok as [_ Hlt]. rewrite Forall_forall in Hlt.
  specialize (Hlt u Hu). lia.
Qed.

Lemma applyBlockGroup_wraps_group_witness :
  exists t',
    applyBlockGroup [] (mkRange (mkPosition [] 1) (mkPosition [] 3)) (mkModel docAH 100)
    = Some ([100], mkModel t' 101)
    /\ In (100, "codeBlock"%string, [2; 3]) (nodeInfos t').
Proof.
  destruct (applyBlockGroup_wraps_group (mkModel docAH 100) []
              (mkRange (mkPosition [] 1) (mkPosition [] 3)) [2; 3])
    as (t' & Hrun & Hin & _).
  - split.
    + unfold wellFormed. vm_compute. repeat constructor; simpl; intuition lia.
    + vm_compute. repeat constructor.
  - exists docAH. cbn. repeat split; try reflexivity; lia.
  - exists t'. split; [exact Hrun|exact Hin].
Defined.

(** X6.  [execute] with [value] off, on a selection in document order of
    blocks that all pass [checkCanBeBlocked]: afterwards every selected
    block is in a code block; every group of adjacent selected blocks has
    a new code block of its own that holds exactly the group, and no two
    of them are merged; without the new code blocks the tree is what it
    was. *)
Theorem execute_wrap_blocks_selection (schema : Schema) (ed : Editor) :
  modelOk (model ed) ->
  selectedBlocks ed <> [] ->
  inDocumentOrder (root (model ed)) (selectedBlocks ed) = true ->
  (forall b, In b (selectedBlocks ed) ->
             checkCanBeBlocked schema (root (model ed)) b = Some true) ->
  value ed = false ->
  let n := nextUid (model ed) in
  let runs := maximalRuns (root (model ed)) (selectedBlocks ed) in
  exists ed',
    execute schema ed = Some ed'
    /\ nextUid (model ed') = n + length runs
    /\ (forall b, In b (selectedBlocks ed) ->
                  isBlocked (root (model ed')) b = Some true)
    /\ Forall2 (fun u run => In (u, "codeBlock"%string, run)
                               (nodeInfos (root (model ed'))))
         (rev (seq n (length runs))) runs
    /\ eraseNode (fun u => n <=? u) (root (model ed')) = root (model ed).
Proof.
  destruct ed as [m sel v e]. cbn [model selectedBlocks value].
  intros Hok Hne Hord Hguard ->.
  assert (Hbare : forall b, In b sel -> isBlocked (root m) b = Some false).
  { intros b Hb. apply (checkCanBeBlocked_not_blocked schema), Hguard, Hb. }
  destruct (applyBlock_wraps m sel Hok Hne Hord Hbare)
    as (tw & Hwrap & Hokw & _ & Her & _ & _ & Hin).
  set (runs := maximalRuns (root m) sel) in *.
  set (n := nextUid m) in *.
  exists (mkEditor (mkModel tw (n + length runs)) sel false e).
  cbn [model root nextUid].
  split; [|split; [reflexivity|split; [|split; [exact Hin|exact Her]]]].
  - unfold execute. cbn [model selectedBlocks value isEnabled].
    unfold bind at 1. unfold read at 1. rewrite filterOpt_all.
    + now rewrite Hwrap.
    + intros b Hb. apply toBlock_true. right.
      split; [apply Hbare, Hb|apply Hguard, Hb].
  - intros b Hb.
    rewrite <- (concat_maximalRuns (root m) sel) in Hb. apply in_concat in Hb.
    destruct Hb as (run & Hrun & Hb).
    destruct (Forall2_In_r _ _ _ _ _ _ Hin Hrun) as (u & _ & Hentry).
    destruct (elementParent_of_info tw u "codeBlock" run b (proj1 Hokw) Hentry Hb)
      as (p & Hp & _ & Hn).
    unfold isBlocked, findBlock, parentOf. rewrite Hp, Hn. reflexivity.
Qed.

Lemma execute_wrap_blocks_selection_witness :
  exists ed',
    execute openSchema (mkEditor (mkModel docAH 100) [1; 2; 4; 6; 7; 8] false true)
    = Some ed'
    /\ nextUid (model ed') = 103
    /\ isBlocked (root (model ed')) 4 = Some true.
Proof.
  destruct (execute_wrap_blocks_selection openSchema
              (mkEditor (mkModel docAH 100) [1; 2; 4; 6; 7; 8] false true))
    as (ed' & Hexec & Hn & Hblocked & _).
  - split.
    + unfold wellFormed. vm_compute. repeat constructor; simpl; intuition lia.
    + vm_compute. repeat constructor.
  - discriminate.
  - reflexivity.
  - intros b Hb. simpl in Hb.
    repeat (destruct Hb as [<-|Hb]; [reflexivity|]). destruct Hb.
  - reflexivity.
  - exists ed'. split; [exact Hexec|]. split; [exact Hn|].
    apply Hblocked. simpl. auto.
Defined.

Lemma filterOpt_none (A : Type) (p : A -> option bool) (l : list A) :
  (forall x, In x l -> p x = Some false) -> filterOpt p l = Some [].
Proof.
  induction l as [|x l IH]; intros H; [reflexivity|].
  cbn [filterOpt]. rewrite (H x) by now left.
  rewrite IH by (intros y Hy; apply H; now right). reflexivity.
Qed.

(** *** More on the grouping *)

(** X8.  For blocks that are in the tree, the ranges of
    [getRangesOfBlockGroups] lie each in one element, are not empty, and
    contain exactly the given blocks, in their order: no other block is
    inside a range. *)
Theorem getRangesOfBlockGroups_cover (t : Node) (blocks : list nat) :
  wellFormed t ->
  (forall b, In b blocks -> locate b t <> None) ->
  exists rs,
    getRangesOfBlockGroups t blocks = Some rs
    /\ Forall (fun r => ppath (end_ r) = ppath (start r)
                        /\ offset (start r) < offset (end_ r)) rs
    /\ map (rangeUids t) rs = maximalRuns t blocks
    /\ concat (map (rangeUids t) rs) = blocks.
Proof.
  intros W Hatt.
  destruct (getRangesOfBlockGroups_attached t blocks Hatt) as (rs & Hrs).
  exists rs. split; [exact Hrs|].
  rewrite getRangesOfBlockGroups_runs in Hrs.
  pose proof (isRun_maximalRuns t blocks) as Hruns.
  pose proof (runs_rangeUids t _ W Hruns rs Hrs) as Huids.
  assert (Hmap : map (rangeUids t) rs = maximalRuns t blocks).
  { clear - Huids. induction Huids as [|r run rs runs Hr H IH]; [reflexivity|].
    cbn [map]. now rewrite Hr, IH. }
  split; [|split; [exact Hmap|rewrite Hmap; apply concat_maximalRuns]].
  apply Forall_forall. intros r Hr.
  destruct (allSome_map_In _ _ _ _ _ _ Hrs Hr) as (run & Hrun & Hrr).
  rewrite Forall_forall in Hruns. specialize (Hruns run Hrun).
  destruct (rangeOfRun_start _ _ _ Hrr) as (b & rest & -> & Hloc).
  destruct (rangeOfRun_positions t b rest _ W Hruns Hloc) as [Hr' _].
  rewrite Hrr in Hr'. injection Hr' as Hr'.
  rewrite Hr' at 1 4. cbn [start end_ ppath offset].
  rewrite Hr' at 1. cbn [start end_ ppath offset]. split; [reflexivity|].
  rewrite Hr' at 2. cbn [start end_ ppath offset]. lia.
Qed.

Lemma getRangesOfBlockGroups_cover_witness :
  exists rs,
    getRangesOfBlockGroups docAH [1; 2; 4; 6; 7; 8] = Some rs
    /\ map (rangeUids docAH) rs = [[1; 2]; [4]; [6; 7; 8]].
Proof.
  destruct (getRangesOfBlockGroups_cover docAH [1; 2; 4; 6; 7; 8])
    as (rs & Hrs & _ & Hmap & _).
  - unfold wellFormed. vm_compute. repeat constructor; simpl; intuition lia.
  - intros b Hb. simpl in Hb.
    repeat (destruct Hb as [<-|Hb]; [vm_compute; discriminate|]). destruct Hb.
  - exists rs. split; [exact Hrs|exact Hmap].
Defined.

Lemma runs_ordered (t : Node) (runs : list (list nat)) :
  wellFormed t -> Forall (isRun t) runs ->
  inDocumentOrder t (concat runs) = true ->
  forall rs, allSome (map (rangeOfRun t) runs) = Some rs -> rangesOrdered rs = true.
Proof.
  intros W H. induction H as [|run runs Hrun H IH]; intros Hord rs Hrs.
  - cbn in Hrs. now injection Hrs as <-.
  - cbn [concat] in Hord.
    destruct (inDocumentOrder_app _ _ _ Hord) as (_ & Hord' & Hcross).
    cbn [map allSome] in Hrs.
    destruct (rangeOfRun t run) as [r|] eqn:Er; [|discriminate].
    destruct (allSome (map (rangeOfRun t) runs)) as [rs0|] eqn:Ers; [|discriminate].
    cbn in Hrs. injection Hrs as <-.
    cbn [rangesOrdered]. rewrite (IH Hord' rs0 eq_refl), andb_true_r.
    destruct (rangeOfRun_start _ _ _ Er) as (b & rest & -> & Hloc).
    destruct (rangeOfRun_positions t b rest _ W Hrun Hloc) as [Hr Hlast].
    rewrite Er in Hr. injection Hr as Hr.
    apply forallb_forall. intros r' Hr'.
    destruct (allSome_map_In _ _ _ _ _ _ Ers Hr') as (run' & Hrun' & Hrr').
    destruct (rangeOfRun_start _ _ _ Hrr') as (b' & rest' & -> & Hloc').
    assert (Hbb : blockBefore t (last (b :: rest) b) b' = true).
    { apply Hcross; [apply last_In|].
      apply (In_concat_intro _ b' (b' :: rest') _ Hrun'). now left. }
    unfold blockBefore in Hbb. rewrite Hlast, Hloc' in Hbb.
    unfold rangeBefore. rewrite Hr at 1 2. cbn [start end_ ppath offset].
    apply precedes_endsBefore. exact Hbb.
Qed.

(** X9.  For blocks listed in document order the ranges of
    [getRangesOfBlockGroups] come in document order and apart: every range
    ends before each later range starts, which is what lets the passes
    work from the last range to the first. *)
Theorem getRangesOfBlockGroups_ordered (t : Node) (blocks : list nat) (rs : list Range) :
  wellFormed t ->
  inDocumentOrder t blocks = true ->
  getRangesOfBlockGroups t blocks = Some rs ->
  rangesOrdered rs = true.
Proof.
  intros W Hord Hrs. rewrite getRangesOfBlockGroups_runs in Hrs.
  apply (runs_ordered t (maximalRuns t blocks) W); [apply isRun_maximalRuns| |exact Hrs].
  now rewrite concat_maximalRuns.
Qed.

Lemma getRangesOfBlockGroups_ordered_witness :
  rangesOrdered [mkRange (mkPosition [] 0) (mkPosition [] 2);
                 mkRange (mkPosition [] 3) (mkPosition [] 4);
                 mkRange (mkPosition [] 5) (mkPosition [] 8)] = true.
Proof.
  apply (getRangesOfBlockGroups_ordered docAH [1; 2; 4; 6; 7; 8]).
  - unfold wellFormed. vm_compute. repeat constructor; simpl; intuition lia.
  - reflexivity.
  - reflexivity.
Defined.

(** *** More on the schema guard *)

Lemma checkCanBeBlocked_node (schema : Schema) (t : Node) (b : nat) :
  checkCanBeBlocked schema t b = Some true ->
  exists x, elementNode t b = Some x /\ uid x = b /\ isCodeBlock x = false.
Proof.
  intros H. unfold checkCanBeBlocked in H.
  destruct (locate b t) as [pos|] eqn:L; [|discriminate].
  destruct (elementNode_attached t b) as (x & Hx & Hu); [congruence|].
  rewrite Hx in H. exists x. split; [exact Hx|]. split; [exact Hu|].
  injection H as H. apply andb_true_iff in H. destruct H as [_ H].
  unfold isCodeBlock. destruct (String.eqb (name x) "codeBlock") eqn:E; [|reflexivity].
  apply String.eqb_eq in E. rewrite E in H.
  change ["$root"; "codeBlock"]%string with (["$root"%string] ++ ["codeBlock"%string]) in H.
  rewrite checkChild_in_codeBlock in H. discriminate.
Qed.

(** X10.  [checkCanBeBlocked] accepts only a block that is not in a code
    block and is not a code block itself, whatever the definitions of the
    schema allow. *)
Theorem checkCanBeBlocked_accepts_only_outside (schema : Schema) (t : Node) (b : nat) :
  checkCanBeBlocked schema t b = Some true ->
  isBlocked t b = Some false
  /\ exists x, elementNode t b = Some x /\ uid x = b /\ isCodeBlock x = false.
Proof.
  intros H. split; [now apply (checkCanBeBlocked_not_blocked schema)|].
  now apply (checkCanBeBlocked_node schema).
Qed.

Lemma checkCanBeBlocked_accepts_only_outside_witness :
  isBlocked docMixed 1 = Some false.
Proof.
  apply (checkCanBeBlocked_accepts_only_outside openSchema docMixed 1). reflexivity.
Defined.

(** *** The wrap pass makes no code block inside a code block *)

Lemma firstn_In_list (A : Type) (n : nat) (l : list A) (x : A) :
  In x (firstn n l) -> In x l.
Proof.
  intros H. rewrite <- (firstn_skipn n l). apply in_or_app. now left.
Qed.

Lemma skipn_In_list (A : Type) (n : nat) (l : list A) (x : A) :
  In x (skipn n l) -> In x l.
Proof.
  intros H. rewrite <- (firstn_skipn n l). apply in_or_app. now right.
Qed.

Lemma noNestedContainers_wrapChildren (par : Node) (u a e : nat) :
  noNestedContainers par = true -> isCodeBlock par = false ->
  (forall x, In x (slice a e (children par)) -> isCodeBlock x = false) ->
  noNestedContainers (setChildren par (wrapChildren u a e (children par))) = true.
Proof.
  intros H Hpar Hslice.
  assert (Hc : forall x, In x (children par) -> noNestedContainers x = true)
    by (intros x Hx; now apply (noNestedContainers_child par)).
  rewrite noNestedContainers_unfold.
  change (isCodeBlock (setChildren par (wrapChildren u a e (children par))))
    with (isCodeBlock par).
  rewrite Hpar. cbn [negb orb andb children setChildren].
  unfold wrapChildren. rewrite forallb_app. cbn [forallb].
  apply andb_true_iff. split; [|apply andb_true_iff; split].
  - apply forallb_forall. intros x Hx. apply Hc. now apply firstn_In_list in Hx.
  - rewrite noNestedContainers_unfold. cbn [children].
    apply andb_true_iff. split.
    + apply orb_true_iff. right. apply forallb_forall. intros x Hx.
      now rewrite (Hslice x Hx).
    + apply forallb_forall. intros x Hx. apply Hc. now apply slice_In in Hx.
  - apply forallb_forall. intros x Hx. apply Hc. now apply skipn_In_list in Hx.
Qed.

Lemma rangeNodes_agreeLeft (p : Path) (t t' : Node) (r : Range) (run : list nat) :
  agreeLeft p t t' ->
  endsBefore (ppath (start r)) (offset (end_ r)) p = true ->
  bareGroup t r run -> rangeNodes t' r = rangeNodes t r.
Proof.
  intros Hag Hb (c & _ & Hc & _ & Hlt & Hle & _).
  destruct (agreeLeft_endsBefore _ _ _ _ _ _ Hag Hb Hc Hle)
    as (c' & Hc' & _ & _ & Hf & _).
  unfold rangeNodes. rewrite Hc, Hc'.
  now rewrite (slice_firstn _ _ _ _ (Nat.lt_le_incl _ _ Hlt) Hf).
Qed.

Lemma applyBlockGroup_nested (m : Model) (acc : list nat) (r : Range) (run : list nat) :
  modelOk m -> noNestedContainers (root m) = true -> bareGroup (root m) r run ->
  (forall x, In x (rangeNodes (root m) r) -> isCodeBlock x = false) ->
  forall res m', applyBlockGroup acc r m = Some (res, m') ->
                 noNestedContainers (root m') = true.
Proof.
  intros Hok Hnn (par & Hpe & Hpar & Hcb & Hae & Hel & Hrun) Hnodes res m' Hstep.
  rewrite (applyBlockGroup_wrap m acc r par Hpe Hpar Hcb (Nat.lt_le_incl _ _ Hae) Hel)
    in Hstep.
  destruct (replaceAt _ _ (root m)) as [t'|] eqn:Hrep; [|discriminate].
  injection Hstep as _ <-. cbn [root].
  apply (noNestedContainers_replaceAt _ _ _ par _ Hpar Hrep eq_refl Hnn).
  apply noNestedContainers_wrapChildren; [|exact Hcb|].
  - eapply noNestedContainers_get; eassumption.
  - unfold rangeNodes in Hnodes. now rewrite Hpar in Hnodes.
Qed.

Lemma applyBlock_sequence_nested (rs : list Range) :
  forall (m : Model) (runs : list (list nat)) (acc : list nat),
    modelOk m -> noNestedContainers (root m) = true ->
    Forall2 (bareGroup (root m)) rs runs ->
    (forall r x, In r rs -> In x (rangeNodes (root m) r) -> isCodeBlock x = false) ->
    rangesOrdered rs = true ->
    forall res m', foldM applyBlockGroup acc (rev rs) m = Some (res, m') ->
                   noNestedContainers (root m') = true.
Proof.
  induction rs as [|r rs IH] using rev_ind;
    intros m runs acc Hok Hnn Hres Hnodes Hord res m' Hrun.
  - cbn in Hrun. now injection Hrun as _ <-.
  - destruct (Forall2_snoc_inv _ _ _ _ _ _ Hres) as (runs0 & run & -> & Hres0 & Hr).
    destruct (rangesOrdered_snoc _ _ Hord) as (Hord0 & Hbefore).
    destruct (applyBlockGroup_step m acc r run Hok Hr)
      as (t1 & Hstep & Hok1 & Hag & _).
    rewrite rev_app_distr in Hrun. cbn [rev app foldM] in Hrun.
    unfold bind in Hrun. rewrite Hstep in Hrun.
    assert (Hnn1 : noNestedContainers t1 = true).
    { assert (Hn : forall x, In x (rangeNodes (root m) r) -> isCodeBlock x = false).
      { intros x Hx. apply (Hnodes r x); [|exact Hx].
        apply in_or_app. right. now left. }
      apply (applyBlockGroup_nested m acc r run Hok Hnn Hr Hn _ _ Hstep). }
    refine (IH (mkModel t1 (S (nextUid m))) runs0 (acc ++ [nextUid m]) Hok1 Hnn1
              _ _ Hord0 res m' Hrun).
    + apply (Forall2_bareGroup_agreeLeft _ _ _ _ _ Hag); [|exact Hres0].
      intros r' Hr'. apply Hbefore, Hr'.
    + intros r' x Hr' Hx. cbn [root] in Hx.
      destruct (Forall2_In_l _ _ _ _ _ _ Hres0 Hr') as (run' & _ & Hbg).
      rewrite (rangeNodes_agreeLeft _ _ _ _ _ Hag (Hbefore r' Hr') Hbg) in Hx.
      apply (Hnodes r' x); [apply in_or_app; now left|exact Hx].
Qed.

Lemma elementNode_child (q : Path) (t par x : Node) :
  wellFormed t -> getNodeByPath t q = Some par -> In x (children par) ->
  elementNode t (uid x) = Some x.
Proof.
  intros W Hq Hx. apply In_nth_error in Hx. destruct Hx as (i & Hi).
  unfold elementNode. rewrite (locate_complete q i t par x W Hq Hi).
  cbn [ppath offset]. now rewrite Hq.
Qed.

(** X11.  [execute] with [value] off, on a selection in document order of
    blocks that all pass [checkCanBeBlocked], in a tree in which no code
    block is directly inside a code block, leaves a tree in which still no
    code block is directly inside a code block. *)
Theorem execute_wrap_keeps_no_nesting (schema : Schema) (ed : Editor) :
  modelOk (model ed) ->
  noNestedContainers (root (model ed)) = true ->
  selectedBlocks ed <> [] ->
  inDocumentOrder (root (model ed)) (selectedBlocks ed) = true ->
  (forall b, In b (selectedBlocks ed) ->
             checkCanBeBlocked schema (root (model ed)) b = Some true) ->
  value ed = false ->
  exists ed',
    execute schema ed = Some ed'
    /\ noNestedContainers (root (model ed')) = true.
Proof.
  destruct ed as [m sel v e]. cbn [model selectedBlocks value].
  intros Hok Hnn Hne Hord Hguard ->.
  assert (Hbare : forall b, In b sel -> isBlocked (root m) b = Some false).
  { intros b Hb. apply (checkCanBeBlocked_not_blocked schema), Hguard, Hb. }
  destruct (applyBlock_wraps_run m sel Hok Hne Hord Hbare)
    as (rs & tw & Hrs & Hres & Hso & Hfold & Hwrap & _).
  exists (mkEditor (mkModel tw (nextUid m + length (maximalRuns (root m) sel))) sel false e).
  split.
  - unfold execute. cbn [model selectedBlocks value isEnabled].
    unfold bind at 1. unfold read at 1. rewrite filterOpt_all.
    + now rewrite Hwrap.
    + intros b Hb. apply toBlock_true. right.
      split; [apply Hbare, Hb|apply Hguard, Hb].
  - cbn [model root].
    refine (applyBlock_sequence_nested rs m _ [] Hok Hnn Hres _ Hso _ _ Hfold).
    intros r x Hr Hx.
    destruct (Forall2_In_l _ _ _ _ _ _ Hres Hr) as (run & Hrun & Hbg).
    destruct Hbg as (par & _ & Hpar & _ & _ & _ & Huids).
    unfold rangeNodes in Hx. rewrite Hpar in Hx.
    assert (Hsel : In (uid x) sel).
    { rewrite <- (concat_maximalRuns (root m) sel).
      apply (In_concat_intro _ (uid x) run _ Hrun). rewrite <- Huids. now apply in_map. }
    destruct (checkCanBeBlocked_node schema _ _ (Hguard _ Hsel)) as (x' & Hx' & _ & Hcb).
    rewrite (elementNode_child _ _ par x (proj1 Hok) Hpar (slice_In _ _ _ _ Hx)) in Hx'.
    now injection Hx' as <-.
Qed.

Lemma execute_wrap_keeps_no_nesting_witness :
  exists ed',
    execute openSchema (mkEditor (mkModel docBlockThenPar 100) [2] false true) = Some ed'
    /\ noNestedContainers (root (model ed')) = true.
Proof.
  apply (execute_wrap_keeps_no_nesting openSchema
           (mkEditor (mkModel docBlockThenPar 100) [2] false true)).
  - split.
    + unfold wellFormed. vm_compute. repeat constructor; simpl; intuition lia.
    + vm_compute. repeat constructor.
  - reflexivity.
  - discriminate.
  - reflexivity.
  - intros b Hb. simpl in Hb.
    repeat (destruct Hb as [<-|Hb]; [reflexivity|]). destruct Hb.
  - reflexivity.
Defined.

(** *** The listener of the Enter key *)

(** X12.  Enter with a collapsed selection in an empty block while [value]
    is on (the command being enabled) executes the command and stops the
    event: afterwards the block is in no code block and [value] is off.
    In every other case the listener leaves the editor as it is and does
    not stop the event. *)
Theorem enter_in_empty_block_breaks_out :
  (forall (schema : Schema) (lastPosition : Position) (ed : Editor) (x : Node),
      modelOk (model ed) ->
      isCodeBlock (root (model ed)) = false ->
      noNestedContainers (root (model ed)) = true ->
      positionParent (root (model ed)) lastPosition = Some x ->
      ppath lastPosition <> [] ->
      isEmpty x = true ->
      selectedBlocks ed = [uid x] ->
      value ed = true -> isEnabled ed = true ->
      exists ed',
        enterListener schema true lastPosition ed = Some (ed', true)
        /\ isBlocked (root (model ed')) (uid x) = Some false
        /\ value ed' = false
        /\ noNestedContainers (root (model ed')) = true)
  /\ (forall (schema : Schema) (isCollapsed : bool) (lastPosition : Position)
             (ed : Editor) (p : Node),
         positionParent (root (model ed)) lastPosition = Some p ->
         isCollapsed && isEmpty p && value ed = false ->
         enterListener schema isCollapsed lastPosition ed = Some (ed, false)).
Proof.
  split.
  - intros schema lastPosition ed x Hok Hroot Hnn Hx Hne Hempty Hsel Hv He.
    destruct (locate_of_fullPath _ _ x (proj1 Hok) Hne Hx) as (pos & Hloc & _).
    destruct (execute_unwrap_unblocks schema ed Hok Hroot Hnn Hv)
      as (ed' & Hexec & _ & Hfree & Hnn' & ed'' & Hrefresh & Hm & Hv').
    { rewrite Hsel. intros b [<-|[]]. congruence. }
    { now rewrite Hsel. }
    exists ed''. unfold enterListener, editorExecute.
    rewrite Hx, Hempty, Hv, He, Hexec, Hrefresh. cbn [andb].
    split; [reflexivity|]. rewrite Hm.
    split; [apply Hfree; rewrite Hsel; now left|]. split; [exact Hv'|exact Hnn'].
  - intros schema isCollapsed lastPosition ed p Hp Hcond.
    unfold enterListener. now rewrite Hp, Hcond.
Qed.

Lemma enter_in_empty_block_breaks_out_witness :
  exists ed',
    enterListener openSchema true (mkPosition [0; 3] 0)
      (mkEditor (mkModel docPQRS 100) [4] true true) = Some (ed', true)
    /\ isBlocked (root (model ed')) 4 = Some false.
Proof.
  destruct (proj1 enter_in_empty_block_breaks_out openSchema (mkPosition [0; 3] 0)
              (mkEditor (mkModel docPQRS 100) [4] true true) (paragraph 4))
    as (ed' & Hrun & Hfree & _).
  - split.
    + unfold wellFormed. vm_compute. repeat constructor; simpl; intuition lia.
    + vm_compute. repeat constructor.
  - reflexivity.
  - reflexivity.
  - reflexivity.
  - discriminate.
  - reflexivity.
  - reflexivity.
  - reflexivity.
  - reflexivity.
  - exists ed'. split; [exact Hrun|exact Hfree].
Defined.

(** *** The unwrap pass keeps the content *)

Lemma eraseChildren_unwrapped (F : nat -> bool) (u : nat) (c : Node)
  (before mid after : list Node) :
  F (uid c) = true -> F u = true ->
  eraseChildren F (unwrapped u c before mid after)
  = eraseChildren F (before ++ mid ++ after).
Proof.
  intros Hc Hu. unfold unwrapped.
  destruct before as [|b0 before], after as [|a0 after].
  - now rewrite app_nil_r.
  - cbn [app]. rewrite !eraseChildren_app.
    rewrite (eraseChildren_cons_in F (setChildren c (a0 :: after))) by exact Hc.
    cbn [children setChildren]. now rewrite app_nil_r.
  - rewrite (eraseChildren_cons_in F (setChildren c (b0 :: before))) by exact Hc.
    cbn [children setChildren]. now rewrite !eraseChildren_app, app_nil_r.
  - rewrite (eraseChildren_cons_in F (setChildren c (b0 :: before))) by exact Hc.
    cbn [children setChildren]. rewrite !eraseChildren_app.
    rewrite (eraseChildren_cons_in F (Element u (name c) (a0 :: after))) by exact Hu.
    cbn [children]. now rewrite app_nil_r.
Qed.

Lemma eraseNode_unwrapped (F : nat -> bool) (u : nat) (par c : Node)
  (pre post before mid after : list Node) :
  F (uid c) = true -> F u = true ->
  children par = pre ++ c :: post ->
  children c = before ++ mid ++ after ->
  eraseNode F (setChildren par (pre ++ unwrapped u c before mid after ++ post))
  = eraseNode F par.
Proof.
  intros Hc Hu E Ec. rewrite !eraseNode_unfold. cbn [uid name children setChildren].
  f_equal. rewrite E, !eraseChildren_app.
  rewrite (eraseChildren_cons_in F c) by exact Hc.
  now rewrite eraseChildren_unwrapped, Ec by assumption.
Qed.

Lemma removeBlockGroup_content (m : Model) (r : Range) (u : nat) :
  modelOk m -> resolves (root m) r u ->
  forall m', removeBlockGroup r m = Some (tt, m') ->
             nextUid m <= nextUid m'
             /\ forall F, F u = true -> F (nextUid m) = true ->
                          eraseNode F (root m') = eraseNode F (root m).
Proof.
  intros Hok (c & Hne & Hflat & Hc & Hcb & Hu & Hlt & Hle) m' Hstep.
  destruct r as [[P a] [P' e]]. cbn [start end_ ppath offset] in *. subst P'.
  destruct (path_cases P) as [->|(q & i & ->)]; [congruence|].
  destruct (getNodeByPath_snoc_inv _ _ _ _ Hc) as (par & Hq & Hi).
  destruct (nth_error_decompose _ _ _ _ Hi) as [E L].
  remember (firstn i (children par)) as pre eqn:Epre.
  remember (skipn (S i) (children par)) as post eqn:Epost.
  destruct (split_three _ (children c) a e) as (Ec & La & Lm); [lia|exact Hle|].
  remember (firstn a (children c)) as before eqn:Eb.
  remember (firstn (e - a) (skipn a (children c))) as mid eqn:Em.
  remember (skipn e (children c)) as after eqn:Ea.
  pose proof (removeBlockGroup_run m q par c pre post before mid after Hok Hq E Ec) as Hrun.
  rewrite L, La, Lm in Hrun. replace (a + (e - a)) with e in Hrun by lia.
  rewrite Hstep in Hrun.
  destruct (replaceAt q _ (root m)) as [t'|] eqn:Ht'; [|discriminate].
  injection Hrun as ->. cbn [root nextUid].
  split; [destruct (splits before after); lia|].
  intros F HFu HFn.
  apply (eraseNode_replaceAt F _ _ _ par _ Hq Ht'); [reflexivity|].
  apply eraseNode_unwrapped; try assumption. congruence.
Qed.

Lemma removeBlock_sequence_content (rs : list Range) :
  forall (m : Model) (us : list nat),
    modelOk m -> Forall2 (resolves (root m)) rs us -> rangesOrdered rs = true ->
    forall m', forEach (rev rs) removeBlockGroup m = Some (tt, m') ->
               forall F, (forall u, In u us -> F u = true) ->
                         (forall u, nextUid m <= u -> F u = true) ->
                         eraseNode F (root m') = eraseNode F (root m).
Proof.
  induction rs as [|r rs IH] using rev_ind; intros m us Hok Hres Hord m' Hrun F Hus Hnew.
  - cbn in Hrun. now injection Hrun as <-.
  - destruct (Forall2_snoc_inv _ _ _ _ _ _ Hres) as (us0 & u & -> & Hres0 & Hr).
    destruct (rangesOrdered_snoc _ _ Hord) as (Hord0 & Hbefore).
    destruct (removeBlockGroup_step m r u Hok Hr) as (m1 & Hstep & Hok1 & Hag & _).
    destruct (removeBlockGroup_content m r u Hok Hr m1 Hstep) as [Hle Her1].
    rewrite rev_app_distr in Hrun. cbn [rev app forEach] in Hrun.
    unfold bind in Hrun. rewrite Hstep in Hrun.
    assert (Hres1 : Forall2 (resolves (root m1)) rs us0).
    { assert (Hframe : forall r', In r' rs ->
                endsBefore (ppath (start r')) (offset (end_ r')) (frameOf r) = true).
      { intros r' Hr'.
        assert (Hpos' : 0 < offset (end_ r')).
        { apply (Forall2_In_l _ _ _ _ _ _ Hres0) in Hr'.
          destruct Hr' as (u' & _ & (c & _ & _ & _ & _ & _ & Hlt & _)). lia. }
        apply endsBefore_frameOf; [exact Hpos'|]. apply Hbefore, Hr'. }
      clear - Hres0 Hframe Hag.
      induction Hres0 as [|r' u' rs us0 Hr' H IH]; constructor.
      - apply (resolves_agreeLeft _ _ _ _ _ Hag); [|exact Hr'].
        apply Hframe. now left.
      - apply IH. intros x Hx. apply Hframe. now right. }
    rewrite (IH m1 us0 Hok1 Hres1 Hord0 m' Hrun F).
    + apply Her1; [apply Hus, in_or_app; right; now left|apply Hnew; lia].
    + intros x Hx. apply Hus, in_or_app. now left.
    + intros x Hx. apply Hnew. lia.
Qed.

(** X13.  When [execute] runs the unwrap path on a selection listed in
    document order, the identities stay distinct and the content keeps its
    order: with the code blocks of the selected blocks and the elements
    made by the pass left out, the tree is what it was. *)
Theorem execute_unwrap_keeps_content (schema : Schema) (ed : Editor) :
  modelOk (model ed) ->
  isCodeBlock (root (model ed)) = false ->
  value ed = true ->
  (forall b, In b (selectedBlocks ed) -> locate b (root (model ed)) <> None) ->
  inDocumentOrder (root (model ed)) (selectedBlocks ed) = true ->
  exists ed',
    execute schema ed = Some ed'
    /\ modelOk (model ed')
    /\ forall F,
         (forall b p, In b (selectedBlocks ed) ->
                      elementParent (root (model ed)) b = Some p ->
                      isCodeBlock p = true -> F (uid p) = true) ->
         (forall u, nextUid (model ed) <= u -> F u = true) ->
         eraseNode F (root (model ed')) = eraseNode F (root (model ed)).
Proof.
  intros Hok Hroot Hv Hatt Hord.
  set (t := root (model ed)).
  set (blocked := filter (holds (isBlocked t)) (selectedBlocks ed)).
  assert (Hin : forall b, In b blocked <->
                          In b (selectedBlocks ed) /\ isBlocked t b = Some true).
  { intros b. unfold blocked. rewrite filter_In. unfold holds.
    destruct (isBlocked t b) as [[|]|]; intuition congruence. }
  destruct (runs_ranges t (maximalRuns t blocked) (proj1 Hok) Hroot)
    as (rs & Hrs & Hres & Hso).
  { apply isRun_maximalRuns. }
  { rewrite concat_maximalRuns. intros b Hb. now apply Hin. }
  { rewrite concat_maximalRuns. now apply inDocumentOrder_filter. }
  rewrite <- getRangesOfBlockGroups_runs in Hrs.
  destruct (removeBlock_sequence rs (model ed) _ Hok Hres Hso) as (m' & Hrun & Hok' & _).
  exists (mkEditor m' (selectedBlocks ed) true (isEnabled ed)).
  split; [|split; [exact Hok'|]].
  - unfold execute. rewrite Hv. unfold bind at 1. unfold read at 1. fold t.
    rewrite filterOpt_filter.
    + fold blocked. unfold _removeBlock, bind, read. fold t. now rewrite Hrs, Hrun.
    + intros b Hb Hnone. destruct (isBlocked_attached t b (Hatt b Hb)) as (v & Hv').
      congruence.
  - intros F HF Hnew. cbn [model].
    apply (removeBlock_sequence_content rs (model ed) _ Hok Hres Hso m' Hrun F);
      [|exact Hnew].
    intros u Hu. apply in_map_iff in Hu. destruct Hu as (r & Hr & Hrin).
    destruct (getRangesOfBlockGroups_starts _ _ _ _ Hrs Hrin) as (b1 & Hb1 & Hs).
    apply Hin in Hb1. destruct Hb1 as [Hb1 Hblk].
    destruct (isBlocked_true_parent _ _ Hblk) as (pos1 & p1 & L1 & Hp1 & Hcb1).
    unfold createBefore in Hs. rewrite L1 in Hs. injection Hs as Hs.
    unfold containerOf, positionParent in Hr. fold t in Hr.
    rewrite <- Hs, Hp1 in Hr. subst u.
    apply (HF b1 p1 Hb1); [|exact Hcb1].
    fold t. unfold elementParent. now rewrite L1.
Qed.

Lemma execute_unwrap_keeps_content_witness :
  exists ed',
    execute openSchema (mkEditor (mkModel docPQRS 100) [2; 3] true true) = Some ed'
    /\ eraseNode (fun u => 10 <=? u) (root (model ed'))
       = rootOf (map paragraph [1; 2; 3; 4]).
Proof.
  destruct (execute_unwrap_keeps_content openSchema
              (mkEditor (mkModel docPQRS 100) [2; 3] true true))
    as (ed' & Hexec & _ & Hcontent).
  - split.
    + unfold wellFormed. vm_compute. repeat constructor; simpl; intuition lia.
    + vm_compute. repeat constructor.
  - reflexivity.
  - reflexivity.
  - intros b Hb. simpl in Hb.
    repeat (destruct Hb as [<-|Hb]; [vm_compute; discriminate|]). destruct Hb.
  - reflexivity.
  - exists ed'. split; [exact Hexec|].
    rewrite (Hcontent (fun u => 10 <=? u)); [reflexivity| |].
    + intros b p Hb Hp _. simpl in Hb.
      repeat (destruct Hb as [<-|Hb];
              [vm_compute in Hp; injection Hp as <-; reflexivity|]).
      destruct Hb.
    + intros u Hu. cbn in Hu. apply Nat.leb_le. lia.
Defined.

(** *** More on [refresh] *)

(** X14.  [refresh] computes the state of the command from the model and
    the selection alone: [isEnabled] is checked against the value that was
    just computed, never against the previous one, so that refreshing
    twice is refreshing once. *)
Theorem refresh_ignores_previous_state (schema : Schema) (m : Model) (sel : list nat)
  (v e v' e' : bool) :
  refresh schema (mkEditor m sel v e) = refresh schema (mkEditor m sel v' e')
  /\ forall ed', refresh schema (mkEditor m sel v e) = Some ed' ->
                 refresh schema ed' = Some ed'.
Proof.
  split; [reflexivity|].
  intros ed' H. unfold refresh, _getValue, _checkEnabled in *.
  cbn [model selectedBlocks value isEnabled] in *.
  destruct (match hd_error sel with
            | Some firstBlock => isBlocked (root m) firstBlock
            | None => Some false
            end) as [v0|] eqn:Ev; [|discriminate].
  cbn [model selectedBlocks value isEnabled] in *.
  destruct (if v0 then Some true
            else match hd_error sel with
                 | Some firstBlock => checkCanBeBlocked schema (root m) firstBlock
                 | None => Some false
                 end) as [e0|] eqn:Ee; [|discriminate].
  injection H as <-. cbn [model selectedBlocks value isEnabled].
  rewrite Ev. cbn [model selectedBlocks value isEnabled]. now rewrite Ee.
Qed.

Lemma refresh_ignores_previous_state_witness :
  refresh openSchema (mkEditor (mkModel docPQRS 100) [2] true true)
  = refresh openSchema (mkEditor (mkModel docPQRS 100) [2] false false).
Proof.
  apply (proj1 (refresh_ignores_previous_state openSchema (mkModel docPQRS 100) [2]
                  true true false false)).
Defined.

(** ** The wrap path on any selection *)

Lemma runs_flat (t : Node) (runs : list (list nat)) :
  wellFormed t -> Forall (isRun t) runs ->
  forall rs, allSome (map (rangeOfRun t) runs) = Some rs ->
             Forall2 (flatGroup t) rs runs.
Proof.
  intros W H. induction H as [|run runs Hrun H IH]; intros rs Hrs.
  - cbn in Hrs. injection Hrs as <-. constructor.
  - cbn [map allSome] in Hrs.
    destruct (rangeOfRun t run) as [r|] eqn:Er; [|discriminate].
    destruct (allSome (map (rangeOfRun t) runs)) as [rs0|]; [|discriminate].
    cbn in Hrs. injection Hrs as <-. constructor; [|now apply IH].
    pose proof (rangeOfRun_uids t run r W Hrun Er) as Hu.
    destruct (rangeOfRun_start _ _ _ Er) as (b & rest & -> & Hloc).
    destruct (rangeOfRun_positions t b rest _ W Hrun Hloc) as [Hr Hlast].
    rewrite Er in Hr. destruct r as [s e]. cbn [start end_] in *.
    injection Hr as He.
    destruct (locate_sound _ _ _ Hlast) as (par & c & Hpar & Hc & _).
    cbn [ppath offset] in Hpar, Hc.
    assert (Hlt : offset s + length rest < length (children par))
      by (apply nth_error_Some; congruence).
    unfold rangeUids in Hu. cbn [start end_] in Hu. rewrite Hpar in Hu.
    exists par. cbn [start end_]. rewrite He in *. cbn [ppath offset] in *.
    split; [reflexivity|]. split; [exact Hpar|].
    split; [lia|]. split; [lia|]. exact Hu.
Qed.

Lemma getRangesOfBlockGroups_flat (t : Node) (blocks : list nat) :
  wellFormed t ->
  (forall b, In b blocks -> locate b t <> None) ->
  inDocumentOrder t blocks = true ->
  exists rs,
    getRangesOfBlockGroups t blocks = Some rs
    /\ Forall2 (flatGroup t) rs (maximalRuns t blocks)
    /\ rangesOrdered rs = true.
Proof.
  intros W Hatt Hord.
  destruct (getRangesOfBlockGroups_attached t blocks Hatt) as (rs & Hrs).
  exists rs. split; [exact Hrs|].
  rewrite getRangesOfBlockGroups_runs in Hrs.
  pose proof (isRun_maximalRuns t blocks) as Hruns.
  split; [now apply runs_flat|].
  apply (runs_ordered t (maximalRuns t blocks) W Hruns); [|exact Hrs].
  now rewrite concat_maximalRuns.
Qed.

Lemma agreeLeft_same (P : Path) (a : nat) :
  forall t par, getNodeByPath t P = Some par -> agreeLeft (P ++ [a]) t t.
Proof.
  induction P as [|i P IH]; intros t par H.
  - now constructor.
  - cbn [getNodeByPath] in H.
    destruct (nth_error (children t) i) as [c|] eqn:Hc; [|discriminate].
    cbn [app]. apply (agreeBelow i (P ++ [a]) t t c c); try reflexivity; try assumption.
    now apply (IH c par).
Qed.

Lemma flatGroup_agreeLeft (p : Path) (t t' : Node) (r : Range) (run : list nat) :
  agreeLeft p t t' ->
  endsBefore (ppath (start r)) (offset (end_ r)) p = true ->
  flatGroup t r run -> flatGroup t' r run.
Proof.
  intros Hag Hb (par & Hpe & Hpar & Hae & Hel & Hrun).
  destruct (agreeLeft_endsBefore _ _ _ _ _ _ Hag Hb Hpar Hel)
    as (c' & Hc' & Hu & Hn & Hf & Hl).
  exists c'. repeat split; try assumption.
  rewrite (slice_firstn _ _ _ _ (Nat.lt_le_incl _ _ Hae) Hf). exact Hrun.
Qed.

(** The entries of the tree after a wrap: the new code block and those of
    the elements that were there. *)
Lemma wrap_entries (P : Path) (t t' par : Node) (u a e : nat) :
  getNodeByPath t P = Some par -> a <= e -> e <= length (children par) ->
  replaceAt P (setChildren par (wrapChildren u a e (children par))) t = Some t' ->
  forall u' nm cs, In (u', nm, cs) (nodeInfos t') ->
                   u' = u \/ exists cs0, In (u', nm, cs0) (nodeInfos t).
Proof.
  intros Hpar Hae Hel Hrep u' nm cs Hin.
  destruct (nodeInfos_replaceAt _ _ _ _ _ Hpar Hrep eq_refl eq_refl)
    as (l1 & l2 & E & E').
  rewrite E' in Hin.
  apply in_app_or in Hin. destruct Hin as [Hin|Hin];
    [right; exists cs; rewrite E; apply in_or_app; now left|].
  apply in_app_or in Hin. destruct Hin as [Hin|Hin];
    [|right; exists cs; rewrite E; apply in_or_app; right; apply in_or_app; now right].
  rewrite nodeInfos_unfold in Hin. destruct Hin as [Hin|Hin].
  { right. unfold infoOf in Hin. cbn [uid name children setChildren] in Hin.
    injection Hin as <- <- _. exists (map uid (children par)). rewrite E.
    apply in_or_app. right. apply in_or_app. left. rewrite nodeInfos_unfold. now left. }
  cbn [children setChildren] in Hin. unfold wrapChildren in Hin.
  rewrite flat_map_app in Hin. cbn [flat_map] in Hin.
  assert (Hsub : forall l, (forall x, In x l -> In x (children par)) ->
                           In (u', nm, cs) (flat_map nodeInfos l) ->
                           In (u', nm, cs) (nodeInfos t)).
  { intros l Hl Hx. rewrite E. apply in_or_app. right. apply in_or_app. left.
    rewrite nodeInfos_unfold. right. apply in_flat_map in Hx.
    destruct Hx as (x & Hx & Hxi). apply in_flat_map. exists x. split; [now apply Hl|exact Hxi]. }
  apply in_app_or in Hin. destruct Hin as [Hin|Hin].
  { right. exists cs. apply (Hsub (firstn a (children par))); [|exact Hin].
    intros x. apply firstn_In_list. }
  apply in_app_or in Hin. destruct Hin as [Hin|Hin].
  - rewrite nodeInfos_unfold in Hin. destruct Hin as [Hin|Hin].
    + left. unfold infoOf in Hin. now injection Hin as <- _ _.
    + right. exists cs. cbn [children] in Hin.
      apply (Hsub (slice a e (children par))); [|exact Hin].
      intros x. apply slice_In.
  - right. exists cs. apply (Hsub (skipn e (children par))); [|exact Hin].
    intros x. apply skipn_In_list.
Qed.

(** One step of the wrap pass, on any group. *)
Lemma applyBlockGroup_any (m : Model) (acc : list nat) (r : Range) (run : list nat) :
  modelOk m -> flatGroup (root m) r run ->
  exists t1 u n1,
    applyBlockGroup acc r m = Some (acc ++ [u], mkModel t1 n1)
    /\ nextUid m <= n1
    /\ modelOk (mkModel t1 n1)
    /\ agreeLeft (fullPath (start r)) (root m) t1
    /\ (exists cs, In (u, "codeBlock"%string, cs) (nodeInfos t1) /\ incl run cs)
    /\ (forall u' cs', In (u', "codeBlock"%string, cs') (nodeInfos (root m)) ->
                       In (u', "codeBlock"%string, cs') (nodeInfos t1))
    /\ (forall u' nm cs', In (u', nm, cs') (nodeInfos t1) ->
                          nextUid m <= u'
                          \/ exists cs0, In (u', nm, cs0) (nodeInfos (root m)))
    /\ (forall F, (forall x, nextUid m <= x -> F x = true) ->
                  eraseNode F t1 = eraseNode F (root m)).
Proof.
  intros Hok (par & Hpe & Hpar & Hae & Hel & Hrun).
  destruct (isCodeBlock par) eqn:Hcb.
  - exists (root m), (uid par), (nextUid m).
    split.
    { rewrite (applyBlockGroup_reuse m acc r par Hpar Hcb). now destruct m. }
    split; [lia|]. split; [now destruct m|].
    split; [unfold fullPath; now apply (agreeLeft_same _ _ _ par)|].
    split.
    { exists (map uid (children par)). split.
      - pose proof (nodeInfos_getNodeByPath _ _ _ Hpar) as Hi. unfold infoOf in Hi.
        unfold isCodeBlock in Hcb. apply String.eqb_eq in Hcb. now rewrite Hcb in Hi.
      - rewrite <- Hrun. intros x Hx. apply in_map_iff in Hx.
        destruct Hx as (y & <- & Hy). apply in_map. now apply slice_In in Hy. }
    split; [auto|]. split; [|reflexivity].
    intros u' nm cs' H. right. now exists cs'.
  - assert (Hbg : bareGroup (root m) r run) by (exists par; now repeat split).
    destruct (applyBlockGroup_step m acc r run Hok Hbg)
      as (t1 & Hstep & Hok1 & Hag & Her & _ & _ & _ & Hin & Hkeep).
    exists t1, (nextUid m), (S (nextUid m)).
    split; [exact Hstep|]. split; [lia|]. split; [exact Hok1|]. split; [exact Hag|].
    split; [exists run; split; [exact Hin|apply incl_refl]|].
    split; [exact Hkeep|]. split.
    + intros u' nm cs' Hu'.
      rewrite (applyBlockGroup_wrap m acc r par Hpe Hpar Hcb (Nat.lt_le_incl _ _ Hae) Hel)
        in Hstep.
      destruct (replaceAt _ _ (root m)) as [t'|] eqn:Hrep; [|discriminate].
      injection Hstep as <-.
      destruct (wrap_entries _ _ _ par _ _ _ Hpar (Nat.lt_le_incl _ _ Hae) Hel Hrep
                  u' nm cs' Hu') as [->|H]; [left; lia|now right].
    + intros F HF. apply Her, HF. lia.
Qed.

(** The wrap pass over the groups, last group first. *)
Lemma applyBlock_sequence_any (rs : list Range) :
  forall (m : Model) (runs : list (list nat)) (acc : list nat),
    modelOk m -> Forall2 (flatGroup (root m)) rs runs -> rangesOrdered rs = true ->
    exists tw refs nw,
      foldM applyBlockGroup acc (rev rs) m = Some (acc ++ refs, mkModel tw nw)
      /\ nextUid m <= nw
      /\ modelOk (mkModel tw nw)
      /\ Forall2 (fun u run => exists cs, In (u, "codeBlock"%string, cs) (nodeInfos tw)
                                          /\ incl run cs)
           (rev refs) runs
      /\ (forall u' cs', In (u', "codeBlock"%string, cs') (nodeInfos (root m)) ->
                         In (u', "codeBlock"%string, cs') (nodeInfos tw))
      /\ (forall u' nm cs', In (u', nm, cs') (nodeInfos tw) ->
                            nextUid m <= u'
                            \/ exists cs0, In (u', nm, cs0) (nodeInfos (root m)))
      /\ (forall F, (forall x, nextUid m <= x -> F x = true) ->
                    eraseNode F tw = eraseNode F (root m)).
Proof.
  induction rs as [|r rs IH] using rev_ind; intros m runs acc Hok Hres Hord.
  - inversion Hres; subst. exists (root m), [], (nextUid m).
    cbn [rev foldM]. rewrite app_nil_r. destruct m as [t n]. cbn [root nextUid] in *.
    split; [reflexivity|]. split; [lia|]. split; [exact Hok|].
    split; [constructor|]. split; [auto|]. split; [|reflexivity].
    intros u' nm cs' H. right. now exists cs'.
  - destruct (Forall2_snoc_inv _ _ _ _ _ _ Hres) as (runs0 & run & -> & Hres0 & Hr).
    destruct (rangesOrdered_snoc _ _ Hord) as (Hord0 & Hbefore).
    destruct (applyBlockGroup_any m acc r run Hok Hr)
      as (t1 & u & n1 & Hstep & Hle1 & Hok1 & Hag & (cs & Hin1 & Hincl1) & Hkeep1
          & Hent1 & Her1).
    assert (Hres1 : Forall2 (flatGroup (root (mkModel t1 n1))) rs runs0).
    { cbn [root]. clear - Hres0 Hbefore Hag.
      induction Hres0 as [|r' run' rs runs0 Hr' H IH]; constructor.
      - apply (flatGroup_agreeLeft _ _ _ _ _ Hag); [|exact Hr'].
        apply Hbefore. now left.
      - apply IH. intros x Hx. apply Hbefore. now right. }
    destruct (IH (mkModel t1 n1) runs0 (acc ++ [u]) Hok1 Hres1 Hord0)
      as (tw & refs & nw & Hrun & Hle & Hokw & Hin & Hkeep & Hent & Her).
    cbn [root nextUid] in *.
    exists tw, (u :: refs), nw. rewrite rev_app_distr. cbn [rev app foldM].
    split.
    { unfold bind. rewrite Hstep, Hrun. now rewrite <- app_assoc. }
    split; [lia|]. split; [exact Hokw|].
    split.
    { apply Forall2_app; [exact Hin|]. constructor; [|constructor].
      exists cs. split; [apply Hkeep, Hin1|exact Hincl1]. }
    split; [intros u' cs' H; apply Hkeep, Hkeep1, H|].
    split.
    + intros u' nm cs' H. destruct (Hent u' nm cs' H) as [Hge|(cs0 & H0)]; [left; lia|].
      apply (Hent1 u' nm cs0 H0).
    + intros F HF. rewrite Her by (intros x Hx; apply HF; lia). apply Her1, HF.
Qed.

(** The entries of the tree after a merge: those of the elements that
    were there, under the same names. *)
Lemma merge_entries (q : Path) (t t' par c d : Node) (pre post : list Node) :
  getNodeByPath t q = Some par -> children par = pre ++ c :: d :: post ->
  replaceAt q (setChildren par (pre ++ absorb c d :: post)) t = Some t' ->
  forall u nm cs, In (u, nm, cs) (nodeInfos t') ->
                  exists cs0, In (u, nm, cs0) (nodeInfos t).
Proof.
  intros Hq E Hrep u nm cs Hin.
  destruct (nodeInfos_replaceAt _ _ _ _ _ Hq Hrep eq_refl eq_refl)
    as (l1 & l2 & N & N').
  rewrite N' in Hin. rewrite N.
  apply in_app_or in Hin. destruct Hin as [Hin|Hin];
    [exists cs; apply in_or_app; now left|].
  apply in_app_or in Hin. destruct Hin as [Hin|Hin];
    [|exists cs; apply in_or_app; right; apply in_or_app; now right].
  rewrite (nodeInfos_unfold par), E.
  rewrite nodeInfos_unfold in Hin. cbn [children setChildren] in Hin.
  destruct Hin as [Hin|Hin].
  { unfold infoOf in Hin. cbn [uid name children setChildren] in Hin.
    injection Hin as <- <- _. exists (map uid (pre ++ c :: d :: post)).
    apply in_or_app. right. apply in_or_app. left. left. unfold infoOf. now rewrite E. }
  rewrite flat_map_app in Hin. cbn [flat_map] in Hin.
  rewrite (nodeInfos_unfold (absorb c d)) in Hin. unfold absorb in Hin.
  cbn [children setChildren] in Hin. rewrite flat_map_app in Hin.
  assert (Hgoal : forall cs0,
             In (u, nm, cs0) (flat_map nodeInfos (pre ++ c :: d :: post)) ->
             exists cs1, In (u, nm, cs1)
                           (l1 ++ (infoOf par :: flat_map nodeInfos (pre ++ c :: d :: post))
                               ++ l2)).
  { intros cs0 H. exists cs0. apply in_or_app. right. apply in_or_app. left. now right. }
  rewrite flat_map_app. cbn [flat_map].
  rewrite (nodeInfos_unfold c), (nodeInfos_unfold d).
  rewrite flat_map_app in Hgoal. cbn [flat_map] in Hgoal.
  rewrite (nodeInfos_unfold c), (nodeInfos_unfold d) in Hgoal.
  apply in_app_or in Hin. destruct Hin as [Hin|Hin].
  { apply (Hgoal cs). apply in_or_app. now left. }
  cbn [app] in Hin. destruct Hin as [Hin|Hin].
  { unfold infoOf in Hin. cbn [uid name children setChildren] in Hin.
    injection Hin as <- <- _.
    apply (Hgoal (map uid (children c))). apply in_or_app. right. now left. }
  apply in_app_or in Hin. destruct Hin as [Hin|Hin].
  - apply in_app_or in Hin. destruct Hin as [Hin|Hin].
    + apply (Hgoal cs). apply in_or_app. right. right. apply in_or_app. now left.
    + apply (Hgoal cs). apply in_or_app. right. right. apply in_or_app. right.
      right. apply in_or_app. now left.
  - apply (Hgoal cs). apply in_or_app. right. right. apply in_or_app. right.
    right. apply in_or_app. now right.
Qed.

(** A child of a code block is still one after a merge into a code block,
    unless it is the element merged away. *)
Lemma merge_keeps_blocked (q : Path) (t t' par c d : Node) (pre post : list Node)
  (b : nat) :
  getNodeByPath t q = Some par -> children par = pre ++ c :: d :: post ->
  replaceAt q (setChildren par (pre ++ absorb c d :: post)) t = Some t' ->
  isCodeBlock c = true -> b <> uid d ->
  (exists u cs, In (u, "codeBlock"%string, cs) (nodeInfos t) /\ In b cs) ->
  exists u cs, In (u, "codeBlock"%string, cs) (nodeInfos t') /\ In b cs.
Proof.
  intros Hq E Hrep Hcb Hbd (u & cs & Hin & Hb).
  unfold isCodeBlock in Hcb. apply String.eqb_eq in Hcb.
  destruct (nodeInfos_replaceAt _ _ _ _ _ Hq Hrep eq_refl eq_refl)
    as (l1 & l2 & N & N').
  rewrite N in Hin. rewrite N'.
  apply in_app_or in Hin. destruct Hin as [Hin|Hin];
    [exists u, cs; split; [apply in_or_app; now left|exact Hb]|].
  apply in_app_or in Hin. destruct Hin as [Hin|Hin];
    [|exists u, cs; split; [apply in_or_app; right; apply in_or_app; now right|exact Hb]].
  remember (nodeInfos (setChildren par (pre ++ absorb c d :: post))) as Y eqn:EY.
  assert (HY : forall x,
             In x (infoOf (setChildren par (pre ++ absorb c d :: post))
                     :: flat_map nodeInfos pre
                     ++ (infoOf (absorb c d)
                           :: flat_map nodeInfos (children c)
                           ++ flat_map nodeInfos (children d))
                     ++ flat_map nodeInfos post) ->
             In x Y).
  { intros x Hx. subst Y. rewrite nodeInfos_unfold. cbn [children setChildren].
    rewrite flat_map_app. cbn [flat_map]. rewrite (nodeInfos_unfold (absorb c d)).
    replace (children (absorb c d)) with (children c ++ children d) by reflexivity.
    rewrite (flat_map_app nodeInfos (children c)). exact Hx. }
  assert (Hgoal : forall u1 cs1,
             In (u1, "codeBlock"%string, cs1) Y -> In b cs1 ->
             exists u0 cs0,
               In (u0, "codeBlock"%string, cs0) (l1 ++ Y ++ l2) /\ In b cs0).
  { intros u1 cs1 H1 H2. exists u1, cs1. split; [|exact H2].
    apply in_or_app. right. apply in_or_app. now left. }
  rewrite (nodeInfos_unfold par), E in Hin. destruct Hin as [Hin|Hin].
  { unfold infoOf in Hin. injection Hin as Hu Hn Hcs.
    apply (Hgoal (uid par) (map uid (pre ++ absorb c d :: post))).
    - apply HY. left. unfold infoOf. cbn [uid name children setChildren]. now rewrite Hn.
    - rewrite <- Hcs, E in Hb. rewrite map_app in Hb |- *. cbn [map] in Hb |- *.
      apply in_app_or in Hb. apply in_or_app.
      destruct Hb as [Hb|[Hb|[Hb|Hb]]]; [now left|right; now left|congruence|].
      right. now right. }
  rewrite flat_map_app in Hin. cbn [flat_map] in Hin.
  apply in_app_or in Hin. destruct Hin as [Hin|Hin].
  { apply (Hgoal u cs); [|exact Hb]. apply HY. right. apply in_or_app. now left. }
  apply in_app_or in Hin. destruct Hin as [Hin|Hin].
  { rewrite nodeInfos_unfold in Hin. destruct Hin as [Hin|Hin].
    - unfold infoOf in Hin. injection Hin as Hu Hn Hcs.
      apply (Hgoal (uid c) (map uid (children c ++ children d))).
      + apply HY. right. apply in_or_app. right. left. unfold infoOf, absorb.
        cbn [uid name children setChildren]. now rewrite Hcb.
      + rewrite map_app. apply in_or_app. left. now rewrite Hcs.
    - apply (Hgoal u cs); [|exact Hb]. apply HY. right. apply in_or_app. right. right.
      apply in_or_app. left. apply in_or_app. now left. }
  apply in_app_or in Hin. destruct Hin as [Hin|Hin].
  { rewrite nodeInfos_unfold in Hin. destruct Hin as [Hin|Hin].
    - unfold infoOf in Hin. injection Hin as Hu Hn Hcs.
      apply (Hgoal (uid c) (map uid (children c ++ children d))).
      + apply HY. right. apply in_or_app. right. left. unfold infoOf, absorb.
        cbn [uid name children setChildren]. now rewrite Hcb.
      + rewrite map_app. apply in_or_app. right. now rewrite Hcs.
    - apply (Hgoal u cs); [|exact Hb]. apply HY. right. apply in_or_app. right. right.
      apply in_or_app. left. apply in_or_app. now right. }
  apply (Hgoal u cs); [|exact Hb]. apply HY. right. apply in_or_app. right. right.
  apply in_or_app. now right.
Qed.

Lemma eraseNode_absorb (F : nat -> bool) (par c d : Node) (pre post : list Node) :
  F (uid c) = true -> F (uid d) = true ->
  children par = pre ++ c :: d :: post ->
  eraseNode F (setChildren par (pre ++ absorb c d :: post)) = eraseNode F par.
Proof.
  intros Hc Hd E. rewrite !eraseNode_unfold. cbn [uid name children setChildren].
  f_equal. rewrite E, !eraseChildren_app.
  rewrite (eraseChildren_cons_in F (absorb c d)) by exact Hc.
  rewrite (eraseChildren_cons_in F c) by exact Hc.
  rewrite (eraseChildren_cons_in F d) by exact Hd.
  unfold absorb. cbn [children setChildren].
  now rewrite eraseChildren_app, <- app_assoc.
Qed.

(** The merge pass over recorded code blocks: it never fails, every block
    of [B] that is in a code block stays in one, and the content keeps its
    order. *)
Lemma mergePass_any (F : nat -> bool) (B : list nat) (refs : list nat) :
  forall (m : Model) (cur : nat),
    modelOk m ->
    (forall b, In b B ->
               exists u cs, In (u, "codeBlock"%string, cs) (nodeInfos (root m)) /\ In b cs) ->
    (forall b nm cs, In b B -> In (b, nm, cs) (nodeInfos (root m)) ->
                     nm <> "codeBlock"%string) ->
    (forall u nm cs, In u (cur :: refs) -> In (u, nm, cs) (nodeInfos (root m)) ->
                     nm = "codeBlock"%string) ->
    (forall u cs, In (u, "codeBlock"%string, cs) (nodeInfos (root m)) -> F u = true) ->
    exists r t',
      foldM mergeStep cur refs m = Some (r, mkModel t' (nextUid m))
      /\ modelOk (mkModel t' (nextUid m))
      /\ (forall b, In b B ->
                    exists u cs, In (u, "codeBlock"%string, cs) (nodeInfos t') /\ In b cs)
      /\ eraseNode F t' = eraseNode F (root m).
Proof.
  induction refs as [|next refs IH]; intros m cur Hok HB Hnb Hrefs HF.
  - exists cur, (root m). cbn [foldM]. destruct m as [t n]. cbn [root nextUid] in *.
    split; [reflexivity|]. split; [exact Hok|]. split; [exact HB|reflexivity].
  - cbn [foldM]. unfold bind.
    destruct (eqNode (nextSibling (root m) cur) next) eqn:Eadj.
    + apply eqNode_true in Eadj.
      destruct (nextSibling_Some _ _ _ Eadj)
        as (q & par & i & c & d & Hq & Hc & Hd & Huc & Hud).
      destruct (nth_error_decompose _ _ _ _ Hc) as [E L].
      rewrite (skipn_nth_error _ _ _ _ Hd) in E.
      remember (firstn i (children par)) as pre eqn:Epre.
      remember (skipn (S (S i)) (children par)) as post eqn:Epost.
      pose proof (mergeStep_merge m q par c d pre post (proj1 Hok) Hq E) as Hstep.
      rewrite Huc, Hud in Hstep.
      set (y := setChildren par (pre ++ absorb c d :: post)) in *.
      destruct (replaceAt_total q y par (root m) Hq) as (t1 & Hrep).
      rewrite Hrep in Hstep. rewrite Hstep.
      assert (Hperm : Permutation (uid d :: uids t1) (uids (root m))).
      { apply (uids_replaceAt_perm _ _ _ _ _ [uid d] [] Hq Hrep). apply uids_absorb, E. }
      assert (Hok1 : modelOk (mkModel t1 (nextUid m))).
      { apply (modelOk_removed (root m) t1 _ (uid d) Hperm). now destruct m. }
      assert (Hent : forall u nm cs, In (u, nm, cs) (nodeInfos t1) ->
                                     exists cs0, In (u, nm, cs0) (nodeInfos (root m)))
        by (apply (merge_entries q _ _ par c d pre post Hq E Hrep)).
      assert (Hic : In (infoOf c) (nodeInfos (root m)))
        by (apply (nodeInfos_getNodeByPath (q ++ [i]));
            eapply getNodeByPath_snoc; eassumption).
      assert (Hid : In (infoOf d) (nodeInfos (root m)))
        by (apply (nodeInfos_getNodeByPath (q ++ [S i]));
            eapply getNodeByPath_snoc; eassumption).
      unfold infoOf in Hic, Hid. rewrite Huc in Hic. rewrite Hud in Hid.
      assert (Hnc : name c = "codeBlock"%string)
        by (apply (Hrefs cur _ _ (or_introl eq_refl) Hic)).
      assert (Hnd : name d = "codeBlock"%string)
        by (apply (Hrefs next _ _ (or_intror (or_introl eq_refl)) Hid)).
      destruct (IH (mkModel t1 (nextUid m)) cur Hok1) as (r & t' & Hrun & Hok' & HB' & Her).
      * intros b Hb. cbn [root].
        apply (merge_keeps_blocked q _ _ par c d pre post b Hq E Hrep).
        -- unfold isCodeBlock. now rewrite Hnc.
        -- intros Hbd. rewrite Hud in Hbd. subst b.
           now apply (Hnb next _ _ Hb Hid).
        -- apply HB, Hb.
      * intros b nm cs Hb Hin. cbn [root] in Hin.
        destruct (Hent _ _ _ Hin) as (cs0 & Hin0). apply (Hnb b nm cs0 Hb Hin0).
      * intros u nm cs Hu Hin. cbn [root] in Hin.
        destruct (Hent _ _ _ Hin) as (cs0 & Hin0). apply (Hrefs u nm cs0); [|exact Hin0].
        destruct Hu as [<-|Hu]; [now left|right; now right].
      * intros u cs Hin. cbn [root] in Hin.
        destruct (Hent _ _ _ Hin) as (cs0 & Hin0). apply (HF u cs0 Hin0).
      * cbn [root nextUid] in *. exists r, t'.
        split; [exact Hrun|]. split; [exact Hok'|]. split; [exact HB'|].
        rewrite Her. apply (eraseNode_replaceAt F _ _ _ par y Hq Hrep); [reflexivity|].
        apply eraseNode_absorb; [| |exact E].
        -- rewrite Huc. rewrite Hnc in Hic. apply (HF cur _ Hic).
        -- rewrite Hud. rewrite Hnd in Hid. apply (HF next _ Hid).
    + assert (Hne : nextSibling (root m) cur <> Some next).
      { intros H. apply eqNode_true in H. congruence. }
      rewrite (mergeStep_apart m cur next Hne).
      apply (IH m next Hok HB Hnb); [|exact HF].
      intros u nm cs Hu. apply Hrefs. now right.
Qed.

Lemma elementNode_entry (t : Node) (b : nat) (x : Node) (nm : string) (cs : list nat) :
  wellFormed t -> elementNode t b = Some x -> In (b, nm, cs) (nodeInfos t) ->
  nm = name x.
Proof.
  intros W Hx Hin. unfold elementNode in Hx.
  destruct (locate b t) as [pos|] eqn:L; [|discriminate].
  destruct (locate_sound _ _ _ L) as (p & x' & Hp & Hx' & Hu).
  rewrite Hp, Hx' in Hx. injection Hx as ->.
  pose proof (nodeInfos_getNodeByPath _ _ _ (getNodeByPath_snoc _ _ _ _ _ Hp Hx')) as Hi.
  unfold infoOf in Hi. rewrite Hu in Hi.
  now destruct (nodeInfos_unique _ _ _ _ _ _ W Hin Hi).
Qed.

(** The wrap path of [execute] on any selection. *)
Lemma execute_wrap_any (schema : Schema) (ed : Editor) :
  modelOk (model ed) ->
  value ed = false ->
  (forall b, In b (selectedBlocks ed) -> locate b (root (model ed)) <> None) ->
  inDocumentOrder (root (model ed)) (selectedBlocks ed) = true ->
  (forall b, In b (selectedBlocks ed) ->
             exists x, elementNode (root (model ed)) b = Some x
                       /\ isCodeBlock x = false) ->
  filter (holds (toBlock schema (root (model ed)))) (selectedBlocks ed) <> [] ->
  exists ed',
    execute schema ed = Some ed'
    /\ selectedBlocks ed' = selectedBlocks ed
    /\ modelOk (model ed')
    /\ (forall b, In b (filter (holds (toBlock schema (root (model ed))))
                          (selectedBlocks ed)) ->
                  isBlocked (root (model ed')) b = Some true)
    /\ forall F,
         (forall u cs, In (u, "codeBlock"%string, cs) (nodeInfos (root (model ed))) ->
                       F u = true) ->
         (forall u, nextUid (model ed) <= u -> F u = true) ->
         eraseNode F (root (model ed')) = eraseNode F (root (model ed)).
Proof.
  destruct ed as [m sel v e]. cbn [model selectedBlocks value].
  intros Hok -> Hatt Hord Hnames Hne.
  set (t := root m) in *.
  set (kept := filter (holds (toBlock schema t)) sel) in *.
  assert (Hsub : forall b, In b kept -> In b sel)
    by (intros b Hb; unfold kept in Hb; now apply filter_In in Hb).
  destruct (getRangesOfBlockGroups_flat t kept (proj1 Hok)) as (rs & Hrs & Hres & Hso).
  { intros b Hb. apply Hatt, Hsub, Hb. }
  { now apply inDocumentOrder_filter. }
  destruct (applyBlock_sequence_any rs m _ [] Hok Hres Hso)
    as (tw & refs & nw & Hfold & Hle & Hokw & Hin & _ & Hent & Her).
  cbn [app] in Hfold. fold t in Hent, Her.
  assert (Hold : forall b, In b kept -> b < nextUid m).
  { intros b Hb. destruct Hok as [_ Hlt]. rewrite Forall_forall in Hlt.
    apply Hlt, attached_uid, Hatt, Hsub, Hb. }
  assert (HB : forall b, In b kept ->
                         exists u cs, In (u, "codeBlock"%string, cs) (nodeInfos tw)
                                      /\ In b cs).
  { intros b Hb. rewrite <- (concat_maximalRuns t kept) in Hb. apply in_concat in Hb.
    destruct Hb as (run & Hrun & Hb).
    destruct (Forall2_In_r _ _ _ _ _ _ Hin Hrun) as (u & _ & cs & Hentry & Hincl).
    exists u, cs. split; [exact Hentry|apply Hincl, Hb]. }
  assert (Hnb : forall b nm cs, In b kept -> In (b, nm, cs) (nodeInfos tw) ->
                                nm <> "codeBlock"%string).
  { intros b nm cs Hb Hentry Hnm.
    destruct (Hent _ _ _ Hentry) as [Hge|(cs0 & H0)].
    - specialize (Hold b Hb). lia.
    - destruct (Hnames b (Hsub b Hb)) as (x & Hx & Hcb).
      rewrite (elementNode_entry t b x nm cs0 (proj1 Hok) Hx H0) in Hnm.
      unfold isCodeBlock in Hcb. rewrite Hnm in Hcb. discriminate. }
  assert (Hrefs : forall u nm cs, In u (rev refs) -> In (u, nm, cs) (nodeInfos tw) ->
                                  nm = "codeBlock"%string).
  { intros u nm cs Hu Hentry.
    destruct (Forall2_In_l _ _ _ _ _ _ Hin Hu) as (run & _ & cs' & Hentry' & _).
    now destruct (nodeInfos_unique _ _ _ _ _ _ (proj1 Hokw) Hentry Hentry'). }
  destruct (rev refs) as [|cur rest] eqn:Erefs.
  { exfalso. pose proof (Forall2_length Hin) as Hl. cbn [length] in Hl.
    symmetry in Hl. apply length_zero_iff_nil in Hl.
    destruct kept as [|b kept']; [congruence|].
    now apply (maximalRuns_nonempty t b kept') in Hl. }
  destruct (mergePass_any (fun _ => true) kept rest (mkModel tw nw) cur Hokw HB Hnb Hrefs)
    as (r & t' & Hmerge & Hok' & HB' & _); [reflexivity|].
  cbn [root nextUid] in *.
  assert (Hexec : execute schema (mkEditor m sel false e)
                  = Some (mkEditor (mkModel t' nw) sel false e)).
  { unfold execute. cbn [model selectedBlocks value isEnabled].
    unfold bind at 1. unfold read at 1. fold t.
    rewrite filterOpt_filter by (intros b Hb; apply toBlock_attached, Hatt, Hb).
    fold kept. unfold _applyBlock. unfold bind at 1. unfold read at 1. fold t.
    rewrite Hrs. unfold bind at 1. rewrite Hfold. unfold bind. rewrite Erefs.
    cbn [reduce]. now rewrite Hmerge. }
  exists (mkEditor (mkModel t' nw) sel false e). cbn [model root nextUid selectedBlocks].
  split; [exact Hexec|]. split; [reflexivity|]. split; [exact Hok'|]. split.
  - intros b Hb. destruct (HB' b Hb) as (u & cs & Hentry & Hbcs).
    destruct (elementParent_of_info _ _ _ _ _ (proj1 Hok') Hentry Hbcs)
      as (p & Hp & _ & Hn).
    cbn [root] in Hp.
    unfold isBlocked, findBlock, parentOf. rewrite Hp, Hn. reflexivity.
  - intros F HF Hnew.
    destruct (mergePass_any F kept rest (mkModel tw nw) cur Hokw HB Hnb Hrefs)
      as (r2 & t2 & Hmerge2 & _ & _ & Her2).
    { cbn [root]. intros u cs Hentry.
      destruct (Hent _ _ _ Hentry) as [Hge|(cs0 & H0)]; [apply Hnew, Hge|].
      apply (HF u cs0 H0). }
    cbn [root nextUid] in *. rewrite Hmerge in Hmerge2. injection Hmerge2 as _ <-.
    rewrite Her2. apply Her, Hnew.
Qed.

(** X15.  [execute] with [value] off, on any selection in document order
    of which no block is a code block itself and the filter keeps at least
    one block: it succeeds; afterwards every block kept by the filter,
    whether it was in a code block or passes [checkCanBeBlocked], is in a
    code block; the identities stay distinct; and the content keeps its
    order: with the code blocks left out, the tree is what it was. *)
Theorem execute_wrap_blocks_kept_blocks (schema : Schema) (ed : Editor) :
  modelOk (model ed) ->
  value ed = false ->
  (forall b, In b (selectedBlocks ed) -> locate b (root (model ed)) <> None) ->
  inDocumentOrder (root (model ed)) (selectedBlocks ed) = true ->
  (forall b, In b (selectedBlocks ed) ->
             exists x, elementNode (root (model ed)) b = Some x
                       /\ isCodeBlock x = false) ->
  filter (holds (toBlock schema (root (model ed)))) (selectedBlocks ed) <> [] ->
  exists ed',
    execute schema ed = Some ed'
    /\ modelOk (model ed')
    /\ (forall b, In b (filter (holds (toBlock schema (root (model ed))))
                          (selectedBlocks ed)) ->
                  isBlocked (root (model ed')) b = Some true)
    /\ forall F,
         (forall u cs, In (u, "codeBlock"%string, cs) (nodeInfos (root (model ed))) ->
                       F u = true) ->
         (forall u, nextUid (model ed) <= u -> F u = true) ->
         eraseNode F (root (model ed')) = eraseNode F (root (model ed)).
Proof.
  intros Hok Hv Hatt Hord Hnames Hne.
  destruct (execute_wrap_any schema ed Hok Hv Hatt Hord Hnames Hne)
    as (ed' & Hexec & _ & Hok' & Hblocked & Her).
  exists ed'. split; [exact Hexec|]. split; [exact Hok'|].
  split; [exact Hblocked|exact Her].
Qed.

Lemma execute_wrap_blocks_kept_blocks_witness :
  exists ed',
    execute openSchema (mkEditor (mkModel docBlockThenPar 100) [1; 2] false true)
    = Some ed'
    /\ isBlocked (root (model ed')) 1 = Some true
    /\ isBlocked (root (model ed')) 2 = Some true.
Proof.
  destruct (execute_wrap_blocks_kept_blocks openSchema
              (mkEditor (mkModel docBlockThenPar 100) [1; 2] false true))
    as (ed' & Hexec & _ & Hblocked & _).
  - split.
    + unfold wellFormed. vm_compute. repeat constructor; simpl; intuition lia.
    + vm_compute. repeat constructor.
  - reflexivity.
  - intros b Hb. simpl in Hb.
    repeat (destruct Hb as [<-|Hb]; [vm_compute; discriminate|]). destruct Hb.
  - reflexivity.
  - intros b Hb. simpl in Hb.
    repeat (destruct Hb as [<-|Hb]; [eexists; split; reflexivity|]). destruct Hb.
  - vm_compute. discriminate.
  - exists ed'. split; [exact Hexec|].
    split; apply Hblocked; vm_compute; auto.
Defined.

(** X16.  The command toggles: when its state is current (a [refresh]
    leaves it as it is) and it is enabled, executing it through the editor
    on a selection in document order, in a tree without a code block
    directly inside a code block and with no selected block that is a
    code block itself, succeeds and leaves [value] negated, and the command
    enabled if [value] has become true. *)
Theorem editorExecute_toggles_value (schema : Schema) (ed : Editor) :
  modelOk (model ed) ->
  isCodeBlock (root (model ed)) = false ->
  noNestedContainers (root (model ed)) = true ->
  (forall b, In b (selectedBlocks ed) -> locate b (root (model ed)) <> None) ->
  inDocumentOrder (root (model ed)) (selectedBlocks ed) = true ->
  (forall b, In b (selectedBlocks ed) ->
             exists x, elementNode (root (model ed)) b = Some x
                       /\ isCodeBlock x = false) ->
  refresh schema ed = Some ed ->
  isEnabled ed = true ->
  exists ed',
    editorExecute schema ed = Some ed'
    /\ value ed' = negb (value ed)
    /\ (value ed' = true -> isEnabled ed' = true).
Proof.
  intros Hok Hroot Hnn Hatt Hord Hnames Hcur Hen.
  unfold editorExecute. rewrite Hen.
  destruct (value ed) eqn:Hv.
  - destruct (execute_unwrap_unblocks schema ed Hok Hroot Hnn Hv Hatt Hord)
      as (ed' & Hexec & _ & _ & _ & ed'' & Hrefresh & _ & Hv').
    exists ed''. rewrite Hexec, Hrefresh. split; [reflexivity|].
    split; [exact Hv'|congruence].
  - assert (Hfirst : exists b0, hd_error (selectedBlocks ed) = Some b0
                                /\ checkCanBeBlocked schema (root (model ed)) b0
                                   = Some true).
    { unfold refresh in Hcur.
      destruct (_getValue ed) as [v0|]; [|discriminate].
      destruct (_checkEnabled schema _) as [e0|] eqn:Ee; [|discriminate].
      assert (Hv0 : v0 = false).
      { rewrite <- Hv. now injection Hcur as <-. }
      assert (He0 : e0 = true).
      { rewrite <- Hen. now injection Hcur as <-. }
      subst v0 e0. unfold _checkEnabled in Ee.
      cbn [model selectedBlocks value isEnabled] in Ee.
      destruct (hd_error (selectedBlocks ed)) as [b0|]; [|discriminate].
      now exists b0. }
    destruct Hfirst as (b0 & Hhd & Hguard).
    assert (Hb0 : In b0 (selectedBlocks ed)).
    { destruct (selectedBlocks ed) as [|x l]; [discriminate|].
      injection Hhd as ->. now left. }
    assert (Hkept : In b0 (filter (holds (toBlock schema (root (model ed))))
                             (selectedBlocks ed))).
    { apply filter_In. split; [exact Hb0|]. unfold holds.
      assert (Ht : toBlock schema (root (model ed)) b0 = Some true).
      { apply toBlock_true. right.
        split; [now apply (checkCanBeBlocked_not_blocked schema)|exact Hguard]. }
      now rewrite Ht. }
    destruct (execute_wrap_any schema ed Hok Hv Hatt Hord Hnames)
      as (ed' & Hexec & Hsel & _ & Hblocked & _).
    { intros Hnil. rewrite Hnil in Hkept. destruct Hkept. }
    rewrite Hexec.
    exists (mkEditor (model ed') (selectedBlocks ed') true true).
    split; [|now split].
    unfold refresh, _getValue, _checkEnabled.
    rewrite Hsel, Hhd, (Hblocked b0 Hkept). reflexivity.
Qed.

Lemma editorExecute_toggles_value_witness :
  exists ed',
    editorExecute openSchema (mkEditor (mkModel docBlockThenPar 100) [2] false true)
    = Some ed'
    /\ value ed' = true.
Proof.
  destruct (editorExecute_toggles_value openSchema
              (mkEditor (mkModel docBlockThenPar 100) [2] false true))
    as (ed' & Hrun & Hv & _).
  - split.
    + unfold wellFormed. vm_compute. repeat constructor; simpl; intuition lia.
    + vm_compute. repeat constructor.
  - reflexivity.
  - reflexivity.
  - intros b Hb. simpl in Hb.
    repeat (destruct Hb as [<-|Hb]; [vm_compute; discriminate|]). destruct Hb.
  - reflexivity.
  - intros b Hb. simpl in Hb.
    repeat (destruct Hb as [<-|Hb]; [eexists; split; reflexivity|]). destruct Hb.
  - reflexivity.
  - reflexivity.
  - exists ed'. split; [exact Hrun|exact Hv].
Defined.

(** ** Unwrapping a whole code block *)

(** The blocks that are all the children of one element make one group,
    whose range spans the element. *)
Lemma getRangesOfBlockGroups_whole (t : Node) (q : Path) (par c : Node)
  (pre post : list Node) :
  wellFormed t -> getNodeByPath t q = Some par -> children par = pre ++ c :: post ->
  children c <> [] ->
  getRangesOfBlockGroups t (map uid (children c))
  = Some [mkRange (mkPosition (q ++ [length pre]) 0)
                  (mkPosition (q ++ [length pre]) (length (children c)))].
Proof.
  intros W Hq E Hne.
  pose proof (getNodeByPath_child q _ par c pre post Hq E) as Hc.
  assert (Hrun : isRun t (map uid (children c))).
  { apply (isRun_of_info t (uid c) (name c) _ W) with (l1 := []) (l2 := []).
    - intros Hnil. apply map_eq_nil in Hnil. contradiction.
    - rewrite app_nil_r. cbn [app].
      apply (nodeInfos_getNodeByPath _ _ _ Hc). }
  rewrite getRangesOfBlockGroups_runs.
  rewrite (maximalRuns_unique t (map uid (children c)) [map uid (children c)]).
  - destruct (children c) as [|x cs] eqn:Ec; [contradiction|].
    cbn [map allSome].
    assert (L : locate (uid x) t = Some (mkPosition (q ++ [length pre]) 0)).
    { apply (locate_child (q ++ [length pre]) t c x [] cs W Hc). now rewrite Ec. }
    cbn [map] in Hrun.
    destruct (rangeOfRun_positions t (uid x) (map uid cs) _ W Hrun L) as [-> _].
    cbn [ppath offset option_map length]. now rewrite length_map.
  - cbn [concat]. apply app_nil_r.
  - constructor; [exact Hrun|constructor].
  - exact I.
Qed.

(** C2.  When the blocks to unwrap are all the children of their code
    block [c], [_removeBlock] makes one group of them, whose range spans
    the whole content of [c] (it starts at offset 0 and ends at the end of
    [c]), and the step of that group unwraps [c]: in the parent of [c] the
    children of [c] take the place of [c], in their order, between the
    siblings that came before and after it, and [c] is no longer in the
    tree. *)
Theorem removeBlock_full_range_unwraps_in_place (m : Model) (q : Path)
  (par c : Node) (pre post : list Node) :
  wellFormed (root m) ->
  getNodeByPath (root m) q = Some par ->
  children par = pre ++ c :: post ->
  let fullRange := mkRange (mkPosition (q ++ [length pre]) 0)
                           (mkPosition (q ++ [length pre]) (length (children c))) in
  exists t',
    removeBlockGroup fullRange m = Some (tt, mkModel t' (nextUid m))
    /\ (children c <> [] ->
        getRangesOfBlockGroups (root m) (map uid (children c)) = Some [fullRange]
        /\ _removeBlock (map uid (children c)) m = Some (tt, mkModel t' (nextUid m)))
    /\ replaceAt q (setChildren par (pre ++ children c ++ post)) (root m) = Some t'
    /\ getNodeByPath t' q = Some (setChildren par (pre ++ children c ++ post))
    /\ ~ In (uid c) (uids t').
Proof.
  intros W Hq E fullRange.
  destruct (replaceAt_total q (setChildren par (pre ++ children c ++ post)) par _ Hq)
    as (t' & Ht').
  assert (Hstep : removeBlockGroup fullRange m = Some (tt, mkModel t' (nextUid m))).
  { unfold fullRange. now rewrite (removeBlockGroup_full m q par c pre post W Hq E), Ht'. }
  exists t'. split; [exact Hstep|]. split.
  { intros Hne.
    pose proof (getRangesOfBlockGroups_whole _ q par c pre post W Hq E Hne) as Hrs.
    split; [exact Hrs|].
    unfold _removeBlock, bind, read. rewrite Hrs. cbn [rev app forEach].
    fold fullRange. unfold bind. now rewrite Hstep. }
  split; [exact Ht'|].
  split; [eapply replaceAt_get; eassumption|].
  destruct (uids_replaceAt q par _ _ _ Hq Ht') as (l1 & l2 & U & U').
  rewrite U'. unfold wellFormed in W. rewrite U in W.
  rewrite (uids_unfold par), E in W.
  unfold setChildren. cbn [uids].
  rewrite !flat_map_app in *. cbn [flat_map] in W. rewrite (uids_unfold c) in W.
  replace (l1 ++ (uid par :: flat_map uids pre
                  ++ (uid c :: flat_map uids (children c)) ++ flat_map uids post) ++ l2)
    with ((l1 ++ uid par :: flat_map uids pre)
          ++ uid c :: (flat_map uids (children c) ++ flat_map uids post) ++ l2) in W
    by (simpl; rewrite <- !app_assoc; simpl; now rewrite <- !app_assoc).
  apply NoDup_remove_2 in W.
  intros Hin. apply W. simpl in Hin.
  rewrite <- !app_assoc in *. simpl. exact Hin.
Qed.

Lemma removeBlock_full_range_unwraps_in_place_witness :
  getRangesOfBlockGroups docPQRS [1; 2; 3; 4]
  = Some [mkRange (mkPosition [0] 0) (mkPosition [0] 4)]
  /\ _removeBlock [1; 2; 3; 4] (mkModel docPQRS 100)
     = Some (tt, mkModel (rootOf (map paragraph [1; 2; 3; 4])) 100).
Proof.
  destruct (removeBlock_full_range_unwraps_in_place (mkModel docPQRS 100) []
              docPQRS (codeBlock 10 (map paragraph [1; 2; 3; 4])) [] [])
    as (t' & _ & Hrun & Hrep & _).
  - unfold wellFormed. vm_compute. repeat constructor; simpl; intuition lia.
  - reflexivity.
  - reflexivity.
  - destruct Hrun as [Hrs Hrun]; [discriminate|].
    split; [exact Hrs|]. injection Hrep as <-. exact Hrun.
Defined.

(** ** The unwrap path and the blocks outside code blocks *)

(** C10.  When [execute] runs the unwrap path on a selection listed in
    document order, the groups it unwraps are made of exactly the selected
    blocks whose parent is a code block, and the path succeeds.  A
    selected block whose parent is not a code block is left untouched, in
    its original position: it is afterwards a child of the same element,
    which is not a code block, and, the code blocks of the unwrapped
    blocks and the elements made by the pass left out, the whole tree is
    what it was: every element keeps its name, its content and its place
    among its siblings. *)
Theorem execute_unwrap_leaves_unblocked (schema : Schema) (ed : Editor) :
  modelOk (model ed) ->
  isCodeBlock (root (model ed)) = false ->
  value ed = true ->
  (forall b, In b (selectedBlocks ed) -> locate b (root (model ed)) <> None) ->
  inDocumentOrder (root (model ed)) (selectedBlocks ed) = true ->
  let t := root (model ed) in
  let blocked := filter (holds (isBlocked t)) (selectedBlocks ed) in
  exists m',
    _removeBlock blocked (model ed) = Some (tt, m')
    /\ execute schema ed = Some (mkEditor m' (selectedBlocks ed) true (isEnabled ed))
    /\ modelOk m'
    /\ (forall b, In b blocked <-> In b (selectedBlocks ed) /\ isBlocked t b = Some true)
    /\ (forall b, In b (selectedBlocks ed) -> isBlocked t b = Some false ->
                  exists p p',
                    elementParent t b = Some p
                    /\ elementParent (root m') b = Some p'
                    /\ uid p' = uid p /\ name p' = name p
                    /\ isCodeBlock p' = false)
    /\ (forall F,
          (forall b p, In b (selectedBlocks ed) -> elementParent t b = Some p ->
                       isCodeBlock p = true -> F (uid p) = true) ->
          (forall u, nextUid (model ed) <= u -> F u = true) ->
          eraseNode F (root m') = eraseNode F t).
Proof.
  intros Hok Hroot Hv Hatt Hord t blocked.
  assert (Hin : forall b, In b blocked <->
                          In b (selectedBlocks ed) /\ isBlocked t b = Some true).
  { intros b. unfold blocked. rewrite filter_In. unfold holds.
    destruct (isBlocked t b) as [[|]|]; intuition congruence. }
  destruct (runs_ranges t (maximalRuns t blocked) (proj1 Hok) Hroot)
    as (rs & Hrs & Hres & Hso).
  { apply isRun_maximalRuns. }
  { rewrite concat_maximalRuns. intros b Hb. now apply Hin. }
  { rewrite concat_maximalRuns. now apply inDocumentOrder_filter. }
  rewrite <- getRangesOfBlockGroups_runs in Hrs.
  destruct (removeBlock_sequence rs (model ed) _ Hok Hres Hso) as (m' & Hrun & Hok' & Hkept).
  exists m'.
  assert (Hrm : _removeBlock blocked (model ed) = Some (tt, m')).
  { unfold _removeBlock, bind, read. fold t. now rewrite Hrs. }
  assert (Hcont : forall u, In u (map (containerOf t) rs) ->
                            exists b1 p1, In b1 (selectedBlocks ed)
                                          /\ elementParent t b1 = Some p1
                                          /\ isCodeBlock p1 = true /\ uid p1 = u).
  { intros u Hu. apply in_map_iff in Hu. destruct Hu as (r & Hr & Hrin).
    destruct (getRangesOfBlockGroups_starts _ _ _ _ Hrs Hrin) as (b1 & Hb1 & Hs).
    apply Hin in Hb1. destruct Hb1 as [Hb1 Hblk].
    destruct (isBlocked_true_parent _ _ Hblk) as (pos1 & p1 & L1 & Hp1 & Hcb1).
    unfold createBefore in Hs. fold t in Hs. rewrite L1 in Hs. injection Hs as Hs.
    exists b1, p1. split; [exact Hb1|]. split.
    - unfold elementParent. now rewrite L1.
    - split; [exact Hcb1|].
      unfold containerOf, positionParent in Hr. rewrite <- Hs, Hp1 in Hr. exact Hr. }
  split; [exact Hrm|]. split; [|split; [exact Hok'|split; [exact Hin|split]]].
  - unfold execute. rewrite Hv. unfold bind at 1. unfold read at 1. fold t.
    rewrite filterOpt_filter.
    + fold blocked. now rewrite Hrm.
    + intros b Hb Hnone. destruct (isBlocked_attached t b (Hatt b Hb)) as (v & Hv').
      congruence.
  - intros b Hb Hbare.
    destruct (elementParent_attached t b (Hatt b Hb)) as (p & Hp).
    assert (Hncb : isCodeBlock p = false).
    { unfold isBlocked, findBlock, parentOf in Hbare. rewrite Hp in Hbare.
      unfold isCodeBlock. destruct (String.eqb (name p) "codeBlock"); [discriminate|reflexivity]. }
    destruct (info_of_elementParent t b p Hp) as [Hinfo Hchild].
    destruct (Hkept (uid p) (name p) (map uid (children p)) b Hinfo) as (cs' & Hinfo' & Hb').
    + intros Hn. unfold isCodeBlock in Hncb. rewrite Hn in Hncb. discriminate.
    + exact Hchild.
    + intros Hc. destruct (Hcont _ Hc) as (b1 & p1 & Hb1 & Hpar1 & Hcb1 & Hu1).
      apply (container_not_selected t (selectedBlocks ed) b b1 p1 (proj1 Hok) Hord Hb Hb1);
        [|exact Hpar1|exact Hu1].
      intros ->. rewrite Hp in Hpar1. injection Hpar1 as <-. congruence.
    + destruct (elementParent_of_info _ _ _ _ _ (proj1 Hok') Hinfo' Hb') as (p' & Hp' & Hu' & Hn').
      exists p, p'. repeat split; try assumption.
      unfold isCodeBlock in *. now rewrite Hn'.
  - intros F HF Hnew.
    apply (removeBlock_sequence_content rs (model ed) _ Hok Hres Hso m' Hrun F);
      [|exact Hnew].
    intros u Hu. destruct (Hcont _ Hu) as (b1 & p1 & Hb1 & Hpar1 & Hcb1 & <-).
    now apply (HF b1 p1).
Qed.

Lemma execute_unwrap_leaves_unblocked_witness :
  exists m',
    _removeBlock [2]
      (mkModel (rootOf [codeBlock 10 [paragraph 2; paragraph 3]; paragraph 1]) 100)
    = Some (tt, m')
    /\ (exists p', elementParent (root m') 1 = Some p' /\ uid p' = 0)
    /\ eraseNode (fun u => 10 <=? u) (root m') = rootOf (map paragraph [2; 3; 1]).
Proof.
  destruct (execute_unwrap_leaves_unblocked openSchema
              (mkEditor (mkModel (rootOf [codeBlock 10 [paragraph 2; paragraph 3];
                                          paragraph 1]) 100)
                        [2; 1] true true))
    as (m' & Hrun & _ & _ & _ & Hkeep & Hcontent).
  - split.
    + unfold wellFormed. vm_compute. repeat constructor; simpl; intuition lia.
    + vm_compute. repeat constructor.
  - reflexivity.
  - reflexivity.
  - intros b Hb. simpl in Hb.
    repeat (destruct Hb as [<-|Hb]; [vm_compute; discriminate|]). destruct Hb.
  - reflexivity.
  - exists m'. split; [exact Hrun|]. split.
    + destruct (Hkeep 1) as (p & p' & Hp & Hp' & Hu & _).
      * simpl; auto.
      * reflexivity.
      * exists p'. split; [exact Hp'|].
        rewrite Hu. vm_compute in Hp. now injection Hp as <-.
    + rewrite (Hcontent (fun u => 10 <=? u)); [reflexivity| |].
      * intros b p Hb Hp Hcb. simpl in Hb.
        repeat (destruct Hb as [<-|Hb];
                [vm_compute in Hp; injection Hp as <-;
                 first [reflexivity|discriminate Hcb]|]).
        destruct Hb.
      * intros u Hu. cbn in Hu. apply Nat.leb_le. lia.
Defined.

(** ** The filter of the wrap path *)

(** An enabled command whose state is current and whose value is off
    keeps its first selected block. *)
Lemma enabled_keeps_first (schema : Schema) (ed : Editor) :
  refresh schema ed = Some ed -> value ed = false -> isEnabled ed = true ->
  exists b0, hd_error (selectedBlocks ed) = Some b0
             /\ In b0 (filter (holds (toBlock schema (root (model ed))))
                         (selectedBlocks ed)).
Proof.
  intros Hcur Hv Hen.
  assert (Hfirst : exists b0, hd_error (selectedBlocks ed) = Some b0
                              /\ checkCanBeBlocked schema (root (model ed)) b0
                                 = Some true).
  { unfold refresh in Hcur.
    destruct (_getValue ed) as [v0|]; [|discriminate].
    destruct (_checkEnabled schema _) as [e0|] eqn:Ee; [|discriminate].
    assert (Hv0 : v0 = false).
    { rewrite <- Hv. now injection Hcur as <-. }
    assert (He0 : e0 = true).
    { rewrite <- Hen. now injection Hcur as <-. }
    subst v0 e0. unfold _checkEnabled in Ee.
    cbn [model selectedBlocks value isEnabled] in Ee.
    destruct (hd_error (selectedBlocks ed)) as [b0|]; [|discriminate].
    now exists b0. }
  destruct Hfirst as (b0 & Hhd & Hguard).
  exists b0. split; [exact Hhd|].
  apply filter_In. split.
  - destruct (selectedBlocks ed) as [|x l]; [discriminate|].
    injection Hhd as ->. now left.
  - unfold holds.
    assert (Ht : toBlock schema (root (model ed)) b0 = Some true).
    { apply toBlock_true. right.
      split; [now apply (checkCanBeBlocked_not_blocked schema)|exact Hguard]. }
    now rewrite Ht.
Qed.

(** C9, amended.  In the wrap branch of [execute] a selected block is
    handed to [_applyBlock] exactly when it is already a child of a code
    block or is accepted by [checkCanBeBlocked]; the order of the selection
    is kept.  A block refused by [checkCanBeBlocked] that is not in a code
    block is left out.  Leaving blocks out raises no error: the filter
    completes when the selected blocks are in the tree; for a selection in
    document order that holds no code block, [execute] completes, with
    every kept block in a code block, as soon as one block is kept; and a
    call through the editor on a current command state always completes,
    since an enabled command keeps its first block and a disabled command
    is not run. *)
Theorem execute_wrap_filters_blocks (schema : Schema) (ed : Editor) :
  value ed = false ->
  (forall b, In b (selectedBlocks ed) -> locate b (root (model ed)) <> None) ->
  let t := root (model ed) in
  let kept := filter (holds (toBlock schema t)) (selectedBlocks ed) in
  filterOpt (toBlock schema t) (selectedBlocks ed) = Some kept
  /\ execute schema ed
     = match _applyBlock kept (model ed) with
       | Some (_, m') => Some (mkEditor m' (selectedBlocks ed) false (isEnabled ed))
       | None => None
       end
  /\ (forall b, In b kept <->
                In b (selectedBlocks ed)
                /\ (isBlocked t b = Some true
                    \/ (isBlocked t b = Some false
                        /\ checkCanBeBlocked schema t b = Some true)))
  /\ (forall b, isBlocked t b = Some false ->
                checkCanBeBlocked schema t b = Some false -> ~ In b kept)
  /\ (modelOk (model ed) ->
      inDocumentOrder t (selectedBlocks ed) = true ->
      (forall b, In b (selectedBlocks ed) ->
                 exists x, elementNode t b = Some x /\ isCodeBlock x = false) ->
      (kept <> [] ->
       exists ed', execute schema ed = Some ed'
                   /\ forall b, In b kept -> isBlocked (root (model ed')) b = Some true)
      /\ (refresh schema ed = Some ed ->
          (isEnabled ed = true -> kept <> [])
          /\ exists ed', editorExecute schema ed = Some ed')).
Proof.
  intros Hv Hatt t kept.
  assert (Hfilter : filterOpt (toBlock schema t) (selectedBlocks ed) = Some kept).
  { apply filterOpt_filter. intros b Hb. apply toBlock_attached, Hatt, Hb. }
  split; [exact Hfilter|]. split; [|split; [|split]].
  - unfold execute. rewrite Hv. unfold bind at 1. unfold read at 1.
    fold t. rewrite Hfilter. reflexivity.
  - intros b. unfold kept. rewrite filter_In. unfold holds.
    rewrite <- toBlock_true.
    destruct (toBlock schema t b) as [[|]|]; intuition congruence.
  - intros b Hb Hc Hin. unfold kept in Hin. apply filter_In in Hin.
    destruct Hin as [_ Hin]. unfold holds in Hin.
    destruct (toBlock schema t b) as [[|]|] eqn:E; try discriminate.
    apply toBlock_true in E. destruct E as [E|[_ E]]; congruence.
  - intros Hok Hord Hnames.
    assert (Hrun : kept <> [] ->
                   exists ed', execute schema ed = Some ed'
                               /\ selectedBlocks ed' = selectedBlocks ed
                               /\ forall b, In b kept ->
                                            isBlocked (root (model ed')) b = Some true).
    { intros Hne.
      destruct (execute_wrap_any schema ed Hok Hv Hatt Hord Hnames Hne)
        as (ed' & Hexec & Hsel & _ & Hblocked & _).
      exists ed'. split; [exact Hexec|]. split; [exact Hsel|exact Hblocked]. }
    split.
    + intros Hne. destruct (Hrun Hne) as (ed' & Hexec & _ & Hblocked).
      exists ed'. now split.
    + intros Hcur. split.
      * intros Hen Hnil.
        destruct (enabled_keeps_first schema ed Hcur Hv Hen) as (b0 & _ & Hb0).
        fold t in Hb0. fold kept in Hb0. rewrite Hnil in Hb0. destruct Hb0.
      * unfold editorExecute. destruct (isEnabled ed) eqn:Hen; [|now exists ed].
        destruct (enabled_keeps_first schema ed Hcur Hv Hen) as (b0 & Hhd & Hb0).
        fold t in Hb0. fold kept in Hb0.
        destruct Hrun as (ed' & Hexec & Hsel & Hblocked).
        { intros Hnil. rewrite Hnil in Hb0. destruct Hb0. }
        rewrite Hexec.
        exists (mkEditor (model ed') (selectedBlocks ed') true true).
        unfold refresh, _getValue, _checkEnabled.
        rewrite Hsel, Hhd, (Hblocked b0 Hb0). reflexivity.
Qed.

Lemma execute_wrap_filters_blocks_witness :
  In 2 (filter (holds (toBlock openSchema docMixed)) [1; 2])
  /\ isBlocked docMixed 2 = Some true
  /\ exists ed',
       execute openSchema (mkEditor (mkModel docMixed 100) [1; 2] false true) = Some ed'
       /\ isBlocked (root (model ed')) 1 = Some true.
Proof.
  destruct (execute_wrap_filters_blocks openSchema
              (mkEditor (mkModel docMixed 100) [1; 2] false true))
    as (_ & _ & Hin & _ & Hrun).
  - reflexivity.
  - intros b Hb. simpl in Hb.
    repeat (destruct Hb as [<-|Hb]; [vm_compute; discriminate|]). destruct Hb.
  - split; [|split; [reflexivity|]].
    + apply Hin. split; [simpl; auto|]. left. reflexivity.
    + destruct Hrun as [Hrun _].
      * split.
        -- unfold wellFormed. vm_compute. repeat constructor; simpl; intuition lia.
        -- vm_compute. repeat constructor.
      * reflexivity.
      * intros b Hb. simpl in Hb.
        repeat (destruct Hb as [<-|Hb];
                [eexists; split; [vm_compute; reflexivity|reflexivity]|]).
        destruct Hb.
      * destruct Hrun as (ed' & Hexec & Hblocked); [discriminate|].
        exists ed'. split; [exact Hexec|]. apply Hblocked. simpl. auto.
Defined.

(** ** A command that has nothing to wrap *)

(** X7.  When the value is off and every selected block is outside code
    blocks and refused by [checkCanBeBlocked] (or no block is selected),
    the refreshed command is disabled, and executing it through the
    editor does nothing: the editor is what it was. *)
Theorem editorExecute_nothing_to_wrap_is_noop (schema : Schema) (ed : Editor) :
  (forall b, In b (selectedBlocks ed) ->
             toBlock schema (root (model ed)) b = Some false) ->
  exists ed',
    refresh schema ed = Some ed'
    /\ value ed' = false /\ isEnabled ed' = false
    /\ model ed' = model ed /\ selectedBlocks ed' = selectedBlocks ed
    /\ editorExecute schema ed' = Some ed'.
Proof.
  intros Hnone.
  exists (mkEditor (model ed) (selectedBlocks ed) false false).
  split; [|now repeat split].
  unfold refresh, _getValue, _checkEnabled.
  destruct (selectedBlocks ed) as [|b0 l] eqn:Esel; cbn [hd_error]; [reflexivity|].
  pose proof (Hnone b0 (or_introl eq_refl)) as Hb0.
  unfold toBlock in Hb0. unfold isBlocked.
  destruct (findBlock (root (model ed)) (AnElement b0)) as [[u|]|]; try discriminate.
  cbn [option_map truthy value model selectedBlocks hd_error].
  now rewrite Hb0.
Qed.

Lemma editorExecute_nothing_to_wrap_is_noop_witness :
  exists ed',
    refresh plainSchema (mkEditor (mkModel docAH 100) [1; 2] true true) = Some ed'
    /\ isEnabled ed' = false
    /\ editorExecute plainSchema ed' = Some ed'.
Proof.
  destruct (editorExecute_nothing_to_wrap_is_noop plainSchema
              (mkEditor (mkModel docAH 100) [1; 2] true true))
    as (ed' & Hrefresh & _ & Hen & _ & _ & Hexec).
  - intros b Hb. simpl in Hb.
    repeat (destruct Hb as [<-|Hb]; [reflexivity|]). destruct Hb.
  - exists ed'. now repeat split.
Defined.

(** ** Children of an element *)

Lemma NoDup_map_of_split (A B : Type) (f : A -> B) (l : list A) :
  (forall pre d post d', l = pre ++ d :: post -> In d' post -> f d' <> f d) ->
  NoDup (map f l).
Proof.
  induction l as [|x l IH]; intros H; [constructor|].
  cbn [map]. constructor.
  - intros Hin. apply in_map_iff in Hin. destruct Hin as (d' & Hf & Hd').
    now apply (H [] x l d' eq_refl Hd').
  - apply IH. intros pre d post d' E Hd'.
    apply (H (x :: pre) d post d'); [now rewrite E|exact Hd'].
Qed.

(** The children of an element are distinct objects. *)
Lemma children_uids_NoDup (q : Path) (t p : Node) :
  wellFormed t -> getNodeByPath t q = Some p -> NoDup (map uid (children p)).
Proof.
  intros W Hq. apply NoDup_map_of_split.
  intros pre d post d' E Hd'. now apply (later_sibling_differs q t p d d' pre post).
Qed.

Lemma children_setChildren (n : Node) (cs : list Node) : children (setChildren n cs) = cs.
Proof. now destruct n. Qed.

Lemma uid_setChildren (n : Node) (cs : list Node) : uid (setChildren n cs) = uid n.
Proof. now destruct n. Qed.

Lemma name_setChildren (n : Node) (cs : list Node) : name (setChildren n cs) = name n.
Proof. now destruct n. Qed.

Lemma nonempty_In (A : Type) (l : list A) : l <> [] -> exists x, In x l.
Proof. destruct l as [|x l]; [contradiction|]. exists x. now left. Qed.

Lemma inDocumentOrder_NoDup (t : Node) (l : list nat) :
  inDocumentOrder t l = true -> NoDup l.
Proof.
  induction l as [|b l IH]; intros H; [constructor|].
  cbn [inDocumentOrder] in H. apply andb_prop in H. destruct H as [Hb Hl].
  constructor; [|now apply IH].
  intros Hin. rewrite forallb_forall in Hb. specialize (Hb b Hin).
  unfold blockBefore in Hb. destruct (locate b t) as [p|]; [|discriminate].
  pose proof (precedes_extension_l (fullPath p) []) as Hp.
  rewrite app_nil_r in Hp. congruence.
Qed.

(** ** The wrap path: the recorded code blocks in document order *)

Lemma precedes_app_same (q p1 p2 : Path) :
  precedes (q ++ p1) (q ++ p2) = precedes p1 p2.
Proof.
  induction q as [|x q IH]; [reflexivity|]. cbn [app]. now rewrite precedes_cons_same.
Qed.

Lemma precedes_nil_r (p : Path) : precedes p [] = false.
Proof. now destruct p. Qed.

Lemma precedes_snoc_zero_r (p q : Path) :
  precedes p (q ++ [0]) = true -> precedes p q = true.
Proof.
  revert p; induction q as [|y q IH]; intros p H.
  - destruct p as [|x r]; [discriminate|]. cbn [app precedes] in H.
    rewrite precedes_nil_r, andb_false_r, orb_false_r in H.
    apply Nat.ltb_lt in H. lia.
  - destruct p as [|x r]; [discriminate|]. cbn [app precedes] in *.
    apply orb_prop in H. destruct H as [H|H]; [now rewrite H|].
    apply andb_prop in H. destruct H as [Hxy H].
    rewrite Hxy, (IH r H). apply orb_true_r.
Qed.

Lemma precedes_snoc_l (q : Path) (z : nat) (p : Path) :
  precedes (q ++ [z]) p = true ->
  precedes q p = true \/ exists z' rest, p = q ++ z' :: rest.
Proof.
  revert p; induction q as [|y q IH]; intros p H.
  - destruct p as [|x r]; [discriminate|]. right. now exists x, r.
  - destruct p as [|x r]; [discriminate|]. cbn [app precedes] in H.
    apply orb_prop in H. destruct H as [H|H].
    + left. cbn [precedes]. now rewrite H.
    + apply andb_prop in H. destruct H as [Hxy H]. apply Nat.eqb_eq in Hxy. subst x.
      destruct (IH r H) as [H1|(z' & rest & ->)].
      * left. now rewrite precedes_cons_same.
      * right. now exists z', rest.
Qed.

(** No path lies between two adjacent siblings. *)
Lemma precedes_between_adjacent (Q : Path) (i : nat) (p : Path) :
  precedes (Q ++ [i]) p = true -> precedes p (Q ++ [S i]) = true -> False.
Proof.
  revert p; induction Q as [|y Q IH]; intros p H1 H2.
  - destruct p as [|x r]; [discriminate|]. cbn [app precedes] in H1, H2.
    rewrite precedes_nil_r, andb_false_r, orb_false_r in H2.
    rewrite andb_false_r, orb_false_r in H1.
    apply Nat.ltb_lt in H1, H2. lia.
  - destruct p as [|x r]; [discriminate|]. cbn [app precedes] in H1, H2.
    apply orb_prop in H1. apply orb_prop in H2.
    destruct H1 as [H1|H1]; destruct H2 as [H2|H2];
      try (apply Nat.ltb_lt in H1); try (apply Nat.ltb_lt in H2);
      try (apply andb_prop in H1; destruct H1 as [E1 H1]; apply Nat.eqb_eq in E1);
      try (apply andb_prop in H2; destruct H2 as [E2 H2]; apply Nat.eqb_eq in E2);
      try lia.
    now apply (IH r).
Qed.

Lemma inDocumentOrder_app_intro (t : Node) (l1 l2 : list nat) :
  inDocumentOrder t l1 = true -> inDocumentOrder t l2 = true ->
  (forall x y, In x l1 -> In y l2 -> blockBefore t x y = true) ->
  inDocumentOrder t (l1 ++ l2) = true.
Proof.
  induction l1 as [|b l1 IH]; intros H1 H2 Hx; [exact H2|].
  cbn [app inDocumentOrder] in *. apply andb_prop in H1. destruct H1 as [Hb H1].
  apply andb_true_intro. split.
  - rewrite forallb_app, Hb. cbn [andb]. apply forallb_forall.
    intros y Hy. apply Hx; [now left|exact Hy].
  - apply IH; [exact H1|exact H2|]. intros x y Hx' Hy. apply Hx; [now right|exact Hy].
Qed.

(** What is recorded for a group does not change with an edit to the
    right of the group. *)
Lemma rangeUnit_agreeLeft (p : Path) (t t' : Node) (r : Range) (run : list nat) :
  agreeLeft p t t' ->
  endsBefore (ppath (start r)) (offset (end_ r)) p = true ->
  flatGroup t r run -> rangeUnit t' r = rangeUnit t r.
Proof.
  intros Hag Hb (par & Hpe & Hpar & Hae & Hel & Hrun).
  destruct (agreeLeft_endsBefore _ _ _ _ _ _ Hag Hb Hpar Hel)
    as (c' & Hc' & Hu & Hn & Hf & Hl).
  unfold rangeUnit, positionParent, rangeUids. rewrite Hpar, Hc'.
  unfold isCodeBlock. rewrite Hn, Hu.
  now rewrite (slice_firstn _ _ _ _ (Nat.lt_le_incl _ _ Hae) Hf).
Qed.

(** One step of the wrap pass keeps the document order: what it records
    for the group takes the place of the group. *)
Lemma applyBlockGroup_order (m : Model) (acc : list nat) (r : Range) (run : list nat)
  (X tail : list nat) (t1 : Node) (u n1 : nat) :
  modelOk m -> flatGroup (root m) r run ->
  inDocumentOrder (root m) (X ++ rangeUnit (root m) r ++ tail) = true ->
  applyBlockGroup acc r m = Some (acc ++ [u], mkModel t1 n1) ->
  inDocumentOrder t1 (X ++ u :: tail) = true.
Proof.
  intros Hok (par & Hpe & Hpar & Hae & Hel & Hrun) Hord Hstep.
  unfold rangeUnit, positionParent in Hord. rewrite Hpar in Hord.
  destruct (isCodeBlock par) eqn:Hcb.
  - rewrite (applyBlockGroup_reuse m acc r par Hpar Hcb) in Hstep.
    injection Hstep as Hacc Hm. apply app_inv_head in Hacc. injection Hacc as <-.
    subst m. exact Hord.
  - unfold rangeUids in Hord. rewrite Hpar in Hord.
    assert (Hbg : bareGroup (root m) r run) by (exists par; now repeat split).
    destruct (applyBlockGroup_step m acc r run Hok Hbg) as (t1' & Hstep' & Hok1 & _).
    rewrite Hstep' in Hstep. injection Hstep as Hacc <- <-.
    apply app_inv_head in Hacc. injection Hacc as <-.
    pose proof (applyBlockGroup_wrap m acc r par Hpe Hpar Hcb (Nat.lt_le_incl _ _ Hae) Hel)
      as Hwrap.
    rewrite Hstep' in Hwrap.
    destruct (replaceAt (ppath (start r)) _ (root m)) as [t'|] eqn:Hrep; [|discriminate].
    injection Hwrap as ->.
    set (P := ppath (start r)) in *. set (a := offset (start r)) in *.
    set (e := offset (end_ r)) in *. set (cs := children par) in *.
    pose proof (proj1 Hok1) as W1. cbn [root] in W1.
    pose proof (inDocumentOrder_shift P (nextUid m) a e (root m) t' par Hpar Hae Hel Hrep W1
                  _ Hord) as H1.
    set (Y := Element (nextUid m) "codeBlock" (slice a e cs)).
    pose proof (replaceAt_get _ _ _ _ Hrep) as Hq1.
    assert (HY : nth_error (children (setChildren par (wrapChildren (nextUid m) a e cs))) a
                 = Some Y).
    { rewrite children_setChildren. apply nth_error_wrapChildren. lia. }
    pose proof (getNodeByPath_snoc P a t' _ Y Hq1 HY) as HqY.
    assert (LY : locate (nextUid m) t' = Some (mkPosition P a))
      by (apply (locate_complete P a t' _ Y W1 Hq1 HY)).
    assert (Lb : forall j x, nth_error (slice a e cs) j = Some x ->
                             locate (uid x) t' = Some (mkPosition (P ++ [a]) j)).
    { intros j x Hj. apply (locate_complete (P ++ [a]) j t' Y x W1 HqY Hj). }
    apply inDocumentOrder_app in H1. destruct H1 as (HX & Hrt & HXrt).
    apply inDocumentOrder_app in Hrt. destruct Hrt as (_ & Ht & Hrt).
    apply inDocumentOrder_app_intro; [exact HX| |].
    + change (nextUid m :: tail) with ([nextUid m] ++ tail).
      apply inDocumentOrder_app_intro; [reflexivity|exact Ht|].
      intros x y [<-|[]] Hy.
      destruct (nth_error (slice a e cs) 0) as [x0|] eqn:H0.
      * assert (Hin0 : In (uid x0) (map uid (slice a e cs)))
          by (apply in_map; eapply nth_error_In; exact H0).
        pose proof (Hrt _ _ Hin0 Hy) as Hb. unfold blockBefore in *.
        rewrite (Lb 0 x0 H0) in Hb. rewrite LY.
        destruct (locate y t') as [py|] eqn:Ly; [|discriminate].
        unfold fullPath in *. cbn [ppath offset] in *.
        destruct (precedes_snoc_l _ _ _ Hb) as [Hp|(z' & rest & Hin)]; [exact Hp|].
        exfalso.
        destruct (locate_fullPath _ _ _ Ly) as (cy & Hcy & _).
        unfold fullPath in Hcy. rewrite Hin in Hcy.
        change (z' :: rest) with ([z'] ++ rest) in Hcy.
        rewrite app_assoc, getNodeByPath_app in Hcy.
        destruct (getNodeByPath t' ((P ++ [a]) ++ [z'])) as [x'|] eqn:Hx'; [|discriminate].
        destruct (getNodeByPath_snoc_inv _ _ _ _ Hx') as (Y' & HY' & Hz').
        rewrite HqY in HY'. injection HY' as <-. cbn [children Y] in Hz'.
        assert (Hin' : In (uid x') (map uid (slice a e cs)))
          by (apply in_map; eapply nth_error_In; exact Hz').
        pose proof (Hrt _ _ Hin' Hy) as Hb'.
        rewrite (Lb z' x' Hz'), Ly in Hb'. unfold fullPath in Hb'.
        cbn [ppath offset] in Hb'. rewrite Hin in Hb'.
        change (z' :: rest) with ([z'] ++ rest) in Hb'.
        rewrite app_assoc, precedes_extension_l in Hb'. discriminate.
      * exfalso. apply nth_error_None in H0. unfold slice in H0.
        rewrite length_firstn, length_skipn in H0. unfold cs in *. lia.
    + intros x y Hx [<-|Hy].
      * destruct (nth_error (slice a e cs) 0) as [x0|] eqn:H0.
        -- assert (Hin0 : In (uid x0) (map uid (slice a e cs) ++ tail)).
           { apply in_or_app. left. apply in_map. eapply nth_error_In. exact H0. }
           pose proof (HXrt _ _ Hx Hin0) as Hb. unfold blockBefore in *.
           rewrite (Lb 0 x0 H0) in Hb. rewrite LY.
           destruct (locate x t') as [px|]; [|discriminate].
           unfold fullPath in *. cbn [ppath offset] in *.
           now apply precedes_snoc_zero_r.
        -- exfalso. apply nth_error_None in H0. unfold slice in H0.
           rewrite length_firstn, length_skipn in H0. unfold cs in *. lia.
      * apply HXrt; [exact Hx|]. apply in_or_app. now right.
Qed.

(** The wrap pass over the groups, last group first: the recorded code
    blocks end up in document order when what is recorded for the groups
    was in document order before the pass. *)
Lemma applyBlock_sequence_order (rs : list Range) :
  forall (m : Model) (runs : list (list nat)) (acc tail : list nat)
         (tw : Node) (refs : list nat) (nw : nat),
    modelOk m -> Forall2 (flatGroup (root m)) rs runs -> rangesOrdered rs = true ->
    inDocumentOrder (root m) (flat_map (rangeUnit (root m)) rs ++ tail) = true ->
    foldM applyBlockGroup acc (rev rs) m = Some (acc ++ refs, mkModel tw nw) ->
    inDocumentOrder tw (rev refs ++ tail) = true.
Proof.
  induction rs as [|r rs IH] using rev_ind;
    intros m runs acc tail tw refs nw Hok Hres Hord Hdoc Hrun.
  - cbn [rev foldM] in Hrun. injection Hrun as Hacc Hm.
    rewrite <- (app_nil_r acc) in Hacc at 1. apply app_inv_head in Hacc.
    subst refs m. exact Hdoc.
  - destruct (Forall2_snoc_inv _ _ _ _ _ _ Hres) as (runs0 & run & -> & Hres0 & Hr).
    destruct (rangesOrdered_snoc _ _ Hord) as (Hord0 & Hbefore).
    destruct (applyBlockGroup_any m acc r run Hok Hr)
      as (t1 & u & n1 & Hstep & Hle1 & Hok1 & Hag & _).
    assert (Hres1 : Forall2 (flatGroup (root (mkModel t1 n1))) rs runs0).
    { cbn [root]. clear - Hres0 Hbefore Hag.
      induction Hres0 as [|r' run' rs runs0 Hr' H IH]; constructor.
      - apply (flatGroup_agreeLeft _ _ _ _ _ Hag); [|exact Hr'].
        apply Hbefore. now left.
      - apply IH. intros x Hx. apply Hbefore. now right. }
    destruct (applyBlock_sequence_any rs (mkModel t1 n1) runs0 (acc ++ [u]) Hok1 Hres1 Hord0)
      as (tw' & refs0 & nw' & Hrun' & _).
    rewrite rev_app_distr in Hrun. cbn [rev app foldM] in Hrun.
    unfold bind in Hrun. rewrite Hstep, Hrun' in Hrun.
    injection Hrun as Hacc <- <-. rewrite <- app_assoc in Hacc.
    apply app_inv_head in Hacc. cbn [app] in Hacc. subst refs.
    cbn [rev]. rewrite <- app_assoc. cbn [app].
    apply (IH (mkModel t1 n1) runs0 (acc ++ [u]) (u :: tail) tw' refs0 nw' Hok1 Hres1 Hord0);
      [|exact Hrun'].
    cbn [root].
    rewrite flat_map_app in Hdoc. cbn [flat_map] in Hdoc.
    rewrite app_nil_r, <- app_assoc in Hdoc.
    assert (Eu : flat_map (rangeUnit t1) rs = flat_map (rangeUnit (root m)) rs).
    { clear - Hres0 Hbefore Hag.
      induction Hres0 as [|r' run' rs runs0 Hr' H IH]; [reflexivity|].
      cbn [flat_map]. f_equal.
      - apply (rangeUnit_agreeLeft _ _ _ _ run' Hag); [|exact Hr'].
        apply Hbefore. now left.
      - apply IH. intros x Hx. apply Hbefore. now right. }
    rewrite Eu. apply (applyBlockGroup_order m acc r run _ tail t1 u n1 Hok Hr Hdoc Hstep).
Qed.

(** *** Adjacent siblings among elements in document order *)

Lemma parent_not_self (t : Node) (x : nat) (p : Node) :
  wellFormed t -> elementParent t x = Some p -> uid p <> x.
Proof.
  intros W Hp Hu. unfold elementParent in Hp.
  destruct (locate x t) as [pos|] eqn:L; [|discriminate].
  destruct (locate_fullPath _ _ _ L) as (c & Hc & Hcu).
  destruct (getNodeByPath_uid_inj t p c _ _ W Hp Hc) as [E _]; [congruence|].
  unfold fullPath in E. apply (f_equal (@length nat)) in E.
  rewrite length_app in E. simpl in E. lia.
Qed.

(** Of elements listed in document order, one is directly followed by
    another only if that one comes next in the list. *)
Lemma inDocumentOrder_chain (t : Node) (l : list nat) :
  wellFormed t -> inDocumentOrder t l = true ->
  forall l1 a l2 b,
    l = l1 ++ a :: l2 -> In b l -> nextSibling t a = Some b ->
    exists l2', l2 = b :: l2'.
Proof.
  intros W Hord l1 a l2 b E Hb Hadj.
  destruct (nextSibling_Some _ _ _ Hadj)
    as (q & par & i & c1 & c2 & Hq & H1 & H2 & Hu1 & Hu2).
  pose proof (locate_complete q i t par c1 W Hq H1) as La.
  pose proof (locate_complete q (S i) t par c2 W Hq H2) as Lb.
  rewrite Hu1 in La. rewrite Hu2 in Lb.
  assert (Hne : a <> b).
  { intros ->. rewrite La in Lb. injection Lb as Hi. lia. }
  assert (Hab : forall x y, blockBefore t x y = true -> x = b -> y = a -> False).
  { intros x y H -> ->. unfold blockBefore in H. rewrite La, Lb in H.
    unfold fullPath in H. cbn [ppath offset] in H.
    rewrite precedes_app_same in H. cbn [precedes] in H.
    rewrite andb_false_r, orb_false_r in H.
    apply Nat.ltb_lt in H. lia. }
  subst l. apply inDocumentOrder_app in Hord. destruct Hord as (_ & Hal2 & Hcross).
  apply in_app_or in Hb. destruct Hb as [Hb|[Hb|Hb]].
  - exfalso. apply (Hab b a); [|reflexivity|reflexivity].
    apply Hcross; [exact Hb|now left].
  - contradiction.
  - destruct l2 as [|c l2]; [destruct Hb|].
    destruct (Nat.eq_dec c b) as [->|Hcb]; [now exists l2|].
    exfalso. destruct Hb as [Hb|Hb]; [contradiction|].
    cbn [inDocumentOrder] in Hal2. apply andb_prop in Hal2. destruct Hal2 as [Hac Hcl].
    cbn [inDocumentOrder] in Hcl. apply andb_prop in Hcl. destruct Hcl as [Hcb' _].
    cbn [forallb] in Hac. apply andb_prop in Hac. destruct Hac as [Hac _].
    rewrite forallb_forall in Hcb'. specialize (Hcb' b Hb).
    unfold blockBefore in Hac, Hcb'. rewrite La in Hac. rewrite Lb in Hcb'.
    destruct (locate c t) as [pc|]; [|discriminate].
    unfold fullPath in Hac, Hcb'. cbn [ppath offset] in Hac, Hcb'.
    exact (precedes_between_adjacent _ _ _ Hac Hcb').
Qed.

(** *** The next sibling after a merge *)

Lemma nextSibling_entry (t : Node) (x y : nat) :
  nextSibling t x = Some y ->
  exists u nm l1 l2, In (u, nm, l1 ++ x :: y :: l2) (nodeInfos t).
Proof.
  intros H.
  destruct (nextSibling_Some _ _ _ H) as (q & par & i & c1 & c2 & Hq & H1 & H2 & <- & <-).
  exists (uid par), (name par), (map uid (firstn i (children par))),
    (map uid (skipn (S (S i)) (children par))).
  pose proof (nodeInfos_getNodeByPath _ _ _ Hq) as Hi. unfold infoOf in Hi.
  destruct (nth_error_decompose _ _ _ _ H1) as [E _].
  rewrite (skipn_nth_error _ _ _ _ H2) in E.
  assert (Em : map uid (children par)
               = map uid (firstn i (children par))
                 ++ uid c1 :: uid c2 :: map uid (skipn (S (S i)) (children par))).
  { rewrite E at 1. now rewrite map_app. }
  now rewrite Em in Hi.
Qed.

Lemma nextSibling_attached (t : Node) (x y : nat) :
  nextSibling t x = Some y -> In x (uids t).
Proof.
  intros H. unfold nextSibling in H.
  destruct (locate x t) as [pos|] eqn:L; [|discriminate].
  apply attached_uid. now rewrite L.
Qed.

(** An element is a child of one element only. *)
Lemma entry_of_child (t : Node) (u u' : nat) (nm nm' : string) (cs cs' : list nat)
  (x : nat) :
  wellFormed t -> In (u, nm, cs) (nodeInfos t) -> In (u', nm', cs') (nodeInfos t) ->
  In x cs -> In x cs' -> u = u' /\ nm = nm' /\ cs = cs'.
Proof.
  intros W H H' Hx Hx'.
  destruct (elementParent_of_info _ _ _ _ _ W H Hx) as (p & Hp & Hu & _).
  destruct (elementParent_of_info _ _ _ _ _ W H' Hx') as (p' & Hp' & Hu' & _).
  rewrite Hp in Hp'. injection Hp' as <-.
  rewrite Hu in Hu'. subst u'.
  destruct (nodeInfos_unique _ _ _ _ _ _ W H H') as [-> ->]. now repeat split.
Qed.

Section Merge.

Variables (q : Path) (t t' par c d : Node) (pre post : list Node).
Hypothesis Hq : getNodeByPath t q = Some par.
Hypothesis E : children par = pre ++ c :: d :: post.
Hypothesis Hrep : replaceAt q (setChildren par (pre ++ absorb c d :: post)) t = Some t'.

Lemma merge_nodeInfos :
  exists l1 l2,
    nodeInfos t
    = l1 ++ (infoOf par :: flat_map nodeInfos pre
             ++ (infoOf c :: flat_map nodeInfos (children c))
             ++ (infoOf d :: flat_map nodeInfos (children d))
             ++ flat_map nodeInfos post) ++ l2
    /\ nodeInfos t'
       = l1 ++ (infoOf (setChildren par (pre ++ absorb c d :: post))
                :: flat_map nodeInfos pre
                ++ (infoOf (absorb c d)
                    :: flat_map nodeInfos (children c) ++ flat_map nodeInfos (children d))
                ++ flat_map nodeInfos post) ++ l2.
Proof.
  destruct (nodeInfos_replaceAt _ _ _ _ _ Hq Hrep eq_refl eq_refl) as (l1 & l2 & N & N').
  exists l1, l2. split.
  - rewrite N, (nodeInfos_unfold par), E, flat_map_app. cbn [flat_map].
    now rewrite (nodeInfos_unfold c), (nodeInfos_unfold d).
  - rewrite N', nodeInfos_unfold, children_setChildren, flat_map_app. cbn [flat_map].
    rewrite (nodeInfos_unfold (absorb c d)).
    replace (children (absorb c d)) with (children c ++ children d) by reflexivity.
    now rewrite flat_map_app.
Qed.

(** The entries of the tree after the merge, but for those of the parent
    and of the element merged into, were there before. *)
Lemma merge_entry_old (u : nat) (nm : string) (cs : list nat) :
  In (u, nm, cs) (nodeInfos t') -> u <> uid par -> u <> uid c ->
  In (u, nm, cs) (nodeInfos t).
Proof.
  destruct merge_nodeInfos as (l1 & l2 & N & N'). rewrite N, N'.
  unfold infoOf, absorb. rewrite !uid_setChildren.
  intros H Hp Hc. rewrite !in_app_iff in *. cbn [In] in *. rewrite !in_app_iff in *.
  cbn [In] in *. rewrite !in_app_iff in *.
  repeat match goal with
         | H : _ \/ _ |- _ => destruct H as [H|H]
         | H : (_, _, _) = (_, _, _) |- _ => injection H as ? ? ?; congruence
         end; tauto.
Qed.

(** The entries of the tree before the merge, but for those of the parent
    and of the two elements, are there after it. *)
Lemma merge_entry_kept (u : nat) (nm : string) (cs : list nat) :
  In (u, nm, cs) (nodeInfos t) -> u <> uid par -> u <> uid c -> u <> uid d ->
  In (u, nm, cs) (nodeInfos t').
Proof.
  destruct merge_nodeInfos as (l1 & l2 & N & N'). rewrite N, N'.
  unfold infoOf.
  intros H Hp Hc Hd. rewrite !in_app_iff in *. cbn [In] in *. rewrite !in_app_iff in *.
  cbn [In] in *. rewrite !in_app_iff in *.
  repeat match goal with
         | H : _ \/ _ |- _ => destruct H as [H|H]
         | H : (_, _, _) = (_, _, _) |- _ => injection H as ? ? ?; congruence
         end; tauto.
Qed.

Lemma merge_entry_parent :
  In (uid par, name par, map uid (pre ++ absorb c d :: post)) (nodeInfos t').
Proof.
  pose proof (nodeInfos_getNodeByPath _ _ _ (replaceAt_get _ _ _ _ Hrep)) as H.
  unfold infoOf in H.
  now rewrite uid_setChildren, name_setChildren, children_setChildren in H.
Qed.

Lemma merge_entry_absorb :
  In (uid c, name c, map uid (children c ++ children d)) (nodeInfos t').
Proof.
  pose proof (replaceAt_get _ _ _ _ Hrep) as Hq'.
  assert (Hn : nth_error (children (setChildren par (pre ++ absorb c d :: post)))
                 (length pre) = Some (absorb c d))
    by (rewrite children_setChildren; apply nth_error_middle).
  pose proof (nodeInfos_getNodeByPath _ _ _ (getNodeByPath_snoc _ _ _ _ _ Hq' Hn)) as H.
  unfold infoOf, absorb in H.
  now rewrite uid_setChildren, name_setChildren, children_setChildren in H.
Qed.

End Merge.

Lemma succ_insert (A B l1 l2 : list nat) (cu du x y : nat) :
  A ++ cu :: B = l1 ++ x :: y :: l2 -> x <> cu ->
  exists l1' l2', A ++ cu :: du :: B = l1' ++ x :: y :: l2'.
Proof.
  revert l1; induction A as [|a A IH]; intros l1 H Hx.
  - destruct l1 as [|h l1]; cbn [app] in H; injection H as H1 H2; [congruence|].
    exists (cu :: du :: l1), l2. cbn [app]. now rewrite H2.
  - destruct l1 as [|h l1]; cbn [app] in H; injection H as H1 H2.
    + subst a. destruct A as [|a' A]; cbn [app] in H2; injection H2 as H2 H3.
      * subst y B. now exists [], (du :: l2).
      * subst a'. now exists [], (A ++ cu :: du :: B).
    + subst h. destruct (IH l1 H2 Hx) as (l1' & l2' & E').
      exists (a :: l1'), l2'. cbn [app]. now rewrite E'.
Qed.

Lemma NoDup_split_unique (A B l1 l : list nat) (x : nat) :
  NoDup (A ++ x :: B) -> A ++ x :: B = l1 ++ x :: l -> A = l1 /\ B = l.
Proof.
  revert l1; induction A as [|a A IH]; intros l1 Hnd H.
  - destruct l1 as [|h l1]; cbn [app] in H.
    + injection H as H2. now split.
    + injection H as H1 H2. exfalso. cbn [app] in Hnd.
      inversion Hnd as [|? ? Hn _]; subst.
      apply Hn, in_or_app. right. now left.
  - destruct l1 as [|h l1]; cbn [app] in H; injection H as H1 H2.
    + exfalso. subst a. cbn [app] in Hnd. inversion Hnd as [|? ? Hn _]; subst.
      apply Hn, in_or_app. right. now left.
    + subst h. cbn [app] in Hnd. inversion Hnd as [|? ? _ Hnd']; subst.
      destruct (IH l1 Hnd' H2) as [-> ->]. now split.
Qed.

Section MergeSiblings.

Variables (q : Path) (t t' par c d : Node) (pre post : list Node).
Hypothesis W : wellFormed t.
Hypothesis W' : wellFormed t'.
Hypothesis Hq : getNodeByPath t q = Some par.
Hypothesis E : children par = pre ++ c :: d :: post.
Hypothesis Hrep : replaceAt q (setChildren par (pre ++ absorb c d :: post)) t = Some t'.

Lemma merge_parent_entry_before :
  In (uid par, name par, map uid pre ++ uid c :: uid d :: map uid post) (nodeInfos t).
Proof.
  pose proof (nodeInfos_getNodeByPath _ _ _ Hq) as Hi. unfold infoOf in Hi.
  now rewrite E, map_app in Hi.
Qed.

Lemma merge_parent_entry_after :
  In (uid par, name par, map uid pre ++ uid c :: map uid post) (nodeInfos t').
Proof.
  pose proof (merge_entry_parent q t t' par c d pre post Hrep) as Hp.
  now rewrite map_app in Hp.
Qed.

(** After the merge an element that is not the one merged into, nor a
    child of the two, is followed by the sibling that followed it. *)
Lemma merge_nextSibling_other (x y : nat) :
  x <> uid c -> ~ In x (map uid (children c)) -> ~ In x (map uid (children d)) ->
  nextSibling t' x = Some y -> nextSibling t x = Some y.
Proof.
  intros Hxc Hc Hd H.
  destruct (nextSibling_entry _ _ _ H) as (u & nm & l1 & l2 & Hin).
  destruct (Nat.eq_dec u (uid par)) as [->|Hup].
  - destruct (nodeInfos_unique _ _ _ _ _ _ W' Hin merge_parent_entry_after) as [-> Hl].
    symmetry in Hl.
    destruct (succ_insert _ _ _ _ (uid c) (uid d) x y Hl Hxc) as (l1' & l2' & E').
    apply (nextSibling_of_info t (uid par) (name par) l1' l2' x y W).
    rewrite <- E'. exact merge_parent_entry_before.
  - destruct (Nat.eq_dec u (uid c)) as [->|Huc].
    + exfalso.
      destruct (nodeInfos_unique _ _ _ _ _ _ W' Hin
                  (merge_entry_absorb q t t' par c d pre post Hrep)) as [_ Hl].
      assert (Hx : In x (map uid (children c ++ children d)))
        by (rewrite <- Hl; apply in_or_app; right; now left).
      rewrite map_app in Hx. apply in_app_or in Hx. tauto.
    + apply (nextSibling_of_info t u nm l1 l2 x y W).
      now apply (merge_entry_old q t t' par c d pre post Hq E Hrep).
Qed.

(** The element merged into is followed by the sibling that followed the
    element merged away. *)
Lemma merge_nextSibling_absorb (y : nat) :
  nextSibling t' (uid c) = Some y -> nextSibling t (uid d) = Some y.
Proof.
  intros H. destruct (nextSibling_entry _ _ _ H) as (u & nm & l1 & l2 & Hin).
  destruct (entry_of_child t' _ _ _ _ _ _ (uid c) W' Hin merge_parent_entry_after)
    as (-> & -> & Hl).
  { apply in_or_app. right. now left. }
  { apply in_or_app. right. now left. }
  pose proof (children_uids_NoDup q t' _ W' (replaceAt_get _ _ _ _ Hrep)) as Hnd.
  rewrite children_setChildren, map_app in Hnd. cbn [map] in Hnd.
  replace (uid (absorb c d)) with (uid c) in Hnd by reflexivity.
  symmetry in Hl. destruct (NoDup_split_unique _ _ _ _ _ Hnd Hl) as [<- Hpost].
  apply (nextSibling_of_info t (uid par) (name par) (map uid pre ++ [uid c]) l2 (uid d) y W).
  rewrite <- app_assoc. cbn [app]. rewrite <- Hpost. exact merge_parent_entry_before.
Qed.

End MergeSiblings.

(** *** The merge pass over code blocks in document order *)

(** The merge pass over the recorded code blocks [cur :: refs], which are
    among the code blocks [U]: when, of the code blocks of [U], those
    still to come are directly followed only by the one that comes next,
    those passed are followed by none, and none is a child of another,
    the pass completes and leaves no code block of [U] directly followed
    by another; the blocks [B] held by code blocks of [U] are still held
    by code blocks of [U]. *)
Lemma mergePass_apart (B U : list nat) (refs : list nat) :
  forall (m : Model) (cur : nat),
    modelOk m ->
    (forall b, In b B ->
               exists u cs, In u U /\ In (u, "codeBlock"%string, cs) (nodeInfos (root m))
                            /\ In b cs) ->
    (forall u nm cs, In u (cur :: refs) -> In (u, nm, cs) (nodeInfos (root m)) ->
                     nm = "codeBlock"%string) ->
    incl (cur :: refs) U -> NoDup (cur :: refs) ->
    (forall l1 a l2 b, cur :: refs = l1 ++ a :: l2 -> In b U ->
                       nextSibling (root m) a = Some b -> exists l2', l2 = b :: l2') ->
    (forall a b, In a U -> ~ In a (cur :: refs) -> In b U ->
                 nextSibling (root m) a <> Some b) ->
    (forall x y nm cs, In x U -> In y U -> In (y, nm, cs) (nodeInfos (root m)) ->
                       ~ In x cs) ->
    exists r t',
      foldM mergeStep cur refs m = Some (r, mkModel t' (nextUid m))
      /\ modelOk (mkModel t' (nextUid m))
      /\ (forall b, In b B ->
                    exists u cs, In u U /\ In (u, "codeBlock"%string, cs) (nodeInfos t')
                                 /\ In b cs)
      /\ (forall a b, In a U -> In b U -> nextSibling t' a <> Some b).
Proof.
  induction refs as [|next refs IH]; intros m cur Hok HA HC HD Hnd HE HF HG.
  - exists cur, (root m). cbn [foldM]. destruct m as [t n]. cbn [root nextUid] in *.
    split; [reflexivity|]. split; [exact Hok|]. split; [exact HA|].
    intros a b Ha Hb Hadj. destruct (Nat.eq_dec a cur) as [->|Hne].
    + destruct (HE [] cur [] b eq_refl Hb Hadj) as (l2' & Hl). discriminate.
    + apply (HF a b Ha); [|exact Hb|exact Hadj]. intros [->|[]]. congruence.
  - cbn [foldM]. unfold bind.
    assert (Hcur : In cur U) by (apply HD; now left).
    assert (Hnext : In next U) by (apply HD; right; now left).
    destruct (eqNode (nextSibling (root m) cur) next) eqn:Eadj.
    + apply eqNode_true in Eadj.
      destruct (nextSibling_Some _ _ _ Eadj)
        as (q & par & i & c & d & Hq & Hc & Hd & Huc & Hud).
      destruct (nth_error_decompose _ _ _ _ Hc) as [E L].
      rewrite (skipn_nth_error _ _ _ _ Hd) in E.
      remember (firstn i (children par)) as pre eqn:Epre.
      remember (skipn (S (S i)) (children par)) as post eqn:Epost.
      pose proof (proj1 Hok) as W.
      pose proof (mergeStep_merge m q par c d pre post W Hq E) as Hstep.
      rewrite Huc, Hud in Hstep.
      set (y := setChildren par (pre ++ absorb c d :: post)) in *.
      destruct (replaceAt_total q y par (root m) Hq) as (t1 & Hrep).
      rewrite Hrep in Hstep. rewrite Hstep.
      assert (Hperm : Permutation (uid d :: uids t1) (uids (root m))).
      { apply (uids_replaceAt_perm _ _ _ _ _ [uid d] [] Hq Hrep). apply uids_absorb, E. }
      assert (Hok1 : modelOk (mkModel t1 (nextUid m))).
      { apply (modelOk_removed (root m) t1 _ (uid d) Hperm). now destruct m. }
      pose proof (proj1 Hok1) as W1. cbn [root] in W1.
      assert (Hent : forall u nm cs, In (u, nm, cs) (nodeInfos t1) ->
                                     exists cs0, In (u, nm, cs0) (nodeInfos (root m)))
        by (apply (merge_entries q _ _ par c d pre post Hq E Hrep)).
      assert (Hic : In (infoOf c) (nodeInfos (root m)))
        by (apply (nodeInfos_getNodeByPath (q ++ [i]));
            eapply getNodeByPath_snoc; eassumption).
      assert (Hid : In (infoOf d) (nodeInfos (root m)))
        by (apply (nodeInfos_getNodeByPath (q ++ [S i]));
            eapply getNodeByPath_snoc; eassumption).
      assert (Hip : In (infoOf par) (nodeInfos (root m)))
        by (apply (nodeInfos_getNodeByPath q), Hq).
      unfold infoOf in Hic, Hid, Hip. rewrite Huc in Hic. rewrite Hud in Hid.
      assert (Hnc : name c = "codeBlock"%string)
        by (apply (HC cur _ _ (or_introl eq_refl) Hic)).
      assert (Hcp : In cur (map uid (children par))).
      { rewrite <- Huc. apply in_map. eapply nth_error_In. exact Hc. }
      assert (Hpar_out : ~ In (uid par) U).
      { intros HpU. apply (HG cur (uid par) _ _ Hcur HpU Hip Hcp). }
      assert (Hnd' : NoDup (cur :: refs)).
      { inversion Hnd as [|? ? Hn1 Hnd1]; subst. inversion Hnd1 as [|? ? Hn2 Hnd2]; subst.
        constructor; [|exact Hnd2]. intros Hin. apply Hn1. now right. }
      assert (Hother : forall a b, In a U -> a <> cur ->
                                   nextSibling t1 a = Some b ->
                                   nextSibling (root m) a = Some b).
      { intros a b Ha Hac.
        apply (merge_nextSibling_other q (root m) t1 par c d pre post W W1 Hq E Hrep a b).
        - now rewrite Huc.
        - apply (HG a cur _ _ Ha Hcur Hic).
        - apply (HG a next _ _ Ha Hnext Hid). }
      destruct (IH (mkModel t1 (nextUid m)) cur Hok1) as (r & t' & Hrun & Hok' & HA' & Hfin).
      * intros b Hb. cbn [root]. destruct (HA b Hb) as (u & cs & Hu & Hin & Hbcs).
        destruct (Nat.eq_dec u (uid par)) as [->|Hup]; [contradiction|].
        destruct (Nat.eq_dec u cur) as [->|Huc'].
        { destruct (nodeInfos_unique _ _ _ _ _ _ W Hin Hic) as [_ ->].
          exists cur, (map uid (children c ++ children d)). split; [exact Hcur|]. split.
          - pose proof (merge_entry_absorb q _ t1 par c d pre post Hrep) as Hab.
            now rewrite Huc, Hnc in Hab.
          - rewrite map_app. apply in_or_app. now left. }
        destruct (Nat.eq_dec u next) as [->|Hud'].
        { destruct (nodeInfos_unique _ _ _ _ _ _ W Hin Hid) as [_ ->].
          exists cur, (map uid (children c ++ children d)). split; [exact Hcur|]. split.
          - pose proof (merge_entry_absorb q _ t1 par c d pre post Hrep) as Hab.
            now rewrite Huc, Hnc in Hab.
          - rewrite map_app. apply in_or_app. now right. }
        exists u, cs. split; [exact Hu|]. split; [|exact Hbcs].
        apply (merge_entry_kept q (root m) t1 par c d pre post Hq E Hrep); congruence.
      * intros u nm cs Hu Hin. cbn [root] in Hin.
        destruct (Hent _ _ _ Hin) as (cs0 & Hin0). apply (HC u nm cs0); [|exact Hin0].
        destruct Hu as [<-|Hu]; [now left|right; now right].
      * intros x Hx. apply HD. destruct Hx as [<-|Hx]; [now left|right; now right].
      * exact Hnd'.
      * intros l1 a l2 b El Hb Hadj. cbn [root] in Hadj.
        destruct l1 as [|h l1]; cbn [app] in El; injection El as -> ->.
        -- rewrite <- Huc in Hadj.
           pose proof (merge_nextSibling_absorb q (root m) t1 par c d pre post W W1 Hq E Hrep
                         b Hadj) as Hadj0.
           rewrite Hud in Hadj0.
           apply (HE [a] next l2 b eq_refl Hb Hadj0).
        -- assert (Hain : In a (l1 ++ a :: l2)) by (apply in_or_app; right; now left).
           assert (Hah : a <> h).
           { intros ->. inversion Hnd' as [|? ? Hn _]; subst. now apply Hn. }
           apply (HE (h :: next :: l1) a l2 b eq_refl Hb).
           apply Hother; [|exact Hah|exact Hadj].
           apply HD. right. now right.
      * intros a b Ha Hna Hb Hadj. cbn [root] in Hadj.
        destruct (Nat.eq_dec a next) as [->|Han].
        -- apply nextSibling_attached in Hadj. rewrite <- Hud in Hadj.
           assert (N : NoDup (uid d :: uids t1))
             by (eapply Permutation_NoDup; [symmetry; exact Hperm|exact W]).
           inversion N as [|? ? Hn _]; subst. now apply Hn.
        -- apply (HF a b Ha); [|exact Hb|].
           ++ intros [->|[->|Hin]]; [apply Hna; now left|congruence|apply Hna; now right].
           ++ apply Hother; [exact Ha| |exact Hadj]. intros ->. apply Hna. now left.
      * intros x z nm cs Hx Hz Hin Hxcs. cbn [root] in Hin.
        destruct (Nat.eq_dec z (uid par)) as [->|Hzp]; [contradiction|].
        destruct (Nat.eq_dec z cur) as [->|Hzc].
        { pose proof (merge_entry_absorb q _ t1 par c d pre post Hrep) as Hab.
          rewrite Huc in Hab.
          destruct (nodeInfos_unique _ _ _ _ _ _ W1 Hin Hab) as [_ ->].
          rewrite map_app in Hxcs. apply in_app_or in Hxcs. destruct Hxcs as [Hxc|Hxd].
          - apply (HG x cur _ _ Hx Hcur Hic Hxc).
          - apply (HG x next _ _ Hx Hnext Hid Hxd). }
        apply (HG x z nm cs Hx Hz); [|exact Hxcs].
        apply (merge_entry_old q (root m) t1 par c d pre post Hq E Hrep); congruence.
      * cbn [root nextUid] in *. exists r, t'.
        split; [exact Hrun|]. split; [exact Hok'|]. split; [exact HA'|exact Hfin].
    + assert (Hne : nextSibling (root m) cur <> Some next).
      { intros H. apply eqNode_true in H. congruence. }
      rewrite (mergeStep_apart m cur next Hne).
      apply (IH m next Hok HA).
      * intros u nm cs Hu. apply HC. now right.
      * intros x Hx. apply HD. now right.
      * now inversion Hnd.
      * intros l1 a l2 b El Hb Hadj.
        apply (HE (cur :: l1) a l2 b); [now rewrite El|exact Hb|exact Hadj].
      * intros a b Ha Hna Hb Hadj.
        destruct (Nat.eq_dec a cur) as [->|Hac].
        -- destruct (HE [] cur (next :: refs) b eq_refl Hb Hadj) as (l2' & Hl).
           injection Hl as <- _. contradiction.
        -- apply (HF a b Ha); [|exact Hb|exact Hadj].
           intros [->|Hin]; [congruence|contradiction].
      * exact HG.
Qed.

(** C4, amended.  Take an execution of the wrap path on a selection in
    document order, and what the wrap pass has in hand for the groups of
    the kept blocks: for a group in a code block that code block, which is
    recorded, and for a group outside code blocks its blocks, around which
    the recorded code block is made.  If these are in document order,
    none inside another (so no code block holds two groups of kept blocks
    and no kept block lies deeper inside a code block recorded for another
    group), then [execute] completes, every kept block is afterwards a
    child of a code block, and no code block that holds a kept block is
    directly followed by a code block that holds a kept block: the
    recorded code blocks have been merged wherever they were adjacent.
    Code blocks that hold no kept block are not merged, so a recorded code
    block can remain next to one. *)
Theorem execute_wrap_merges_recorded (schema : Schema) (ed : Editor) :
  modelOk (model ed) ->
  value ed = false ->
  (forall b, In b (selectedBlocks ed) -> locate b (root (model ed)) <> None) ->
  inDocumentOrder (root (model ed)) (selectedBlocks ed) = true ->
  let t := root (model ed) in
  let kept := filter (holds (toBlock schema t)) (selectedBlocks ed) in
  kept <> [] ->
  inDocumentOrder t (recordedUnits t kept) = true ->
  exists ed',
    execute schema ed = Some ed'
    /\ modelOk (model ed')
    /\ (forall b, In b kept -> isBlocked (root (model ed')) b = Some true)
    /\ (forall b1 b2 c1 c2,
          In b1 kept -> In b2 kept ->
          elementParent (root (model ed')) b1 = Some c1 ->
          elementParent (root (model ed')) b2 = Some c2 ->
          nextSibling (root (model ed')) (uid c1) <> Some (uid c2)).
Proof.
  intros Hok Hv Hatt Hord t kept Hne Hunits.
  set (m := model ed) in *. set (sel := selectedBlocks ed) in *.
  assert (Hsub : forall b, In b kept -> In b sel)
    by (intros b Hb; unfold kept in Hb; now apply filter_In in Hb).
  destruct (getRangesOfBlockGroups_flat t kept (proj1 Hok)) as (rs & Hrs & Hres & Hso).
  { intros b Hb. apply Hatt, Hsub, Hb. }
  { now apply inDocumentOrder_filter. }
  unfold recordedUnits in Hunits. rewrite Hrs in Hunits.
  destruct (applyBlock_sequence_any rs m _ [] Hok Hres Hso)
    as (tw & refs & nw & Hfold & Hle & Hokw & Hin & _).
  pose proof (proj1 Hokw) as Ww. cbn [root] in Ww.
  assert (Hdoc : inDocumentOrder tw (rev refs) = true).
  { rewrite <- (app_nil_r (rev refs)).
    apply (applyBlock_sequence_order rs m _ [] [] tw refs nw Hok Hres Hso);
      [|exact Hfold].
    now rewrite app_nil_r. }
  cbn [app] in Hfold.
  destruct (rev refs) as [|cur rest] eqn:Erefs.
  { exfalso. pose proof (Forall2_length Hin) as Hl. cbn [length] in Hl.
    symmetry in Hl. apply length_zero_iff_nil in Hl.
    destruct (nonempty_In _ kept Hne) as (b0 & Hb0).
    rewrite <- (concat_maximalRuns t kept) in Hb0. fold t in Hl.
    rewrite Hl in Hb0. destruct Hb0. }
  destruct (mergePass_apart kept (cur :: rest) rest (mkModel tw nw) cur Hokw)
    as (r & t' & Hmerge & Hok' & HB' & Hfin).
  - intros b Hb. cbn [root].
    rewrite <- (concat_maximalRuns t kept) in Hb. apply in_concat in Hb.
    destruct Hb as (run & Hrun & Hb).
    destruct (Forall2_In_r _ _ _ _ _ _ Hin Hrun) as (u & Hu & cs & Hentry & Hincl).
    exists u, cs. split; [exact Hu|]. split; [exact Hentry|apply Hincl, Hb].
  - intros u nm cs Hu Hentry. cbn [root] in Hentry.
    destruct (Forall2_In_l _ _ _ _ _ _ Hin Hu) as (run & _ & cs' & Hentry' & _).
    now destruct (nodeInfos_unique _ _ _ _ _ _ Ww Hentry Hentry').
  - apply incl_refl.
  - apply (inDocumentOrder_NoDup tw), Hdoc.
  - cbn [root]. apply (inDocumentOrder_chain tw _ Ww Hdoc).
  - intros a b Ha Hna. contradiction.
  - cbn [root]. intros x y nm cs Hx Hy Hentry Hxcs.
    destruct (elementParent_of_info _ _ _ _ _ Ww Hentry Hxcs) as (p & Hp & Hu & _).
    destruct (Nat.eq_dec y x) as [->|Hyx].
    + now apply (parent_not_self tw x p Ww Hp).
    + now apply (container_not_selected tw _ y x p Ww Hdoc Hy Hx Hyx Hp).
  - cbn [root nextUid] in *.
    assert (Hexec : execute schema ed
                    = Some (mkEditor (mkModel t' nw) sel false (isEnabled ed))).
    { unfold execute. rewrite Hv. unfold bind at 1. unfold read at 1.
      fold m. fold t. fold sel.
      rewrite filterOpt_filter by (intros b Hb; apply toBlock_attached, Hatt, Hb).
      fold kept. unfold _applyBlock. unfold bind at 1. unfold read at 1. fold t.
      rewrite Hrs. unfold bind at 1. rewrite Hfold. unfold bind. rewrite Erefs.
      cbn [reduce]. now rewrite Hmerge. }
    exists (mkEditor (mkModel t' nw) sel false (isEnabled ed)). cbn [model root nextUid].
    split; [exact Hexec|]. split; [exact Hok'|].
    assert (Hholder : forall b c, In b kept -> elementParent t' b = Some c ->
                                  In (uid c) (cur :: rest)
                                  /\ name c = "codeBlock"%string).
    { intros b c Hb Hc. destruct (HB' b Hb) as (u & cs & Hu & Hentry & Hbcs).
      destruct (elementParent_of_info _ _ _ _ _ (proj1 Hok') Hentry Hbcs)
        as (p & Hp & Hup & Hn).
      cbn [root] in Hp. rewrite Hc in Hp. injection Hp as <-. now rewrite Hup. }
    split.
    + intros b Hb. destruct (HB' b Hb) as (u & cs & _ & Hentry & Hbcs).
      destruct (elementParent_of_info _ _ _ _ _ (proj1 Hok') Hentry Hbcs)
        as (p & Hp & _ & Hn).
      cbn [root] in Hp.
      unfold isBlocked, findBlock, parentOf. rewrite Hp, Hn. reflexivity.
    + intros b1 b2 c1 c2 Hb1 Hb2 Hc1 Hc2.
      apply Hfin; [apply (Hholder b1 c1 Hb1 Hc1)|apply (Hholder b2 c2 Hb2 Hc2)].
Qed.

Lemma execute_wrap_merges_recorded_witness :
  exists ed',
    execute openSchema (mkEditor (mkModel docBlockThenPar 100) [1; 2] false true)
    = Some ed'
    /\ isBlocked (root (model ed')) 1 = Some true
    /\ isBlocked (root (model ed')) 2 = Some true
    /\ (forall c1 c2,
          elementParent (root (model ed')) 1 = Some c1 ->
          elementParent (root (model ed')) 2 = Some c2 ->
          nextSibling (root (model ed')) (uid c1) <> Some (uid c2)).
Proof.
  destruct (execute_wrap_merges_recorded openSchema
              (mkEditor (mkModel docBlockThenPar 100) [1; 2] false true))
    as (ed' & Hexec & _ & Hblocked & Hapart).
  - split.
    + unfold wellFormed. vm_compute. repeat constructor; simpl; intuition lia.
    + vm_compute. repeat constructor.
  - reflexivity.
  - intros b Hb. simpl in Hb.
    repeat (destruct Hb as [<-|Hb]; [vm_compute; discriminate|]). destruct Hb.
  - reflexivity.
  - discriminate.
  - reflexivity.
  - exists ed'. split; [exact Hexec|].
    split; [apply Hblocked; now left|].
    split; [apply Hblocked; right; now left|].
    intros c1 c2. apply Hapart; [now left|right; now left].
Defined.

(** Two selections outside this statement.  In a code block that holds two
    groups of kept blocks the reference is recorded twice, and the merge
    pass leaves the code block of the paragraph [1], which took in that
    code block, next to the code block made for the paragraph [5]. *)
Lemma execute_wrap_two_groups_in_one_block :
  recordedUnits docThreeInBlock [1; 2; 4; 5] = [1; 10; 10; 5]
  /\ inDocumentOrder docThreeInBlock [1; 10; 10; 5] = false
  /\ execute openSchema (mkEditor (mkModel docThreeInBlock 100) [1; 2; 4; 5] false true)
     = Some (mkEditor
               (mkModel (rootOf [codeBlock 101 (map paragraph [1; 2; 3; 4]);
                                 codeBlock 100 [paragraph 5]]) 102)
               [1; 2; 4; 5] false true).
Proof. repeat split; reflexivity. Qed.

(** A kept block deeper inside a recorded code block is recorded between
    that code block and the next one, which stay apart. *)
Lemma execute_wrap_kept_block_below_recorded :
  recordedUnits docQuoteInBlock [1; 2; 3; 4] = [1; 10; 3; 4]
  /\ inDocumentOrder docQuoteInBlock [1; 10; 3; 4] = false
  /\ execute openSchema (mkEditor (mkModel docQuoteInBlock 100) [1; 2; 3; 4] false true)
     = Some (mkEditor
               (mkModel (rootOf [codeBlock 102
                                   [paragraph 1; paragraph 2;
                                    Element 11 "blockQuote" [codeBlock 101 [paragraph 3]]];
                                 codeBlock 100 [paragraph 4]]) 103)
               [1; 2; 3; 4] false true).
Proof. repeat split; reflexivity. Qed.
